(** * GraphMaker: the evaluation utilities and the asynchronous trainer

    A shallow embedding of [eval_utils.py] and [train_async.py], followed by
    the properties proved of it.

    Conventions.
    - Integer tensors (node ids, labels, index tensors) are lists of [nat];
      a 2-column integer tensor is a list of pairs.
    - Float tensors hold values of [tfloat]: exact rationals extended with
      the IEEE special values, so that what a division by zero produces and
      how a NaN compares are those of the machine; rounding is not modelled.
    - Python exceptions are values of [exn]; a call that can raise returns
      [result].
    - The process-wide random generator of torch is threaded explicitly
      ([Torch.M]); it is any state with [manual_seed] and a [randperm] that
      draws permutations.
    - A graph is a value: a method that marks its argument returns the
      marked graph.
    - What [train_async.py] imports (the model, autograd, the optimizer's
      update rule) is a parameter of the trainer ([TrainAsync.Externals]).

    Modules [Float], [Py], [Torch], [Dgl] and [Nx] hold the library
    operations the two files call; [EvalUtils] and [TrainAsync] are the two
    files; [LinkxSpec] and [MaskSpec] state the homophily measure and the
    split masks in the words of the specification; [GraphSpec] holds the
    graph notions (triangles, undirected edges) further properties are
    stated with. *)

From Stdlib Require Import QArith Qcanon.
From stdpp Require Import base decidable numbers list sorting strings gmap.

Open Scope nat_scope.

(** ** Float values of tensors and of Python *)

Module Float.

(** A float is a rational or one of the IEEE special values.  Signed zeros
    are not distinguished (every zero divisor below is a count, so +0).
    The exact operations come first; the operations of the machine round
    their result to the format ([Rounding], below). *)
Inductive tfloat : Type :=
| Fin (q : Qc)
| PInf
| NInf
| NaN.

#[global] Instance tfloat_eq_dec : EqDecision tfloat.
Proof. solve_decision. Defined.

#[global] Instance tfloat_inhabited : Inhabited tfloat := populate (Fin 0%Qc).

Definition of_Z (z : Z) : tfloat := Fin (Qc_of_Z z).
Definition of_nat (n : nat) : tfloat := of_Z (Z.of_nat n).
Definition zero : tfloat := of_Z 0.
Definition one : tfloat := of_Z 1.

Definition fopp (x : tfloat) : tfloat :=
  match x with
  | Fin a => Fin (- a)%Qc
  | PInf => NInf
  | NInf => PInf
  | NaN => NaN
  end.

Definition fadd (x y : tfloat) : tfloat :=
  match x, y with
  | NaN, _ | _, NaN => NaN
  | PInf, NInf | NInf, PInf => NaN
  | PInf, _ | _, PInf => PInf
  | NInf, _ | _, NInf => NInf
  | Fin a, Fin b => Fin (a + b)%Qc
  end.

Definition fsub (x y : tfloat) : tfloat := fadd x (fopp y).

(** IEEE division: [0/0] is NaN, [a/0] an infinity of the sign of [a]. *)
Definition fdiv (x y : tfloat) : tfloat :=
  match x, y with
  | NaN, _ | _, NaN => NaN
  | Fin a, Fin b =>
      if decide (b = 0%Qc) then
        if decide (a = 0%Qc) then NaN
        else if decide (0 < a)%Qc then PInf else NInf
      else Fin (a / b)%Qc
  | Fin _, (PInf | NInf) => Fin 0%Qc
  | (PInf | NInf), (PInf | NInf) => NaN
  | PInf, Fin b => if decide (b < 0)%Qc then NInf else PInf
  | NInf, Fin b => if decide (b < 0)%Qc then PInf else NInf
  end.

(** [x > y]; every comparison with a NaN is false. *)
Definition fgt (x y : tfloat) : bool :=
  match x, y with
  | NaN, _ | _, NaN => false
  | _, PInf => false
  | PInf, _ => true
  | NInf, _ => false
  | Fin _, NInf => true
  | Fin a, Fin b => bool_decide (b < a)%Qc
  end.

(** [x == y]; a NaN equals nothing. *)
Definition feq (x y : tfloat) : bool :=
  match x, y with
  | NaN, _ | _, NaN => false
  | _, _ => bool_decide (x = y)
  end.

Definition is_nan (x : tfloat) : bool :=
  match x with NaN => true | _ => false end.

(** [t.sum()] of a float tensor. *)
Definition fsum (t : list tfloat) : tfloat := foldl fadd zero t.

Definition fsign (x : tfloat) : Z :=
  match x with
  | Fin a => if decide (0 < a)%Qc then 1 else if decide (a < 0)%Qc then -1 else 0
  | PInf => 1
  | NInf => -1
  | NaN => 0
  end.

Definition fmul (x y : tfloat) : tfloat :=
  match x, y with
  | NaN, _ | _, NaN => NaN
  | Fin a, Fin b => Fin (a * b)%Qc
  | _, _ => match (fsign x * fsign y)%Z with
            | Z0 => NaN
            | Zpos _ => PInf
            | Zneg _ => NInf
            end
  end.

(** [torch.clamp(x, max=m)]. *)
Definition clamp_max (x m : tfloat) : tfloat := if fgt x m then m else x.

(** *** Rounding *)

(** A binary format: [prec] bits of precision, [emin] the exponent of the
    least subnormal number, and [emax]: a magnitude that rounds to [2^emax]
    or more is infinite. *)
Record format : Type := Format { prec : Z; emin : Z; emax : Z }.

Definition binary32 : format := Format 24 (-149) 128.
Definition binary64 : format := Format 53 (-1074) 1024.

Definition format_wf (f : format) : Prop :=
  (2 ≤ prec f ∧ emin f ≤ 0 ∧ prec f < emax f)%Z.

(** The fraction [n/d] divided by [2^e]. *)
Definition scaled (n d e : Z) : Z * Z :=
  (n * 2 ^ Z.max 0 (- e), d * 2 ^ Z.max 0 e)%Z.

(** The integer nearest to [a/b], a tie going to the even one. *)
Definition nearest_even (a b : Z) : Z :=
  let fl := (a / b)%Z in
  let r := (2 * (a mod b))%Z in
  if decide (r < b)%Z then fl
  else if decide (b < r)%Z then (fl + 1)%Z
  else if Z.even fl then fl else (fl + 1)%Z.

(** The [e] with [2^(prec-1) <= (n/d) / 2^e < 2^prec], for [n/d > 0]. *)
Definition binade (f : format) (n d : Z) : Z :=
  let e0 := (Z.log2 n - Z.log2 d - prec f)%Z in
  if decide ((scaled n d e0).1 < 2 ^ prec f * (scaled n d e0).2)%Z
  then e0 else (e0 + 1)%Z.

(** The exponent of the unit in the last place of [n/d]: subnormal numbers
    all have that of [emin]. *)
Definition ulp_exponent (f : format) (n d : Z) : Z := Z.max (emin f) (binade f n d).

Definition round_pos (f : format) (n d : Z) : tfloat :=
  let e := ulp_exponent f n d in
  let m := nearest_even (scaled n d e).1 (scaled n d e).2 in
  if decide (2 ^ (emax f - e) ≤ m)%Z then PInf
  else Fin (Q2Qc (Qmake (m * 2 ^ Z.max 0 e) (Z.to_pos (2 ^ Z.max 0 (- e))))).

(** The number of the format nearest to [q], ties to even; an infinity on
    overflow. *)
Definition round (f : format) (q : Qc) : tfloat :=
  match Qnum q with
  | Z0 => Fin 0%Qc
  | Zpos n => round_pos f (Zpos n) (Zpos (Qden q))
  | Zneg n => fopp (round_pos f (Zpos n) (Zpos (Qden q)))
  end.

Definition rnd (f : format) (x : tfloat) : tfloat :=
  match x with
  | Fin q => round f q
  | _ => x
  end.

(** The operations of a [float32] tensor, and the division of Python
    floats: the exact result, rounded once. *)
Definition fadd32 (x y : tfloat) : tfloat := rnd binary32 (fadd x y).
Definition fsub32 (x y : tfloat) : tfloat := rnd binary32 (fsub x y).
Definition fdiv32 (x y : tfloat) : tfloat := rnd binary32 (fdiv x y).
Definition fdiv64 (x y : tfloat) : tfloat := rnd binary64 (fdiv x y).

(** An integer converted to [float32], to a Python float. *)
Definition float32 (n : nat) : tfloat := round binary32 (Qc_of_Z (Z.of_nat n)).
Definition float64 (n : nat) : tfloat := round binary64 (Qc_of_Z (Z.of_nat n)).

(** [t.sum()] of a [float32] tensor.  The order of the additions is the
    implementation's; it is read here from left to right, and the properties
    below use the sum of integer entries adding up to at most [2^24] only,
    which every order computes without rounding. *)
Definition fsum32 (t : list tfloat) : tfloat := foldl fadd32 zero t.

End Float.

(** ** Python: exceptions and builtins *)

Module Py.

Inductive exn : Type :=
| ValueError (msg : string)
| KeyError (key : nat)
| IndexError
| RuntimeError
| ZeroDivisionError
| DGLError.

Inductive result (A : Type) : Type :=
| Ok (a : A)
| Raise (e : exn).
Arguments Ok {A} a.
Arguments Raise {A} e.

#[global] Instance exn_eq_dec : EqDecision exn.
Proof. solve_decision. Defined.
#[global] Instance result_eq_dec {A} `{EqDecision A} : EqDecision (result A).
Proof. solve_decision. Defined.

#[global] Instance result_ret : MRet result := λ A a, Ok a.
#[global] Instance result_bind : MBind result := λ A B k r,
  match r with
  | Ok a => k a
  | Raise e => Raise e
  end.

(** The outcome is not a [ValueError]. *)
Definition not_value_error (e : exn) : Prop :=
  match e with ValueError _ => False | _ => True end.
Definition raises_no_value_error {A} (r : result A) : Prop :=
  match r with Ok _ => True | Raise e => not_value_error e end.

(** A [for] loop whose body can raise. *)
Fixpoint for_ {A S} (l : list A) (body : S → A → result S) (s : S) : result S :=
  match l with
  | [] => Ok s
  | a :: l => s' ← body s a; for_ l body s'
  end.

(** [l[start:stop]] on a sequence: out-of-range bounds are clamped. *)
Definition slice {A} (l : list A) (start stop : nat) : list A :=
  take (stop - start) (drop start l).

(** [d[k]] on a dict with integer keys. *)
Definition dict_get (d : gmap nat nat) (k : nat) : result nat :=
  match d !! k with
  | Some v => Ok v
  | None => Raise (KeyError k)
  end.

(** The builtin [max(0, x)]: it keeps its first argument unless the second
    compares greater ([x > 0]), so a NaN [x] yields [0]. *)
Definition max0 (x : Float.tfloat) : Float.tfloat :=
  if Float.fgt x Float.zero then x else Float.zero.

(** [x / n] of a Python float by a Python int: the int is converted to a
    float, and the quotient is a double. *)
Definition truediv (x : Float.tfloat) (n : nat) : result Float.tfloat :=
  if decide (n = 0) then Raise ZeroDivisionError
  else Ok (Float.fdiv64 x (Float.float64 n)).

End Py.

(** ** torch: the tensor operations the two files call *)

Module Torch.
Import Float.

(** [torch.triu_indices(row, col, offset)]: the coordinates [(i, j)] of a
    [row] x [col] matrix with [j - i >= offset], ordered by row and then by
    column; the first component holds the row coordinates and the second
    the column coordinates. *)
Definition triu_coords (row col : nat) (offset : Z) : list (nat * nat) :=
  filter (λ p : nat * nat, (offset ≤ Z.of_nat p.2 - Z.of_nat p.1)%Z)
         (i ← seq 0 row; (λ j, (i, j)) <$> seq 0 col).

Definition triu_indices (row col : nat) (offset : Z) : list nat * list nat :=
  let c := triu_coords row col offset in (c.*1, c.*2).

(** [torch.stack([a, b], dim=1)] of two 1-d tensors. *)
Definition stack2 (a b : list nat) : Py.result (list (nat * nat)) :=
  if decide (length a = length b) then Py.Ok (zip a b) else Py.Raise Py.RuntimeError.

(** A 2-d float tensor: its rows, and its last dimension (known even when
    there is no row).  Every row has [t2_cols] entries. *)
Record tensor2 : Type := Tensor2 { t2_rows : list (list tfloat); t2_cols : nat }.

Definition tensor2_wf (t : tensor2) : Prop :=
  Forall (λ row, length row = t2_cols t) (t2_rows t).

(** A 3-d float tensor of shape [(length t3_data, t3_size1, t3_size2)]. *)
Record tensor3 : Type :=
  Tensor3 { t3_data : list (list (list tfloat)); t3_size1 : nat; t3_size2 : nat }.

Definition tensor3_wf (t : tensor3) : Prop :=
  Forall (λ m, length m = t3_size1 t ∧ Forall (λ row, length row = t3_size2 t) m)
         (t3_data t).

Definition zeros (n : nat) : list tfloat := replicate n zero.
Definition zeros2 (n m : nat) : list (list tfloat) := replicate n (zeros m).

(** [t[:, j]]. *)
Definition column (t : tensor2) (j : nat) : list tfloat :=
  (λ row, row !!! j) <$> t2_rows t.

(** [t == c] elementwise. *)
Definition eq_scalar (t : list tfloat) (c : tfloat) : list bool :=
  (λ x, feq x c) <$> t.

(** [t.nonzero().squeeze(-1)] of a 1-d boolean tensor. *)
Definition nonzero (t : list bool) : list nat :=
  filter (λ i, t !! i = Some true) (seq 0 (length t)).

(** [t.bool()]. *)
Definition to_bool (t : list tfloat) : list bool := (λ x, negb (feq x zero)) <$> t.

(** [t[idx]] for an index tensor [idx]. *)
Definition index_select {A} (t : list A) (idx : list nat) : Py.result (list A) :=
  match mapM (λ i, t !! i) idx with
  | Some r => Py.Ok r
  | None => Py.Raise Py.IndexError
  end.

(** [t[idx] = v] for an index tensor [idx]. *)
Definition index_fill {A} (t : list A) (idx : list nat) (v : A) : Py.result (list A) :=
  if decide (Forall (λ i, i < length t) idx)
  then Py.Ok (foldl (λ t i, <[i:=v]> t) t idx)
  else Py.Raise Py.IndexError.

(** [t[mask]] for a boolean mask of the shape of [t]. *)
Definition masked_select {A} (t : list A) (mask : list bool) : Py.result (list A) :=
  if decide (length t = length mask)
  then Py.Ok ((filter (λ p : A * bool, p.2 = true) (zip t mask)).*1)
  else Py.Raise Py.IndexError.

(** [mask.sum()] of a boolean tensor. *)
Definition count_true (mask : list bool) : nat := length (filter (λ b, b = true) mask).

(** Index of the first maximal entry; a NaN counts as maximal. *)
Definition argmax_row (row : list tfloat) : Py.result nat :=
  match row with
  | [] => Py.Raise Py.IndexError
  | x :: rest =>
      Py.Ok (fst (foldl (λ (acc : nat * tfloat * nat) a,
                     let '(best, vbest, i) := acc in
                     if negb (is_nan vbest) && (is_nan a || fgt a vbest)
                     then (i, a, S i) else (best, vbest, S i))
                   (0, x, 1) rest)).1
  end.

(** [m.argmax(dim=-1)] of a matrix given by its rows. *)
Definition argmax_rows (m : list (list tfloat)) : Py.result (list nat) :=
  Py.for_ m (λ acc row, i ← argmax_row row; Py.Ok (acc ++ [i])) [].

(** [t.max(dim=0).values.item()] of a 1-d integer tensor. *)
Definition max_item (t : list nat) : Py.result nat :=
  match t with
  | [] => Py.Raise Py.IndexError
  | x :: rest => Py.Ok (foldl Nat.max x rest)
  end.

(** [torch.triu(A, diagonal)]. *)
Definition triu (A : list (list tfloat)) (diagonal : Z) : list (list tfloat) :=
  imap (λ i row,
          imap (λ j a, if decide (diagonal ≤ Z.of_nat j - Z.of_nat i)%Z
                       then a else zero) row) A.

(** [A.nonzero()] of a matrix: the coordinates of its non-zero entries,
    row by row. *)
Definition nonzero2 (A : list (list tfloat)) : list (nat * nat) :=
  mjoin (imap (λ i row, (λ j, (i, j)) <$> nonzero (to_bool row)) A).

(** [X[:, f] = col]. *)
Definition set_column (X : list (list tfloat)) (f : nat) (col : list tfloat)
  : Py.result (list (list tfloat)) :=
  if decide (length col = length X)
  then Py.Ok (zip_with (λ row a, <[f:=a]> row) X col)
  else Py.Raise Py.RuntimeError.

(** [torch.transpose(t, 0, 1)] of a 3-d tensor of shape [(F, V, C)]: slice
    [v] of the result holds, for every [f], row [v] of [t[f]]. *)
Definition transpose01 (t : tensor3) : list (list (list tfloat)) :=
  (λ v, (λ m : list (list tfloat), m !!! v) <$> t3_data t) <$> seq 0 (t3_size1 t).

(** [t.reshape(t.size(0), -1)] of a 3-d tensor given by its slices: every
    slice is flattened row by row.  With no slice the size that [-1] stands
    for is ambiguous, which torch refuses. *)
Definition reshape_rows (t : list (list (list tfloat))) : Py.result (list (list tfloat)) :=
  if decide (t = []) then Py.Raise Py.RuntimeError
  else Py.Ok ((λ m : list (list tfloat), mjoin m) <$> t).

(** The process-wide random generator.  [manual_seed] replaces its state;
    [randperm n] draws a permutation of [0 .. n-1] and advances it. *)
Class Generator (G : Type) : Type := {
  manual_seed : Z → G;
  randperm : nat → G → list nat * G;
  randperm_perm : ∀ n g, (randperm n g).1 ≡ₚ seq 0 n
}.

(** Computations that read and advance the generator and can raise. *)
Definition M (G A : Type) : Type := G → Py.result A * G.

#[global] Instance M_ret {G} : MRet (M G) := λ A a g, (Py.Ok a, g).
#[global] Instance M_bind {G} : MBind (M G) := λ A B k m g,
  match m g with
  | (Py.Ok a, g') => k a g'
  | (Py.Raise e, g') => (Py.Raise e, g')
  end.

Definition lift {G A} (r : Py.result A) : M G A := λ g, (r, g).
Definition raise {G A} (e : Py.exn) : M G A := λ g, (Py.Raise e, g).

Definition torch_manual_seed `{Generator G} (seed : Z) : M G unit :=
  λ _, (Py.Ok (), manual_seed seed).
Definition torch_randperm `{Generator G} (n : nat) : M G (list nat) :=
  λ g, let '(p, g') := randperm n g in (Py.Ok p, g').

(** A [for] loop in [M]. *)
Fixpoint for_ {G A S} (l : list A) (body : S → A → M G S) (s : S) : M G S :=
  match l with
  | [] => mret s
  | a :: l => s' ← body s a; for_ l body s'
  end.

End Torch.

(** ** dgl: graphs *)

Module Dgl.
Import Float.

(** A graph on the nodes [0 .. num_nodes-1]: its edges in edge-id order
    (parallel edges allowed) and the boolean node data attached to it. *)
Record DGLGraph : Type := Graph {
  num_nodes : nat;
  edge_list : list (nat * nat);
  ndata : gmap string (list bool)
}.

(** Every graph dgl builds has its endpoints among its nodes. *)
Definition graph_wf (g : DGLGraph) : Prop :=
  Forall (λ e : nat * nat, e.1 < num_nodes g ∧ e.2 < num_nodes g) (edge_list g).

Definition num_edges (g : DGLGraph) : nat := length (edge_list g).

(** [g.edges()]: the source and the destination tensors. *)
Definition edges (g : DGLGraph) : list nat * list nat :=
  ((edge_list g).*1, (edge_list g).*2).

(** [g.in_degrees()]. *)
Definition in_degrees (g : DGLGraph) : list nat :=
  (λ v, length (filter (λ e : nat * nat, e.2 = v) (edge_list g)))
    <$> seq 0 (num_nodes g).

(** [g.update_all(fn.copy_e(f, "m"), fn.sum("m", out))]: every node sums
    the edge feature, a [float32] tensor, over its in-edges. *)
Definition update_all_copy_e_sum (g : DGLGraph) (edata : list tfloat) : list tfloat :=
  (λ v, fsum32 ((filter (λ p : (nat * nat) * tfloat, p.1.2 = v)
                      (zip (edge_list g) edata)).*2))
    <$> seq 0 (num_nodes g).

(** [g.adj().to_dense()]: entry [(u, v)] is 1 when there is an edge from
    [u] to [v], parallel edges not being added up, and 0 otherwise (rows are
    sources, as dgl has it since 0.5). *)
Definition adj_dense (g : DGLGraph) : list (list tfloat) :=
  (λ u, (λ v, if decide ((u, v) ∈ edge_list g) then one else zero)
          <$> seq 0 (num_nodes g))
    <$> seq 0 (num_nodes g).

(** [dgl.graph((src, dst), num_nodes=n)]. *)
Definition graph (src dst : list nat) (n : nat) : Py.result DGLGraph :=
  if decide (length src = length dst
             ∧ Forall (λ u, u < n) src ∧ Forall (λ v, v < n) dst)
  then Py.Ok (Graph n (zip src dst) ∅)
  else Py.Raise Py.DGLError.

(** The order in which dgl lists the edges of a simple graph: by source,
    then by destination. *)
Definition edge_le (e1 e2 : nat * nat) : Prop :=
  e1.1 < e2.1 ∨ (e1.1 = e2.1 ∧ e1.2 ≤ e2.2).

#[global] Instance edge_le_dec (e1 e2 : nat * nat) : Decision (edge_le e1 e2).
Proof. unfold edge_le. apply _. Defined.

(** [dgl.to_bidirected(g)]: the reverse of every edge is added, parallel
    edges are removed and the edges come sorted; node data is not copied. *)
Definition to_bidirected (g : DGLGraph) : DGLGraph :=
  Graph (num_nodes g)
        (merge_sort edge_le
           (remove_dups (edge_list g ++ (prod_swap <$> edge_list g))))
        ∅.

End Dgl.

(** ** networkx: the triangle counts *)

Module Nx.

(** A simple directed graph on the nodes [0 .. nx_nodes-1]. *)
Record DiGraph : Type := { nx_nodes : nat; nx_edges : list (nat * nat) }.

(** [nx.DiGraph(g.to_networkx())]: parallel edges collapse. *)
Definition of_dgl (g : Dgl.DGLGraph) : DiGraph :=
  {| nx_nodes := Dgl.num_nodes g; nx_edges := remove_dups (Dgl.edge_list g) |}.

(** Adjacency in [nx.to_undirected(g)]; self loops do not count for
    triangles. *)
Definition adjacent (g : DiGraph) (u v : nat) : bool :=
  bool_decide (u ≠ v ∧ ((u, v) ∈ nx_edges g ∨ (v, u) ∈ nx_edges g)).

(** [nx.triangles(nx.to_undirected(g))]: for every node, the number of
    triangles through it. *)
Definition triangles (g : DiGraph) : list nat :=
  (λ v, length (filter (λ p : nat * nat,
                          adjacent g v p.1 && adjacent g v p.2 && adjacent g p.1 p.2 = true)
                       (Torch.triu_coords (nx_nodes g) (nx_nodes g) 1)))
    <$> seq 0 (nx_nodes g).

End Nx.

(** ** eval_utils.py *)

Module EvalUtils.
Import Float Torch.

Definition get_triangle_count (nx_g : Nx.DiGraph) : tfloat :=
  fdiv (of_nat (sum_list (Nx.triangles nx_g))) (of_nat 3).

(** One turn of the loop over the classes in [linkx_homophily].  The two
    degree tensors and [value] are [float32]; the integer tensor
    [num_nodes_k] divided by the int [num_nodes] is a [float32] too. *)
Definition linkx_class_term (same_class_deg deg : list tfloat) (num_nodes : nat)
    (y : list nat) (value : tfloat) (k : nat) : Py.result tfloat :=
  let class_mask := (λ l, bool_decide (l = k)) <$> y in
  sel ← masked_select same_class_deg class_mask;
  let same_class_deg_k := fsum32 sel in
  seld ← masked_select deg class_mask;
  let deg_k := fsum32 seld in
  let num_nodes_k := count_true class_mask in
  Py.Ok (fadd32 value
           (Py.max0 (fsub32 (fdiv32 same_class_deg_k deg_k)
                            (fdiv32 (float32 num_nodes_k) (float32 num_nodes))))).

Definition linkx_homophily (graph : Dgl.DGLGraph) (y : list nat) : Py.result tfloat :=
  let '(src, dst) := Dgl.edges graph in
  ysrc ← index_select y src;
  ydst ← index_select y dst;
  let same_class :=
    (λ p : nat * nat, if bool_decide (p.1 = p.2) then one else zero) <$> zip ysrc ydst in
  let same_class_deg := Dgl.update_all_copy_e_sum graph same_class in
  let deg := float32 <$> Dgl.in_degrees graph in
  let num_nodes := Dgl.num_nodes graph in
  ymax ← max_item y;
  let num_classes := ymax + 1 in
  value ← Py.for_ (seq 0 num_classes)
            (linkx_class_term same_class_deg deg num_nodes y) zero;
  Py.truediv value (num_classes - 1).

Record Evaluator : Type := { data_name : string; edge_limit : nat }.

(** What [preprocess_g] has computed when it reaches its last line. *)
Record preprocessed : Type := {
  pp_dgl_g : Dgl.DGLGraph;
  pp_X : list (list tfloat);
  pp_dgl_subg : Dgl.DGLGraph;
  pp_triangle_count : tfloat;
  pp_Y : list nat;
  pp_linkx_A : tfloat
}.

Definition cora_num_val_nodes : gmap nat nat :=
  list_to_map [(0, 61); (1, 36); (2, 78); (3, 158); (4, 81); (5, 57); (6, 29)].
Definition cora_num_test_nodes : gmap nat nat :=
  list_to_map [(0, 130); (1, 91); (2, 144); (3, 319); (4, 149); (5, 103); (6, 64)].
Definition citeseer_num_val_nodes : gmap nat nat :=
  list_to_map [(0, 29); (1, 86); (2, 116); (3, 106); (4, 94); (5, 69)].
Definition citeseer_num_test_nodes : gmap nat nat :=
  list_to_map [(0, 77); (1, 182); (2, 181); (3, 231); (4, 169); (5, 160)].

Definition masks : Type := (list tfloat * list tfloat * list tfloat)%type.

(** [dgl_g.ndata[...] = mask.bool()] for the three masks. *)
Definition attach_masks (dgl_g : Dgl.DGLGraph) (m : masks) : Dgl.DGLGraph :=
  let '(train_mask, val_mask, test_mask) := m in
  Dgl.Graph (Dgl.num_nodes dgl_g) (Dgl.edge_list dgl_g)
    (<["test_mask" := to_bool test_mask]>
       (<["val_mask" := to_bool val_mask]>
          (<["train_mask" := to_bool train_mask]> (Dgl.ndata dgl_g)))).

Section with_generator.
Context `{Generator G}.

(** The nodes of class [y], shuffled: lines 128-130 (and 175-177,
    203-205). *)
Definition shuffled_class (Y_one_hot : tensor2) (y : nat) : M G (list nat) :=
  let nodes_y := nonzero (eq_scalar (column Y_one_hot y) one) in
  nid_y ← torch_randperm (length nodes_y);
  lift (index_select nodes_y nid_y).

(** The loop body of [add_mask_cora] and of [add_mask_citeseer], which
    differ in their two tables only. *)
Definition quota_body (num_val_nodes num_test_nodes : gmap nat nat)
    (Y_one_hot : tensor2) (m : masks) (y : nat) : M G masks :=
  let '(train_mask, val_mask, test_mask) := m in
  nodes_y ← shuffled_class Y_one_hot y;
  train_mask ← lift (index_fill train_mask (Py.slice nodes_y 0 20) one);
  let start := 20 in
  nv ← lift (Py.dict_get num_val_nodes y);
  let end_ := start + nv in
  val_mask ← lift (index_fill val_mask (Py.slice nodes_y start end_) one);
  let start := end_ in
  nt ← lift (Py.dict_get num_test_nodes y);
  let end_ := start + nt in
  test_mask ← lift (index_fill test_mask (Py.slice nodes_y start end_) one);
  mret (train_mask, val_mask, test_mask).

Definition add_mask_quota (num_val_nodes num_test_nodes : gmap nat nat)
    (dgl_g : Dgl.DGLGraph) (Y_one_hot : tensor2) : M G Dgl.DGLGraph :=
  let num_nodes := Dgl.num_nodes dgl_g in
  let num_classes := t2_cols Y_one_hot in
  m ← for_ (seq 0 num_classes)
        (quota_body num_val_nodes num_test_nodes Y_one_hot)
        (zeros num_nodes, zeros num_nodes, zeros num_nodes);
  mret (attach_masks dgl_g m).

Definition add_mask_cora (self : Evaluator) (dgl_g : Dgl.DGLGraph)
    (Y_one_hot : tensor2) : M G Dgl.DGLGraph :=
  add_mask_quota cora_num_val_nodes cora_num_test_nodes dgl_g Y_one_hot.

Definition add_mask_citeseer (self : Evaluator) (dgl_g : Dgl.DGLGraph)
    (Y_one_hot : tensor2) : M G Dgl.DGLGraph :=
  add_mask_quota citeseer_num_val_nodes citeseer_num_test_nodes dgl_g Y_one_hot.

Definition benchmark_body (Y_one_hot : tensor2) (m : masks) (y : nat) : M G masks :=
  let '(train_mask, val_mask, test_mask) := m in
  nodes_y ← shuffled_class Y_one_hot y;
  train_mask ← lift (index_fill train_mask (Py.slice nodes_y 0 20) one);
  val_mask ← lift (index_fill val_mask (Py.slice nodes_y 20 50) one);
  test_mask ← lift (index_fill test_mask (drop 50 nodes_y) one);
  mret (train_mask, val_mask, test_mask).

Definition add_mask_benchmark (self : Evaluator) (dgl_g : Dgl.DGLGraph)
    (Y_one_hot : tensor2) : M G Dgl.DGLGraph :=
  let num_nodes := Dgl.num_nodes dgl_g in
  let num_classes := t2_cols Y_one_hot in
  m ← for_ (seq 0 num_classes) (benchmark_body Y_one_hot)
        (zeros num_nodes, zeros num_nodes, zeros num_nodes);
  mret (attach_masks dgl_g m).

Definition add_mask (self : Evaluator) (dgl_g : Dgl.DGLGraph)
    (Y_one_hot : tensor2) : M G Dgl.DGLGraph :=
  if decide (data_name self = "cora") then add_mask_cora self dgl_g Y_one_hot
  else if decide (data_name self = "citeseer") then add_mask_citeseer self dgl_g Y_one_hot
  else if decide (data_name self ∈ ["amazon_photo"; "amazon_computer"])
  then add_mask_benchmark self dgl_g Y_one_hot
  else raise (Py.ValueError ("Unexpected data name: " +:+ data_name self)).

Definition sample_subg (self : Evaluator) (dgl_g : Dgl.DGLGraph) : M G Dgl.DGLGraph :=
  let A := Dgl.adj_dense dgl_g in
  let A_upper := triu A 1 in
  let edges := nonzero2 A_upper in
  perm ← torch_randperm (length edges);
  let indices := Py.slice perm 0 (edge_limit self / 2) in
  sel ← lift (index_select edges indices);
  let '(src, dst) := (sel.*1, sel.*2) in
  sub_g ← lift (Dgl.graph src dst (Dgl.num_nodes dgl_g));
  mret (Dgl.to_bidirected sub_g).

(** Lines 263-267 of [preprocess_g]. *)
Definition collapse_X (X_one_hot_3d : tensor3) : Py.result (list (list tfloat)) :=
  let F := length (t3_data X_one_hot_3d) in
  Py.for_ (zip (seq 0 F) (t3_data X_one_hot_3d))
    (λ X fm, col ← argmax_rows fm.2; set_column X fm.1 (of_nat <$> col))
    (zeros2 (t3_size1 X_one_hot_3d) F).

(** Lines 269-272 of [preprocess_g]. *)
Definition choose_subg (self : Evaluator) (dgl_g : Dgl.DGLGraph) : M G Dgl.DGLGraph :=
  if decide (edge_limit self < Dgl.num_edges dgl_g)
  then sample_subg self dgl_g
  else mret dgl_g.

Definition preprocess_g (self : Evaluator) (dgl_g : Dgl.DGLGraph)
    (X_one_hot_3d : tensor3) (Y_one_hot : tensor2) (add_mask_flag : bool)
  : M G preprocessed :=
  dgl_g ← (if add_mask_flag then add_mask self dgl_g Y_one_hot else mret dgl_g);
  X ← lift (collapse_X X_one_hot_3d);
  dgl_subg ← choose_subg self dgl_g;
  let nx_g := Nx.of_dgl dgl_subg in
  let triangle_count := get_triangle_count nx_g in
  Y ← lift (argmax_rows (t2_rows Y_one_hot));
  linkx_A ← lift (linkx_homophily dgl_g Y);
  mret {| pp_dgl_g := dgl_g; pp_X := X; pp_dgl_subg := dgl_subg;
          pp_triangle_count := triangle_count; pp_Y := Y;
          pp_linkx_A := linkx_A |}.

(** [Evaluator.__init__]. *)
Definition init (data_name : string) (dgl_g_real : Dgl.DGLGraph)
    (X_one_hot_3d_real : tensor3) (Y_one_hot_real : tensor2)
  : M G (Evaluator * preprocessed) :=
  let self := {| data_name := data_name;
                 edge_limit := Nat.min (Dgl.num_edges dgl_g_real) 20000 |} in
  add_mask_flag ←
    (if decide (data_name ∈ ["amazon_photo"; "amazon_computer"])
     then (_ ← torch_manual_seed 0; mret true)
     else mret false);
  pp ← preprocess_g self dgl_g_real X_one_hot_3d_real Y_one_hot_real add_mask_flag;
  mret (self, pp).

End with_generator.

End EvalUtils.

(** ** The homophily measure as the specification words it *)

Module LinkxSpec.

Definition Qc_of_nat (n : nat) : Qc := Qc_of_Z (Z.of_nat n).
Definition Qc_sum (l : list Qc) : Qc := foldr Qcplus 0%Qc l.
Definition Qc_max0 (q : Qc) : Qc := if decide (0 < q)%Qc then q else 0%Qc.

(** The total in-degree of [v], and the number of its in-edges whose two
    endpoints carry the same label. *)
Definition in_degree (g : Dgl.DGLGraph) (v : nat) : nat :=
  length (filter (λ e : nat * nat, e.2 = v) (Dgl.edge_list g)).
Definition same_class_in_degree (g : Dgl.DGLGraph) (y : list nat) (v : nat) : nat :=
  length (filter (λ e : nat * nat, e.2 = v ∧ y !! e.1 = y !! e.2) (Dgl.edge_list g)).

(** The nodes of class [k]. *)
Definition class_nodes (g : Dgl.DGLGraph) (y : list nat) (k : nat) : list nat :=
  filter (λ v, y !! v = Some k) (seq 0 (Dgl.num_nodes g)).

Definition class_same_degree (g : Dgl.DGLGraph) (y : list nat) (k : nat) : nat :=
  sum_list_with (same_class_in_degree g y) (class_nodes g y k).
Definition class_degree (g : Dgl.DGLGraph) (y : list nat) (k : nat) : nat :=
  sum_list_with (in_degree g) (class_nodes g y k).

(** [r_k] and [s_k]. *)
Definition r (g : Dgl.DGLGraph) (y : list nat) (k : nat) : Qc :=
  (Qc_of_nat (class_same_degree g y k) / Qc_of_nat (class_degree g y k))%Qc.
Definition s (g : Dgl.DGLGraph) (y : list nat) (k : nat) : Qc :=
  (Qc_of_nat (length (class_nodes g y k)) / Qc_of_nat (Dgl.num_nodes g))%Qc.

(** The reported value for [C] classes, in exact arithmetic. *)
Definition homophily (g : Dgl.DGLGraph) (y : list nat) (C : nat) : Qc :=
  (1 / Qc_of_nat (C - 1)
   * Qc_sum ((λ k, Qc_max0 (r g y k - s g y k)) <$> seq 0 C))%Qc.



(** What one turn of the loop over the classes adds to [value], whatever
    the class: the quotient of a class without in-edges is [0/0]. *)
Definition class_term32 (g : Dgl.DGLGraph) (y : list nat) (k : nat) : Float.tfloat :=
  Py.max0 (Float.fsub32
             (Float.fdiv32 (Float.of_nat (class_same_degree g y k))
                           (Float.of_nat (class_degree g y k)))
             (Float.fdiv32 (Float.of_nat (length (class_nodes g y k)))
                           (Float.of_nat (Dgl.num_nodes g)))).

End LinkxSpec.

(** ** The split masks as the specification words them *)

Module MaskSpec.
Import Float Torch.

(** Every node has exactly one class: every row has one entry per class,
    and exactly one of them equals 1. *)
Definition one_hot (Y_one_hot : tensor2) : Prop :=
  Forall (λ row : list tfloat,
            length row = t2_cols Y_one_hot
            ∧ ∃ y, y < t2_cols Y_one_hot
                   ∧ ∀ j, j < t2_cols Y_one_hot → (feq (row !!! j) one = true ↔ j = y))
         (t2_rows Y_one_hot).

(** The nodes of class [y], in increasing order. *)
Definition class_members (Y_one_hot : tensor2) (y : nat) : list nat :=
  nonzero (eq_scalar (column Y_one_hot y) one).

(** How many nodes of class [y] a mask selects. *)
Definition class_count (Y_one_hot : tensor2) (mask : list bool) (y : nat) : nat :=
  length (filter (λ v, mask !! v = Some true) (class_members Y_one_hot y)).

(** The three masks attached to a graph, each with one entry per node. *)
Definition has_masks (g : Dgl.DGLGraph) (train val test : list bool) : Prop :=
  Dgl.ndata g !! "train_mask" = Some train
  ∧ Dgl.ndata g !! "val_mask" = Some val
  ∧ Dgl.ndata g !! "test_mask" = Some test
  ∧ length train = Dgl.num_nodes g
  ∧ length val = Dgl.num_nodes g
  ∧ length test = Dgl.num_nodes g.

(** A float mask after [mask[idx] = 1.]. *)
Definition fill_list (t : list tfloat) (idx : list nat) : list tfloat :=
  foldl (λ t i, <[i:=one]> t) t idx.

(** The three index tensors one class contributes, from its shuffled
    nodes [p]: for the tables of cora and citeseer, and for the benchmarks. *)
Definition split_quota (nv nt : nat) (p : list nat)
  : list nat * list nat * list nat :=
  (Py.slice p 0 20, Py.slice p 20 (20 + nv), Py.slice p (20 + nv) (20 + nv + nt)).
Definition split_benchmark (p : list nat) : list nat * list nat * list nat :=
  (Py.slice p 0 20, Py.slice p 20 50, drop 50 p).

Definition fill3 (m : list tfloat * list tfloat * list tfloat)
    (s : list nat * list nat * list nat) : list tfloat * list tfloat * list tfloat :=
  (fill_list m.1.1 s.1.1, fill_list m.1.2 s.1.2, fill_list m.2 s.2).

(** Three float masks with one entry per node. *)
Definition masks_len (N : nat) (m : list tfloat * list tfloat * list tfloat) : Prop :=
  length m.1.1 = N ∧ length m.1.2 = N ∧ length m.2 = N.

(** The boolean mask after a loop over the classes [0 .. C-1] has marked,
    for every class [y] with shuffle [p], the index tensor [π (split y p)]. *)
Definition marks {B} (N C : nat) (split : nat → list nat → B)
    (ps : list (list nat)) (π : B → list nat) : list bool :=
  to_bool (fill_list (zeros N) (zip_with split (seq 0 C) ps ≫= π)).

(** The quota of class [y] when it has [n] members: how many of them go to
    train, val and test. *)
Definition quota (name : string) (y n : nat) : option (nat * nat * nat) :=
  if decide (name = "cora") then
    nv ← EvalUtils.cora_num_val_nodes !! y;
    nt ← EvalUtils.cora_num_test_nodes !! y; Some (20, nv, nt)
  else if decide (name = "citeseer") then
    nv ← EvalUtils.citeseer_num_val_nodes !! y;
    nt ← EvalUtils.citeseer_num_test_nodes !! y; Some (20, nv, nt)
  else Some (20, 30, n - 50).

(** For every node at most one of the three masks is true. *)
Definition disjoint_masks (train val test : list bool) : Prop :=
  ∀ v, ¬ (train !! v = Some true ∧ val !! v = Some true)
       ∧ ¬ (train !! v = Some true ∧ test !! v = Some true)
       ∧ ¬ (val !! v = Some true ∧ test !! v = Some true).

End MaskSpec.

(** A small concrete generator: the permutation drawn is a rotation of
    [0 .. n-1] by the state, which then advances by one. *)
Module RotateGen.

Definition rotate_perm (n k : nat) : list nat := rotate k (seq 0 n).

Lemma rotate_perm_perm (n k : nat) : rotate_perm n k ≡ₚ seq 0 n.
Proof.
  unfold rotate_perm, rotate.
  rewrite Permutation_app_comm, take_drop. reflexivity.
Qed.

#[global] Instance generator : Torch.Generator nat := {|
  Torch.manual_seed := Z.to_nat;
  Torch.randperm n g := (rotate_perm n g, S g);
  Torch.randperm_perm n g := rotate_perm_perm n g
|}.

End RotateGen.

(** ** train_async.py *)

Module TrainAsync.
Import Float.

(** Lines 49-52 of [main]. *)
Definition edge_index (N : nat) : Py.result (list (nat * nat)) :=
  let '(dst, src) := Torch.triu_indices N N 1 in
  Torch.stack2 dst src.

(** Lines 36-40 of [main]: the attributes with one row per node. *)
Definition X_one_hot_2d (X_one_hot_3d : Torch.tensor3) : Py.result (list (list tfloat)) :=
  Torch.reshape_rows (Torch.transpose01 X_one_hot_3d).

(** The specification's enumeration: every pair [(i, j)] with [i < j < N],
    row by row. *)
Definition upper_pairs (N : nat) : list (nat * nat) :=
  i ← seq 0 N; (λ j, (i, j)) <$> seq (S i) (N - S i).

(** Row-major order on index pairs. *)
Definition row_major_lt (p q : nat * nat) : Prop :=
  p.1 < q.1 ∨ (p.1 = q.1 ∧ p.2 < q.2).

(** *** Parameters, gradients and losses *)

(** A parameter tensor and its [.grad]. *)
Record param : Type := Param { data : list tfloat; grad : option (list tfloat) }.

#[global] Instance param_eq_dec : EqDecision param.
Proof. solve_decision. Defined.

(** A scalar of the autograd graph: its value, and its gradient with
    respect to every named parameter it depends on. *)
Record loss : Type := Loss { item : tfloat; grad_fn : string → option (list tfloat) }.

Definition add_grad (g h : option (list tfloat)) : option (list tfloat) :=
  match g, h with
  | None, h => h
  | g, None => g
  | Some a, Some b => Some (zip_with fadd a b)
  end.

(** [a + b] of two losses. *)
Definition loss_add (a b : loss) : loss :=
  {| item := fadd (item a) (item b);
     grad_fn := λ name, add_grad (grad_fn a name) (grad_fn b name) |}.

(** The dictionary [{"train/loss_X": loss_X.item(), "train/loss_E":
    loss_E.item()}]. *)
Definition loss_record (loss_X loss_E : loss) : gmap string tfloat :=
  <["train/loss_E" := item loss_E]> (<["train/loss_X" := item loss_X]> ∅).

(** [l.backward()]: the gradient of [l] is accumulated into every parameter. *)
Definition backward (l : loss) (s : gmap string param) : gmap string param :=
  map_imap (λ name p, Some (Param (data p) (add_grad (grad p) (grad_fn l name)))) s.

(** [optimizer.zero_grad()] over the optimizer's parameters. *)
Definition zero_grad (names : list string) (s : gmap string param)
  : gmap string param :=
  foldr (λ name s, alter (λ p, Param (data p) None) name s) s names.

(** What the trainer takes from outside: the two predictors' parameter
    names, the model's [log_p_t] on the run's data, the indexing of
    [E_one_hot], the vector norm and the update rule of AdamW. *)
Class Externals : Type := {
  Hyper : Type;
  AdamState : Type;
  pred_X_parameters : list string;
  pred_E_parameters : list string;
  log_p_t : gmap string param → list nat → list nat → list (list tfloat) → loss * loss;
  E_one_hot_index : list nat → list nat → list (list tfloat);
  vector_norm : list tfloat → tfloat;
  adamw : Hyper → option AdamState → list tfloat → list tfloat → AdamState * list tfloat
}.

Section with_externals.
Context `{Externals}.

(** [nn.utils.clip_grad_norm_(parameters, max_norm)]: the gradients of the
    given parameters, and of no other, are scaled by
    [min(1, max_norm / (total_norm + 1e-6))], where [total_norm] is the norm
    of their norms. *)
Definition clip_coef (names : list string) (max_norm : tfloat)
    (s : gmap string param) : tfloat :=
  let grads := omap (λ name, s !! name ≫= grad) names in
  let total_norm := vector_norm (vector_norm <$> grads) in
  clamp_max (fdiv max_norm (fadd total_norm (Fin (1 / Qc_of_Z 1000000)%Qc))) one.

Definition clip_grad_norm_ (names : list string) (max_norm : tfloat)
    (s : gmap string param) : gmap string param :=
  let clip_coef_clamped := clip_coef names max_norm s in
  foldr (λ name s,
           alter (λ p, Param (data p)
                          ((λ g : list tfloat, fmul clip_coef_clamped <$> g) <$> grad p))
                 name s)
        s names.

Record optimizer : Type := Optimizer {
  opt_params : list string;
  opt_hyper : Hyper;
  opt_state : gmap string AdamState
}.

(** [optimizer.step()]: every parameter of the optimizer that has a
    gradient is updated from it. *)
Definition step_param (hyper : Hyper) (acc : gmap string AdamState * gmap string param)
    (name : string) : gmap string AdamState * gmap string param :=
  match acc.2 !! name with
  | Some (Param d (Some g)) =>
      let '(st', d') := adamw hyper (acc.1 !! name) d g in
      (<[name := st']> acc.1, <[name := Param d' (Some g)]> acc.2)
  | _ => acc
  end.

Definition step (o : optimizer) (s : gmap string param)
  : optimizer * gmap string param :=
  let r := foldl (step_param (opt_hyper o)) (opt_state o, s) (opt_params o) in
  (Optimizer (opt_params o) (opt_hyper o) r.1, r.2).

(** *** The state of [main] when it enters the loop *)

Record best_record : Type := {
  best_epoch : nat;
  best_state_dict : gmap string (list tfloat);
  best_val_nll : tfloat;
  best_log_p_0 : tfloat;
  best_denoise_match : tfloat
}.

Record train_config : Type := {
  batch_size : nat;
  val_batch_size : nat;
  num_epochs : nat;
  max_grad_norm : tfloat
}.

Record train_state : Type := {
  params : gmap string param;
  training : bool;
  optimizer_X : optimizer;
  optimizer_E : optimizer;
  best_X : best_record;
  best_E : best_record;
  num_patient_epochs : nat;
  wandb_log : list (gmap string tfloat)
}.

(** [deepcopy(module.state_dict())]. *)
Definition state_dict (names : list string) (s : gmap string param)
  : gmap string (list tfloat) :=
  list_to_map (omap (λ name, (λ p, (name, data p)) <$> s !! name) names).

(** Lines 72-96. *)
Definition initial_state (s : gmap string param) (hyper_X hyper_E : Hyper)
  : train_state :=
  {| params := s;
     training := true;
     optimizer_X := Optimizer pred_X_parameters hyper_X ∅;
     optimizer_E := Optimizer pred_E_parameters hyper_E ∅;
     best_X := {| best_epoch := 0;
                  best_state_dict := state_dict pred_X_parameters s;
                  best_val_nll := PInf; best_log_p_0 := PInf;
                  best_denoise_match := PInf |};
     best_E := {| best_epoch := 0;
                  best_state_dict := state_dict pred_E_parameters s;
                  best_val_nll := PInf; best_log_p_0 := PInf;
                  best_denoise_match := PInf |};
     num_patient_epochs := 0;
     wandb_log := [] |}.

Definition set_params (st : train_state) (s : gmap string param) : train_state :=
  {| params := s; training := training st;
     optimizer_X := optimizer_X st; optimizer_E := optimizer_E st;
     best_X := best_X st; best_E := best_E st;
     num_patient_epochs := num_patient_epochs st; wandb_log := wandb_log st |}.

(** *** One mini-batch: lines 113-127, statement by statement *)

Inductive stmt : Type :=
| ZeroGrad_X
| ZeroGrad_E
| Backward
| Clip_X
| Clip_E
| Step_X
| Step_E
| WandbLog.

#[global] Instance stmt_eq_dec : EqDecision stmt.
Proof. solve_decision. Defined.

Definition batch_stmts : list stmt :=
  [ZeroGrad_X; ZeroGrad_E; Backward; Clip_X; Clip_E; Step_X; Step_E; WandbLog].

Definition exec (cfg : train_config) (loss_X loss_E : loss) (st : train_state)
    (c : stmt) : train_state :=
  match c with
  | ZeroGrad_X => set_params st (zero_grad (opt_params (optimizer_X st)) (params st))
  | ZeroGrad_E => set_params st (zero_grad (opt_params (optimizer_E st)) (params st))
  | Backward => set_params st (backward (loss_add loss_X loss_E) (params st))
  | Clip_X =>
      set_params st (clip_grad_norm_ pred_X_parameters (max_grad_norm cfg) (params st))
  | Clip_E =>
      set_params st (clip_grad_norm_ pred_E_parameters (max_grad_norm cfg) (params st))
  | Step_X =>
      let '(o, s) := step (optimizer_X st) (params st) in
      {| params := s; training := training st;
         optimizer_X := o; optimizer_E := optimizer_E st;
         best_X := best_X st; best_E := best_E st;
         num_patient_epochs := num_patient_epochs st; wandb_log := wandb_log st |}
  | Step_E =>
      let '(o, s) := step (optimizer_E st) (params st) in
      {| params := s; training := training st;
         optimizer_X := optimizer_X st; optimizer_E := o;
         best_X := best_X st; best_E := best_E st;
         num_patient_epochs := num_patient_epochs st; wandb_log := wandb_log st |}
  | WandbLog =>
      {| params := params st; training := training st;
         optimizer_X := optimizer_X st; optimizer_E := optimizer_E st;
         best_X := best_X st; best_E := best_E st;
         num_patient_epochs := num_patient_epochs st;
         wandb_log := wandb_log st ++ [loss_record loss_X loss_E] |}
  end.

(** The losses of a mini-batch: lines 103-110. *)
Definition batch_losses (st : train_state) (batch_edge_index : list (nat * nat))
  : loss * loss :=
  let '(batch_dst, batch_src) := (batch_edge_index.*1, batch_edge_index.*2) in
  log_p_t (params st) batch_src batch_dst (E_one_hot_index batch_dst batch_src).

(** The body of the inner loop, run over a list of statements. *)
Definition run_batch (stmts : list stmt) (cfg : train_config) (st : train_state)
    (batch_edge_index : list (nat * nat)) : train_state :=
  let '(loss_X, loss_E) := batch_losses st batch_edge_index in
  foldl (exec cfg loss_X loss_E) st stmts.

Definition train_batch : train_config → train_state → list (nat * nat) → train_state :=
  run_batch batch_stmts.

(** The same statements with the clipping of stream E left out, to compare
    with. *)
Definition stmts_without_E_clip : list stmt :=
  filter (λ c, c ≠ Clip_E) batch_stmts.

(** *** The data loader and the loop over the epochs *)

(** Consecutive batches of [n] entries, the last one possibly shorter. *)
Fixpoint chunks {A} (fuel n : nat) (l : list A) : list (list A) :=
  match fuel, l with
  | 0, _ | _, [] => []
  | S fuel, _ => take n l :: chunks fuel n (drop n l)
  end.

(** [DataLoader(dataset, batch_size=batch_size, shuffle=shuffle)]: what its
    constructor checks.  With [shuffle] the sampler is a [RandomSampler],
    which refuses an empty dataset; the batch sampler refuses a batch size
    that is not positive. *)
Definition DataLoader (dataset : list (nat * nat)) (batch_size : nat) (shuffle : bool)
  : Py.result unit :=
  if decide (shuffle = true ∧ dataset = []) then
    Py.Raise (Py.ValueError
      "num_samples should be a positive integer value, but got num_samples=0")
  else if decide (batch_size = 0) then
    Py.Raise (Py.ValueError
      "batch_size should be a positive integer value, but got batch_size=0")
  else Py.Ok ().

(** One pass over the shuffling loader: the entries in the order of a fresh
    permutation, in batches, none dropped.  (The worker processes do not
    change what a pass yields.) *)
Definition loader_batches `{Torch.Generator G} (edge_index : list (nat * nat))
    (batch_size : nat) : Torch.M G (list (list (nat * nat))) :=
  perm ← Torch.torch_randperm (length edge_index);
  shuffled ← Torch.lift (Torch.index_select edge_index perm);
  mret (chunks (length edge_index) batch_size shuffled).

(** Lines 59-60 and 100: the training loader is built and iterated once. *)
Definition data_loader `{Torch.Generator G} (edge_index : list (nat * nat))
    (batch_size : nat) : Torch.M G (list (list (nat * nat))) :=
  _ ← Torch.lift (DataLoader edge_index batch_size true);
  loader_batches edge_index batch_size.

(** The number of mini-batches of one epoch. *)
Definition batches_per_epoch (cfg : train_config) (edge_index : list (nat * nat))
  : nat :=
  length (chunks (length edge_index) (batch_size cfg) edge_index).

Definition set_training (st : train_state) (mode : bool) : train_state :=
  {| params := params st; training := mode;
     optimizer_X := optimizer_X st; optimizer_E := optimizer_E st;
     best_X := best_X st; best_E := best_E st;
     num_patient_epochs := num_patient_epochs st; wandb_log := wandb_log st |}.

(** The body of the loop over the epochs: lines 98-127, one pass over the
    training loader. *)
Definition train_epoch `{Torch.Generator G} (cfg : train_config)
    (edge_index : list (nat * nat)) (st : train_state) : Torch.M G train_state :=
  let st := set_training st true in
  batches ← loader_batches edge_index (batch_size cfg);
  mret (foldl (train_batch cfg) st batches).

(** The patience counter and the two best-validation records are those of
    [st]. *)
Definition same_records (st st' : train_state) : Prop :=
  num_patient_epochs st' = num_patient_epochs st
  ∧ best_X st' = best_X st
  ∧ best_E st' = best_E st.

(** [for epoch in range(num_epochs)] as a machine: at every turn the range
    either yields the next epoch, and the body runs, or is exhausted. *)
Inductive phase : Type :=
| Epoch (epoch : nat)
| Done.

Definition loop_step `{Torch.Generator G} (cfg : train_config)
    (edge_index : list (nat * nat)) (ph : phase) (st : train_state)
  : Torch.M G (phase * train_state) :=
  match ph with
  | Epoch epoch =>
      if decide (epoch < num_epochs cfg)
      then st' ← train_epoch cfg edge_index st; mret (Epoch (S epoch), st')
      else mret (Done, st)
  | Done => mret (Done, st)
  end.

Fixpoint loop_steps `{Torch.Generator G} (n : nat) (cfg : train_config)
    (edge_index : list (nat * nat)) (ph : phase) (st : train_state)
  : Torch.M G (phase * train_state) :=
  match n with
  | 0 => mret (ph, st)
  | S n =>
      r ← loop_step cfg edge_index ph st;
      loop_steps n cfg edge_index r.1 r.2
  end.

(** Lines 59-62: the training loader and the validation loader are built
    before the loop. *)
Definition build_loaders (cfg : train_config) (edge_index : list (nat * nat))
  : Py.result unit :=
  _ ← DataLoader edge_index (batch_size cfg) true;
  DataLoader edge_index (val_batch_size cfg) false.

(** [main] from line 59 on: the loaders, then the loop, which ends when the
    range is exhausted; [num_epochs + 1] turns of the machine reach that. *)
Definition main_loop `{Torch.Generator G} (cfg : train_config)
    (edge_index : list (nat * nat)) (st : train_state)
  : Torch.M G (phase * train_state) :=
  _ ← Torch.lift (build_loaders cfg edge_index);
  loop_steps (S (num_epochs cfg)) cfg edge_index (Epoch 0) st.

End with_externals.

(** *** The stopping rule of the specification *)

(** Modelled from the spec: the validation pass and the patience counters
    are not in [main]; the specification has, per stream, the best NLL so
    far (infinite at first), replaced by every strictly lower validation
    NLL, and a count of the validation cycles since the last improvement. *)
Definition spec_cycle (acc : tfloat * nat) (nll : tfloat) : tfloat * nat :=
  if fgt acc.1 nll then (nll, 0) else (acc.1, S acc.2).

Definition spec_since_improvement (nlls : list tfloat) : nat :=
  (foldl spec_cycle (PInf, 0) nlls).2.

(** Modelled from the spec: after the validation cycles [val_X] and [val_E]
    of the epochs run so far, training is over when the epoch budget is
    exhausted or both streams have gone more than [patience] cycles without
    improvement. *)
Definition spec_done (num_epochs patience : nat) (val_X val_E : list tfloat) : Prop :=
  num_epochs ≤ length val_X
  ∨ (patience < spec_since_improvement val_X ∧ patience < spec_since_improvement val_E).

(** The key under which the specification has a stream's loss logged. *)
Definition spec_loss_key (stream_name : string) : string := stream_name +:+ "/loss".

End TrainAsync.

(** A small concrete model: one weight per predictor, constant losses,
    the sum as norm and a plain gradient step as update rule. *)
Module ToyModel.
Import Float TrainAsync.

Definition externals : Externals := {|
  Hyper := unit;
  AdamState := unit;
  pred_X_parameters := ["pred_X.weight"];
  pred_E_parameters := ["pred_E.weight"];
  log_p_t := λ _ _ _ _,
    (Loss one (λ name, if decide (name = "pred_X.weight") then Some [one] else None),
     Loss (of_nat 2)
          (λ name, if decide (name = "pred_E.weight") then Some [of_nat 3] else None));
  E_one_hot_index := λ dst _, (λ _, [one; zero]) <$> dst;
  vector_norm := fsum;
  adamw := λ _ _ d g, ((), zip_with fsub d g)
|}.

Definition parameters : gmap string param :=
  <["pred_E.weight" := Param [zero] None]> (<["pred_X.weight" := Param [zero] None]> ∅).

Definition config : train_config :=
  {| batch_size := 2; val_batch_size := 2; num_epochs := 3;
     max_grad_norm := of_nat 2 |}.

Definition state0 : train_state := initial_state (H := externals) parameters () ().

Definition edge_index : list (nat * nat) := [(0, 1); (0, 2); (1, 2)].

(** The first mini-batch, its two losses, and the state when the gradients
    have been zeroed and the sum of the losses propagated back. *)
Definition batch : list (nat * nat) := [(0, 1); (0, 2)].
Definition loss_X : loss := (batch_losses (H := externals) state0 batch).1.
Definition loss_E : loss := (batch_losses (H := externals) state0 batch).2.
Definition after_backward : train_state :=
  foldl (exec (H := externals) config loss_X loss_E) state0 (take 3 batch_stmts).

End ToyModel.

(** ** Graph notions the properties are stated with *)

Module GraphSpec.

(** The node triples [a < b < c] below [n], as [(a, (b, c))]. *)
Definition triples (n : nat) : list (nat * (nat * nat)) :=
  a ← seq 0 n;
  (λ p, (a, p)) <$> filter (λ p : nat * nat, a < p.1) (TrainAsync.upper_pairs n).

(** The triangles of the undirected simple graph under [g]: the triples of
    pairwise adjacent nodes, each once. *)
Definition triangle_list (g : Nx.DiGraph) : list (nat * (nat * nat)) :=
  filter (λ t : nat * (nat * nat),
            Nx.adjacent g t.1 t.2.1 = true
            ∧ Nx.adjacent g t.1 t.2.2 = true
            ∧ Nx.adjacent g t.2.1 t.2.2 = true)
         (triples (Nx.nx_nodes g)).

(** The three corners at which a triangle is met: each with the two
    other nodes, in increasing order. *)
Definition corners (t : nat * (nat * nat)) : list (nat * (nat * nat)) :=
  [(t.1, (t.2.1, t.2.2)); (t.2.1, (t.1, t.2.2)); (t.2.2, (t.1, t.2.1))].

(** The distinct edges stored from a lower to a higher node id. *)
Definition upper_edges (g : Dgl.DGLGraph) : list (nat * nat) :=
  remove_dups (filter (λ e : nat * nat, e.1 < e.2) (Dgl.edge_list g)).

End GraphSpec.

(** ** Small inputs used in the examples *)

(** The one-hot row of label [l] among [C] classes. *)
Definition one_hot_row (C l : nat) : list Float.tfloat :=
  (λ k, if bool_decide (k = l) then Float.one else Float.zero) <$> seq 0 C.
Definition one_hot_labels (C : nat) (labels : list nat) : Torch.tensor2 :=
  Torch.Tensor2 (one_hot_row C <$> labels) C.

(** The one-hot encoding of [V] nodes' attributes, given column by column
    with values below [C]; and the same attributes with one row per node. *)
Definition one_hot_attributes (C V : nat) (cols : list (list nat)) : Torch.tensor3 :=
  Torch.Tensor3 ((λ col : list nat, one_hot_row C <$> col) <$> cols) V C.
Definition attribute_rows (V : nat) (cols : list (list nat))
  : list (list Float.tfloat) :=
  (λ v, (λ col : list nat, Float.of_nat (col !!! v)) <$> cols) <$> seq 0 V.

(** The matrix under construction when the columns [pre] are decoded and
    [m] columns are still zero. *)
Definition decoded (V : nat) (pre : list (list nat)) (m : nat)
  : list (list Float.tfloat) :=
  (λ v, ((λ col : list nat, Float.of_nat (col !!! v)) <$> pre)
        ++ replicate m Float.zero)
    <$> seq 0 V.

(** One node, of the last of eight classes. *)
Definition single_node_graph : Dgl.DGLGraph := Dgl.Graph 1 [] ∅.
Definition eight_class_labels : Torch.tensor2 := one_hot_labels 8 [7].

(** Four nodes in two classes, joined inside each class. *)
Definition two_pairs_graph : Dgl.DGLGraph :=
  Dgl.Graph 4 [(0, 1); (1, 0); (2, 3); (3, 2)] ∅.
Definition two_pairs_labels : Torch.tensor2 := one_hot_labels 2 [0; 0; 1; 1].
Definition two_pairs_attributes : Torch.tensor3 :=
  Torch.Tensor3 [one_hot_row 2 <$> [0; 1; 1; 0]] 4 2.
Definition two_pairs_classes : list nat := [0; 0; 1; 1].

(** Sixty nodes without edges: 55 of class 0 and 5 of class 1. *)
Definition sixty_nodes_graph : Dgl.DGLGraph := Dgl.Graph 60 [] ∅.
Definition sixty_nodes_labels : Torch.tensor2 :=
  one_hot_labels 2 (replicate 55 0 ++ replicate 5 1).

Definition sixty_nodes_classes : list nat := replicate 55 0 ++ replicate 5 1.
Definition sixty_nodes_attributes : Torch.tensor3 :=
  one_hot_attributes 2 60 [replicate 60 1].

(** The per-class counts of the three masks a call of [add_mask] attached. *)
Definition mask_counts {G} (Y_one_hot : Torch.tensor2) (y : nat)
    (r : Py.result Dgl.DGLGraph * G) : option (nat * nat * nat) :=
  match r.1 with
  | Py.Ok g =>
      train ← Dgl.ndata g !! "train_mask";
      val ← Dgl.ndata g !! "val_mask";
      test ← Dgl.ndata g !! "test_mask";
      Some (MaskSpec.class_count Y_one_hot train y,
            MaskSpec.class_count Y_one_hot val y,
            MaskSpec.class_count Y_one_hot test y)
  | Py.Raise _ => None
  end.

(** One mask of the graph a call of [add_mask] returned. *)
Definition attached_mask {G} (key : string)
    (r : Py.result Dgl.DGLGraph * G) : option (list bool) :=
  match r.1 with
  | Py.Ok g => Dgl.ndata g !! key
  | Py.Raise _ => None
  end.

(** A graph without edges whose seven classes have exactly the sizes the
    tables of cora ask for: 1640 nodes. *)
Definition cora_sized_classes : list nat :=
  replicate 211 0 ++ replicate 147 1 ++ replicate 242 2 ++ replicate 497 3
  ++ replicate 250 4 ++ replicate 180 5 ++ replicate 113 6.
Definition cora_sized_graph : Dgl.DGLGraph := Dgl.Graph 1640 [] ∅.
Definition cora_sized_labels : Torch.tensor2 := one_hot_labels 7 cora_sized_classes.

(** A triangle and a path on three nodes. *)
Definition triangle_graph : Dgl.DGLGraph := Dgl.Graph 3 [(0, 1); (1, 2); (0, 2)] ∅.
Definition path_graph : Dgl.DGLGraph := Dgl.Graph 3 [(0, 1); (1, 2)] ∅.

(** The dataset identifiers the trainer's command line accepts. *)
Definition recognized_names : list string :=
  ["cora"; "citeseer"; "amazon_photo"; "amazon_computer"].

(** A graph whose class 0 (node 0) has no in-edge. *)
Definition one_edge_graph : Dgl.DGLGraph := Dgl.Graph 2 [(0, 1)] ∅.
Definition one_edge_labels : list nat := [0; 1].

(** Three nodes: two of class 0 joined both ways, one of class 1 with a
    self loop. *)
Definition loop_graph : Dgl.DGLGraph := Dgl.Graph 3 [(0, 1); (1, 0); (2, 2)] ∅.
Definition loop_labels : list nat := [0; 0; 1].

(** Thirteen nodes in classes of 3, 4, 3 and 3 members, one edge inside
    each class. *)
Definition four_class_graph : Dgl.DGLGraph :=
  Dgl.Graph 13 [(0, 1); (3, 4); (7, 8); (10, 11)] ∅.
Definition four_class_labels : list nat := [0; 0; 0; 1; 1; 1; 1; 2; 2; 2; 3; 3; 3].

(** * Properties *)

Section edge_index_facts.
Import TrainAsync.

Lemma filter_above_diagonal (i N : nat) :
  filter (λ p : nat * nat, (1 ≤ Z.of_nat p.2 - Z.of_nat p.1)%Z)
         ((λ j, (i, j)) <$> seq 0 N)
  = (λ j, (i, j)) <$> seq (S i) (N - S i).
Proof.
  induction N as [|N IH].
  - reflexivity.
  - rewrite seq_S, fmap_app, filter_app, IH. simpl.
    destruct (decide (i < N)) as [Hlt|Hge].
    + rewrite filter_cons_True by (simpl; lia).
      replace (N - i) with (S (N - S i)) by lia.
      rewrite seq_S, fmap_app. simpl.
      rewrite filter_nil.
      replace (S (i + (N - S i))) with N by lia. reflexivity.
    + rewrite filter_cons_False by (simpl; lia).
      rewrite filter_nil, app_nil_r.
      replace (N - i) with 0 by lia.
      replace (N - S i) with 0 by lia. reflexivity.
Qed.

Lemma triu_coords_upper (N : nat) :
  Torch.triu_coords N N 1 = upper_pairs N.
Proof.
  unfold Torch.triu_coords, upper_pairs.
  cut (∀ rows : list nat,
    filter (λ p : nat * nat, (1 ≤ Z.of_nat p.2 - Z.of_nat p.1)%Z)
           (i ← rows; (λ j, (i, j)) <$> seq 0 N)
    = i ← rows; (λ j, (i, j)) <$> seq (S i) (N - S i)).
  { intros H. apply H. }
  induction rows as [|i rows IH]; [reflexivity|].
  rewrite !bind_cons, filter_app, IH, filter_above_diagonal. reflexivity.
Qed.

Lemma edge_index_upper (N : nat) : edge_index N = Py.Ok (upper_pairs N).
Proof.
  unfold edge_index, Torch.triu_indices, Torch.stack2.
  rewrite decide_True by (by rewrite !length_fmap).
  rewrite zip_fst_snd, triu_coords_upper. reflexivity.
Qed.

Lemma elem_of_upper_pairs (N i j : nat) :
  (i, j) ∈ upper_pairs N ↔ i < j ∧ j < N.
Proof.
  unfold upper_pairs. rewrite list_elem_of_bind. split.
  - intros (a & Hin & Ha). apply elem_of_seq in Ha.
    apply list_elem_of_fmap in Hin as (b & Heq & Hb).
    apply elem_of_seq in Hb. simplify_eq. lia.
  - intros [Hij HjN]. exists i. split.
    + apply list_elem_of_fmap. exists j. split; [done|].
      apply elem_of_seq. lia.
    + apply elem_of_seq. lia.
Qed.

Lemma length_upper_rows (n a M : nat) :
  M = a + n →
  2 * length (i ← seq a n; (λ j, (i, j)) <$> seq (S i) (M - S i)) = n * (n - 1).
Proof.
  revert a. induction n as [|n IH]; intros a HM; [reflexivity|].
  cbn [seq]. rewrite bind_cons, length_app, length_fmap, length_seq.
  specialize (IH (S a) ltac:(lia)).
  replace (M - S a) with n by lia.
  replace (S n - 1) with n by lia.
  destruct n as [|n]; [simpl in *; lia|].
  replace (S n - 1) with n in IH by lia.
  set (L := length _) in *. clearbody L. nia.
Qed.

Lemma length_upper_pairs (N : nat) : length (upper_pairs N) = N * (N - 1) / 2.
Proof.
  pose proof (length_upper_rows N 0 N eq_refl) as H. fold (upper_pairs N) in H.
  rewrite <- H, Nat.mul_comm, Nat.div_mul by lia. reflexivity.
Qed.

Lemma upper_rows_sorted (rows : list nat) (N : nat) :
  StronglySorted lt rows →
  StronglySorted row_major_lt (i ← rows; (λ j, (i, j)) <$> seq (S i) (N - S i)).
Proof.
  induction 1 as [|i rows Hs IH Hall]; [constructor|].
  rewrite bind_cons. apply StronglySorted_app. split_and!.
  - intros p q Hp Hq.
    apply list_elem_of_fmap in Hp as (j & -> & _).
    apply list_elem_of_bind in Hq as (i' & Hq & Hi').
    apply list_elem_of_fmap in Hq as (j' & -> & _).
    rewrite Forall_forall in Hall. left. simpl. by apply Hall.
  - generalize (S i) (N - S i). intros a n. revert a.
    induction n as [|n IHn]; intros a; [constructor|].
    cbn [seq fmap list_fmap]. constructor; [apply IHn|].
    apply Forall_forall. intros q Hq.
    apply list_elem_of_fmap in Hq as (j' & -> & Hj').
    apply elem_of_seq in Hj'. right. simpl. lia.
  - exact IH.
Qed.

Lemma seq_sorted (a n : nat) : StronglySorted lt (seq a n).
Proof.
  revert a. induction n as [|n IH]; intros a; [constructor|].
  cbn [seq]. constructor; [apply IH|].
  apply Forall_forall. intros x Hx. apply elem_of_seq in Hx. lia.
Qed.

Lemma row_major_sorted_NoDup (l : list (nat * nat)) :
  StronglySorted row_major_lt l → NoDup l.
Proof.
  induction 1 as [|p l Hs IH Hall]; constructor; [|exact IH].
  intros Hin. rewrite Forall_forall in Hall. specialize (Hall p Hin).
  unfold row_major_lt in Hall. lia.
Qed.

End edge_index_facts.

(** C6. For every node count [N >= 2] the trainer's edge index is built
    without error and holds exactly [N(N-1)/2] pairs, none repeated, none
    with equal endpoints, each with its first index strictly below its
    second (and both below [N]); every such pair occurs, and the pairs come
    in row-major order of the upper triangle. *)
Theorem edge_index_upper_triangle (N : nat) :
  2 ≤ N →
  ∃ idx : list (nat * nat),
    TrainAsync.edge_index N = Py.Ok idx
    ∧ length idx = N * (N - 1) / 2
    ∧ NoDup idx
    ∧ (∀ i j, (i, j) ∈ idx → i ≠ j ∧ i < j ∧ j < N)
    ∧ (∀ i j, i < j → j < N → (i, j) ∈ idx)
    ∧ StronglySorted TrainAsync.row_major_lt idx
    ∧ idx = TrainAsync.upper_pairs N.
Proof.
  intros _. exists (TrainAsync.upper_pairs N).
  pose proof (upper_rows_sorted (seq 0 N) N (seq_sorted 0 N)) as Hsorted.
  split_and!.
  - apply edge_index_upper.
  - apply length_upper_pairs.
  - by apply row_major_sorted_NoDup.
  - intros i j Hin. apply elem_of_upper_pairs in Hin. lia.
  - intros i j Hij HjN. by apply elem_of_upper_pairs.
  - exact Hsorted.
  - reflexivity.
Qed.

Lemma edge_index_upper_triangle_witness :
  2 ≤ 4 ∧
  ∃ idx : list (nat * nat),
    TrainAsync.edge_index 4 = Py.Ok idx
    ∧ length idx = 4 * (4 - 1) / 2
    ∧ NoDup idx
    ∧ (∀ i j, (i, j) ∈ idx → i ≠ j ∧ i < j ∧ j < 4)
    ∧ (∀ i j, i < j → j < 4 → (i, j) ∈ idx)
    ∧ StronglySorted TrainAsync.row_major_lt idx
    ∧ idx = TrainAsync.upper_pairs 4.
Proof. split; [lia | apply (edge_index_upper_triangle 4); lia]. Defined.

Example edge_index_4 :
  TrainAsync.edge_index 4 = Py.Ok [(0, 1); (0, 2); (0, 3); (1, 2); (1, 3); (2, 3)].
Proof. vm_compute. reflexivity. Qed.

(** ** Rounding *)

Section rounding_facts.
Import Float.
#[local] Open Scope Z_scope.

Lemma nearest_even_exact (k b : Z) : 0 < b → nearest_even (k * b) b = k.
Proof.
  intros Hb. unfold nearest_even.
  rewrite Z.div_mul, Z.mod_mul by lia. by rewrite decide_True by lia.
Qed.

Lemma nearest_even_1 (a : Z) : nearest_even a 1 = a.
Proof. unfold nearest_even. rewrite Z.div_1_r, Z.mod_1_r. by rewrite decide_True by lia. Qed.

Lemma nearest_even_le (a b K : Z) : 0 < b → a ≤ K * b → nearest_even a b ≤ K.
Proof.
  intros Hb Ha. unfold nearest_even.
  pose proof (Z.div_mod a b ltac:(lia)) as Hdm.
  pose proof (Z.mod_pos_bound a b Hb) as Hm.
  assert (a / b ≤ K) as Hfl by nia.
  assert (0 < a mod b → a / b + 1 ≤ K) as Hup by nia.
  repeat case_decide; try destruct (Z.even _); lia.
Qed.

Lemma nearest_even_ge (a b K : Z) : 0 < b → K * b ≤ a → K ≤ nearest_even a b.
Proof.
  intros Hb Ha. unfold nearest_even.
  pose proof (Z.div_mod a b ltac:(lia)) as Hdm.
  pose proof (Z.mod_pos_bound a b Hb) as Hm.
  assert (K ≤ a / b) as Hfl by nia.
  repeat case_decide; try destruct (Z.even _); lia.
Qed.

(** Halfway or less above an even integer rounds down to it. *)
Lemma nearest_even_half (a b K : Z) :
  0 < b → Z.even K = true → K * b ≤ a → 2 * a ≤ (2 * K + 1) * b →
  nearest_even a b = K.
Proof.
  intros Hb Hev Hlo Hhi. unfold nearest_even.
  pose proof (Z.div_mod a b ltac:(lia)) as Hdm.
  pose proof (Z.mod_pos_bound a b Hb) as Hm.
  assert (a / b = K) as Hfl by nia.
  rewrite Hfl, Hev. repeat case_decide; first [lia|nia].
Qed.

Lemma scaled_pos (n d e : Z) :
  0 < n → 0 < d → 0 < (scaled n d e).1 ∧ 0 < (scaled n d e).2.
Proof.
  intros Hn Hd. unfold scaled. cbn [fst snd].
  assert (0 < 2 ^ Z.max 0 (- e)) by (apply Z.pow_pos_nonneg; lia).
  assert (0 < 2 ^ Z.max 0 e) by (apply Z.pow_pos_nonneg; lia).
  nia.
Qed.

Lemma scaled_nonpos (n d e : Z) : e ≤ 0 → scaled n d e = (n * 2 ^ (- e), d).
Proof.
  intros He. unfold scaled.
  rewrite (Z.max_r 0 (- e)), (Z.max_l 0 e) by lia. by rewrite Z.mul_1_r.
Qed.

Lemma scaled_nonneg (n d e : Z) : 0 ≤ e → scaled n d e = (n, d * 2 ^ e).
Proof.
  intros He. unfold scaled.
  rewrite (Z.max_l 0 (- e)), (Z.max_r 0 e) by lia. by rewrite Z.mul_1_r.
Qed.

Lemma binade_spec (f : format) (n d : Z) :
  0 < prec f → 0 < n → 0 < d →
  2 ^ (prec f - 1) * (scaled n d (binade f n d)).2 ≤ (scaled n d (binade f n d)).1
  ∧ (scaled n d (binade f n d)).1 < 2 ^ prec f * (scaled n d (binade f n d)).2.
Proof.
  intros Hp Hn Hd. unfold binade. cbv zeta.
  set (e0 := Z.log2 n - Z.log2 d - prec f).
  destruct (Z.log2_spec n Hn) as [Hn1 Hn2].
  destruct (Z.log2_spec d Hd) as [Hd1 Hd2].
  pose proof (Z.log2_nonneg n) as Hln. pose proof (Z.log2_nonneg d) as Hld.
  rewrite <- Z.add_1_r in Hn2, Hd2.
  rewrite Z.pow_add_r in Hn2, Hd2 by lia. change (2 ^ 1) with 2 in Hn2, Hd2.
  assert (2 ^ prec f = 2 * 2 ^ (prec f - 1)) as HP.
  { rewrite <- (Z.pow_succ_r 2) by lia. f_equal. lia. }
  assert (0 < 2 ^ (prec f - 1)) as HPpos by (apply Z.pow_pos_nonneg; lia).
  set (P := 2 ^ (prec f - 1)) in *.
  set (X := 2 ^ Z.log2 d) in *. set (Y := 2 ^ Z.log2 n) in *.
  assert (0 < X) as HX by (apply Z.pow_pos_nonneg; lia).
  assert (0 < Y) as HY by (apply Z.pow_pos_nonneg; lia).
  destruct (Z_le_gt_dec 0 e0) as [He0|He0].
  - (* e0 >= 0 *)
    assert (Y = 2 * P * X * 2 ^ e0) as HYX.
    { subst Y P X. rewrite <- HP, <- !Z.pow_add_r by lia. f_equal. lia. }
    assert (0 < 2 ^ e0) as HE by (apply Z.pow_pos_nonneg; lia).
    set (E := 2 ^ e0) in *.
    rewrite (scaled_nonneg n d e0) by lia. cbn [fst snd]. fold E. rewrite HP.
    case_decide as Htest.
    + rewrite (scaled_nonneg n d e0) by lia. cbn [fst snd]. fold E.
      split; [nia|exact Htest].
    + rewrite (scaled_nonneg n d (e0 + 1)) by lia. cbn [fst snd].
      rewrite Z.pow_add_r by lia. change (2 ^ 1) with 2. fold E.
      split; nia.
  - (* e0 < 0 *)
    assert (Y * 2 ^ (- e0) = 2 * P * X) as HYX.
    { subst Y P X. rewrite <- HP, <- !Z.pow_add_r by lia. f_equal. lia. }
    assert (0 < 2 ^ (- e0)) as HF by (apply Z.pow_pos_nonneg; lia).
    rewrite (scaled_nonpos n d e0) by lia. cbn [fst snd]. rewrite HP.
    case_decide as Htest.
    + rewrite (scaled_nonpos n d e0) by lia. cbn [fst snd].
      set (F := 2 ^ (- e0)) in *. split; [nia|exact Htest].
    + rewrite (scaled_nonpos n d (e0 + 1)) by lia. cbn [fst snd].
      assert (2 ^ (- e0) = 2 * 2 ^ (- (e0 + 1))) as HF2.
      { rewrite <- (Z.pow_succ_r 2) by lia. f_equal. lia. }
      assert (0 < 2 ^ (- (e0 + 1))) as HF' by (apply Z.pow_pos_nonneg; lia).
      set (F' := 2 ^ (- (e0 + 1))) in *. rewrite HF2 in *.
      split; nia.
Qed.

Lemma scaled_ratio (n d e e' : Z) :
  e' ≤ e →
  (scaled n d e').1 * (scaled n d e).2
  = 2 ^ (e - e') * ((scaled n d e).1 * (scaled n d e').2).
Proof.
  intros He. unfold scaled. cbn [fst snd].
  transitivity (n * d * (2 ^ Z.max 0 (- e') * 2 ^ Z.max 0 e)); [ring|].
  transitivity (n * d * (2 ^ (e - e') * (2 ^ Z.max 0 (- e) * 2 ^ Z.max 0 e'))); [|ring].
  f_equal. rewrite <- !Z.pow_add_r by lia. f_equal. lia.
Qed.

Lemma binade_unique (f : format) (n d e : Z) :
  0 < prec f → 0 < n → 0 < d →
  2 ^ (prec f - 1) * (scaled n d e).2 ≤ (scaled n d e).1 →
  (scaled n d e).1 < 2 ^ prec f * (scaled n d e).2 →
  binade f n d = e.
Proof.
  intros Hp Hn Hd Hlo Hhi.
  destruct (binade_spec f n d Hp Hn Hd) as [Hlo' Hhi'].
  set (e' := binade f n d) in *.
  destruct (scaled_pos n d e Hn Hd) as [Ha Hb].
  destruct (scaled_pos n d e' Hn Hd) as [Ha' Hb'].
  assert (2 ^ prec f = 2 * 2 ^ (prec f - 1)) as HP.
  { rewrite <- (Z.pow_succ_r 2) by lia. f_equal. lia. }
  assert (0 < 2 ^ (prec f - 1)) as HPpos by (apply Z.pow_pos_nonneg; lia).
  set (P := 2 ^ (prec f - 1)) in *. rewrite HP in *.
  destruct (Z.lt_trichotomy e' e) as [Hlt|[Heq|Hgt]]; [|done|]; exfalso.
  - pose proof (scaled_ratio n d e e' ltac:(lia)) as Hr.
    assert (2 ≤ 2 ^ (e - e')) as H2.
    { change 2 with (2 ^ 1) at 1. apply Z.pow_le_mono_r; lia. }
    set (a := (scaled n d e).1) in *. set (b := (scaled n d e).2) in *.
    set (a' := (scaled n d e').1) in *. set (b' := (scaled n d e').2) in *.
    set (T := 2 ^ (e - e')) in *.
    assert (2 * (a * b') ≤ a' * b) by nia.
    assert (P * b * b' ≤ a * b') by nia.
    assert (a' * b < 2 * P * b' * b) by nia.
    nia.
  - pose proof (scaled_ratio n d e' e ltac:(lia)) as Hr.
    assert (2 ≤ 2 ^ (e' - e)) as H2.
    { change 2 with (2 ^ 1) at 1. apply Z.pow_le_mono_r; lia. }
    set (a := (scaled n d e).1) in *. set (b := (scaled n d e).2) in *.
    set (a' := (scaled n d e').1) in *. set (b' := (scaled n d e').2) in *.
    set (T := 2 ^ (e' - e)) in *.
    assert (2 * (a' * b) ≤ a * b') by nia.
    assert (P * b' * b ≤ a' * b) by nia.
    assert (a * b' < 2 * P * b * b') by nia.
    nia.
Qed.

Lemma binade_below_prec (f : format) (n d : Z) :
  0 < prec f → 0 < n → 0 < d → n < 2 ^ prec f * d → binade f n d ≤ 0.
Proof.
  intros Hp Hn Hd Hlt.
  destruct (binade_spec f n d Hp Hn Hd) as [Hlo _].
  destruct (Z_le_gt_dec (binade f n d) 0) as [|Hpos]; [done|exfalso].
  rewrite scaled_nonneg in Hlo by lia. cbn [fst snd] in Hlo.
  assert (2 ^ prec f = 2 * 2 ^ (prec f - 1)) as HP.
  { rewrite <- (Z.pow_succ_r 2) by lia. f_equal. lia. }
  assert (0 < 2 ^ (prec f - 1)) as HPpos by (apply Z.pow_pos_nonneg; lia).
  assert (2 ≤ 2 ^ binade f n d) as H2.
  { change 2 with (2 ^ 1) at 1. apply Z.pow_le_mono_r; lia. }
  set (P := 2 ^ (prec f - 1)) in *. set (E := 2 ^ binade f n d) in *.
  rewrite HP in Hlt. nia.
Qed.

Lemma Qc_scale_nonpos_le (m k N : Z) :
  0 ≤ k → m ≤ N * 2 ^ k →
  (Q2Qc (Qmake (m * 2 ^ Z.max 0 (- k)) (Z.to_pos (2 ^ Z.max 0 (- - k))))
   ≤ Qc_of_Z N)%Qc.
Proof.
  intros Hk Hm. unfold Qcle. cbn [this Q2Qc Qc_of_Z]. rewrite Qred_correct.
  unfold Qle, inject_Z. cbn [Qnum Qden].
  rewrite (Z.max_l 0 (- k)), Z.opp_involutive, (Z.max_r 0 k) by lia.
  rewrite Z2Pos.id by (apply Z.pow_pos_nonneg; lia). lia.
Qed.

Lemma Qc_scale_nonpos_ge (m k N : Z) :
  0 ≤ k → N * 2 ^ k ≤ m →
  (Qc_of_Z N
   ≤ Q2Qc (Qmake (m * 2 ^ Z.max 0 (- k)) (Z.to_pos (2 ^ Z.max 0 (- - k)))))%Qc.
Proof.
  intros Hk Hm. unfold Qcle. cbn [this Q2Qc Qc_of_Z]. rewrite Qred_correct.
  unfold Qle, inject_Z. cbn [Qnum Qden].
  rewrite (Z.max_l 0 (- k)), Z.opp_involutive, (Z.max_r 0 k) by lia.
  rewrite Z2Pos.id by (apply Z.pow_pos_nonneg; lia). lia.
Qed.

Lemma Qc_scale_pos (m e : Z) :
  0 ≤ e →
  Q2Qc (Qmake (m * 2 ^ Z.max 0 e) (Z.to_pos (2 ^ Z.max 0 (- e))))
  = Qc_of_Z (m * 2 ^ e).
Proof.
  intros He. apply Qc_is_canon. cbn [this Q2Qc Qc_of_Z]. rewrite Qred_correct.
  rewrite (Z.max_r 0 e), (Z.max_l 0 (- e)) by lia. reflexivity.
Qed.

(** A positive fraction of at most [N <= 2^prec] rounds to a number of at
    most [N]. *)
Lemma round_pos_le (f : format) (n d N : Z) :
  format_wf f → 0 < n → 0 < d → N ≤ 2 ^ prec f → n ≤ N * d →
  ∃ r, round_pos f n d = Fin r ∧ (0 ≤ r)%Qc ∧ (r ≤ Qc_of_Z N)%Qc.
Proof.
  intros (Hp & Hemin & Hemax) Hn Hd HN Hle.
  assert (0 < 2 ^ prec f) as HPpos by (apply Z.pow_pos_nonneg; lia).
  unfold round_pos, ulp_exponent. cbv zeta.
  destruct (Z_lt_le_dec n (2 ^ prec f * d)) as [Hlt|Hge].
  - pose proof (binade_below_prec f n d ltac:(lia) Hn Hd Hlt) as Hb.
    set (e := Z.max (emin f) (binade f n d)).
    assert (e ≤ 0) as He by lia.
    rewrite (scaled_nonpos n d e He). cbn [fst snd].
    assert (0 < 2 ^ (- e)) as Hk by (apply Z.pow_pos_nonneg; lia).
    pose proof (nearest_even_le (n * 2 ^ (- e)) d (N * 2 ^ (- e)) Hd ltac:(nia)) as Hm.
    pose proof (nearest_even_ge (n * 2 ^ (- e)) d 0 Hd ltac:(nia)) as Hm0.
    set (m := nearest_even _ d) in *.
    rewrite decide_False.
    2:{ assert (2 ^ prec f * 2 ^ (- e) < 2 ^ (emax f - e)); [|nia].
        rewrite <- Z.pow_add_r by lia. apply Z.pow_lt_mono_r; lia. }
    eexists. split; [reflexivity|]. split.
    + replace e with (- - e) by lia.
      rewrite <- Z2Qc_inj_0. apply Qc_scale_nonpos_ge; lia.
    + replace e with (- - e) by lia. apply Qc_scale_nonpos_le; lia.
  - assert (N = 2 ^ prec f ∧ n = 2 ^ prec f * d) as [-> Hn'] by nia.
    assert (2 ^ prec f = 2 * 2 ^ (prec f - 1)) as HP.
    { rewrite <- (Z.pow_succ_r 2) by lia. f_equal. lia. }
    assert (binade f n d = 1) as Hb.
    { apply binade_unique; [lia|done|done|..];
        rewrite scaled_nonneg by lia; cbn [fst snd]; change (2 ^ 1) with 2; nia. }
    rewrite Hb, Z.max_r by lia.
    rewrite scaled_nonneg by lia. cbn [fst snd]. change (2 ^ 1) with 2.
    replace n with (2 ^ (prec f - 1) * (d * 2)) by lia.
    rewrite nearest_even_exact by lia.
    rewrite decide_False by (apply Z.lt_nge, Z.pow_lt_mono_r; lia).
    eexists. split; [reflexivity|]. rewrite Qc_scale_pos by lia.
    replace (2 ^ (prec f - 1) * 2 ^ 1) with (2 ^ prec f) by lia.
    split; [|done].
    rewrite <- Z2Qc_inj_0. apply (proj1 (Z2Qc_inj_le _ _)). lia.
Qed.

(** Just above [2^prec], up to the midpoint, the rounding is [2^prec]. *)
Lemma round_pos_saturates (f : format) (n d : Z) :
  format_wf f → 0 < d → 2 ^ prec f * d < n → n ≤ (2 ^ prec f + 1) * d →
  round_pos f n d = Fin (Qc_of_Z (2 ^ prec f)).
Proof.
  intros (Hp & Hemin & Hemax) Hd Hlo Hhi.
  assert (0 < 2 ^ prec f) as HPpos by (apply Z.pow_pos_nonneg; lia).
  assert (2 ^ prec f = 2 * 2 ^ (prec f - 1)) as HP.
  { rewrite <- (Z.pow_succ_r 2) by lia. f_equal. lia. }
  assert (0 < 2 ^ (prec f - 1)) as HP1 by (apply Z.pow_pos_nonneg; lia).
  assert (0 < n) as Hn by nia.
  assert (binade f n d = 1) as Hb.
  { apply binade_unique; [lia|done|done|..];
      rewrite scaled_nonneg by lia; cbn [fst snd]; change (2 ^ 1) with 2; nia. }
  unfold round_pos, ulp_exponent. cbv zeta. rewrite Hb, Z.max_r by lia.
  rewrite scaled_nonneg by lia. cbn [fst snd]. change (2 ^ 1) with 2.
  rewrite (nearest_even_half n (d * 2) (2 ^ (prec f - 1))); [|lia| |nia|nia].
  2:{ replace (prec f - 1) with (Z.succ (prec f - 2)) by lia.
      rewrite Z.pow_succ_r by lia. apply Z.even_mul. }
  rewrite decide_False by (apply Z.lt_nge, Z.pow_lt_mono_r; lia).
  rewrite Qc_scale_pos by lia.
  by replace (2 ^ (prec f - 1) * 2 ^ 1) with (2 ^ prec f) by lia.
Qed.

(** A fraction of at least one rounds to at least one. *)
Lemma round_pos_ge_1 (f : format) (n d : Z) :
  format_wf f → 0 < d → d ≤ n →
  round_pos f n d = PInf ∨ ∃ r, round_pos f n d = Fin r ∧ (1 ≤ r)%Qc.
Proof.
  intros (Hp & Hemin & Hemax) Hd Hle.
  assert (0 < n) as Hn by lia.
  unfold round_pos, ulp_exponent. cbv zeta.
  set (e := Z.max (emin f) (binade f n d)).
  case_decide as Hov; [by left|right].
  eexists. split; [reflexivity|]. rewrite <- Z2Qc_inj_1.
  destruct (Z_le_gt_dec e 0) as [He|He].
  - rewrite (scaled_nonpos n d e He). cbn [fst snd].
    assert (0 < 2 ^ (- e)) as Hk by (apply Z.pow_pos_nonneg; lia).
    pose proof (nearest_even_ge (n * 2 ^ (- e)) d (1 * 2 ^ (- e)) Hd ltac:(nia)) as Hm.
    replace e with (- - e) at 2 3 by lia. apply Qc_scale_nonpos_ge; lia.
  - assert (e = binade f n d) as Heq by lia.
    destruct (binade_spec f n d ltac:(lia) Hn Hd) as [Hlo _]. rewrite <- Heq in Hlo.
    destruct (scaled_pos n d e Hn Hd) as [_ Hb].
    pose proof (nearest_even_ge _ _ _ Hb Hlo) as Hm.
    assert (0 < 2 ^ (prec f - 1)) as HP1 by (apply Z.pow_pos_nonneg; lia).
    assert (0 < 2 ^ e) as HE by (apply Z.pow_pos_nonneg; lia).
    rewrite Qc_scale_pos by lia. apply (proj1 (Z2Qc_inj_le _ _)). nia.
Qed.

Lemma Qc_of_Z_num_den (z : Z) : Qnum (Qc_of_Z z) = z ∧ Qden (Qc_of_Z z) = 1%positive.
Proof. done. Qed.

(** Integers up to [2^prec] are numbers of the format. *)
Lemma round_int (f : format) (z : Z) :
  format_wf f → 0 ≤ z → z ≤ 2 ^ prec f → round f (Qc_of_Z z) = Fin (Qc_of_Z z).
Proof.
  intros Hwf Hz Hle. pose proof Hwf as (Hp & Hemin & Hemax).
  assert (0 < 2 ^ prec f) as HPpos by (apply Z.pow_pos_nonneg; lia).
  unfold round. destruct (Qc_of_Z_num_den z) as [-> ->].
  destruct z as [|n|n]; [by rewrite Z2Qc_inj_0| |lia].
  destruct (Z_lt_le_dec (Z.pos n) (2 ^ prec f)) as [Hlt|Hge].
  - unfold round_pos, ulp_exponent. cbv zeta.
    pose proof (binade_below_prec f (Z.pos n) 1 ltac:(lia) ltac:(lia) ltac:(lia)
                  ltac:(lia)) as Hb.
    set (e := Z.max (emin f) (binade f (Z.pos n) 1)).
    assert (e ≤ 0) as He by lia.
    rewrite (scaled_nonpos _ _ e He). cbn [fst snd].
    assert (0 < 2 ^ (- e)) as Hk by (apply Z.pow_pos_nonneg; lia).
    rewrite nearest_even_1.
    rewrite decide_False.
    2:{ assert (2 ^ prec f * 2 ^ (- e) < 2 ^ (emax f - e)); [|nia].
        rewrite <- Z.pow_add_r by lia. apply Z.pow_lt_mono_r; lia. }
    f_equal. apply Qc_is_canon. cbn [this Q2Qc]. rewrite Qred_correct.
    rewrite (Z.max_l 0 e), (Z.max_r 0 (- e)) by lia.
    unfold Qeq. cbn [Qnum Qden].
    rewrite Z2Pos.id by done.
    destruct (Qc_of_Z_num_den (Z.pos n)) as [-> ->]. rewrite Z.pow_0_r. ring.
  - replace (Z.pos n) with (2 ^ prec f) by lia.
    pose proof (round_pos_le f (2 ^ prec f) 1 (2 ^ prec f) Hwf HPpos ltac:(lia)
                  ltac:(lia) ltac:(lia)) as (r & Hr & _ & Hr2).
    pose proof (round_pos_ge_1 f (2 ^ prec f) 1 Hwf ltac:(lia) ltac:(lia)) as [Hinf|Hge1].
    { rewrite Hr in Hinf. discriminate. }
    clear Hr Hr2 r.
    (* the value is exactly 2^prec: binade 1 *)
    assert (2 ^ prec f = 2 * 2 ^ (prec f - 1)) as HP.
    { rewrite <- (Z.pow_succ_r 2) by lia. f_equal. lia. }
    assert (0 < 2 ^ (prec f - 1)) as HP1 by (apply Z.pow_pos_nonneg; lia).
    assert (binade f (2 ^ prec f) 1 = 1) as Hb.
    { apply binade_unique; [lia|done|lia|..];
        rewrite scaled_nonneg by lia; cbn [fst snd]; change (2 ^ 1) with 2; nia. }
    unfold round_pos, ulp_exponent. cbv zeta. rewrite Hb, Z.max_r by lia.
    rewrite scaled_nonneg by lia. cbn [fst snd]. change (2 ^ 1) with 2.
    assert (nearest_even (2 ^ prec f) (1 * 2) = 2 ^ (prec f - 1)) as ->.
    { transitivity (nearest_even (2 ^ (prec f - 1) * (1 * 2)) (1 * 2));
        [f_equal; lia|apply nearest_even_exact; lia]. }
    rewrite decide_False by (apply Z.lt_nge, Z.pow_lt_mono_r; lia).
    rewrite Qc_scale_pos by lia.
    by replace (2 ^ (prec f - 1) * 2 ^ 1) with (2 ^ prec f) by lia.
Qed.

Lemma Qc_le_of_Z (q : Qc) (N : Z) :
  (q ≤ Qc_of_Z N)%Qc ↔ Qnum q ≤ N * Z.pos (Qden q).
Proof. unfold Qcle, Qle. destruct (Qc_of_Z_num_den N) as [-> ->]. lia. Qed.

Lemma Qc_of_Z_le (q : Qc) (N : Z) :
  (Qc_of_Z N ≤ q)%Qc ↔ N * Z.pos (Qden q) ≤ Qnum q.
Proof. unfold Qcle, Qle. destruct (Qc_of_Z_num_den N) as [-> ->]. lia. Qed.

Lemma Qc_of_Z_lt (q : Qc) (N : Z) :
  (Qc_of_Z N < q)%Qc ↔ N * Z.pos (Qden q) < Qnum q.
Proof. unfold Qclt, Qlt. destruct (Qc_of_Z_num_den N) as [-> ->]. lia. Qed.

(** A non-negative number of at most [N <= 2^prec] rounds to a non-negative
    number of at most [N]. *)
Lemma round_le (f : format) (q : Qc) (N : Z) :
  format_wf f → N ≤ 2 ^ prec f → (0 ≤ q)%Qc → (q ≤ Qc_of_Z N)%Qc →
  ∃ r, round f q = Fin r ∧ (0 ≤ r)%Qc ∧ (r ≤ Qc_of_Z N)%Qc.
Proof.
  intros Hwf HN H0 Hq. rewrite <- Z2Qc_inj_0 in H0.
  apply Qc_of_Z_le in H0. apply Qc_le_of_Z in Hq.
  unfold round. destruct (Qnum q) as [|n|n] eqn:Hnum; [|by apply round_pos_le|lia].
  exists 0%Qc. split; [done|]. split; [done|].
  rewrite <- Z2Qc_inj_0. apply (proj1 (Z2Qc_inj_le _ _)). lia.
Qed.

(** A number at most that far below zero rounds to a number in the same
    range. *)
Lemma round_ge (f : format) (q : Qc) (N : Z) :
  format_wf f → N ≤ 2 ^ prec f → (q ≤ 0)%Qc → (Qc_of_Z (- N) ≤ q)%Qc →
  ∃ r, round f q = Fin r ∧ (r ≤ 0)%Qc ∧ (Qc_of_Z (- N) ≤ r)%Qc.
Proof.
  intros Hwf HN H0 Hq. rewrite <- Z2Qc_inj_0 in H0.
  apply Qc_le_of_Z in H0. apply Qc_of_Z_le in Hq.
  unfold round. destruct (Qnum q) as [|n|n] eqn:Hnum; [|lia|].
  - exists 0%Qc. split; [done|]. split; [done|].
    rewrite <- Z2Qc_inj_0. apply (proj1 (Z2Qc_inj_le _ _)). lia.
  - destruct (round_pos_le f (Z.pos n) (Z.pos (Qden q)) N Hwf) as (r & -> & Hr0 & HrN);
      [lia..|].
    exists (- r)%Qc. split; [done|]. split.
    + apply Qcopp_le_compat in Hr0. by rewrite Qcopp_involutive in Hr0 || exact Hr0.
    + rewrite Z2Qc_inj_opp. by apply Qcopp_le_compat.
Qed.

Lemma round_saturates (f : format) (q : Qc) :
  format_wf f → (0 ≤ q)%Qc → (q ≤ Qc_of_Z (2 ^ prec f + 1))%Qc →
  ∃ r, round f q = Fin r ∧ (0 ≤ r)%Qc ∧ (r ≤ Qc_of_Z (2 ^ prec f))%Qc.
Proof.
  intros Hwf H0 Hq.
  destruct (Qclt_le_dec (Qc_of_Z (2 ^ prec f)) q) as [Hgt|Hle].
  - apply Qc_of_Z_lt in Hgt. apply Qc_le_of_Z in Hq.
    assert (0 < 2 ^ prec f) as HPpos
      by (destruct Hwf as (? & _); apply Z.pow_pos_nonneg; lia).
    unfold round. destruct (Qnum q) as [|n|n] eqn:Hnum; [nia| |nia].
    rewrite round_pos_saturates by (done || lia).
    eexists. split; [reflexivity|]. split; [|done].
    rewrite <- Z2Qc_inj_0. apply (proj1 (Z2Qc_inj_le _ _)). lia.
  - apply round_le; [done|lia|done|done].
Qed.

Lemma round_ge_1 (f : format) (q : Qc) :
  format_wf f → (1 ≤ q)%Qc →
  round f q = PInf ∨ ∃ r, round f q = Fin r ∧ (1 ≤ r)%Qc.
Proof.
  intros Hwf Hq. rewrite <- Z2Qc_inj_1 in Hq. apply Qc_of_Z_le in Hq.
  unfold round. destruct (Qnum q) as [|n|n] eqn:Hnum; [lia| |lia].
  apply round_pos_ge_1; [done|lia|lia].
Qed.

Lemma binary32_wf : format_wf binary32.
Proof. unfold format_wf. cbn. lia. Qed.

Lemma binary64_wf : format_wf binary64.
Proof. unfold format_wf. cbn. lia. Qed.

End rounding_facts.

(** ** Floats *)

Section float_facts.
Import Float LinkxSpec.

Lemma of_nat_Qc (n : nat) : of_nat n = Fin (Qc_of_nat n).
Proof. reflexivity. Qed.

Lemma Qc_of_nat_add (a b : nat) : Qc_of_nat (a + b) = (Qc_of_nat a + Qc_of_nat b)%Qc.
Proof. unfold Qc_of_nat. by rewrite Nat2Z.inj_add, Z2Qc_inj_add. Qed.

Lemma Qc_of_nat_eq_0 (n : nat) : Qc_of_nat n = 0%Qc ↔ n = 0.
Proof.
  unfold Qc_of_nat. rewrite <- Z2Qc_inj_0, Z2Qc_inj_iff. lia.
Qed.

Lemma fadd_of_nat (a b : nat) : fadd (of_nat a) (of_nat b) = of_nat (a + b).
Proof. rewrite !of_nat_Qc, Qc_of_nat_add. reflexivity. Qed.

Lemma fdiv_of_nat_pos (a b : nat) :
  b ≠ 0 → fdiv (of_nat a) (of_nat b) = Fin (Qc_of_nat a / Qc_of_nat b)%Qc.
Proof.
  intros Hb. rewrite !of_nat_Qc. unfold fdiv.
  rewrite decide_False; [reflexivity|]. by rewrite Qc_of_nat_eq_0.
Qed.

End float_facts.

(** ** Single precision *)

Section float32_facts.
Import Float LinkxSpec.

Lemma float32_of_nat (n : nat) : (Z.of_nat n ≤ 2 ^ 24)%Z → float32 n = of_nat n.
Proof. intros Hn. apply (round_int binary32); [apply binary32_wf|lia|done]. Qed.

(** Counts of at most [2^24] are added without rounding. *)
Lemma fadd32_of_nat (a b : nat) :
  (Z.of_nat (a + b) ≤ 2 ^ 24)%Z → fadd32 (of_nat a) (of_nat b) = of_nat (a + b).
Proof.
  intros Hab. unfold fadd32. rewrite fadd_of_nat. by apply float32_of_nat.
Qed.

Lemma foldl_fadd32_of_nat (a : nat) (l : list nat) :
  (Z.of_nat (a + sum_list l) ≤ 2 ^ 24)%Z →
  foldl fadd32 (of_nat a) (of_nat <$> l) = of_nat (a + sum_list l).
Proof.
  revert a. induction l as [|x l IH]; intros a Hle.
  - cbn. by rewrite Nat.add_0_r.
  - rewrite fmap_cons. cbn [foldl sum_list_with] in *. unfold id in *.
    rewrite fadd32_of_nat by lia. rewrite IH by lia. f_equal. lia.
Qed.

Lemma fsum32_of_nat (l : list nat) :
  (Z.of_nat (sum_list l) ≤ 2 ^ 24)%Z → fsum32 (of_nat <$> l) = of_nat (sum_list l).
Proof. intros Hle. by apply (foldl_fadd32_of_nat 0). Qed.

Lemma fsum32_of_nat_with {A} (f : A → nat) (l : list A) :
  (Z.of_nat (sum_list_with f l) ≤ 2 ^ 24)%Z →
  fsum32 ((λ a, of_nat (f a)) <$> l) = of_nat (sum_list_with f l).
Proof.
  assert (sum_list (f <$> l) = sum_list_with f l) as Hsum.
  { induction l as [|a l IH]; [reflexivity|].
    rewrite fmap_cons. cbn [sum_list_with]. by rewrite IH. }
  intros Hle. rewrite (list_fmap_compose f of_nat), fsum32_of_nat; by rewrite Hsum.
Qed.

(** Summing an indicator counts. *)
Lemma fsum32_indicator {A} (P : A → Prop) `{∀ x, Decision (P x)} (l : list A) :
  (Z.of_nat (length (filter P l)) ≤ 2 ^ 24)%Z →
  fsum32 ((λ x, if bool_decide (P x) then one else zero) <$> l)
  = of_nat (length (filter P l)).
Proof.
  assert (sum_list_with (λ x, if bool_decide (P x) then 1 else 0) l
          = length (filter P l)) as Hsum.
  { induction l as [|x l IH]; [reflexivity|].
    cbn [sum_list_with]. rewrite IH.
    destruct (decide (P x)) as [HP|HP].
    - rewrite bool_decide_true, filter_cons_True by done. reflexivity.
    - rewrite bool_decide_false, filter_cons_False by done. reflexivity. }
  intros Hle. rewrite <- Hsum in Hle |- *.
  rewrite <- fsum32_of_nat_with by done. f_equal.
  apply list_fmap_ext. intros _ x _. simpl. by destruct (bool_decide (P x)).
Qed.

Lemma fdiv32_of_nat_pos (a b : nat) :
  b ≠ 0 →
  fdiv32 (of_nat a) (of_nat b) = round binary32 (Qc_of_nat a / Qc_of_nat b)%Qc.
Proof. intros Hb. unfold fdiv32. by rewrite fdiv_of_nat_pos. Qed.

Lemma Qc_of_nat_nonneg (n : nat) : (0 ≤ Qc_of_nat n)%Qc.
Proof.
  unfold Qc_of_nat. rewrite <- Z2Qc_inj_0. apply (proj1 (Z2Qc_inj_le _ _)). lia.
Qed.

Lemma Qc_of_nat_pos (n : nat) : n ≠ 0 → (0 < Qc_of_nat n)%Qc.
Proof.
  intros Hn. unfold Qc_of_nat. rewrite <- Z2Qc_inj_0.
  apply (proj1 (Z2Qc_inj_lt _ _)). lia.
Qed.

Lemma Qc_of_nat_le (a b : nat) : a ≤ b → (Qc_of_nat a ≤ Qc_of_nat b)%Qc.
Proof. intros Hab. unfold Qc_of_nat. apply (proj1 (Z2Qc_inj_le _ _)). lia. Qed.

Lemma Qcdiv_nonneg (a b : Qc) : (0 ≤ a)%Qc → (0 < b)%Qc → (0 ≤ a / b)%Qc.
Proof.
  intros Ha Hb. unfold Qcdiv. apply Qcmult_nonneg_nonneg; [done|].
  by apply Qclt_le_weak, Qcinv_pos.
Qed.

Lemma Qcdiv_le_1 (a b : Qc) : (0 < b)%Qc → (a ≤ b)%Qc → (a / b ≤ 1)%Qc.
Proof.
  intros Hb Hab. apply (Qcmult_le_mono_pos_r _ _ b Hb).
  rewrite Qcmult_1_l. unfold Qcdiv.
  rewrite <- Qcmult_assoc, Qcmult_inv_l, Qcmult_1_r; [done|].
  intros ->. by apply Qclt_not_eq in Hb.
Qed.

Lemma Qcdiv_le_self (a b : Qc) : (0 ≤ a)%Qc → (1 ≤ b)%Qc → (a / b ≤ a)%Qc.
Proof.
  intros Ha Hb.
  assert (0 < b)%Qc as Hpos by (by eapply Qclt_le_trans; [|exact Hb]).
  apply (Qcmult_le_mono_pos_r _ _ b Hpos). unfold Qcdiv.
  rewrite <- Qcmult_assoc, Qcmult_inv_l, Qcmult_1_r
    by (intros ->; by apply Qclt_not_eq in Hpos).
  rewrite <- (Qcmult_1_r a) at 1. by apply Qcmult_le_mono_nonneg_l.
Qed.

(** A quotient of counts, the lower by the higher, rounds into [0, 1]. *)
Lemma fdiv32_unit (a b : nat) :
  a ≤ b → b ≠ 0 →
  ∃ q, fdiv32 (of_nat a) (of_nat b) = Fin q ∧ (0 ≤ q)%Qc ∧ (q ≤ 1)%Qc.
Proof.
  intros Hab Hb. rewrite fdiv32_of_nat_pos by done.
  rewrite <- Z2Qc_inj_1. apply (round_le binary32); [apply binary32_wf|done|..].
  - apply Qcdiv_nonneg; [apply Qc_of_nat_nonneg|by apply Qc_of_nat_pos].
  - rewrite Z2Qc_inj_1. apply Qcdiv_le_1; [by apply Qc_of_nat_pos|by apply Qc_of_nat_le].
Qed.

Lemma max0_nonpos (q : Qc) : (q ≤ 0)%Qc → Py.max0 (Fin q) = zero.
Proof.
  intros Hq. unfold Py.max0, fgt, zero, of_Z. rewrite Z2Qc_inj_0.
  rewrite bool_decide_false; [done|]. by apply Qcle_ngt.
Qed.

Lemma max0_nonneg (q : Qc) : (0 ≤ q)%Qc → Py.max0 (Fin q) = Fin q.
Proof.
  intros Hq. unfold Py.max0, fgt, zero, of_Z. rewrite Z2Qc_inj_0.
  destruct (decide (0 < q)%Qc) as [Hlt|Hnlt].
  - by rewrite bool_decide_true.
  - rewrite bool_decide_false by done. f_equal.
    apply Qcle_antisym; [done|]. by apply Qcnot_lt_le.
Qed.

(** The difference of two numbers of [0, 1], rounded and cut at zero, is in
    [0, 1]. *)
Lemma max0_fsub32_unit (a b : Qc) :
  (0 ≤ a)%Qc → (a ≤ 1)%Qc → (0 ≤ b)%Qc → (b ≤ 1)%Qc →
  ∃ t, Py.max0 (fsub32 (Fin a) (Fin b)) = Fin t ∧ (0 ≤ t)%Qc ∧ (t ≤ 1)%Qc.
Proof.
  intros Ha0 Ha1 Hb0 Hb1. unfold fsub32, fsub. cbn [fopp fadd rnd].
  destruct (Qclt_le_dec (a + - b) 0)%Qc as [Hneg|Hpos].
  - destruct (round_ge binary32 (a + - b) 1 binary32_wf) as (x & -> & Hx & _);
      [done|by apply Qclt_le_weak| |].
    { rewrite Z2Qc_inj_opp, Z2Qc_inj_1.
      apply Qcle_minus_iff.
      replace (a + - b + - - 1)%Qc with (a + (1 + - b))%Qc by ring.
      apply Qcplus_nonneg_nonneg; [done|]. by apply (proj1 (Qcle_minus_iff _ _)). }
    rewrite max0_nonpos by done. exists 0%Qc. split; [|done].
    unfold zero, of_Z. by rewrite Z2Qc_inj_0.
  - destruct (round_le binary32 (a + - b) 1 binary32_wf) as (x & -> & Hx0 & Hx1);
      [done|done| |].
    { rewrite Z2Qc_inj_1. apply Qcle_minus_iff.
      replace (1 + - (a + - b))%Qc with ((1 + - a) + b)%Qc by ring.
      apply Qcplus_nonneg_nonneg; [|done]. by apply (proj1 (Qcle_minus_iff _ _)). }
    rewrite max0_nonneg by done. exists x. by rewrite Z2Qc_inj_1 in Hx1.
Qed.

(** A running [float32] sum of terms of [0, 1] never leaves [0, 2^24]. *)
Lemma foldl_fadd32_unit (a : Qc) (l : list tfloat) :
  (0 ≤ a)%Qc → (a ≤ Qc_of_Z (2 ^ 24))%Qc →
  Forall (λ x, ∃ t, x = Fin t ∧ (0 ≤ t)%Qc ∧ (t ≤ 1)%Qc) l →
  ∃ v, foldl fadd32 (Fin a) l = Fin v ∧ (0 ≤ v)%Qc ∧ (v ≤ Qc_of_Z (2 ^ 24))%Qc.
Proof.
  intros Ha0 Ha1 Hl. revert a Ha0 Ha1.
  induction Hl as [|x l (t & -> & Ht0 & Ht1) _ IH]; intros a Ha0 Ha1; [by exists a|].
  cbn [foldl]. unfold fadd32 at 2. cbn [fadd rnd].
  destruct (round_saturates binary32 (a + t) binary32_wf) as (v & -> & Hv0 & Hv1).
  - by apply Qcplus_nonneg_nonneg.
  - change (prec binary32) with 24%Z. rewrite Z2Qc_inj_add, Z2Qc_inj_1.
    by apply Qcplus_le_compat.
  - by apply IH.
Qed.

(** Dividing by a positive int, in double precision, keeps a number of
    [0, 2^24] finite and non-negative. *)
Lemma truediv_nonneg (v : Qc) (n : nat) :
  (0 ≤ v)%Qc → (v ≤ Qc_of_Z (2 ^ 24))%Qc → n ≠ 0 →
  ∃ h, Py.truediv (Fin v) n = Py.Ok (Fin h) ∧ (0 ≤ h)%Qc.
Proof.
  intros Hv0 Hv1 Hn. unfold Py.truediv. rewrite decide_False by done.
  unfold fdiv64, float64.
  destruct (round_ge_1 binary64 (Qc_of_Z (Z.of_nat n)) binary64_wf)
    as [->|(d & -> & Hd)].
  { rewrite <- Z2Qc_inj_1. apply (proj1 (Z2Qc_inj_le _ _)). lia. }
  - cbn [fdiv rnd]. exists 0%Qc. split; [reflexivity|done].
  - assert (0 < d)%Qc as Hdpos by (by eapply Qclt_le_trans; [|exact Hd]).
    unfold fdiv. rewrite decide_False by (intros ->; by apply Qclt_not_eq in Hdpos).
    cbn [rnd].
    destruct (round_le binary64 (v / d) (2 ^ 24) binary64_wf) as (h & -> & Hh & _).
    + cbn. lia.
    + by apply Qcdiv_nonneg.
    + eapply Qcle_trans; [|exact Hv1]. by apply Qcdiv_le_self.
    + by exists h.
Qed.

End float32_facts.

(** ** Tensor operations *)

Section tensor_facts.
Import Float Torch.

Lemma filter_fmap {A B} (f : A → B) (P : B → Prop) `{∀ b, Decision (P b)}
    (l : list A) :
  filter P (f <$> l) = f <$> filter (λ a, P (f a)) l.
Proof.
  induction l as [|a l IH]; [reflexivity|].
  rewrite fmap_cons. destruct (decide (P (f a))) as [HP|HP].
  - rewrite !filter_cons_True by done. by rewrite fmap_cons, IH.
  - rewrite !filter_cons_False by done. exact IH.
Qed.

Lemma filter_ext_elem {A} (P Q : A → Prop)
    `{∀ a, Decision (P a)} `{∀ a, Decision (Q a)} (l : list A) :
  (∀ a, a ∈ l → P a ↔ Q a) → filter P l = filter Q l.
Proof.
  induction l as [|a l IH]; intros Hext; [reflexivity|].
  assert (filter P l = filter Q l) as Hl.
  { apply IH. intros b Hb. apply Hext. by right. }
  destruct (decide (P a)) as [HP|HP].
  - rewrite !filter_cons_True; [by rewrite Hl|by apply Hext; [left|]|done].
  - rewrite !filter_cons_False; [done| |done].
    intros HQ. apply HP, Hext; [left|done].
Qed.

Lemma index_select_total {A} `{Inhabited A} (t : list A) (idx : list nat) :
  Forall (λ i, i < length t) idx →
  index_select t idx = Py.Ok ((λ i, t !!! i) <$> idx).
Proof.
  intros Hidx. unfold index_select.
  rewrite (mapM_Some_2 _ idx ((λ i, t !!! i) <$> idx)); [reflexivity|].
  induction Hidx as [|i idx Hi _ IH]; [constructor|].
  rewrite fmap_cons. constructor; [|exact IH].
  by apply list_lookup_lookup_total_lt.
Qed.

Lemma index_select_raises {A} (t : list A) (idx : list nat) :
  ¬ Forall (λ i, i < length t) idx →
  index_select t idx = Py.Raise Py.IndexError.
Proof.
  intros Hidx. unfold index_select.
  destruct (mapM (λ i, t !! i) idx) as [r|] eqn:Hr; [|reflexivity].
  exfalso. apply Hidx. clear Hidx. apply mapM_Some_1 in Hr.
  induction Hr as [|i a idx r Hi _ IH]; constructor; [|exact IH].
  by eapply lookup_lt_Some.
Qed.

Lemma zip_fmap_fst_snd {A B} (f : A → B) (l : list (A * A)) :
  zip (f <$> l.*1) (f <$> l.*2) = (λ e, (f e.1, f e.2)) <$> l.
Proof. induction l as [|[a b] l IH]; [reflexivity|]. cbn. by f_equal. Qed.

Lemma zip_fmap_self {A B} (h : A → B) (l : list A) :
  zip l (h <$> l) = (λ a, (a, h a)) <$> l.
Proof. induction l as [|a l IH]; [reflexivity|]. cbn. by f_equal. Qed.

(** Selecting with the mask of the positions labelled [k]. *)
Lemma masked_select_class {A} (h : nat → A) (y : list nat) (k : nat) :
  masked_select (h <$> seq 0 (length y)) ((λ l, bool_decide (l = k)) <$> y)
  = Py.Ok (h <$> filter (λ v, y !! v = Some k) (seq 0 (length y))).
Proof.
  unfold masked_select.
  rewrite decide_True by (by rewrite !length_fmap, length_seq).
  f_equal. induction y as [|l y IH] using rev_ind; [reflexivity|].
  rewrite length_app, Nat.add_1_r, seq_S, !fmap_app. cbn [plus].
  rewrite zip_with_app by (by rewrite !length_fmap, length_seq).
  rewrite !filter_app, !fmap_app, IH. f_equal.
  - f_equal. apply filter_ext_elem. intros v Hv. apply elem_of_seq in Hv.
    by rewrite lookup_app_l by lia.
  - pose proof (list_lookup_middle y [] l (length y) eq_refl) as Hlast.
    cbn [fmap list_fmap zip_with].
    destruct (decide (l = k)) as [->|Hne].
    + rewrite bool_decide_true by done.
      rewrite !filter_cons_True by done. reflexivity.
    + rewrite bool_decide_false by done.
      rewrite !filter_cons_False by (cbn [snd]; congruence). reflexivity.
Qed.

Lemma count_true_class (y : list nat) (k : nat) :
  count_true ((λ l, bool_decide (l = k)) <$> y)
  = length (filter (λ v, y !! v = Some k) (seq 0 (length y))).
Proof.
  unfold count_true.
  induction y as [|l y IH] using rev_ind; [reflexivity|].
  rewrite length_app, Nat.add_1_r, seq_S, !fmap_app, !filter_app, !length_app, IH.
  cbn [plus]. f_equal.
  - f_equal. apply filter_ext_elem. intros v Hv. apply elem_of_seq in Hv.
    by rewrite lookup_app_l by lia.
  - pose proof (list_lookup_middle y [] l (length y) eq_refl) as Hlast.
    cbn [fmap list_fmap].
    destruct (decide (l = k)) as [->|Hne].
    + rewrite bool_decide_true by done.
      rewrite !filter_cons_True by done. reflexivity.
    + rewrite bool_decide_false by done.
      rewrite !filter_cons_False by congruence. reflexivity.
Qed.


End tensor_facts.

(** ** linkx_homophily *)

Section count_facts.
Import LinkxSpec.

Lemma sum_list_with_add {A} (f h : A → nat) (l : list A) :
  sum_list_with (λ a, f a + h a) l = sum_list_with f l + sum_list_with h l.
Proof. induction l as [|a l IH]; [done|]. cbn [sum_list_with]. rewrite IH. lia. Qed.

Lemma sum_indicator_NoDup (l : list nat) (u : nat) :
  NoDup l → sum_list_with (λ v, if decide (u = v) then 1 else 0) l ≤ 1.
Proof.
  induction 1 as [|v l Hnot _ IH]; [simpl; lia|]. cbn [sum_list_with].
  destruct (decide (u = v)) as [->|Hne]; [|lia].
  assert (sum_list_with (λ v0, if decide (v = v0) then 1 else 0) l = 0) as ->; [|lia].
  clear IH. induction l as [|w l IH]; [done|].
  apply not_elem_of_cons in Hnot as [Hne Hnot]. cbn [sum_list_with].
  rewrite decide_False by done. by rewrite IH.
Qed.

(** The in-degrees of distinct nodes add up to at most the number of edges. *)
Lemma sum_in_degree_le (g : Dgl.DGLGraph) (l : list nat) :
  NoDup l → sum_list_with (in_degree g) l ≤ Dgl.num_edges g.
Proof.
  intros Hnd. unfold in_degree, Dgl.num_edges.
  induction (Dgl.edge_list g) as [|e E IH].
  { clear Hnd. induction l as [|v l IHl]; [done|]. cbn in *. lia. }
  transitivity (sum_list_with (λ v, (if decide (e.2 = v) then 1 else 0)
                                    + length (filter (λ e0 : nat * nat, e0.2 = v) E)) l).
  - apply Nat.eq_le_incl. clear IH Hnd. induction l as [|v l IHl]; [done|].
    cbn [sum_list_with]. rewrite IHl. f_equal.
    destruct (decide (e.2 = v)) as [Hv|Hv].
    + by rewrite filter_cons_True.
    + by rewrite filter_cons_False.
  - rewrite sum_list_with_add. pose proof (sum_indicator_NoDup l e.2 Hnd).
    cbn [length]. lia.
Qed.

Lemma NoDup_class_nodes (g : Dgl.DGLGraph) (y : list nat) (k : nat) :
  NoDup (class_nodes g y k).
Proof. apply NoDup_filter, NoDup_seq. Qed.

Lemma class_degree_le_edges (g : Dgl.DGLGraph) (y : list nat) (k : nat) :
  class_degree g y k ≤ Dgl.num_edges g.
Proof. apply sum_in_degree_le, NoDup_class_nodes. Qed.

Lemma class_nodes_le (g : Dgl.DGLGraph) (y : list nat) (k : nat) :
  length (class_nodes g y k) ≤ Dgl.num_nodes g.
Proof.
  unfold class_nodes. etrans; [apply length_filter|]. by rewrite length_seq.
Qed.

Lemma in_degree_le_edges (g : Dgl.DGLGraph) (v : nat) : in_degree g v ≤ Dgl.num_edges g.
Proof. apply length_filter. Qed.

Lemma same_class_le_in_degree (g : Dgl.DGLGraph) (y : list nat) (v : nat) :
  same_class_in_degree g y v ≤ in_degree g v.
Proof.
  unfold same_class_in_degree, in_degree.
  rewrite <- (list_filter_filter_l (λ e : nat * nat, e.2 = v ∧ y !! e.1 = y !! e.2)
                (λ e : nat * nat, e.2 = v)) by tauto.
  apply length_filter.
Qed.

Lemma same_class_le_degree (g : Dgl.DGLGraph) (y : list nat) (k : nat) :
  class_same_degree g y k ≤ class_degree g y k.
Proof.
  unfold class_same_degree, class_degree.
  induction (class_nodes g y k) as [|v l IH]; [done|].
  cbn [sum_list_with]. pose proof (same_class_le_in_degree g y v). lia.
Qed.

End count_facts.

Section linkx_facts.
Import Float Torch EvalUtils LinkxSpec.

Variables (g : Dgl.DGLGraph) (y : list nat).
Hypothesis Hwf : Dgl.graph_wf g.
Hypothesis Hlen : length y = Dgl.num_nodes g.
Hypothesis HE : (Z.of_nat (Dgl.num_edges g) ≤ 2 ^ 24)%Z.
Hypothesis HV : (Z.of_nat (Dgl.num_nodes g) ≤ 2 ^ 24)%Z.

Let SCD : list tfloat :=
  (λ v, of_nat (same_class_in_degree g y v)) <$> seq 0 (Dgl.num_nodes g).
Let DEG : list tfloat :=
  (λ v, of_nat (in_degree g v)) <$> seq 0 (Dgl.num_nodes g).

Lemma labels_of_endpoints :
  index_select y (Dgl.edge_list g).*1 = Py.Ok ((λ u, y !!! u) <$> (Dgl.edge_list g).*1)
  ∧ index_select y (Dgl.edge_list g).*2 = Py.Ok ((λ u, y !!! u) <$> (Dgl.edge_list g).*2).
Proof.
  split; apply index_select_total; rewrite Forall_fmap, Hlen;
    (eapply Forall_impl; [exact Hwf|]); simpl; intros e He; tauto.
Qed.

(** The scatter sum over the in-edges counts the same-class in-edges: below
    [2^24] edges no addition rounds. *)
Lemma same_class_deg_counts :
  Dgl.update_all_copy_e_sum g
    ((λ p : nat * nat, if bool_decide (p.1 = p.2) then one else zero)
       <$> zip ((λ u, y !!! u) <$> (Dgl.edge_list g).*1)
               ((λ u, y !!! u) <$> (Dgl.edge_list g).*2))
  = SCD.
Proof.
  unfold Dgl.update_all_copy_e_sum, SCD.
  rewrite zip_fmap_fst_snd, <- list_fmap_compose.
  apply list_fmap_ext. intros _ v _.
  rewrite zip_fmap_self, filter_fmap, <- list_fmap_compose.
  change (fsum32 ((λ e : nat * nat,
                     if bool_decide (y !!! e.1 = y !!! e.2) then one else zero)
                  <$> filter (λ e : nat * nat, e.2 = v) (Dgl.edge_list g))
          = of_nat (same_class_in_degree g y v)).
  assert (length (filter (λ e : nat * nat, y !!! e.1 = y !!! e.2)
                    (filter (λ e : nat * nat, e.2 = v) (Dgl.edge_list g)))
          = same_class_in_degree g y v) as Hcount.
  { unfold same_class_in_degree. rewrite list_filter_filter. f_equal.
    apply filter_ext_elem. intros e He.
    unfold Dgl.graph_wf in Hwf. rewrite Forall_forall in Hwf.
    destruct (Hwf e He) as [H1 H2]. rewrite <- Hlen in H1, H2.
    rewrite !(list_lookup_lookup_total_lt y) by done.
    simpl. split; [intros [-> ->]; done|intros [-> [= ->]]; done]. }
  rewrite (fsum32_indicator (λ e : nat * nat, y !!! e.1 = y !!! e.2)); rewrite Hcount;
    [done|].
  pose proof (same_class_le_in_degree g y v). pose proof (in_degree_le_edges g v). lia.
Qed.

Lemma in_degrees_counts : float32 <$> Dgl.in_degrees g = DEG.
Proof.
  unfold Dgl.in_degrees, DEG. rewrite <- list_fmap_compose.
  apply list_fmap_ext. intros _ v _. simpl. apply float32_of_nat.
  pose proof (in_degree_le_edges g v). unfold in_degree in *. lia.
Qed.

Lemma linkx_class_term_eval (value : tfloat) (k : nat) :
  linkx_class_term SCD DEG (Dgl.num_nodes g) y value k
  = Py.Ok (fadd32 value (class_term32 g y k)).
Proof.
  unfold linkx_class_term, SCD, DEG. rewrite <- Hlen.
  rewrite !masked_select_class, count_true_class. cbn [mbind Py.result_bind].
  rewrite Hlen.
  fold (class_nodes g y k).
  pose proof (same_class_le_degree g y k). pose proof (class_degree_le_edges g y k).
  pose proof (class_nodes_le g y k).
  rewrite !fsum32_of_nat_with;
    [|fold (class_degree g y k); lia|fold (class_same_degree g y k); lia].
  rewrite !float32_of_nat by lia. reflexivity.
Qed.

Lemma linkx_loop_eval (ks : list nat) (value : tfloat) :
  Py.for_ ks (linkx_class_term SCD DEG (Dgl.num_nodes g) y) value
  = Py.Ok (foldl fadd32 value (class_term32 g y <$> ks)).
Proof.
  revert value. induction ks as [|k ks IH]; intros value; [done|].
  cbn [Py.for_]. rewrite linkx_class_term_eval. cbn [mbind Py.result_bind].
  by rewrite IH.
Qed.

(** What [linkx_homophily] computes, for labels of maximum [ymax]. *)
Lemma linkx_homophily_eval (ymax : nat) :
  max_item y = Py.Ok ymax →
  linkx_homophily g y
  = Py.truediv (fsum32 (class_term32 g y <$> seq 0 (ymax + 1))) ymax.
Proof.
  intros Hmax. unfold linkx_homophily, Dgl.edges.
  destruct labels_of_endpoints as [-> ->]. cbn [mbind Py.result_bind].
  rewrite same_class_deg_counts, in_degrees_counts, Hmax.
  cbn [mbind Py.result_bind]. rewrite linkx_loop_eval. cbn [mbind Py.result_bind].
  by replace (ymax + 1 - 1) with ymax by lia.
Qed.

(** Every class adds a number of [0, 1]. *)
Lemma class_term32_unit (k : nat) :
  Dgl.num_nodes g ≠ 0 →
  ∃ t, class_term32 g y k = Fin t ∧ (0 ≤ t)%Qc ∧ (t ≤ 1)%Qc.
Proof.
  intros HN. unfold class_term32.
  destruct (fdiv32_unit (length (class_nodes g y k)) (Dgl.num_nodes g))
    as (s & -> & Hs0 & Hs1); [apply class_nodes_le|done|].
  destruct (decide (class_degree g y k = 0)) as [Hz|Hnz].
  - pose proof (same_class_le_degree g y k) as Hle.
    replace (class_same_degree g y k) with 0 by lia. rewrite Hz.
    exists 0%Qc. split; [|done]. vm_compute fdiv32.
    cbn [fsub32 fsub fadd rnd]. unfold Py.max0. cbn [fgt].
    unfold zero, of_Z. by rewrite Z2Qc_inj_0.
  - destruct (fdiv32_unit (class_same_degree g y k) (class_degree g y k))
      as (r & -> & Hr0 & Hr1); [apply same_class_le_degree|done|].
    by apply max0_fsub32_unit.
Qed.

(** With at least two classes the value is a non-negative number. *)
Lemma linkx_homophily_nonneg (ymax : nat) :
  max_item y = Py.Ok ymax → 1 ≤ ymax →
  ∃ h, linkx_homophily g y = Py.Ok (Fin h) ∧ (0 ≤ h)%Qc.
Proof.
  intros Hmax Hge.
  assert (Dgl.num_nodes g ≠ 0) as HN.
  { rewrite <- Hlen. destruct y; [discriminate|simpl; lia]. }
  rewrite (linkx_homophily_eval ymax Hmax). unfold fsum32, zero, of_Z.
  rewrite Z2Qc_inj_0.
  destruct (foldl_fadd32_unit 0 (class_term32 g y <$> seq 0 (ymax + 1)))
    as (v & -> & Hv0 & Hv1); [done| | |].
  - rewrite <- Z2Qc_inj_0. apply (proj1 (Z2Qc_inj_le _ _)). lia.
  - apply Forall_fmap, Forall_forall. intros k _. by apply class_term32_unit.
  - apply truediv_nonneg; [done|done|lia].
Qed.


End linkx_facts.

Section linkx_formula.
Import Float Torch EvalUtils LinkxSpec.




End linkx_formula.

(** C10, as stated, fails: on a two-class graph whose class 0 has zero total
    in-degree, [linkx_homophily] returns the number 0, not NaN. *)
Lemma linkx_zero_degree_class_not_nan :
  Dgl.graph_wf one_edge_graph
  ∧ length one_edge_labels = Dgl.num_nodes one_edge_graph
  ∧ Torch.max_item one_edge_labels = Py.Ok 1
  ∧ LinkxSpec.class_degree one_edge_graph one_edge_labels 0 = 0
  ∧ EvalUtils.linkx_homophily one_edge_graph one_edge_labels = Py.Ok Float.zero
  ∧ EvalUtils.linkx_homophily one_edge_graph one_edge_labels ≠ Py.Ok Float.NaN.
Proof.
  assert (EvalUtils.linkx_homophily one_edge_graph one_edge_labels = Py.Ok Float.zero)
    as Hval by (apply (bool_decide_unpack _); vm_compute; exact I).
  split_and!; try reflexivity; try exact Hval.
  - repeat constructor; simpl; lia.
  - rewrite Hval. discriminate.
Qed.

(** C10, amended.  When the labels reach at least 1 (two classes or more)
    and some class index [k <= max(y)] has zero total in-degree (possibly
    no member at all), the quotient of that class is [0/0 = NaN], the
    builtin [max(0, NaN)] is [0], and the class adds [0] to [value];
    [linkx_homophily] raises nothing and returns a number that is not NaN
    and not negative.  (The counts are taken to be at most [2^24], which
    [float32] holds exactly.) *)
Theorem linkx_zero_degree_class_contributes_zero
    (g : Dgl.DGLGraph) (y : list nat) (ymax k : nat) :
  Dgl.graph_wf g → length y = Dgl.num_nodes g →
  (Z.of_nat (Dgl.num_edges g) ≤ 2 ^ 24)%Z →
  (Z.of_nat (Dgl.num_nodes g) ≤ 2 ^ 24)%Z →
  Torch.max_item y = Py.Ok ymax → 1 ≤ ymax →
  k ≤ ymax → LinkxSpec.class_degree g y k = 0 →
  Float.fdiv32 (Float.of_nat (LinkxSpec.class_same_degree g y k))
               (Float.of_nat (LinkxSpec.class_degree g y k)) = Float.NaN
  ∧ (∀ s, Py.max0 (Float.fsub32 Float.NaN s) = Float.zero)
  ∧ LinkxSpec.class_term32 g y k = Float.zero
  ∧ EvalUtils.linkx_homophily g y
    = Py.truediv
        (Float.fsum32 (LinkxSpec.class_term32 g y <$> seq 0 (ymax + 1))) ymax
  ∧ (∃ h, EvalUtils.linkx_homophily g y = Py.Ok (Float.Fin h) ∧ (0 ≤ h)%Qc)
  ∧ EvalUtils.linkx_homophily g y ≠ Py.Ok Float.NaN.
Proof.
  intros Hwf Hlen HE HV Hmax Hge Hk Hz.
  destruct (linkx_homophily_nonneg g y Hwf Hlen HE HV ymax Hmax Hge) as (h & Hval & Hh).
  assert (Float.fdiv32 (Float.of_nat (LinkxSpec.class_same_degree g y k))
                       (Float.of_nat (LinkxSpec.class_degree g y k)) = Float.NaN) as Hnan.
  { pose proof (same_class_le_degree g y k) as Hle.
    replace (LinkxSpec.class_same_degree g y k) with 0 by lia.
    rewrite Hz. reflexivity. }
  split_and!.
  - exact Hnan.
  - intros s. reflexivity.
  - unfold LinkxSpec.class_term32. rewrite Hnan. reflexivity.
  - by apply linkx_homophily_eval.
  - by exists h.
  - rewrite Hval. discriminate.
Qed.

Lemma linkx_zero_degree_class_contributes_zero_witness :
  Float.fdiv32 (Float.of_nat (LinkxSpec.class_same_degree one_edge_graph one_edge_labels 0))
               (Float.of_nat (LinkxSpec.class_degree one_edge_graph one_edge_labels 0))
  = Float.NaN
  ∧ (∀ s, Py.max0 (Float.fsub32 Float.NaN s) = Float.zero)
  ∧ LinkxSpec.class_term32 one_edge_graph one_edge_labels 0 = Float.zero
  ∧ EvalUtils.linkx_homophily one_edge_graph one_edge_labels
    = Py.truediv
        (Float.fsum32
           (LinkxSpec.class_term32 one_edge_graph one_edge_labels <$> seq 0 (1 + 1))) 1
  ∧ (∃ h, EvalUtils.linkx_homophily one_edge_graph one_edge_labels
          = Py.Ok (Float.Fin h) ∧ (0 ≤ h)%Qc)
  ∧ EvalUtils.linkx_homophily one_edge_graph one_edge_labels ≠ Py.Ok Float.NaN.
Proof.
  apply (linkx_zero_degree_class_contributes_zero one_edge_graph one_edge_labels 1 0).
  - unfold Dgl.graph_wf, one_edge_graph. simpl. repeat constructor.
  - reflexivity.
  - change (Z.of_nat 1 ≤ 2 ^ 24)%Z. lia.
  - change (Z.of_nat 2 ≤ 2 ^ 24)%Z. lia.
  - reflexivity.
  - lia.
  - lia.
  - reflexivity.
Defined.

(** ** The monad of generator computations *)

Section monad_facts.
Import Torch.
Context {G : Type}.

Lemma M_bind_Ok {A B} (m : M G A) (k : A → M G B) (g g' : G) (b : B) :
  (m ≫= k) g = (Py.Ok b, g') →
  ∃ a g1, m g = (Py.Ok a, g1) ∧ k a g1 = (Py.Ok b, g').
Proof.
  unfold mbind, M_bind. destruct (m g) as [[a|e] g1]; [eauto|discriminate].
Qed.

Lemma M_bind_eval {A B} (m : M G A) (k : A → M G B) (g g1 : G) (a : A) :
  m g = (Py.Ok a, g1) → (m ≫= k) g = k a g1.
Proof. unfold mbind, M_bind. by intros ->. Qed.

Lemma M_bind_raise {A B} (m : M G A) (k : A → M G B) (g g1 : G) (e : Py.exn) :
  m g = (Py.Raise e, g1) → (m ≫= k) g = (Py.Raise e, g1).
Proof. unfold mbind, M_bind. by intros ->. Qed.

Lemma lift_Ok {A} (r : Py.result A) (g g' : G) (a : A) :
  lift r g = (Py.Ok a, g') → r = Py.Ok a ∧ g' = g.
Proof. unfold lift. by intros [= -> ->]. Qed.

End monad_facts.

(** ** sample_subg *)

Section sample_facts.
Import Float Torch EvalUtils.
Context `{Generator G}.

Lemma elem_of_nonzero (t : list bool) (i : nat) :
  i ∈ nonzero t ↔ t !! i = Some true.
Proof.
  unfold nonzero. rewrite list_elem_of_filter, elem_of_seq. split; [tauto|].
  intros Hi. split; [done|]. apply lookup_lt_Some in Hi. lia.
Qed.

Lemma NoDup_nonzero (t : list bool) : NoDup (nonzero t).
Proof. apply NoDup_filter, NoDup_seq. Qed.

Lemma elem_of_nonzero2 (A : list (list tfloat)) (i j : nat) :
  (i, j) ∈ nonzero2 A ↔
  ∃ row a, A !! i = Some row ∧ row !! j = Some a ∧ feq a zero = false.
Proof.
  unfold nonzero2. rewrite list_elem_of_join. split.
  - intros (l & Hij & Hl).
    apply elem_of_lookup_imap in Hl as (i' & row & -> & Hrow).
    apply list_elem_of_fmap in Hij as (j' & [= <- <-] & Hj).
    apply elem_of_nonzero in Hj. unfold to_bool in Hj.
    rewrite list_lookup_fmap in Hj.
    destruct (row !! j) as [a|] eqn:Ha; [|discriminate].
    exists row, a. split_and!; [done..|].
    simpl in Hj. injection Hj as Hj. by apply negb_true_iff.
  - intros (row & a & Hrow & Ha & Hnz).
    exists ((λ j, (i, j)) <$> nonzero (to_bool row)). split.
    + apply list_elem_of_fmap. exists j. split; [done|].
      apply elem_of_nonzero. unfold to_bool.
      rewrite list_lookup_fmap, Ha. simpl. by rewrite Hnz.
    + by apply (elem_of_lookup_imap_2
                  (λ i row, (λ j, (i, j)) <$> nonzero (to_bool row)) A row i).
Qed.

(** The candidate edges: the edges [(i, j)] of the graph with [i < j]. *)
Lemma elem_of_upper_edges (g : Dgl.DGLGraph) (i j : nat) :
  (i, j) ∈ nonzero2 (triu (Dgl.adj_dense g) 1) ↔
  i < j ∧ j < Dgl.num_nodes g ∧ (i, j) ∈ Dgl.edge_list g.
Proof.
  rewrite elem_of_nonzero2. unfold triu, Dgl.adj_dense.
  setoid_rewrite list_lookup_imap. setoid_rewrite list_lookup_fmap.
  split.
  - intros (row & a & Hrow & Ha & Hnz).
    destruct (seq 0 (Dgl.num_nodes g) !! i) as [i'|] eqn:Hi; [|discriminate].
    apply lookup_seq in Hi as [-> Hi]. simpl in Hrow. injection Hrow as <-.
    rewrite list_lookup_imap, list_lookup_fmap in Ha.
    destruct (seq 0 (Dgl.num_nodes g) !! j) as [j'|] eqn:Hj; [|discriminate].
    apply lookup_seq in Hj as [-> Hj]. simpl in Ha. injection Ha as <-.
    destruct (decide (1 ≤ Z.of_nat j - Z.of_nat i)%Z) as [Hup|Hlow].
    + split_and!; [lia|done|].
      destruct (decide ((i, j) ∈ Dgl.edge_list g)) as [Hin|_]; [done|].
      exfalso. revert Hnz. unfold feq, zero. rewrite bool_decide_true; done.
    + exfalso. revert Hnz. unfold feq, zero. rewrite bool_decide_true; done.
  - intros (Hij & HjN & Hin).
    eexists _, _. rewrite !lookup_seq_lt by lia. simpl. split; [reflexivity|].
    rewrite list_lookup_imap, list_lookup_fmap, lookup_seq_lt by done. simpl.
    split; [reflexivity|]. rewrite decide_True by lia.
    rewrite decide_True by done. by vm_compute.
Qed.

Lemma bidirected_edges (g : Dgl.DGLGraph) :
  Dgl.edge_list (Dgl.to_bidirected g)
  ≡ₚ remove_dups (Dgl.edge_list g ++ (prod_swap <$> Dgl.edge_list g)).
Proof. unfold Dgl.to_bidirected. cbn [Dgl.edge_list]. apply merge_sort_Permutation. Qed.

Lemma length_remove_dups_le {A} `{EqDecision A} (l : list A) :
  length (remove_dups l) ≤ length l.
Proof.
  induction l as [|a l IH]; [done|]. cbn [remove_dups].
  destruct (decide_rel elem_of a l); simpl; lia.
Qed.

Lemma bidirected_symmetric (g : Dgl.DGLGraph) (u v : nat) :
  (u, v) ∈ Dgl.edge_list (Dgl.to_bidirected g)
  ↔ (v, u) ∈ Dgl.edge_list (Dgl.to_bidirected g).
Proof.
  rewrite !bidirected_edges. cbn [Dgl.edge_list].
  rewrite !elem_of_remove_dups, !elem_of_app, !list_elem_of_fmap.
  split; (intros [Hin|([a b] & [= -> ->] & Hin)];
          [right; by exists (a, b) || (eexists (_, _); by split)|by left]).
Qed.

Example to_bidirected_sorted :
  Dgl.edge_list (Dgl.to_bidirected (Dgl.Graph 3 [(1, 2); (0, 1); (1, 2); (2, 0)] ∅))
  = [(0, 1); (0, 2); (1, 0); (1, 2); (2, 0); (2, 1)]
  ∧ Dgl.adj_dense (Dgl.Graph 2 [(0, 1); (0, 1)] ∅)
    = [[Float.zero; Float.one]; [Float.zero; Float.zero]].
Proof. split; vm_compute; reflexivity. Qed.

End sample_facts.

Section sample_results.
Import Float Torch EvalUtils.
Context `{Generator G}.

Lemma torch_randperm_eval (n : nat) (gen : G) :
  torch_randperm n gen = (Py.Ok (randperm n gen).1, (randperm n gen).2).
Proof. unfold torch_randperm. by destruct (randperm n gen). Qed.

Lemma randperm_bound (n : nat) (gen : G) :
  Forall (λ i, i < n) (randperm n gen).1.
Proof.
  apply Forall_forall. intros i Hi.
  rewrite (randperm_perm n gen) in Hi. apply elem_of_seq in Hi. lia.
Qed.

Lemma graph_returns (l : list (nat * nat)) (n : nat) :
  Forall (λ e : nat * nat, e.1 < n ∧ e.2 < n) l →
  Dgl.graph l.*1 l.*2 n = Py.Ok (Dgl.Graph n l ∅).
Proof.
  intros Hl. unfold Dgl.graph. rewrite decide_True, zip_fst_snd; [done|].
  rewrite !length_fmap, !Forall_fmap. split_and!; [done|..];
    (eapply Forall_impl; [exact Hl|]); simpl; tauto.
Qed.

(** [sample_subg] always returns: the symmetrized graph of at most
    [edge_limit // 2] edges [(i, j)], [i < j], of the given graph. *)
Lemma sample_subg_returns (self : Evaluator) (g : Dgl.DGLGraph) (gen : G) :
  ∃ sel : list (nat * nat),
    sample_subg self g gen
    = (Py.Ok (Dgl.to_bidirected (Dgl.Graph (Dgl.num_nodes g) sel ∅)),
       (randperm (length (nonzero2 (triu (Dgl.adj_dense g) 1))) gen).2)
    ∧ length sel ≤ edge_limit self / 2
    ∧ Forall (λ e : nat * nat,
                e.1 < e.2 ∧ e.2 < Dgl.num_nodes g ∧ e ∈ Dgl.edge_list g) sel.
Proof.
  set (cand := nonzero2 (triu (Dgl.adj_dense g) 1)).
  set (indices := Py.slice (randperm (length cand) gen).1 0 (edge_limit self / 2)).
  assert (Forall (λ i, i < length cand) indices) as Hidx.
  { apply Forall_forall. intros i Hi. unfold indices, Py.slice in Hi.
    apply subseteq_take in Hi. rewrite drop_0 in Hi.
    pose proof (randperm_bound (length cand) gen) as Hb.
    rewrite Forall_forall in Hb. by apply Hb. }
  assert (Forall (λ e : nat * nat,
                    e.1 < e.2 ∧ e.2 < Dgl.num_nodes g ∧ e ∈ Dgl.edge_list g)
                 ((λ i, cand !!! i) <$> indices)) as Hsel.
  { apply Forall_fmap, Forall_forall. intros i Hi. simpl.
    rewrite Forall_forall in Hidx. specialize (Hidx i Hi).
    apply list_lookup_lookup_total_lt in Hidx.
    apply list_elem_of_lookup_2 in Hidx.
    destruct (cand !!! i) as [u v]. by apply elem_of_upper_edges in Hidx. }
  exists ((λ i, cand !!! i) <$> indices). split_and!.
  - unfold sample_subg. fold cand.
    rewrite (M_bind_eval _ _ _ _ _ (torch_randperm_eval _ _)).
    fold indices. rewrite (index_select_total cand indices Hidx).
    cbv beta iota delta [lift mbind M_bind mret M_ret].
    rewrite graph_returns; [reflexivity|].
    eapply Forall_impl; [exact Hsel|]. simpl. intros e He. lia.
  - rewrite length_fmap. unfold indices, Py.slice.
    rewrite length_take. lia.
  - exact Hsel.
Qed.

End sample_results.

Example triangle_counts :
  Nx.triangles (Nx.of_dgl triangle_graph) = [1; 1; 1]
  ∧ Nx.triangles (Nx.of_dgl path_graph) = [0; 0; 0]
  ∧ EvalUtils.get_triangle_count (Nx.of_dgl triangle_graph) = Float.one.
Proof.
  split_and!; [vm_compute; reflexivity..|].
  apply (bool_decide_unpack _). vm_compute. exact I.
Qed.

(** Sampling the two-pairs graph under a cap of 2 keeps one of its two
    undirected edges, in both directions. *)
Example sample_subg_two_pairs :
  (EvalUtils.sample_subg
     {| EvalUtils.data_name := "cora"; EvalUtils.edge_limit := 2 |}
     two_pairs_graph (0 : nat)).1
  = Py.Ok (Dgl.Graph 4 [(0, 1); (1, 0)] ∅).
Proof. vm_compute. reflexivity. Qed.

(** C5. Whatever the cap [edge_limit], a graph with more edges than the
    cap is sampled: [sample_subg] returns, its result has at most
    [edge_limit] directed edge entries, none repeated, on the same nodes,
    and holds [(u, v)] exactly when it holds [(v, u)]; a graph with at most
    [edge_limit] edges is used as it is.  The constructor sets the cap to
    the minimum of the real graph's edge count and 20000. *)
Theorem choose_subg_sampled_bounded_symmetric `{Torch.Generator G}
    (self : EvalUtils.Evaluator) (g : Dgl.DGLGraph) (gen : G) :
  (EvalUtils.edge_limit self < Dgl.num_edges g →
     ∃ (sub : Dgl.DGLGraph) (gen' : G),
       EvalUtils.choose_subg self g gen = (Py.Ok sub, gen')
       ∧ EvalUtils.sample_subg self g gen = (Py.Ok sub, gen')
       ∧ Dgl.num_edges sub ≤ EvalUtils.edge_limit self
       ∧ (∀ u v, (u, v) ∈ Dgl.edge_list sub ↔ (v, u) ∈ Dgl.edge_list sub)
       ∧ NoDup (Dgl.edge_list sub)
       ∧ Dgl.num_nodes sub = Dgl.num_nodes g)
  ∧ (Dgl.num_edges g ≤ EvalUtils.edge_limit self →
     EvalUtils.choose_subg self g gen = (Py.Ok g, gen))
  ∧ (∀ name X Y self' pp gen',
       EvalUtils.init name g X Y gen = (Py.Ok (self', pp), gen') →
       EvalUtils.edge_limit self' = Nat.min (Dgl.num_edges g) 20000).
Proof.
  split_and!.
  - intros Hover.
    destruct (sample_subg_returns self g gen) as (sel & Hrun & Hlen & Hsel).
    eexists _, _. split_and!.
    + unfold EvalUtils.choose_subg. rewrite decide_True by done. exact Hrun.
    + exact Hrun.
    + unfold Dgl.num_edges. rewrite bidirected_edges. cbn [Dgl.edge_list].
      etransitivity; [apply length_remove_dups_le|].
      rewrite length_app, length_fmap.
      pose proof (Nat.div_mod_eq (EvalUtils.edge_limit self) 2). lia.
    + intros u v. apply bidirected_symmetric.
    + rewrite bidirected_edges. apply NoDup_remove_dups.
    + reflexivity.
  - intros Hunder. unfold EvalUtils.choose_subg.
    rewrite decide_False by lia. reflexivity.
  - intros name X Y self' pp gen' Hinit. unfold EvalUtils.init in Hinit.
    apply M_bind_Ok in Hinit as (flag & g1 & _ & Hinit).
    apply M_bind_Ok in Hinit as (pp' & g2 & _ & Hret).
    by injection Hret as <- _ _.
Qed.

(** ** Index assignment and the masks *)

Section fill_facts.
Import Float Torch MaskSpec.

Lemma length_fill_list (t : list tfloat) (idx : list nat) :
  length (fill_list t idx) = length t.
Proof.
  revert t. induction idx as [|i idx IH]; intros t; [done|].
  cbn [fill_list foldl]. fold (fill_list (<[i:=one]> t) idx).
  by rewrite IH, length_insert.
Qed.

Lemma fill_list_app (t : list tfloat) (a b : list nat) :
  fill_list (fill_list t a) b = fill_list t (a ++ b).
Proof. unfold fill_list. by rewrite foldl_app. Qed.

Lemma index_fill_returns (t : list tfloat) (idx : list nat) :
  Forall (λ i, i < length t) idx →
  index_fill t idx one = Py.Ok (fill_list t idx).
Proof. intros Hidx. unfold index_fill. by rewrite decide_True. Qed.

Lemma lookup_fill_list (t : list tfloat) (idx : list nat) (v : nat) :
  fill_list t idx !! v
  = if decide (v ∈ idx ∧ v < length t) then Some one else t !! v.
Proof.
  revert t. induction idx as [|i idx IH]; intros t.
  - cbn. rewrite decide_False; [done|]. intros [Hin _]. by apply elem_of_nil in Hin.
  - cbn [fill_list foldl]. fold (fill_list (<[i:=one]> t) idx).
    rewrite IH, length_insert.
    destruct (decide (v ∈ idx ∧ v < length t)) as [[Hin Hlt]|Hno].
    + rewrite decide_True; [done|]. split; [by right|done].
    + destruct (decide (v = i)) as [->|Hne].
      * destruct (decide (i < length t)) as [Hlt|Hge].
        -- rewrite list_lookup_insert_eq by done.
           rewrite decide_True; [done|]. split; [left|done].
        -- rewrite list_insert_ge by lia.
           rewrite decide_False by tauto. done.
      * rewrite list_lookup_insert_ne by done.
        rewrite decide_False; [done|]. rewrite elem_of_cons. tauto.
Qed.

Lemma lookup_to_bool_fill_zeros (n : nat) (idx : list nat) (v : nat) :
  to_bool (fill_list (zeros n) idx) !! v = Some true ↔ v ∈ idx ∧ v < n.
Proof.
  unfold to_bool. rewrite list_lookup_fmap, lookup_fill_list.
  replace (length (zeros n)) with n by (unfold zeros; by rewrite length_replicate).
  destruct (decide (v ∈ idx ∧ v < n)) as [Hin|Hno].
  - split; [done|]. intros _. reflexivity.
  - split; [|done]. unfold zeros.
    destruct (replicate n zero !! v) as [x|] eqn:Hx; [|discriminate].
    apply lookup_replicate in Hx as [-> _]. discriminate.
Qed.

End fill_facts.

(** ** The classes of a one-hot label tensor *)

Section class_facts.
Import Float Torch EvalUtils MaskSpec.

Lemma elem_of_class_members (Y : tensor2) (y v : nat) :
  v ∈ class_members Y y ↔
  ∃ row, t2_rows Y !! v = Some row ∧ feq (row !!! y) one = true.
Proof.
  unfold class_members. rewrite elem_of_nonzero.
  unfold eq_scalar, column. rewrite !list_lookup_fmap.
  destruct (t2_rows Y !! v) as [row|]; simpl.
  - split; [intros [= Hrow]; eauto|]. by intros (row' & [= <-] & ->).
  - split; [discriminate|]. by intros (row' & [=] & _).
Qed.

Lemma class_members_bound (Y : tensor2) (y v : nat) :
  v ∈ class_members Y y → v < length (t2_rows Y).
Proof.
  rewrite elem_of_class_members. intros (row & Hrow & _).
  by eapply lookup_lt_Some.
Qed.

Lemma NoDup_class_members (Y : tensor2) (y : nat) : NoDup (class_members Y y).
Proof. apply NoDup_nonzero. Qed.

Lemma class_members_unique (Y : tensor2) (y y' v : nat) :
  one_hot Y → y < t2_cols Y → y' < t2_cols Y →
  v ∈ class_members Y y → v ∈ class_members Y y' → y = y'.
Proof.
  intros Hoh Hy Hy'. rewrite !elem_of_class_members.
  intros (row & Hrow & H1) (row' & Hrow' & H2). simplify_eq.
  unfold one_hot in Hoh. rewrite Forall_forall in Hoh.
  destruct (Hoh row) as (_ & c & _ & Hc); [by eapply list_elem_of_lookup_2|].
  apply Hc in H1, H2; [congruence|done..].
Qed.

Lemma gather_permutation {A} `{Inhabited A} (l : list A) (perm : list nat) :
  perm ≡ₚ seq 0 (length l) → (λ i, l !!! i) <$> perm ≡ₚ l.
Proof.
  intros ->.
  assert ((λ i, l !!! i) <$> seq 0 (length l) = l) as ->; [|done].
  apply list_eq. intros i. rewrite list_lookup_fmap.
  destruct (decide (i < length l)) as [Hlt|Hge].
  - rewrite lookup_seq_lt by done. simpl.
    by rewrite list_lookup_lookup_total_lt.
  - rewrite lookup_seq_ge by lia. simpl. symmetry. apply lookup_ge_None_2. lia.
Qed.

Context `{Generator G}.

Lemma shuffled_class_returns (Y : tensor2) (y : nat) (gen : G) :
  ∃ p, shuffled_class Y y gen
       = (Py.Ok p, (randperm (length (class_members Y y)) gen).2)
       ∧ p ≡ₚ class_members Y y.
Proof.
  unfold shuffled_class. fold (class_members Y y).
  exists ((λ i, class_members Y y !!! i)
            <$> (randperm (length (class_members Y y)) gen).1).
  split.
  - rewrite (M_bind_eval _ _ _ _ _ (torch_randperm_eval _ _)).
    unfold lift. rewrite index_select_total; [done|apply randperm_bound].
  - apply gather_permutation, randperm_perm.
Qed.

End class_facts.

(** ** The loops over the classes *)

Section mask_loop.
Import Float Torch EvalUtils MaskSpec.
Context `{Generator G}.
Variables (Y : tensor2) (N : nat).
Hypothesis Hrows : length (t2_rows Y) = N.

Lemma shuffled_bound (y : nat) (p : list nat) :
  p ≡ₚ class_members Y y → Forall (λ i, i < N) p.
Proof.
  intros Hp. apply Forall_forall. intros v Hv. rewrite Hp in Hv.
  apply class_members_bound in Hv. lia.
Qed.

Lemma slice_subseteq {A} (p : list A) (a b : nat) : Py.slice p a b ⊆ p.
Proof.
  unfold Py.slice. etransitivity; [apply subseteq_take|apply subseteq_drop].
Qed.

Lemma Forall_subseteq {A} (P : A → Prop) (l k : list A) :
  l ⊆ k → Forall P k → Forall P l.
Proof. rewrite !Forall_forall. intros Hsub Hk x Hx. apply Hk, Hsub, Hx. Qed.

Lemma masks_len_fill3 (m : masks) (s : list nat * list nat * list nat) :
  masks_len N m → masks_len N (fill3 m s).
Proof.
  unfold masks_len, fill3. cbn [fst snd]. by rewrite !length_fill_list.
Qed.

Lemma quota_body_returns (num_val_nodes num_test_nodes : gmap nat nat)
    (m : masks) (y nv nt : nat) (gen : G) :
  num_val_nodes !! y = Some nv → num_test_nodes !! y = Some nt →
  masks_len N m →
  ∃ p, quota_body num_val_nodes num_test_nodes Y m y gen
       = (Py.Ok (fill3 m (split_quota nv nt p)),
          (randperm (length (class_members Y y)) gen).2)
       ∧ p ≡ₚ class_members Y y.
Proof.
  intros Hv Ht Hm. destruct m as [[tm vm] sm].
  destruct Hm as (Htm & Hvm & Hsm). cbn [fst snd] in *.
  destruct (shuffled_class_returns Y y gen) as (p & Hrun & Hp).
  exists p. split; [|done].
  pose proof (shuffled_bound y p Hp) as Hb.
  unfold quota_body. rewrite (M_bind_eval _ _ _ _ _ Hrun).
  unfold Py.dict_get. rewrite Hv, Ht.
  cbv beta iota delta [lift mbind M_bind mret M_ret].
  rewrite !index_fill_returns; [reflexivity|..];
    (eapply Forall_subseteq; [apply slice_subseteq|]);
    rewrite ?Htm, ?Hvm, ?Hsm; exact Hb.
Qed.

Lemma quota_body_key_error (num_val_nodes num_test_nodes : gmap nat nat)
    (m : masks) (y : nat) (gen : G) :
  num_val_nodes !! y = None → masks_len N m →
  (quota_body num_val_nodes num_test_nodes Y m y gen).1 = Py.Raise (Py.KeyError y).
Proof.
  intros Hv Hm. destruct m as [[tm vm] sm].
  destruct Hm as (Htm & Hvm & Hsm). cbn [fst snd] in *.
  destruct (shuffled_class_returns Y y gen) as (p & Hrun & Hp).
  pose proof (shuffled_bound y p Hp) as Hb.
  unfold quota_body. rewrite (M_bind_eval _ _ _ _ _ Hrun).
  unfold Py.dict_get. rewrite Hv.
  cbv beta iota delta [lift mbind M_bind mret M_ret].
  rewrite index_fill_returns; [reflexivity|].
  (eapply Forall_subseteq; [apply slice_subseteq|]); rewrite Htm; exact Hb.
Qed.

Lemma benchmark_body_returns (m : masks) (y : nat) (gen : G) :
  masks_len N m →
  ∃ p, benchmark_body Y m y gen
       = (Py.Ok (fill3 m (split_benchmark p)),
          (randperm (length (class_members Y y)) gen).2)
       ∧ p ≡ₚ class_members Y y.
Proof.
  intros Hm. destruct m as [[tm vm] sm].
  destruct Hm as (Htm & Hvm & Hsm). cbn [fst snd] in *.
  destruct (shuffled_class_returns Y y gen) as (p & Hrun & Hp).
  exists p. split; [|done].
  pose proof (shuffled_bound y p Hp) as Hb.
  unfold benchmark_body. rewrite (M_bind_eval _ _ _ _ _ Hrun).
  cbv beta iota delta [lift mbind M_bind mret M_ret].
  rewrite !index_fill_returns; [reflexivity|..];
    (eapply Forall_subseteq; [|rewrite ?Htm, ?Hvm, ?Hsm; exact Hb]);
    first [apply slice_subseteq|apply subseteq_drop].
Qed.

(** A loop whose every turn marks the three index tensors [split y p] of a
    shuffle [p] of class [y] ends with all of them marked. *)
Lemma mask_loop_returns (body : masks → nat → M G masks)
    (split : nat → list nat → list nat * list nat * list nat) (ys : list nat) :
  (∀ y m gen, y ∈ ys → masks_len N m →
     ∃ p gen', body m y gen = (Py.Ok (fill3 m (split y p)), gen')
               ∧ p ≡ₚ class_members Y y) →
  ∀ m gen, masks_len N m →
    ∃ ps gen', for_ ys body m gen
               = (Py.Ok (foldl fill3 m (zip_with split ys ps)), gen')
               ∧ Forall2 (λ y p, p ≡ₚ class_members Y y) ys ps.
Proof.
  induction ys as [|y ys IH]; intros Hbody m gen Hm.
  - exists [], gen. split; [reflexivity|constructor].
  - destruct (Hbody y m gen) as (p & gen1 & Hrun & Hp); [left|done|].
    destruct (IH (λ y' m' gen' Hy', Hbody y' m' gen' (list_elem_of_further _ _ _ Hy'))
                 (fill3 m (split y p)) gen1 (masks_len_fill3 _ _ Hm))
      as (ps & gen2 & Hloop & Hps).
    exists (p :: ps), gen2. split; [|by constructor].
    cbn [for_]. rewrite (M_bind_eval _ _ _ _ _ Hrun). exact Hloop.
Qed.

End mask_loop.

(** ** Slices of a shuffled class *)

Section slice_facts.
Import Float Torch EvalUtils MaskSpec.

Lemma elem_of_slice {A} (p : list A) (a b : nat) (x : A) :
  x ∈ Py.slice p a b ↔ ∃ i, a ≤ i ∧ i < b ∧ p !! i = Some x.
Proof.
  unfold Py.slice. rewrite elem_of_take. setoid_rewrite lookup_drop. split.
  - intros (i & Hi & Hlt). exists (a + i). split_and!; [lia|lia|done].
  - intros (i & Hai & Hib & Hi). exists (i - a).
    replace (a + (i - a)) with i by lia. split; [done|lia].
Qed.

Lemma elem_of_drop {A} (p : list A) (a : nat) (x : A) :
  x ∈ drop a p ↔ ∃ i, a ≤ i ∧ p !! i = Some x.
Proof.
  rewrite list_elem_of_lookup. setoid_rewrite lookup_drop. split.
  - intros (i & Hi). exists (a + i). split; [lia|done].
  - intros (i & Hai & Hi). exists (i - a). by replace (a + (i - a)) with i by lia.
Qed.

Lemma NoDup_slice {A} (p : list A) (a b : nat) : NoDup p → NoDup (Py.slice p a b).
Proof.
  intros Hp. unfold Py.slice.
  eapply sublist_NoDup; [exact Hp|].
  etransitivity; [apply sublist_take|apply sublist_drop].
Qed.

Lemma slices_disjoint {A} (p : list A) (a b c d : nat) (x : A) :
  NoDup p → b ≤ c → x ∈ Py.slice p a b → x ∈ Py.slice p c d → False.
Proof.
  intros Hp Hbc (i & _ & Hi & Hxi)%elem_of_slice (j & Hj & _ & Hxj)%elem_of_slice.
  pose proof (NoDup_lookup p i j x Hp Hxi Hxj). lia.
Qed.

Lemma slice_drop_disjoint {A} (p : list A) (a b c : nat) (x : A) :
  NoDup p → b ≤ c → x ∈ Py.slice p a b → x ∈ drop c p → False.
Proof.
  intros Hp Hbc (i & _ & Hi & Hxi)%elem_of_slice (j & Hj & Hxj)%elem_of_drop.
  pose proof (NoDup_lookup p i j x Hp Hxi Hxj). lia.
Qed.

Lemma length_slice {A} (p : list A) (a b : nat) :
  b ≤ length p → length (Py.slice p a b) = b - a.
Proof. intros Hb. unfold Py.slice. rewrite length_take, length_drop. lia. Qed.

Lemma length_filter_elem_of (A L : list nat) :
  NoDup A → NoDup L → A ⊆ L → length (filter (λ v, v ∈ A) L) = length A.
Proof.
  intros HA HL Hsub. apply Permutation_length, NoDup_Permutation.
  - by apply NoDup_filter.
  - done.
  - intros v. rewrite list_elem_of_filter. split; [tauto|].
    intros Hv. split; [done|by apply Hsub].
Qed.

Lemma foldl_fill3 (m : masks) (l : list (list nat * list nat * list nat)) :
  foldl fill3 m l
  = (fill_list m.1.1 (l ≫= λ s, s.1.1),
     fill_list m.1.2 (l ≫= λ s, s.1.2),
     fill_list m.2 (l ≫= λ s, s.2)).
Proof.
  revert m. induction l as [|s l IH]; intros [[tm vm] sm]; [reflexivity|].
  cbn [foldl]. rewrite IH. unfold fill3. cbn [fst snd].
  rewrite !bind_cons, !fill_list_app. reflexivity.
Qed.

(** The nodes a loop over the classes [0 .. C-1] has marked. *)
Lemma elem_of_marked {B} (split : nat → list nat → B) (π : B → list nat)
    (C : nat) (ps : list (list nat)) (v : nat) :
  length ps = C →
  v ∈ (zip_with split (seq 0 C) ps ≫= π)
  ↔ ∃ y p, y < C ∧ ps !! y = Some p ∧ v ∈ π (split y p).
Proof.
  intros Hlen. rewrite list_elem_of_bind. split.
  - intros (s & Hv & Hs). apply list_elem_of_lookup in Hs as (i & Hs).
    apply lookup_zip_with_Some in Hs as (y & p & -> & Hy & Hp).
    apply lookup_seq in Hy as [-> Hi]. eauto.
  - intros (y & p & Hy & Hp & Hv). exists (split y p). split; [done|].
    apply list_elem_of_lookup. exists y.
    apply lookup_zip_with_Some. exists y, p.
    split_and!; [done| |done]. by apply lookup_seq.
Qed.

End slice_facts.

(** ** What the marked masks hold *)

Section mask_results.
Import Float Torch EvalUtils MaskSpec.
Context {B : Type}.
Variables (Y : tensor2) (N : nat).
Hypothesis Hoh : one_hot Y.
Hypothesis Hrows : length (t2_rows Y) = N.
Variables (split : nat → list nat → B) (ps : list (list nat)).
Hypothesis Hps : Forall2 (λ y p, p ≡ₚ class_members Y y) (seq 0 (t2_cols Y)) ps.

Lemma shuffle_of_class (y : nat) (p : list nat) :
  ps !! y = Some p → y < t2_cols Y ∧ p ≡ₚ class_members Y y ∧ NoDup p.
Proof.
  intros Hp.
  destruct (Forall2_lookup_r _ _ _ _ _ Hps Hp) as (y' & Hy' & Hperm).
  apply lookup_seq in Hy' as [-> Hy]. split_and!; [done..|].
  rewrite Hperm. apply NoDup_class_members.
Qed.

Lemma class_has_shuffle (y : nat) :
  y < t2_cols Y → ∃ p, ps !! y = Some p ∧ p ≡ₚ class_members Y y ∧ NoDup p.
Proof.
  intros Hy.
  destruct (Forall2_lookup_l _ _ _ y y Hps) as (p & Hp & Hperm);
    [by apply lookup_seq|].
  exists p. split; [done|]. by apply shuffle_of_class.
Qed.

Local Abbreviation marks := (MaskSpec.marks N (t2_cols Y) split ps).

Lemma length_marks (π : B → list nat) : length (marks π) = N.
Proof.
  unfold MaskSpec.marks, to_bool, zeros.
  by rewrite length_fmap, length_fill_list, length_replicate.
Qed.

Lemma marks_true_iff (π : B → list nat) (v : nat) :
  (∀ y p, π (split y p) ⊆ p) →
  marks π !! v = Some true
  ↔ ∃ y p, ps !! y = Some p ∧ v ∈ π (split y p).
Proof.
  intros Hsub. unfold MaskSpec.marks. rewrite lookup_to_bool_fill_zeros.
  assert (length ps = t2_cols Y) as Hlen.
  { apply Forall2_length in Hps. by rewrite length_seq in Hps. }
  rewrite elem_of_marked by done.
  split.
  - intros [(y & p & _ & Hp & Hv) _]. eauto.
  - intros (y & p & Hp & Hv).
    destruct (shuffle_of_class y p Hp) as (Hy & Hperm & _). split; [eauto|].
    apply Hsub in Hv. rewrite Hperm in Hv.
    apply class_members_bound in Hv. lia.
Qed.

Lemma marks_disjoint (π1 π2 : B → list nat) (v : nat) :
  (∀ y p, π1 (split y p) ⊆ p) → (∀ y p, π2 (split y p) ⊆ p) →
  (∀ y p x, NoDup p → x ∈ π1 (split y p) → x ∈ π2 (split y p) → False) →
  ¬ (marks π1 !! v = Some true ∧ marks π2 !! v = Some true).
Proof.
  intros Hsub1 Hsub2 Hdisj [H1 H2].
  apply marks_true_iff in H1 as (y & p & Hp & Hv); [|done].
  apply marks_true_iff in H2 as (y' & p' & Hp' & Hv'); [|done].
  destruct (shuffle_of_class y p Hp) as (Hy & Hperm & Hnd).
  destruct (shuffle_of_class y' p' Hp') as (Hy' & Hperm' & _).
  assert (y = y') as <-.
  { apply (class_members_unique Y y y' v); [done..| |].
    - rewrite <- Hperm. by apply Hsub1 in Hv.
    - rewrite <- Hperm'. by apply Hsub2 in Hv'. }
  simplify_eq. by eapply Hdisj.
Qed.

Lemma marks_class_count (π : B → list nat) (y : nat) (p : list nat) :
  (∀ y p, π (split y p) ⊆ p) →
  (∀ y p, NoDup p → NoDup (π (split y p))) →
  ps !! y = Some p →
  class_count Y (marks π) y = length (π (split y p)).
Proof.
  intros Hsub Hnd Hp.
  destruct (shuffle_of_class y p Hp) as (Hy & Hperm & Hndp).
  unfold class_count.
  rewrite <- (length_filter_elem_of (π (split y p)) (class_members Y y)).
  - f_equal. apply filter_ext_elem. intros v Hv.
    rewrite marks_true_iff by done. split.
    + intros (y' & p' & Hp' & Hv').
      destruct (shuffle_of_class y' p' Hp') as (Hy' & Hperm' & _).
      assert (y = y') as <-.
      { apply (class_members_unique Y y y' v); [done..|].
        rewrite <- Hperm'. by apply Hsub in Hv'. }
      by simplify_eq.
    + eauto.
  - by apply Hnd.
  - apply NoDup_class_members.
  - intros v Hv. rewrite <- Hperm. by apply Hsub in Hv.
Qed.

End mask_results.

(** ** add_mask_cora, add_mask_citeseer, add_mask_benchmark *)

Section add_mask_results.
Import Float Torch EvalUtils MaskSpec.
Context `{Generator G}.

Lemma attach_masks_has_masks (g : Dgl.DGLGraph) (tm vm sm : list tfloat) :
  masks_len (Dgl.num_nodes g) (tm, vm, sm) →
  has_masks (attach_masks g (tm, vm, sm)) (to_bool tm) (to_bool vm) (to_bool sm).
Proof.
  intros (Htm & Hvm & Hsm). cbn [fst snd] in *.
  unfold has_masks, attach_masks, to_bool. cbn [Dgl.ndata Dgl.num_nodes].
  rewrite !length_fmap. split_and!; [..|done|done|done].
  - rewrite !lookup_insert_ne by done. by rewrite lookup_insert_eq.
  - rewrite lookup_insert_ne by done. by rewrite lookup_insert_eq.
  - by rewrite lookup_insert_eq.
Qed.

Lemma add_mask_quota_returns (num_val_nodes num_test_nodes : gmap nat nat)
    (g : Dgl.DGLGraph) (Y : tensor2) (gen : G) :
  one_hot Y → length (t2_rows Y) = Dgl.num_nodes g →
  (∀ y, y < t2_cols Y → is_Some (num_val_nodes !! y) ∧ is_Some (num_test_nodes !! y)) →
  ∃ g' gen' train val test,
    add_mask_quota num_val_nodes num_test_nodes g Y gen = (Py.Ok g', gen')
    ∧ Dgl.num_nodes g' = Dgl.num_nodes g
    ∧ Dgl.edge_list g' = Dgl.edge_list g
    ∧ has_masks g' train val test
    ∧ disjoint_masks train val test
    ∧ ∀ y nv nt,
        y < t2_cols Y →
        num_val_nodes !! y = Some nv → num_test_nodes !! y = Some nt →
        20 + nv + nt ≤ length (class_members Y y) →
        class_count Y train y = 20
        ∧ class_count Y val y = nv
        ∧ class_count Y test y = nt.
Proof.
  intros Hoh Hrows Htbl.
  set (N := Dgl.num_nodes g) in *.
  set (split := λ y p, split_quota (num_val_nodes !!! y) (num_test_nodes !!! y) p).
  assert (masks_len N (zeros N, zeros N, zeros N)) as Hz.
  { unfold masks_len, zeros. cbn [fst snd]. by rewrite length_replicate. }
  destruct (mask_loop_returns Y N
              (quota_body num_val_nodes num_test_nodes Y) split (seq 0 (t2_cols Y)))
    with (m := (zeros N, zeros N, zeros N)) (gen := gen)
    as (ps & gen' & Hloop & Hps); [|done|].
  { intros y m gen0 Hy Hm. apply elem_of_seq in Hy.
    destruct (Htbl y) as [[nv Hv] [nt Ht]]; [lia|].
    destruct (quota_body_returns Y N Hrows _ _ m y nv nt gen0 Hv Ht Hm)
      as (p & Hrun & Hp).
    exists p, (randperm (length (class_members Y y)) gen0).2. split; [|done].
    unfold split. by rewrite (lookup_total_correct _ _ _ Hv),
                             (lookup_total_correct _ _ _ Ht). }
  pose proof (masks_len_fill3 N) as Hlenf.
  assert (masks_len N (foldl fill3 (zeros N, zeros N, zeros N)
                         (zip_with split (seq 0 (t2_cols Y)) ps))) as Hm'.
  { generalize (zip_with split (seq 0 (t2_cols Y)) ps). intros l.
    revert Hz. generalize (zeros N, zeros N, zeros N).
    induction l as [|s l IH]; intros m Hm; [done|]. cbn [foldl]. by apply IH, Hlenf. }
  rewrite foldl_fill3 in Hloop, Hm'. cbn [fst snd] in Hloop, Hm'.
  eexists _, gen', _, _, _. split_and!.
  - unfold add_mask_quota. fold N. rewrite (M_bind_eval _ _ _ _ _ Hloop).
    reflexivity.
  - reflexivity.
  - reflexivity.
  - by apply attach_masks_has_masks.
  - intros v. split_and!.
    + apply (marks_disjoint Y N Hoh Hrows split ps Hps (λ s, s.1.1) (λ s, s.1.2));
        [intros; apply slice_subseteq..|].
      intros y p x Hnd. unfold split, split_quota. cbn [fst snd].
      apply slices_disjoint; [done|lia].
    + apply (marks_disjoint Y N Hoh Hrows split ps Hps (λ s, s.1.1) (λ s, s.2));
        [intros; apply slice_subseteq..|].
      intros y p x Hnd. unfold split, split_quota. cbn [fst snd].
      apply slices_disjoint; [done|lia].
    + apply (marks_disjoint Y N Hoh Hrows split ps Hps (λ s, s.1.2) (λ s, s.2));
        [intros; apply slice_subseteq..|].
      intros y p x Hnd. unfold split, split_quota. cbn [fst snd].
      apply slices_disjoint; [done|lia].
  - intros y nv nt Hy Hv Ht Hquota.
    destruct (class_has_shuffle Y ps Hps y Hy) as (p & Hp & Hperm & Hnd).
    assert (length p = length (class_members Y y)) as Hlenp by (by rewrite Hperm).
    pose proof (marks_class_count Y N Hoh Hrows split ps Hps) as Hcount.
    fold (MaskSpec.marks N (t2_cols Y) split ps (λ s, s.1.1)).
    fold (MaskSpec.marks N (t2_cols Y) split ps (λ s, s.1.2)).
    fold (MaskSpec.marks N (t2_cols Y) split ps (λ s, s.2)).
    rewrite !(Hcount _ y p)
      by first [done | intros; apply slice_subseteq | intros; by apply NoDup_slice].
    unfold split, split_quota. cbn [fst snd].
    rewrite (lookup_total_correct _ _ _ Hv), (lookup_total_correct _ _ _ Ht).
    rewrite !length_slice by lia. lia.
Qed.

Lemma add_mask_benchmark_returns (self : Evaluator)
    (g : Dgl.DGLGraph) (Y : tensor2) (gen : G) :
  one_hot Y → length (t2_rows Y) = Dgl.num_nodes g →
  ∃ g' gen' train val test,
    add_mask_benchmark self g Y gen = (Py.Ok g', gen')
    ∧ Dgl.num_nodes g' = Dgl.num_nodes g
    ∧ Dgl.edge_list g' = Dgl.edge_list g
    ∧ has_masks g' train val test
    ∧ disjoint_masks train val test
    ∧ ∀ y,
        y < t2_cols Y →
        50 ≤ length (class_members Y y) →
        class_count Y train y = 20
        ∧ class_count Y val y = 30
        ∧ class_count Y test y = length (class_members Y y) - 50.
Proof.
  intros Hoh Hrows.
  set (N := Dgl.num_nodes g) in *.
  set (split := λ (y : nat) p, split_benchmark p).
  assert (masks_len N (zeros N, zeros N, zeros N)) as Hz.
  { unfold masks_len, zeros. cbn [fst snd]. by rewrite length_replicate. }
  destruct (mask_loop_returns Y N (benchmark_body Y) split (seq 0 (t2_cols Y)))
    with (m := (zeros N, zeros N, zeros N)) (gen := gen)
    as (ps & gen' & Hloop & Hps); [|done|].
  { intros y m gen0 Hy Hm.
    destruct (benchmark_body_returns Y N Hrows m y gen0 Hm) as (p & Hrun & Hp).
    by exists p, (randperm (length (class_members Y y)) gen0).2. }
  pose proof (masks_len_fill3 N) as Hlenf.
  assert (masks_len N (foldl fill3 (zeros N, zeros N, zeros N)
                         (zip_with split (seq 0 (t2_cols Y)) ps))) as Hm'.
  { generalize (zip_with split (seq 0 (t2_cols Y)) ps). intros l.
    revert Hz. generalize (zeros N, zeros N, zeros N).
    induction l as [|s l IH]; intros m Hm; [done|]. cbn [foldl]. by apply IH, Hlenf. }
  rewrite foldl_fill3 in Hloop, Hm'. cbn [fst snd] in Hloop, Hm'.
  assert (∀ (y : nat) (p : list nat), drop 50 p ⊆ p) as Hdrop
    by (intros; apply subseteq_drop).
  eexists _, gen', _, _, _. split_and!.
  - unfold add_mask_benchmark. fold N. rewrite (M_bind_eval _ _ _ _ _ Hloop).
    reflexivity.
  - reflexivity.
  - reflexivity.
  - by apply attach_masks_has_masks.
  - intros v. split_and!.
    + apply (marks_disjoint Y N Hoh Hrows split ps Hps (λ s, s.1.1) (λ s, s.1.2));
        [intros; apply slice_subseteq..|].
      intros y p x Hnd. unfold split, split_benchmark. cbn [fst snd].
      apply slices_disjoint; [done|lia].
    + apply (marks_disjoint Y N Hoh Hrows split ps Hps (λ s, s.1.1) (λ s, s.2));
        [intros; apply slice_subseteq|exact Hdrop|].
      intros y p x Hnd. unfold split, split_benchmark. cbn [fst snd].
      apply slice_drop_disjoint; [done|lia].
    + apply (marks_disjoint Y N Hoh Hrows split ps Hps (λ s, s.1.2) (λ s, s.2));
        [intros; apply slice_subseteq|exact Hdrop|].
      intros y p x Hnd. unfold split, split_benchmark. cbn [fst snd].
      apply slice_drop_disjoint; [done|lia].
  - intros y Hy Hquota.
    destruct (class_has_shuffle Y ps Hps y Hy) as (p & Hp & Hperm & Hnd).
    assert (length p = length (class_members Y y)) as Hlenp by (by rewrite Hperm).
    pose proof (marks_class_count Y N Hoh Hrows split ps Hps) as Hcount.
    fold (MaskSpec.marks N (t2_cols Y) split ps (λ s, s.1.1)).
    fold (MaskSpec.marks N (t2_cols Y) split ps (λ s, s.1.2)).
    fold (MaskSpec.marks N (t2_cols Y) split ps (λ s, s.2)).
    rewrite !(Hcount _ y p)
      by first [done | intros; apply slice_subseteq | exact Hdrop
               | intros; by apply NoDup_slice
               | intros; eapply sublist_NoDup; [eassumption|apply sublist_drop]].
    unfold split, split_benchmark. cbn [fst snd].
    rewrite !length_slice, length_drop by lia. lia.
Qed.

End add_mask_results.

Section fixtures_facts.
Import Float Torch EvalUtils MaskSpec.

Lemma one_hot_row_lookup (C l j : nat) :
  j < C → feq (one_hot_row C l !!! j) one = true ↔ j = l.
Proof.
  intros Hj.
  assert (one_hot_row C l !! j = Some (if bool_decide (j = l) then one else zero))
    as Hrow.
  { unfold one_hot_row. by rewrite list_lookup_fmap, lookup_seq_lt. }
  rewrite (list_lookup_total_correct _ _ _ Hrow).
  destruct (decide (j = l)) as [->|Hne].
  - rewrite bool_decide_true by done. split; [done|]. intros _. reflexivity.
  - rewrite bool_decide_false by done. split; [discriminate|done].
Qed.

Lemma one_hot_labels_one_hot (C : nat) (labels : list nat) :
  Forall (λ l, l < C) labels → one_hot (one_hot_labels C labels).
Proof.
  intros Hl. unfold one_hot, one_hot_labels. cbn [t2_rows t2_cols].
  apply Forall_fmap. eapply Forall_impl; [exact Hl|]. intros l Hlt. simpl.
  split; [unfold one_hot_row; by rewrite length_fmap, length_seq|].
  exists l. split; [done|]. intros j Hj. by apply one_hot_row_lookup.
Qed.

Lemma quota_tables_cora (y : nat) :
  y < 7 → is_Some (cora_num_val_nodes !! y) ∧ is_Some (cora_num_test_nodes !! y).
Proof.
  intros Hy. do 7 (destruct y as [|y]; [split; by eexists|]). lia.
Qed.

Lemma quota_tables_citeseer (y : nat) :
  y < 6 →
  is_Some (citeseer_num_val_nodes !! y) ∧ is_Some (citeseer_num_test_nodes !! y).
Proof.
  intros Hy. do 6 (destruct y as [|y]; [split; by eexists|]). lia.
Qed.

End fixtures_facts.

(** The benchmark split on 55 nodes of class 0 and 5 of class 1: class 0
    gets 20, 30 and the remaining 5; class 1, short of the quota, gets its 5
    members in train and none elsewhere. *)
Example add_mask_benchmark_counts :
  mask_counts sixty_nodes_labels 0
    (EvalUtils.add_mask
       {| EvalUtils.data_name := "amazon_computer"; EvalUtils.edge_limit := 0 |}
       sixty_nodes_graph sixty_nodes_labels (7 : nat)) = Some (20, 30, 5)
  ∧ mask_counts sixty_nodes_labels 1
      (EvalUtils.add_mask
         {| EvalUtils.data_name := "amazon_computer"; EvalUtils.edge_limit := 0 |}
         sixty_nodes_graph sixty_nodes_labels (7 : nat)) = Some (5, 0, 0).
Proof. split; vm_compute; reflexivity. Qed.

(** C7, as stated, fails: for cora and a one-hot label tensor with eight
    classes the lookup of class 7 in the table raises [KeyError], and no mask
    is produced. *)
Lemma add_mask_cora_eight_classes_key_error :
  MaskSpec.one_hot eight_class_labels
  ∧ length (Torch.t2_rows eight_class_labels) = Dgl.num_nodes single_node_graph
  ∧ (EvalUtils.add_mask {| EvalUtils.data_name := "cora"; EvalUtils.edge_limit := 0 |}
       single_node_graph eight_class_labels (0 : nat)).1
    = Py.Raise (Py.KeyError 7).
Proof.
  split_and!.
  - apply one_hot_labels_one_hot. repeat constructor.
  - reflexivity.
  - vm_compute. reflexivity.
Qed.

(** C7, amended.  For a one-hot label tensor with one row per node of the
    graph, and no more classes than the table of the strategy lists (7 for
    cora, 6 for citeseer, any number for the benchmarks), mask construction
    returns the graph with three masks, one entry per node each, at most one
    of them true for every node; and for every class with at least as many
    members as its quota sums to, the three per-class counts are the quota:
    20 train and the table's val and test numbers for cora and citeseer,
    20 train, 30 val and the remaining members test for the benchmarks. *)
Theorem add_mask_disjoint_quota `{Torch.Generator G}
    (self : EvalUtils.Evaluator) (g : Dgl.DGLGraph) (Y : Torch.tensor2) (gen : G) :
  MaskSpec.one_hot Y →
  length (Torch.t2_rows Y) = Dgl.num_nodes g →
  (EvalUtils.data_name self = "cora" ∧ Torch.t2_cols Y ≤ 7)
  ∨ (EvalUtils.data_name self = "citeseer" ∧ Torch.t2_cols Y ≤ 6)
  ∨ EvalUtils.data_name self ∈ ["amazon_photo"; "amazon_computer"] →
  ∃ g' gen' train val test,
    EvalUtils.add_mask self g Y gen = (Py.Ok g', gen')
    ∧ Dgl.num_nodes g' = Dgl.num_nodes g
    ∧ Dgl.edge_list g' = Dgl.edge_list g
    ∧ MaskSpec.has_masks g' train val test
    ∧ MaskSpec.disjoint_masks train val test
    ∧ ∀ y n_train n_val n_test,
        y < Torch.t2_cols Y →
        MaskSpec.quota (EvalUtils.data_name self) y
          (length (MaskSpec.class_members Y y)) = Some (n_train, n_val, n_test) →
        n_train + n_val + n_test ≤ length (MaskSpec.class_members Y y) →
        MaskSpec.class_count Y train y = n_train
        ∧ MaskSpec.class_count Y val y = n_val
        ∧ MaskSpec.class_count Y test y = n_test.
Proof.
  intros Hoh Hrows Hname. unfold EvalUtils.add_mask, MaskSpec.quota.
  destruct Hname as [[Hname HC]|[[Hname HC]|Hname]].
  - rewrite !decide_True by done.
    destruct (add_mask_quota_returns EvalUtils.cora_num_val_nodes
                EvalUtils.cora_num_test_nodes g Y gen Hoh Hrows)
      as (g' & gen' & train & val & test & Hrun & HN & HE & Hm & Hd & Hq).
    { intros y Hy. apply quota_tables_cora. lia. }
    exists g', gen', train, val, test. split_and!; [done..|].
    intros y n1 n2 n3 Hy Hquota Hn. rewrite decide_True in Hquota by done.
    destruct (EvalUtils.cora_num_val_nodes !! y) as [nv|] eqn:Hv; [|cbn in Hquota; discriminate].
    destruct (EvalUtils.cora_num_test_nodes !! y) as [nt|] eqn:Ht; [|cbn in Hquota; discriminate].
    cbn in Hquota. injection Hquota as <- <- <-. by apply Hq.
  - rewrite (decide_False (P := EvalUtils.data_name self = "cora"))
      by (rewrite Hname; discriminate).
    rewrite !decide_True by done.
    destruct (add_mask_quota_returns EvalUtils.citeseer_num_val_nodes
                EvalUtils.citeseer_num_test_nodes g Y gen Hoh Hrows)
      as (g' & gen' & train & val & test & Hrun & HN & HE & Hm & Hd & Hq).
    { intros y Hy. apply quota_tables_citeseer. lia. }
    exists g', gen', train, val, test. split_and!; [done..|].
    intros y n1 n2 n3 Hy Hquota Hn.
    rewrite (decide_False (P := EvalUtils.data_name self = "cora")) in Hquota
      by (rewrite Hname; discriminate).
    rewrite decide_True in Hquota by done.
    destruct (EvalUtils.citeseer_num_val_nodes !! y) as [nv|] eqn:Hv; [|cbn in Hquota; discriminate].
    destruct (EvalUtils.citeseer_num_test_nodes !! y) as [nt|] eqn:Ht; [|cbn in Hquota; discriminate].
    cbn in Hquota. injection Hquota as <- <- <-. by apply Hq.
  - assert (EvalUtils.data_name self ≠ "cora" ∧ EvalUtils.data_name self ≠ "citeseer")
      as [Hn1 Hn2].
    { split; intros Heq; rewrite Heq in Hname;
        repeat (apply elem_of_cons in Hname as [Hname|Hname]; [discriminate|]);
        by apply elem_of_nil in Hname. }
    rewrite !(decide_False (P := EvalUtils.data_name self = "cora")) by done.
    rewrite !(decide_False (P := EvalUtils.data_name self = "citeseer")) by done.
    rewrite decide_True by done.
    destruct (add_mask_benchmark_returns self g Y gen Hoh Hrows)
      as (g' & gen' & train & val & test & Hrun & HN & HE & Hm & Hd & Hq).
    exists g', gen', train, val, test. split_and!; [done..|].
    intros y n1 n2 n3 Hy Hquota Hn.
    rewrite (decide_False (P := EvalUtils.data_name self = "cora")) in Hquota by done.
    rewrite (decide_False (P := EvalUtils.data_name self = "citeseer")) in Hquota by done.
    injection Hquota as <- <- <-. apply Hq; [done|lia].
Qed.

Lemma add_mask_disjoint_quota_witness :
  ∃ g' gen' train val test,
    EvalUtils.add_mask {| EvalUtils.data_name := "cora"; EvalUtils.edge_limit := 0 |}
      cora_sized_graph cora_sized_labels (0 : nat) = (Py.Ok g', gen')
    ∧ Dgl.num_nodes g' = Dgl.num_nodes cora_sized_graph
    ∧ Dgl.edge_list g' = Dgl.edge_list cora_sized_graph
    ∧ MaskSpec.has_masks g' train val test
    ∧ MaskSpec.disjoint_masks train val test
    ∧ ∀ y n_train n_val n_test,
        y < Torch.t2_cols cora_sized_labels →
        MaskSpec.quota "cora" y
          (length (MaskSpec.class_members cora_sized_labels y))
        = Some (n_train, n_val, n_test) →
        n_train + n_val + n_test ≤ length (MaskSpec.class_members cora_sized_labels y) →
        MaskSpec.class_count cora_sized_labels train y = n_train
        ∧ MaskSpec.class_count cora_sized_labels val y = n_val
        ∧ MaskSpec.class_count cora_sized_labels test y = n_test.
Proof.
  apply (add_mask_disjoint_quota
           {| EvalUtils.data_name := "cora"; EvalUtils.edge_limit := 0 |}
           cora_sized_graph cora_sized_labels (0 : nat)).
  - apply one_hot_labels_one_hot. unfold cora_sized_classes.
    repeat (apply Forall_app; split); apply Forall_replicate; lia.
  - vm_compute. reflexivity.
  - left. split; [reflexivity|]. simpl. lia.
Defined.

(** On that graph, of 1640 nodes in seven classes each as large as its
    quota sums to, the split of cora marks 20 train, 61 val and 130 test
    nodes of class 0, and 20, 158 and 319 of class 3: the quota of the
    tables. *)
Example add_mask_cora_counts :
  length (MaskSpec.class_members cora_sized_labels 0) = 20 + 61 + 130
  ∧ mask_counts cora_sized_labels 0
      (EvalUtils.add_mask {| EvalUtils.data_name := "cora"; EvalUtils.edge_limit := 0 |}
         cora_sized_graph cora_sized_labels (0 : nat)) = Some (20, 61, 130)
  ∧ mask_counts cora_sized_labels 3
      (EvalUtils.add_mask {| EvalUtils.data_name := "cora"; EvalUtils.edge_limit := 0 |}
         cora_sized_graph cora_sized_labels (0 : nat)) = Some (20, 158, 319).
Proof. split_and!; vm_compute; reflexivity. Qed.

(** ** Evaluator.__init__ *)

Section init_facts.
Import Float Py Torch EvalUtils.
Context `{Generator G}.

Lemma bind_no_value_error {A B} (r : Py.result A) (k : A → Py.result B) :
  raises_no_value_error r → (∀ a, raises_no_value_error (k a)) →
  raises_no_value_error (r ≫= k).
Proof. destruct r as [a|e]; [intros _ Hk; apply Hk|by intros He _]. Qed.

Lemma for_no_value_error {A S} (l : list A) (body : S → A → Py.result S) (s : S) :
  (∀ s a, raises_no_value_error (body s a)) →
  raises_no_value_error (Py.for_ l body s).
Proof.
  intros Hbody. revert s. induction l as [|a l IH]; intros s; [done|].
  cbn [Py.for_]. apply bind_no_value_error; [apply Hbody|apply IH].
Qed.

Lemma index_select_no_value_error {A} (t : list A) (idx : list nat) :
  raises_no_value_error (index_select t idx).
Proof. unfold index_select. by destruct (mapM _ idx). Qed.

Lemma masked_select_no_value_error {A} (t : list A) (mask : list bool) :
  raises_no_value_error (masked_select t mask).
Proof. unfold masked_select. by case_decide. Qed.

Lemma argmax_rows_no_value_error (m : list (list tfloat)) :
  raises_no_value_error (argmax_rows m).
Proof.
  apply for_no_value_error. intros acc row.
  apply bind_no_value_error; [by destruct row|done].
Qed.

Lemma collapse_X_no_value_error (X : tensor3) :
  raises_no_value_error (collapse_X X).
Proof.
  apply for_no_value_error. intros acc fm.
  apply bind_no_value_error; [apply argmax_rows_no_value_error|].
  intros col. unfold set_column. by case_decide.
Qed.

Lemma linkx_homophily_no_value_error (g : Dgl.DGLGraph) (y : list nat) :
  raises_no_value_error (linkx_homophily g y).
Proof.
  unfold linkx_homophily, Dgl.edges.
  apply bind_no_value_error; [apply index_select_no_value_error|intros ysrc].
  apply bind_no_value_error; [apply index_select_no_value_error|intros ydst].
  apply bind_no_value_error; [by destruct y|intros ymax].
  apply bind_no_value_error.
  - apply for_no_value_error. intros value k. unfold linkx_class_term.
    apply bind_no_value_error; [apply masked_select_no_value_error|intros sel].
    apply bind_no_value_error; [apply masked_select_no_value_error|done].
  - intros value. unfold Py.truediv. by case_decide.
Qed.

Lemma choose_subg_returns (self : Evaluator) (g : Dgl.DGLGraph) (gen : G) :
  ∃ sub gen', choose_subg self g gen = (Py.Ok sub, gen').
Proof.
  unfold choose_subg. case_decide; [|by eexists _, _].
  destruct (sample_subg_returns self g gen) as (sel & Hrun & _). eauto.
Qed.

(** Without the split step [preprocess_g] raises no [ValueError]. *)
Lemma preprocess_g_no_value_error (self : Evaluator) (g : Dgl.DGLGraph)
    (X : tensor3) (Y : tensor2) (gen : G) :
  raises_no_value_error (preprocess_g self g X Y false gen).1.
Proof.
  unfold preprocess_g.
  cbv beta iota delta [mbind M_bind mret M_ret lift].
  pose proof (collapse_X_no_value_error X) as HX.
  destruct (collapse_X X) as [Xc|e]; [|exact HX].
  destruct (choose_subg_returns self g gen) as (sub & gen' & ->).
  pose proof (argmax_rows_no_value_error (t2_rows Y)) as HY.
  destruct (argmax_rows (t2_rows Y)) as [y|e]; [|exact HY].
  pose proof (linkx_homophily_no_value_error g y) as HL.
  destruct (linkx_homophily g y) as [v|e]; [done|exact HL].
Qed.

Lemma init_without_split (name : string) (g : Dgl.DGLGraph)
    (X : tensor3) (Y : tensor2) (gen : G) :
  name ∉ ["amazon_photo"; "amazon_computer"] →
  init name g X Y gen
  = (let self := {| data_name := name;
                    edge_limit := Nat.min (Dgl.num_edges g) 20000 |} in
     pp ← preprocess_g self g X Y false; mret (self, pp)) gen.
Proof. intros Hname. unfold init. by rewrite decide_False. Qed.

Lemma init_with_split (name : string) (g : Dgl.DGLGraph)
    (X : tensor3) (Y : tensor2) (gen : G) :
  name ∈ ["amazon_photo"; "amazon_computer"] →
  init name g X Y gen
  = (let self := {| data_name := name;
                    edge_limit := Nat.min (Dgl.num_edges g) 20000 |} in
     pp ← preprocess_g self g X Y true; mret (self, pp)) (manual_seed 0).
Proof. intros Hname. unfold init. by rewrite decide_True. Qed.

Lemma attach_masks_twice (g : Dgl.DGLGraph) (m : masks) :
  attach_masks (attach_masks g m) m = attach_masks g m.
Proof.
  destruct m as [[tm vm] sm]. unfold attach_masks.
  cbn [Dgl.num_nodes Dgl.edge_list Dgl.ndata]. f_equal.
  apply map_eq. intros key.
  destruct (decide (key = "test_mask")) as [->|H1];
    [by rewrite !lookup_insert_eq|rewrite !(lookup_insert_ne _ "test_mask") by done].
  destruct (decide (key = "val_mask")) as [->|H2];
    [by rewrite !lookup_insert_eq|rewrite !(lookup_insert_ne _ "val_mask") by done].
  destruct (decide (key = "train_mask")) as [->|H3];
    [by rewrite !lookup_insert_eq|rewrite !(lookup_insert_ne _ "train_mask") by done].
  rewrite !lookup_insert_ne by done. reflexivity.
Qed.

(** The split of the benchmarks run again on the graph it has marked, from
    the same generator state, leaves the graph as it is. *)
Lemma add_mask_amazon_again (self : Evaluator) (g g' : Dgl.DGLGraph)
    (Y : tensor2) (gen gen' : G) :
  data_name self ∈ ["amazon_photo"; "amazon_computer"] →
  add_mask self g Y gen = (Ok g', gen') →
  add_mask self g' Y gen = (Ok g', gen').
Proof.
  intros Hname.
  assert (data_name self ≠ "cora" ∧ data_name self ≠ "citeseer") as [Hn1 Hn2].
  { split; intros Heq; rewrite Heq in Hname;
      repeat (apply elem_of_cons in Hname as [Hname|Hname]; [discriminate|]);
      by apply elem_of_nil in Hname. }
  assert (∀ g0, add_mask self g0 Y = add_mask_benchmark self g0 Y) as Hdispatch.
  { intros g0. unfold add_mask.
    rewrite (decide_False (P := data_name self = "cora")) by done.
    rewrite (decide_False (P := data_name self = "citeseer")) by done.
    by rewrite decide_True. }
  rewrite !Hdispatch. unfold add_mask_benchmark. cbv zeta. intros Hrun.
  apply M_bind_Ok in Hrun as (m & gen1 & Hloop & Hret).
  injection Hret as <- <-.
  replace (Dgl.num_nodes (attach_masks g m)) with (Dgl.num_nodes g)
    by (by destruct m as [[tm vm] sm]).
  rewrite (M_bind_eval _ _ _ _ _ Hloop).
  cbv beta iota delta [mret M_ret]. by rewrite attach_masks_twice.
Qed.

Lemma add_mask_amazon_returns (name : string) (limit : nat) (g : Dgl.DGLGraph)
    (Y : tensor2) (gen : G) :
  name ∈ ["amazon_photo"; "amazon_computer"] →
  MaskSpec.one_hot Y → length (t2_rows Y) = Dgl.num_nodes g →
  ∃ g' gen' train val test,
    add_mask {| data_name := name; edge_limit := limit |} g Y gen = (Ok g', gen')
    ∧ MaskSpec.has_masks g' train val test
    ∧ MaskSpec.disjoint_masks train val test.
Proof.
  intros Hname Hoh Hrows.
  assert (name ≠ "cora" ∧ name ≠ "citeseer") as [Hn1 Hn2].
  { split; intros ->;
      repeat (apply elem_of_cons in Hname as [Hname|Hname]; [discriminate|]);
      by apply elem_of_nil in Hname. }
  unfold add_mask. cbn [data_name].
  rewrite !decide_False by done. rewrite decide_True by done.
  destruct (add_mask_benchmark_returns {| data_name := name; edge_limit := limit |}
              g Y gen Hoh Hrows)
    as (g' & gen' & train & val & test & Hrun & _ & _ & Hm & Hd & _).
  by exists g', gen', train, val, test.
Qed.

End init_facts.

(** ** preprocess_g computes the homophily of the whole graph *)

Section preprocess_facts.
Import Float Py Torch EvalUtils.
Context `{Generator G}.

Lemma linkx_homophily_same_edges (g g' : Dgl.DGLGraph) (y : list nat) :
  Dgl.num_nodes g' = Dgl.num_nodes g → Dgl.edge_list g' = Dgl.edge_list g →
  linkx_homophily g' y = linkx_homophily g y.
Proof.
  destruct g as [n E nd], g' as [n' E' nd']. cbn [Dgl.num_nodes Dgl.edge_list].
  intros -> ->. reflexivity.
Qed.

Lemma add_mask_quota_same_edges (tv tt : gmap nat nat) (g g' : Dgl.DGLGraph)
    (Y : tensor2) (gen gen' : G) :
  add_mask_quota tv tt g Y gen = (Ok g', gen') →
  Dgl.num_nodes g' = Dgl.num_nodes g ∧ Dgl.edge_list g' = Dgl.edge_list g.
Proof.
  unfold add_mask_quota. intros Hrun.
  apply M_bind_Ok in Hrun as ([[tm vm] sm] & gen1 & _ & Hret).
  by injection Hret as <- _.
Qed.

Lemma add_mask_same_edges (self : Evaluator) (g g' : Dgl.DGLGraph)
    (Y : tensor2) (gen gen' : G) :
  add_mask self g Y gen = (Ok g', gen') →
  Dgl.num_nodes g' = Dgl.num_nodes g ∧ Dgl.edge_list g' = Dgl.edge_list g.
Proof.
  unfold add_mask, add_mask_cora, add_mask_citeseer, add_mask_benchmark.
  repeat case_decide.
  - apply add_mask_quota_same_edges.
  - apply add_mask_quota_same_edges.
  - intros Hrun. apply M_bind_Ok in Hrun as ([[tm vm] sm] & gen1 & _ & Hret).
    by injection Hret as <- _.
  - discriminate.
Qed.

Lemma preprocess_g_linkx (self : Evaluator) (g g' : Dgl.DGLGraph)
    (X : tensor3) (Y : tensor2) (flag : bool) (gen gen1 : G)
    (Xc : list (list tfloat)) (y : list nat) (v : tfloat) :
  (if flag then add_mask self g Y else mret g) gen = (Ok g', gen1) →
  collapse_X X = Ok Xc →
  argmax_rows (t2_rows Y) = Ok y →
  linkx_homophily g y = Ok v →
  ∃ pp gen2,
    preprocess_g self g X Y flag gen = (Ok pp, gen2)
    ∧ pp_linkx_A pp = v
    ∧ pp_dgl_g pp = g'
    ∧ choose_subg self g' gen1 = (Ok (pp_dgl_subg pp), gen2).
Proof.
  intros Hmask HX HY Hv.
  assert (Dgl.num_nodes g' = Dgl.num_nodes g ∧ Dgl.edge_list g' = Dgl.edge_list g)
    as [HN HE].
  { destruct flag; [by eapply add_mask_same_edges|]. by injection Hmask as <- _. }
  destruct (choose_subg_returns self g' gen1) as (sub & gen2 & Hsub).
  eexists _, gen2. split_and!.
  - unfold preprocess_g. rewrite (M_bind_eval _ _ _ _ _ Hmask).
    rewrite HX, HY. cbv beta iota delta [lift mbind M_bind mret M_ret].
    rewrite Hsub, (linkx_homophily_same_edges g g' y HN HE), Hv. reflexivity.
  - reflexivity.
  - reflexivity.
  - exact Hsub.
Qed.

End preprocess_facts.

(** C1, as stated, fails: constructing an Evaluator with the unrecognized
    identifier ["pubmed"] raises nothing; it returns an Evaluator and the
    statistics of the graph, with no mask attached. *)
Lemma init_unrecognized_name_returns :
  ("pubmed" ∉ recognized_names)
  ∧ (∃ self pp gen',
       EvalUtils.init "pubmed" two_pairs_graph two_pairs_attributes two_pairs_labels
         (0 : nat) = (Py.Ok (self, pp), gen')
       ∧ EvalUtils.data_name self = "pubmed"
       ∧ Dgl.ndata (EvalUtils.pp_dgl_g pp) = ∅).
Proof.
  split.
  - unfold recognized_names. intros Hin.
    repeat (apply elem_of_cons in Hin as [Hin|Hin]; [discriminate|]).
    by apply elem_of_nil in Hin.
  - eexists _, _, _. split_and!; [vm_compute; reflexivity|reflexivity|reflexivity].
Qed.

Lemma pubmed_unrecognized : "pubmed" ∉ recognized_names.
Proof.
  unfold recognized_names. intros Hin.
  repeat (apply elem_of_cons in Hin as [Hin|Hin]; [discriminate|]).
  by apply elem_of_nil in Hin.
Defined.

(** C1, amended.  For every dataset identifier outside the recognized set,
    [add_mask] fails with a [ValueError] whose message names the value,
    before any mask is attached and without drawing from the generator.
    The constructor calls [add_mask] for amazon_photo and amazon_computer
    only, so with an unrecognized identifier it runs [preprocess_g] without
    the split step and raises no [ValueError]. *)
Theorem add_mask_unrecognized_name_value_error `{Torch.Generator G}
    (name : string) (limit : nat) (g : Dgl.DGLGraph)
    (X : Torch.tensor3) (Y : Torch.tensor2) (gen : G) :
  name ∉ recognized_names →
  EvalUtils.add_mask {| EvalUtils.data_name := name; EvalUtils.edge_limit := limit |}
    g Y gen
  = (Py.Raise (Py.ValueError ("Unexpected data name: " +:+ name)), gen)
  ∧ EvalUtils.init name g X Y gen
    = (let self := {| EvalUtils.data_name := name;
                      EvalUtils.edge_limit := Nat.min (Dgl.num_edges g) 20000 |} in
       pp ← EvalUtils.preprocess_g self g X Y false; mret (self, pp)) gen
  ∧ Py.raises_no_value_error (EvalUtils.init name g X Y gen).1.
Proof.
  intros Hname. unfold recognized_names in Hname.
  rewrite !not_elem_of_cons in Hname. destruct Hname as (H1 & H2 & H3 & H4 & _).
  assert (name ∉ ["amazon_photo"; "amazon_computer"]) as Hamazon.
  { rewrite !not_elem_of_cons. split_and!; [done..|]. apply not_elem_of_nil. }
  split_and!.
  - unfold EvalUtils.add_mask. cbn [EvalUtils.data_name].
    by rewrite !decide_False.
  - by apply init_without_split.
  - rewrite init_without_split by done. cbv zeta.
    pose proof (preprocess_g_no_value_error
                  {| EvalUtils.data_name := name;
                     EvalUtils.edge_limit := Nat.min (Dgl.num_edges g) 20000 |}
                  g X Y gen) as Hpp.
    cbv beta iota delta [mbind Torch.M_bind mret Torch.M_ret].
    destruct (EvalUtils.preprocess_g _ g X Y false gen) as [[pp|e] gen']; [done|].
    exact Hpp.
Qed.

Lemma add_mask_unrecognized_name_value_error_witness :
  EvalUtils.add_mask {| EvalUtils.data_name := "pubmed"; EvalUtils.edge_limit := 4 |}
    two_pairs_graph two_pairs_labels (0 : nat)
  = (Py.Raise (Py.ValueError ("Unexpected data name: " +:+ "pubmed")), 0)
  ∧ EvalUtils.init "pubmed" two_pairs_graph two_pairs_attributes two_pairs_labels
      (0 : nat)
    = (let self := {| EvalUtils.data_name := "pubmed";
                      EvalUtils.edge_limit :=
                        Nat.min (Dgl.num_edges two_pairs_graph) 20000 |} in
       pp ← EvalUtils.preprocess_g self two_pairs_graph two_pairs_attributes
              two_pairs_labels false;
       mret (self, pp)) (0 : nat)
  ∧ Py.raises_no_value_error
      (EvalUtils.init "pubmed" two_pairs_graph two_pairs_attributes two_pairs_labels
         (0 : nat)).1.
Proof.
  apply (add_mask_unrecognized_name_value_error "pubmed" 4 two_pairs_graph
           two_pairs_attributes two_pairs_labels (0 : nat)).
  exact pubmed_unrecognized.
Defined.

(** C9. For amazon_photo and amazon_computer the constructor sets the
    generator to the state of seed 0 before anything is drawn: it is
    [preprocess_g] with the split step, run from that state.  So, for a
    one-hot label tensor of the graph on which the rest of [preprocess_g]
    succeeds, every construction returns, and whatever the generator's state
    before, it returns the same Evaluator, the same statistics, the same
    three masks - those [add_mask] draws from the state of seed 0 - and
    leaves the same generator state; a second construction on the graph the
    first one has marked gives the same again. *)
Theorem init_amazon_reseeds `{Torch.Generator G}
    (name : string) (g : Dgl.DGLGraph) (X : Torch.tensor3) (Y : Torch.tensor2)
    (Xc : list (list Float.tfloat)) (y : list nat) (v : Float.tfloat) :
  name ∈ ["amazon_photo"; "amazon_computer"] →
  MaskSpec.one_hot Y → length (Torch.t2_rows Y) = Dgl.num_nodes g →
  EvalUtils.collapse_X X = Py.Ok Xc →
  Torch.argmax_rows (Torch.t2_rows Y) = Py.Ok y →
  EvalUtils.linkx_homophily g y = Py.Ok v →
  (∀ gen : G,
     EvalUtils.init name g X Y gen
     = (let self := {| EvalUtils.data_name := name;
                       EvalUtils.edge_limit := Nat.min (Dgl.num_edges g) 20000 |} in
        pp ← EvalUtils.preprocess_g self g X Y true; mret (self, pp))
         (Torch.manual_seed 0))
  ∧ ∃ self pp (gen' gen_m : G) train val test,
      (∀ gen : G, EvalUtils.init name g X Y gen = (Py.Ok (self, pp), gen'))
      ∧ EvalUtils.add_mask self g Y (Torch.manual_seed 0)
        = (Py.Ok (EvalUtils.pp_dgl_g pp), gen_m)
      ∧ MaskSpec.has_masks (EvalUtils.pp_dgl_g pp) train val test
      ∧ MaskSpec.disjoint_masks train val test
      ∧ (∀ gen2 : G,
           EvalUtils.init name (EvalUtils.pp_dgl_g pp) X Y gen2
           = (Py.Ok (self, pp), gen')).
Proof.
  intros Hname Hoh Hrows HX HY Hv.
  split; [intros gen; by apply init_with_split|].
  set (self := {| EvalUtils.data_name := name;
                  EvalUtils.edge_limit := Nat.min (Dgl.num_edges g) 20000 |}).
  destruct (add_mask_amazon_returns name (Nat.min (Dgl.num_edges g) 20000)
              g Y (Torch.manual_seed 0) Hname Hoh Hrows)
    as (g' & gen_m & train & val & test & Hmask & Hm & Hd).
  fold self in Hmask.
  destruct (preprocess_g_linkx self g g' X Y true (Torch.manual_seed 0) gen_m Xc y v
              Hmask HX HY Hv) as (pp & gen' & Hpp & _ & Hg' & _).
  assert (∀ gen : G, EvalUtils.init name g X Y gen = (Py.Ok (self, pp), gen')) as Hinit.
  { intros gen. rewrite init_with_split by done. cbv zeta. fold self.
    by rewrite (M_bind_eval _ _ _ _ _ Hpp). }
  exists self, pp, gen', gen_m, train, val, test.
  rewrite Hg'. split_and!; [exact Hinit|exact Hmask|exact Hm|exact Hd|].
  intros gen2. rewrite init_with_split by done. cbv zeta.
  pose proof (add_mask_amazon_again self g g' Y _ _ Hname Hmask) as Hagain.
  destruct (add_mask_same_edges self g g' Y _ _ Hmask) as [_ HE].
  replace (Dgl.num_edges g') with (Dgl.num_edges g)
    by (unfold Dgl.num_edges; by rewrite HE).
  fold self.
  assert (EvalUtils.preprocess_g self g' X Y true (Torch.manual_seed 0)
          = (Py.Ok pp, gen')) as Hpp2.
  { rewrite <- Hpp. unfold EvalUtils.preprocess_g.
    by rewrite (M_bind_eval _ _ _ _ _ Hmask), (M_bind_eval _ _ _ _ _ Hagain). }
  by rewrite (M_bind_eval _ _ _ _ _ Hpp2).
Qed.

Lemma init_amazon_reseeds_witness :
  (∀ gen : nat,
     EvalUtils.init "amazon_photo" sixty_nodes_graph sixty_nodes_attributes
       sixty_nodes_labels gen
     = (let self := {| EvalUtils.data_name := "amazon_photo";
                       EvalUtils.edge_limit :=
                         Nat.min (Dgl.num_edges sixty_nodes_graph) 20000 |} in
        pp ← EvalUtils.preprocess_g self sixty_nodes_graph sixty_nodes_attributes
               sixty_nodes_labels true;
        mret (self, pp)) (Torch.manual_seed 0))
  ∧ ∃ self pp (gen' gen_m : nat) train val test,
      (∀ gen : nat,
         EvalUtils.init "amazon_photo" sixty_nodes_graph sixty_nodes_attributes
           sixty_nodes_labels gen = (Py.Ok (self, pp), gen'))
      ∧ EvalUtils.add_mask self sixty_nodes_graph sixty_nodes_labels
          (Torch.manual_seed 0)
        = (Py.Ok (EvalUtils.pp_dgl_g pp), gen_m)
      ∧ MaskSpec.has_masks (EvalUtils.pp_dgl_g pp) train val test
      ∧ MaskSpec.disjoint_masks train val test
      ∧ (∀ gen2 : nat,
           EvalUtils.init "amazon_photo" (EvalUtils.pp_dgl_g pp) sixty_nodes_attributes
             sixty_nodes_labels gen2
           = (Py.Ok (self, pp), gen')).
Proof.
  apply (init_amazon_reseeds "amazon_photo" sixty_nodes_graph sixty_nodes_attributes
           sixty_nodes_labels
           (attribute_rows 60 [replicate 60 1]) sixty_nodes_classes Float.zero).
  - left.
  - apply one_hot_labels_one_hot.
    apply Forall_app; split; apply Forall_replicate; lia.
  - vm_compute. reflexivity.
  - apply (bool_decide_unpack _). vm_compute. exact I.
  - apply (bool_decide_unpack _). vm_compute. exact I.
  - apply (bool_decide_unpack _). vm_compute. exact I.
Defined.

(** The reseeding is what makes the masks the same: drawn from two
    different generator states, the split of the same graph differs (class 0
    has 55 members, of which 20 are marked for training); two constructions
    from these states do not. *)
Example add_mask_depends_on_state :
  attached_mask "train_mask"
    (EvalUtils.add_mask
       {| EvalUtils.data_name := "amazon_photo"; EvalUtils.edge_limit := 0 |}
       sixty_nodes_graph sixty_nodes_labels (3 : nat))
  ≠ attached_mask "train_mask"
      (EvalUtils.add_mask
         {| EvalUtils.data_name := "amazon_photo"; EvalUtils.edge_limit := 0 |}
         sixty_nodes_graph sixty_nodes_labels (11 : nat))
  ∧ mask_counts sixty_nodes_labels 0
      (EvalUtils.add_mask
         {| EvalUtils.data_name := "amazon_photo"; EvalUtils.edge_limit := 0 |}
         sixty_nodes_graph sixty_nodes_labels (3 : nat)) = Some (20, 30, 5)
  ∧ EvalUtils.init "amazon_photo" sixty_nodes_graph sixty_nodes_attributes
      sixty_nodes_labels (3 : nat)
    = EvalUtils.init "amazon_photo" sixty_nodes_graph sixty_nodes_attributes
        sixty_nodes_labels (11 : nat).
Proof.
  split_and!.
  - apply (bool_decide_unpack _). vm_compute. exact I.
  - vm_compute. reflexivity.
  - rewrite !init_with_split by left. reflexivity.
Qed.

Example init_amazon_photo_any_state :
  (EvalUtils.init "amazon_photo" two_pairs_graph two_pairs_attributes
     two_pairs_labels (3 : nat)).2 = 2
  ∧ (EvalUtils.init "amazon_photo" two_pairs_graph two_pairs_attributes
       two_pairs_labels (11 : nat)).2 = 2.
Proof. split; vm_compute; reflexivity. Qed.


(** ** The statements of a mini-batch *)

Section batch_facts.
Import Float TrainAsync.
Context `{Externals}.

Lemma exec_wandb_log (cfg : train_config) (loss_X loss_E : loss)
    (st : train_state) (c : stmt) :
  wandb_log (exec cfg loss_X loss_E st c)
  = if decide (c = WandbLog) then wandb_log st ++ [loss_record loss_X loss_E]
    else wandb_log st.
Proof.
  destruct c; cbn [exec set_params wandb_log]; try reflexivity;
    by destruct (step _ (params st)).
Qed.

Lemma exec_keeps_records (cfg : train_config) (loss_X loss_E : loss)
    (st : train_state) (c : stmt) :
  num_patient_epochs (exec cfg loss_X loss_E st c) = num_patient_epochs st
  ∧ best_X (exec cfg loss_X loss_E st c) = best_X st
  ∧ best_E (exec cfg loss_X loss_E st c) = best_E st
  ∧ training (exec cfg loss_X loss_E st c) = training st.
Proof.
  destruct c; cbn [exec set_params]; try done;
    by destruct (step _ (params st)).
Qed.

Lemma train_batch_wandb_log (cfg : train_config) (st : train_state)
    (batch : list (nat * nat)) :
  wandb_log (train_batch cfg st batch)
  = wandb_log st
    ++ [loss_record (batch_losses st batch).1 (batch_losses st batch).2].
Proof.
  unfold train_batch, run_batch.
  destruct (batch_losses st batch) as [loss_X loss_E]. cbn [fst snd].
  unfold batch_stmts. cbn [foldl].
  rewrite !exec_wandb_log. rewrite decide_True by done.
  by rewrite !decide_False by done.
Qed.

Lemma train_batch_keeps_records (cfg : train_config) (st : train_state)
    (batch : list (nat * nat)) :
  num_patient_epochs (train_batch cfg st batch) = num_patient_epochs st
  ∧ best_X (train_batch cfg st batch) = best_X st
  ∧ best_E (train_batch cfg st batch) = best_E st.
Proof.
  unfold train_batch, run_batch.
  destruct (batch_losses st batch) as [loss_X loss_E].
  generalize batch_stmts. intros stmts. revert st.
  induction stmts as [|c stmts IH]; intros st; [done|].
  cbn [foldl]. destruct (IH (exec cfg loss_X loss_E st c)) as (-> & -> & ->).
  pose proof (exec_keeps_records cfg loss_X loss_E st c). tauto.
Qed.

Lemma batches_wandb_log (cfg : train_config) (st : train_state)
    (batches : list (list (nat * nat))) :
  length (wandb_log (foldl (train_batch cfg) st batches))
  = length (wandb_log st) + length batches.
Proof.
  revert st. induction batches as [|b batches IH]; intros st; [simpl; lia|].
  cbn [foldl]. rewrite IH, train_batch_wandb_log, length_app. simpl. lia.
Qed.

Lemma batches_keep_records (cfg : train_config) (st : train_state)
    (batches : list (list (nat * nat))) :
  num_patient_epochs (foldl (train_batch cfg) st batches) = num_patient_epochs st
  ∧ best_X (foldl (train_batch cfg) st batches) = best_X st
  ∧ best_E (foldl (train_batch cfg) st batches) = best_E st.
Proof.
  revert st. induction batches as [|b batches IH]; intros st; [done|].
  cbn [foldl]. destruct (IH (train_batch cfg st b)) as (-> & -> & ->).
  apply train_batch_keeps_records.
Qed.

End batch_facts.

(** ** Clipping and stepping touch one stream *)

Section stream_frame.
Import Float TrainAsync.
Context `{Externals}.

Lemma zero_grad_frame (names : list string) (s : gmap string param) (name : string) :
  name ∉ names → zero_grad names s !! name = s !! name.
Proof.
  induction names as [|n names IH]; intros Hnot; [done|].
  apply not_elem_of_cons in Hnot as [Hne Hnot]. cbn [zero_grad foldr].
  rewrite lookup_alter_ne by done. by apply IH.
Qed.

Lemma clip_grad_norm_frame (names : list string) (max_norm : tfloat)
    (s : gmap string param) (name : string) :
  name ∉ names → clip_grad_norm_ names max_norm s !! name = s !! name.
Proof.
  unfold clip_grad_norm_. generalize (clip_coef names max_norm s). intros c.
  induction names as [|n names IH]; intros Hnot; [done|].
  apply not_elem_of_cons in Hnot as [Hne Hnot]. cbn [foldr].
  rewrite lookup_alter_ne by done. by apply IH.
Qed.

Lemma step_param_frame (hyper : Hyper)
    (acc : gmap string AdamState * gmap string param) (n name : string) :
  name ≠ n → (step_param hyper acc n).2 !! name = acc.2 !! name.
Proof.
  intros Hne. unfold step_param.
  destruct (acc.2 !! n) as [[d [g|]]|]; [|done..].
  destruct (adamw hyper (acc.1 !! n) d g) as [st' d']. cbn [snd].
  by rewrite lookup_insert_ne.
Qed.

Lemma step_frame (o : optimizer) (s : gmap string param) (name : string) :
  name ∉ opt_params o → (step o s).2 !! name = s !! name.
Proof.
  unfold step. cbn [snd]. generalize (opt_state o). intros sts.
  revert sts s. induction (opt_params o) as [|n names IH]; intros sts s Hnot; [done|].
  apply not_elem_of_cons in Hnot as [Hne Hnot]. cbn [foldl].
  destruct (step_param (opt_hyper o) (sts, s) n) as [sts' s'] eqn:Hstep.
  rewrite IH by done.
  change s' with (sts', s').2. rewrite <- Hstep. by apply step_param_frame.
Qed.

Lemma step_param_agree (hyper : Hyper) (sts : gmap string AdamState)
    (s1 s2 : gmap string param) (n : string) :
  s1 !! n = s2 !! n →
  (step_param hyper (sts, s1) n).1 = (step_param hyper (sts, s2) n).1
  ∧ ∀ name, s1 !! name = s2 !! name →
      (step_param hyper (sts, s1) n).2 !! name
      = (step_param hyper (sts, s2) n).2 !! name.
Proof.
  intros Hn. unfold step_param. cbn [fst snd]. rewrite <- Hn.
  destruct (s1 !! n) as [[d [g|]]|]; [|done..].
  destruct (adamw hyper (sts !! n) d g) as [st' d']. cbn [fst snd].
  split; [done|]. intros name Hname.
  destruct (decide (n = name)) as [->|Hne].
  - by rewrite !lookup_insert_eq.
  - by rewrite !lookup_insert_ne.
Qed.

(** Stepping an optimizer reads and writes its own parameters only. *)
Lemma step_agree (o : optimizer) (s1 s2 : gmap string param) :
  (∀ name, name ∈ opt_params o → s1 !! name = s2 !! name) →
  (step o s1).1 = (step o s2).1
  ∧ ∀ name, name ∈ opt_params o → (step o s1).2 !! name = (step o s2).2 !! name.
Proof.
  unfold step. cbn [fst snd]. generalize (opt_state o). intros sts.
  assert (∀ names sts s1 s2,
            names ⊆ opt_params o →
            (∀ name, name ∈ opt_params o → s1 !! name = s2 !! name) →
            (foldl (step_param (opt_hyper o)) (sts, s1) names).1
            = (foldl (step_param (opt_hyper o)) (sts, s2) names).1
            ∧ ∀ name, name ∈ opt_params o →
                (foldl (step_param (opt_hyper o)) (sts, s1) names).2 !! name
                = (foldl (step_param (opt_hyper o)) (sts, s2) names).2 !! name)
    as Hgen.
  { clear. induction names as [|n names IH]; intros sts s1 s2 Hsub Hagree; [done|].
    cbn [foldl].
    assert (n ∈ opt_params o) as Hn by (apply Hsub; left).
    assert (names ⊆ opt_params o) as Hsub' by (intros x Hx; apply Hsub; by right).
    destruct (step_param_agree (opt_hyper o) sts s1 s2 n (Hagree n Hn)) as [Hst Hs].
    destruct (step_param (opt_hyper o) (sts, s1) n) as [sts1 s1'].
    destruct (step_param (opt_hyper o) (sts, s2) n) as [sts2 s2'].
    cbn [fst snd] in Hst, Hs. subst sts2.
    apply IH; [done|]. intros name Hname. by apply Hs, Hagree. }
  intros Hagree. destruct (Hgen (opt_params o) sts s1 s2) as [H1 H2]; [done..|].
  split; [by rewrite H1|exact H2].
Qed.

End stream_frame.

Section exec_facts.
Import Float TrainAsync.
Context `{Externals}.

Lemma exec_Step_X (cfg : train_config) (loss_X loss_E : loss) (st : train_state) :
  params (exec cfg loss_X loss_E st Step_X) = (step (optimizer_X st) (params st)).2
  ∧ optimizer_X (exec cfg loss_X loss_E st Step_X)
    = (step (optimizer_X st) (params st)).1
  ∧ optimizer_E (exec cfg loss_X loss_E st Step_X) = optimizer_E st.
Proof. cbn [exec]. by destruct (step (optimizer_X st) (params st)). Qed.

Lemma exec_Step_E (cfg : train_config) (loss_X loss_E : loss) (st : train_state) :
  params (exec cfg loss_X loss_E st Step_E) = (step (optimizer_E st) (params st)).2
  ∧ optimizer_X (exec cfg loss_X loss_E st Step_E) = optimizer_X st
  ∧ optimizer_E (exec cfg loss_X loss_E st Step_E)
    = (step (optimizer_E st) (params st)).1.
Proof. cbn [exec]. by destruct (step (optimizer_E st) (params st)). Qed.

Lemma exec_WandbLog (cfg : train_config) (loss_X loss_E : loss) (st : train_state) :
  params (exec cfg loss_X loss_E st WandbLog) = params st
  ∧ optimizer_X (exec cfg loss_X loss_E st WandbLog) = optimizer_X st.
Proof. done. Qed.

Lemma opt_params_step (o : optimizer) (s : gmap string param) :
  opt_params (step o s).1 = opt_params o.
Proof. reflexivity. Qed.

Lemma clip_coef_agree (names : list string) (max_norm : tfloat)
    (s1 s2 : gmap string param) :
  (∀ name, name ∈ names → s1 !! name = s2 !! name) →
  clip_coef names max_norm s1 = clip_coef names max_norm s2.
Proof.
  intros Hagree. unfold clip_coef. do 5 f_equal.
  induction names as [|n names IH]; [done|].
  cbn [omap list_omap]. rewrite (Hagree n) by left.
  rewrite IH; [done|]. intros name Hname. apply Hagree. by right.
Qed.

(** Clipping a stream reads the gradients of that stream only. *)
Lemma clip_grad_norm_agree (names : list string) (max_norm : tfloat)
    (s1 s2 : gmap string param) (name : string) :
  (∀ name, name ∈ names → s1 !! name = s2 !! name) →
  name ∈ names →
  clip_grad_norm_ names max_norm s1 !! name = clip_grad_norm_ names max_norm s2 !! name.
Proof.
  intros Hagree Hname. unfold clip_grad_norm_.
  rewrite (clip_coef_agree names max_norm s1 s2 Hagree).
  generalize (clip_coef names max_norm s2). intros c.
  assert (s1 !! name = s2 !! name) as Hs by (by apply Hagree).
  clear Hagree Hname. induction names as [|n names IH]; [done|].
  cbn [foldr]. destruct (decide (n = name)) as [->|Hne].
  - rewrite !lookup_alter_eq. by rewrite IH.
  - by rewrite !lookup_alter_ne.
Qed.

Lemma stmts_without_E_clip_eq :
  stmts_without_E_clip
  = [ZeroGrad_X; ZeroGrad_E; Backward; Clip_X; Step_X; Step_E; WandbLog].
Proof. reflexivity. Qed.

End exec_facts.

(** ** Gradients within a mini-batch *)

Section gradient_facts.
Import Float TrainAsync.
Context `{Externals}.

Lemma zero_grad_lookup (names : list string) (s : gmap string param) (name : string) :
  name ∈ names →
  zero_grad names s !! name = (λ p, Param (data p) None) <$> s !! name.
Proof.
  induction names as [|n names IH]; intros Hin; [by apply elem_of_nil in Hin|].
  cbn [zero_grad foldr]. fold (zero_grad names s).
  destruct (decide (n = name)) as [->|Hne].
  - rewrite lookup_alter_eq.
    destruct (decide (name ∈ names)) as [Hin'|Hnot].
    + rewrite IH by done. by destruct (s !! name).
    + by rewrite zero_grad_frame.
  - rewrite lookup_alter_ne by done. apply IH.
    apply elem_of_cons in Hin as [->|Hin]; done.
Qed.

Lemma zero_grad_data (names : list string) (s : gmap string param) (name : string) :
  data <$> zero_grad names s !! name = data <$> s !! name.
Proof.
  destruct (decide (name ∈ names)) as [Hin|Hnot].
  - rewrite zero_grad_lookup by done. by destruct (s !! name).
  - by rewrite zero_grad_frame.
Qed.

Lemma backward_lookup (l : loss) (s : gmap string param) (name : string) :
  backward l s !! name
  = (λ p, Param (data p) (add_grad (grad p) (grad_fn l name))) <$> s !! name.
Proof. unfold backward. rewrite map_lookup_imap. by destruct (s !! name). Qed.



Lemma clip_grad_norm_lookup (names : list string) (max_norm : tfloat)
    (s : gmap string param) (name : string) :
  NoDup names → name ∈ names →
  clip_grad_norm_ names max_norm s !! name
  = (λ p, Param (data p)
            ((λ g : list tfloat, fmul (clip_coef names max_norm s) <$> g) <$> grad p))
      <$> s !! name.
Proof.
  unfold clip_grad_norm_. generalize (clip_coef names max_norm s). intros c.
  induction 1 as [|n names Hnot Hnd IH]; intros Hin; [by apply elem_of_nil in Hin|].
  cbn [foldr]. destruct (decide (n = name)) as [->|Hne].
  - rewrite lookup_alter_eq. f_equal.
    clear IH Hin Hnd. induction names as [|m names IH]; [done|].
    apply not_elem_of_cons in Hnot as [Hne Hnot]. cbn [foldr].
    rewrite lookup_alter_ne by done. by apply IH.
  - rewrite lookup_alter_ne by done. apply IH.
    apply elem_of_cons in Hin as [->|Hin]; done.
Qed.





End gradient_facts.

Section stream_facts.
Import Float TrainAsync.
Context `{Externals}.

Lemma zero_grads_lookup (names_X names_E : list string) (s : gmap string param)
    (name : string) (p : param) :
  name ∈ names_X ++ names_E → s !! name = Some p →
  zero_grad names_E (zero_grad names_X s) !! name = Some (Param (data p) None).
Proof.
  intros Hin Hp.
  assert (data <$> zero_grad names_X s !! name = Some (data p)) as Hd
    by (by rewrite zero_grad_data, Hp).
  destruct (decide (name ∈ names_E)) as [HE|HE].
  - rewrite zero_grad_lookup by done.
    destruct (zero_grad names_X s !! name) as [q|]; [|discriminate].
    injection Hd as Hd. cbn. by rewrite Hd.
  - rewrite zero_grad_frame by done.
    apply elem_of_app in Hin as [HX|HE']; [|done].
    rewrite zero_grad_lookup by done. by rewrite Hp.
Qed.

Lemma exec_Step_X_eq (cfg : train_config) (loss_X loss_E : loss) (st : train_state) :
  exec cfg loss_X loss_E st Step_X
  = {| params := (step (optimizer_X st) (params st)).2; training := training st;
       optimizer_X := (step (optimizer_X st) (params st)).1;
       optimizer_E := optimizer_E st;
       best_X := best_X st; best_E := best_E st;
       num_patient_epochs := num_patient_epochs st; wandb_log := wandb_log st |}.
Proof. cbn [exec]. by destruct (step (optimizer_X st) (params st)). Qed.

Lemma exec_Step_E_eq (cfg : train_config) (loss_X loss_E : loss) (st : train_state) :
  exec cfg loss_X loss_E st Step_E
  = {| params := (step (optimizer_E st) (params st)).2; training := training st;
       optimizer_X := optimizer_X st;
       optimizer_E := (step (optimizer_E st) (params st)).1;
       best_X := best_X st; best_E := best_E st;
       num_patient_epochs := num_patient_epochs st; wandb_log := wandb_log st |}.
Proof. cbn [exec]. by destruct (step (optimizer_E st) (params st)). Qed.

Lemma clips_commute (names_X names_E : list string) (max_norm : tfloat)
    (s : gmap string param) :
  (∀ name, name ∈ names_X → name ∉ names_E) →
  clip_grad_norm_ names_E max_norm (clip_grad_norm_ names_X max_norm s)
  = clip_grad_norm_ names_X max_norm (clip_grad_norm_ names_E max_norm s).
Proof.
  intros Hdisj. apply map_eq. intros name.
  destruct (decide (name ∈ names_X)) as [HX|HX].
  - rewrite clip_grad_norm_frame by (by apply Hdisj).
    apply clip_grad_norm_agree; [|done].
    intros n Hn. symmetry. apply clip_grad_norm_frame. by apply Hdisj.
  - rewrite (clip_grad_norm_frame names_X) by done.
    destruct (decide (name ∈ names_E)) as [HE|HE].
    + apply clip_grad_norm_agree; [|done].
      intros n Hn. apply clip_grad_norm_frame. intros HnX. by apply (Hdisj n).
    + by rewrite !clip_grad_norm_frame.
Qed.

Lemma steps_commute (o_X o_E : optimizer) (s : gmap string param) :
  (∀ name, name ∈ opt_params o_X → name ∉ opt_params o_E) →
  (step o_E (step o_X s).2).2 = (step o_X (step o_E s).2).2
  ∧ (step o_X (step o_E s).2).1 = (step o_X s).1
  ∧ (step o_E (step o_X s).2).1 = (step o_E s).1.
Proof.
  intros Hdisj.
  destruct (step_agree o_X (step o_E s).2 s) as [HX1 HX2].
  { intros n Hn. apply step_frame. by apply Hdisj. }
  destruct (step_agree o_E (step o_X s).2 s) as [HE1 HE2].
  { intros n Hn. apply step_frame. intros HnX. by apply (Hdisj n). }
  split_and!; [|done..].
  apply map_eq. intros name.
  destruct (decide (name ∈ opt_params o_X)) as [HX|HX].
  - rewrite step_frame by (by apply Hdisj). symmetry. by apply HX2.
  - rewrite (step_frame o_X) by done.
    destruct (decide (name ∈ opt_params o_E)) as [HE|HE].
    + by apply HE2.
    + by rewrite !step_frame.
Qed.

End stream_facts.

Section update_facts.
Import Float TrainAsync.
Context `{Externals}.

Lemma step_param_frame_state (hyper : Hyper)
    (acc : gmap string AdamState * gmap string param) (n name : string) :
  name ≠ n → (step_param hyper acc n).1 !! name = acc.1 !! name.
Proof.
  intros Hne. unfold step_param.
  destruct (acc.2 !! n) as [[d [g|]]|]; [|done..].
  destruct (adamw hyper (acc.1 !! n) d g) as [st' d']. cbn [fst].
  by rewrite lookup_insert_ne.
Qed.

Lemma foldl_step_param_frame (hyper : Hyper) (names : list string)
    (acc : gmap string AdamState * gmap string param) (name : string) :
  name ∉ names →
  (foldl (step_param hyper) acc names).2 !! name = acc.2 !! name.
Proof.
  revert acc. induction names as [|n names IH]; intros acc Hnot; [done|].
  apply not_elem_of_cons in Hnot as [Hne Hnot]. cbn [foldl].
  rewrite IH by done. by apply step_param_frame.
Qed.

(** What stepping does to a parameter of the optimizer. *)
Lemma foldl_step_param_lookup (hyper : Hyper) (names : list string)
    (acc : gmap string AdamState * gmap string param) (name : string) :
  NoDup names → name ∈ names →
  (foldl (step_param hyper) acc names).2 !! name
  = match acc.2 !! name with
    | Some (Param d (Some g)) =>
        Some (Param (adamw hyper (acc.1 !! name) d g).2 (Some g))
    | other => other
    end.
Proof.
  intros Hnd. revert acc. induction Hnd as [|n names Hnot Hnd IH]; intros acc Hin;
    [by apply elem_of_nil in Hin|].
  cbn [foldl]. destruct (decide (n = name)) as [->|Hne].
  - rewrite foldl_step_param_frame by done. unfold step_param.
    destruct (acc.2 !! name) as [[d [g|]]|] eqn:Hacc; [|by rewrite Hacc..].
    destruct (adamw hyper (acc.1 !! name) d g) as [st' d']. cbn [snd].
    by rewrite lookup_insert_eq.
  - apply elem_of_cons in Hin as [->|Hin]; [done|].
    rewrite IH by done.
    rewrite step_param_frame by done.
    by rewrite step_param_frame_state by done.
Qed.

Lemma step_lookup (o : optimizer) (s : gmap string param) (name : string) :
  NoDup (opt_params o) → name ∈ opt_params o →
  (step o s).2 !! name
  = match s !! name with
    | Some (Param d (Some g)) =>
        Some (Param (adamw (opt_hyper o) (opt_state o !! name) d g).2 (Some g))
    | other => other
    end.
Proof.
  intros Hnd Hin. unfold step. cbn [snd].
  by rewrite foldl_step_param_lookup.
Qed.

Lemma train_batch_params (cfg : train_config) (st : train_state)
    (batch : list (nat * nat)) :
  params (train_batch cfg st batch)
  = let loss_X := (batch_losses st batch).1 in
    let loss_E := (batch_losses st batch).2 in
    let s3 := backward (loss_add loss_X loss_E)
                (zero_grad (opt_params (optimizer_E st))
                   (zero_grad (opt_params (optimizer_X st)) (params st))) in
    let s5 := clip_grad_norm_ pred_E_parameters (max_grad_norm cfg)
                (clip_grad_norm_ pred_X_parameters (max_grad_norm cfg) s3) in
    (step (optimizer_E st) (step (optimizer_X st) s5).2).2.
Proof.
  unfold train_batch, run_batch.
  destruct (batch_losses st batch) as [loss_X loss_E]. cbn [fst snd].
  unfold batch_stmts. cbn [foldl].
  rewrite (proj1 (exec_WandbLog cfg loss_X loss_E _)).
  rewrite (proj1 (exec_Step_E cfg loss_X loss_E _)).
  rewrite (proj2 (proj2 (exec_Step_X cfg loss_X loss_E _))).
  rewrite (proj1 (exec_Step_X cfg loss_X loss_E _)).
  reflexivity.
Qed.

(** The gradients held after the two [zero_grad] calls and the backward
    pass. *)
Lemma fresh_params_lookup (cfg : train_config) (loss_X loss_E : loss)
    (st : train_state) (name : string) (p : param) :
  opt_params (optimizer_X st) = pred_X_parameters →
  opt_params (optimizer_E st) = pred_E_parameters →
  name ∈ pred_X_parameters ++ pred_E_parameters →
  params st !! name = Some p →
  params (foldl (exec cfg loss_X loss_E) st (take 3 batch_stmts)) !! name
  = Some (Param (data p) (add_grad (grad_fn loss_X name) (grad_fn loss_E name))).
Proof.
  intros HoX HoE Hin Hp.
  cbn [take batch_stmts foldl exec set_params params optimizer_X optimizer_E].
  rewrite HoX, HoE, backward_lookup.
  by rewrite (zero_grads_lookup _ _ _ name p Hin Hp).
Qed.

Lemma fresh_params_eq (cfg : train_config) (loss_X loss_E : loss) (st : train_state) :
  params (foldl (exec cfg loss_X loss_E) st (take 3 batch_stmts))
  = backward (loss_add loss_X loss_E)
      (zero_grad (opt_params (optimizer_E st))
         (zero_grad (opt_params (optimizer_X st)) (params st))).
Proof. reflexivity. Qed.

(** A parameter of a stream after its clipping and its step. *)
Lemma clip_step_lookup (o : optimizer) (names : list string) (max_norm : tfloat)
    (s : gmap string param) (name : string) (d : list tfloat)
    (g : option (list tfloat)) :
  NoDup names → opt_params o = names → name ∈ names →
  s !! name = Some (Param d g) →
  (step o (clip_grad_norm_ names max_norm s)).2 !! name
  = match g with
    | Some g =>
        Some (Param (adamw (opt_hyper o) (opt_state o !! name) d
                       (fmul (clip_coef names max_norm s) <$> g)).2
                (Some (fmul (clip_coef names max_norm s) <$> g)))
    | None => Some (Param d None)
    end.
Proof.
  intros Hnd Ho Hin Hs.
  rewrite step_lookup by (by rewrite Ho).
  rewrite clip_grad_norm_lookup by done. rewrite Hs.
  cbn [fmap option_fmap option_map data grad]. by destruct g.
Qed.

End update_facts.

(** C3. A mini-batch runs one backward pass, over [loss_X + loss_E]: after
    it every parameter of either predictor holds the gradient of that sum
    for this mini-batch.  Then each stream is clipped to [max_grad_norm]:
    its gradients are scaled by [min(1, max_grad_norm / (norm + 1e-6))],
    the norm being that of the gradients of this stream's parameters and of
    no other.  Both clips come before either optimizer steps, and each
    optimizer then updates its parameters from the clipped gradients.  So,
    the two predictors sharing no parameter, every parameter of stream X and
    the state of optimizer X end the mini-batch exactly as they do when the
    clipping of stream E is left out - whatever the norms of the two
    gradients are. *)
Theorem clip_E_leaves_stream_X `{TrainAsync.Externals}
    (cfg : TrainAsync.train_config) (st : TrainAsync.train_state)
    (batch : list (nat * nat)) :
  (∀ name, name ∈ TrainAsync.pred_X_parameters → name ∉ TrainAsync.pred_E_parameters) →
  NoDup TrainAsync.pred_X_parameters → NoDup TrainAsync.pred_E_parameters →
  TrainAsync.opt_params (TrainAsync.optimizer_X st) = TrainAsync.pred_X_parameters →
  TrainAsync.opt_params (TrainAsync.optimizer_E st) = TrainAsync.pred_E_parameters →
  let loss_X := (TrainAsync.batch_losses st batch).1 in
  let loss_E := (TrainAsync.batch_losses st batch).2 in
  let fresh :=
    TrainAsync.params
      (foldl (TrainAsync.exec cfg loss_X loss_E) st (take 3 TrainAsync.batch_stmts)) in
  let coef (names : list string) :=
    TrainAsync.clip_coef names (TrainAsync.max_grad_norm cfg) fresh in
  let updated (o : TrainAsync.optimizer) (names : list string) (name : string)
      (p : TrainAsync.param) :=
    match TrainAsync.add_grad (TrainAsync.grad_fn loss_X name)
            (TrainAsync.grad_fn loss_E name) with
    | Some g =>
        TrainAsync.Param
          (TrainAsync.adamw (TrainAsync.opt_hyper o) (TrainAsync.opt_state o !! name)
             (TrainAsync.data p) (Float.fmul (coef names) <$> g)).2
          (Some (Float.fmul (coef names) <$> g))
    | None => TrainAsync.Param (TrainAsync.data p) None
    end in
  TrainAsync.batch_stmts
  = take 3 TrainAsync.batch_stmts
    ++ [TrainAsync.Clip_X; TrainAsync.Clip_E; TrainAsync.Step_X; TrainAsync.Step_E;
        TrainAsync.WandbLog]
  ∧ (∀ name p,
       name ∈ TrainAsync.pred_X_parameters ++ TrainAsync.pred_E_parameters →
       TrainAsync.params st !! name = Some p →
       fresh !! name
       = Some (TrainAsync.Param (TrainAsync.data p)
                 (TrainAsync.add_grad (TrainAsync.grad_fn loss_X name)
                    (TrainAsync.grad_fn loss_E name))))
  ∧ (∀ names,
       coef names
       = Float.clamp_max
           (Float.fdiv (TrainAsync.max_grad_norm cfg)
              (Float.fadd
                 (TrainAsync.vector_norm
                    (TrainAsync.vector_norm
                       <$> omap (λ name, fresh !! name ≫= TrainAsync.grad) names))
                 (Float.Fin (1 / Qc_of_Z 1000000)%Qc)))
           Float.one)
  ∧ (∀ names s,
       (∀ name, name ∈ names → s !! name = fresh !! name) →
       TrainAsync.clip_coef names (TrainAsync.max_grad_norm cfg) s = coef names)
  ∧ (∀ name p,
       name ∈ TrainAsync.pred_X_parameters →
       TrainAsync.params st !! name = Some p →
       TrainAsync.params (TrainAsync.train_batch cfg st batch) !! name
       = Some (updated (TrainAsync.optimizer_X st) TrainAsync.pred_X_parameters name p))
  ∧ (∀ name p,
       name ∈ TrainAsync.pred_E_parameters →
       TrainAsync.params st !! name = Some p →
       TrainAsync.params (TrainAsync.train_batch cfg st batch) !! name
       = Some (updated (TrainAsync.optimizer_E st) TrainAsync.pred_E_parameters name p))
  ∧ (∀ name,
       name ∈ TrainAsync.pred_X_parameters →
       TrainAsync.params (TrainAsync.train_batch cfg st batch) !! name
       = TrainAsync.params
           (TrainAsync.run_batch TrainAsync.stmts_without_E_clip cfg st batch) !! name)
  ∧ TrainAsync.optimizer_X (TrainAsync.train_batch cfg st batch)
    = TrainAsync.optimizer_X
        (TrainAsync.run_batch TrainAsync.stmts_without_E_clip cfg st batch).
Proof.
  intros Hdisj HndX HndE HoX HoE loss_X loss_E fresh coef updated.
  assert (∀ name, name ∈ TrainAsync.pred_E_parameters →
                  name ∉ TrainAsync.pred_X_parameters) as Hdisj'.
  { intros name HE HX. by apply (Hdisj name). }
  assert (∀ name p,
            name ∈ TrainAsync.pred_X_parameters ++ TrainAsync.pred_E_parameters →
            TrainAsync.params st !! name = Some p →
            fresh !! name
            = Some (TrainAsync.Param (TrainAsync.data p)
                      (TrainAsync.add_grad (TrainAsync.grad_fn loss_X name)
                         (TrainAsync.grad_fn loss_E name)))) as Hfresh.
  { intros name p Hin Hp. by apply fresh_params_lookup. }
  assert (TrainAsync.params (TrainAsync.train_batch cfg st batch)
          = (TrainAsync.step (TrainAsync.optimizer_E st)
               (TrainAsync.step (TrainAsync.optimizer_X st)
                  (TrainAsync.clip_grad_norm_ TrainAsync.pred_E_parameters
                     (TrainAsync.max_grad_norm cfg)
                     (TrainAsync.clip_grad_norm_ TrainAsync.pred_X_parameters
                        (TrainAsync.max_grad_norm cfg) fresh))).2).2) as Hend.
  { rewrite train_batch_params. reflexivity. }
  split_and!.
  - reflexivity.
  - exact Hfresh.
  - intros names. reflexivity.
  - intros names s Hagree. by apply clip_coef_agree.
  - intros name p Hname Hp. rewrite Hend.
    rewrite step_frame by (rewrite HoE; by apply Hdisj).
    set (s4 := TrainAsync.clip_grad_norm_ TrainAsync.pred_X_parameters
                 (TrainAsync.max_grad_norm cfg) fresh).
    destruct (step_agree (TrainAsync.optimizer_X st)
                (TrainAsync.clip_grad_norm_ TrainAsync.pred_E_parameters
                   (TrainAsync.max_grad_norm cfg) s4) s4) as [_ Hpar].
    { intros n Hn. rewrite HoX in Hn. apply clip_grad_norm_frame. by apply Hdisj. }
    rewrite Hpar by (by rewrite HoX). unfold s4.
    rewrite (clip_step_lookup _ _ _ fresh name (TrainAsync.data p)
               (TrainAsync.add_grad (TrainAsync.grad_fn loss_X name)
                  (TrainAsync.grad_fn loss_E name))); [|done|done|done|].
    + unfold updated, coef. by destruct (TrainAsync.add_grad _ _).
    + apply Hfresh; [|done]. apply elem_of_app. by left.
  - intros name p Hname Hp. rewrite Hend.
    set (s4 := TrainAsync.clip_grad_norm_ TrainAsync.pred_X_parameters
                 (TrainAsync.max_grad_norm cfg) fresh).
    set (s5 := TrainAsync.clip_grad_norm_ TrainAsync.pred_E_parameters
                 (TrainAsync.max_grad_norm cfg) s4).
    destruct (step_agree (TrainAsync.optimizer_E st)
                (TrainAsync.step (TrainAsync.optimizer_X st) s5).2 s5) as [_ Hpar].
    { intros n Hn. rewrite HoE in Hn. apply step_frame. rewrite HoX. by apply Hdisj'. }
    rewrite Hpar by (by rewrite HoE). unfold s5.
    assert (s4 !! name
            = Some (TrainAsync.Param (TrainAsync.data p)
                      (TrainAsync.add_grad (TrainAsync.grad_fn loss_X name)
                         (TrainAsync.grad_fn loss_E name)))) as H4.
    { unfold s4. rewrite clip_grad_norm_frame by (by apply Hdisj').
      apply Hfresh; [|done]. apply elem_of_app. by right. }
    rewrite (clip_step_lookup _ _ _ s4 name _ _ HndE HoE Hname H4).
    assert (TrainAsync.clip_coef TrainAsync.pred_E_parameters
              (TrainAsync.max_grad_norm cfg) s4
            = coef TrainAsync.pred_E_parameters) as ->.
    { apply clip_coef_agree. intros n Hn. unfold s4.
      apply clip_grad_norm_frame. by apply Hdisj'. }
    unfold updated. by destruct (TrainAsync.add_grad _ _).
  - intros name Hname.
    unfold TrainAsync.train_batch, TrainAsync.run_batch.
    fold loss_X loss_E.
    destruct (TrainAsync.batch_losses st batch) as [lX lE]. cbn [fst snd] in *.
    rewrite stmts_without_E_clip_eq. unfold TrainAsync.batch_stmts.
    cbn [foldl].
    set (S4 := TrainAsync.exec cfg lX lE _ TrainAsync.Clip_X).
    assert (TrainAsync.optimizer_X S4 = TrainAsync.optimizer_X st
            ∧ TrainAsync.optimizer_E S4 = TrainAsync.optimizer_E st) as [HX4 HE4]
      by done.
    set (SA := TrainAsync.exec cfg lX lE S4 TrainAsync.Clip_E).
    assert (TrainAsync.optimizer_X SA = TrainAsync.optimizer_X S4
            ∧ TrainAsync.optimizer_E SA = TrainAsync.optimizer_E S4) as [HXA HEA]
      by done.
    assert (∀ n, n ∈ TrainAsync.pred_X_parameters →
                 TrainAsync.params SA !! n = TrainAsync.params S4 !! n) as Hclip.
    { intros n Hn. unfold SA.
      cbn [TrainAsync.exec TrainAsync.set_params TrainAsync.params].
      apply clip_grad_norm_frame. by apply Hdisj. }
    destruct (step_agree (TrainAsync.optimizer_X S4) (TrainAsync.params SA)
                (TrainAsync.params S4)) as [Hopt Hpar].
    { intros n Hn. apply Hclip. by rewrite HX4, HoX in Hn. }
    rewrite !(proj1 (exec_WandbLog cfg lX lE _)).
    destruct (exec_Step_X cfg lX lE SA) as (HpA & HoA & HeA).
    destruct (exec_Step_X cfg lX lE S4) as (HpB & HoB & HeB).
    destruct (exec_Step_E cfg lX lE
                (TrainAsync.exec cfg lX lE SA TrainAsync.Step_X))
      as (HpA2 & _ & _).
    destruct (exec_Step_E cfg lX lE
                (TrainAsync.exec cfg lX lE S4 TrainAsync.Step_X))
      as (HpB2 & _ & _).
    rewrite HpA2, HpB2.
    rewrite !step_frame.
    + rewrite HpA, HpB, HXA. apply Hpar. by rewrite HX4, HoX.
    + rewrite HeB, HE4, HoE. by apply Hdisj.
    + rewrite HeA, HEA, HE4, HoE. by apply Hdisj.
  - unfold TrainAsync.train_batch, TrainAsync.run_batch.
    destruct (TrainAsync.batch_losses st batch) as [lX lE].
    rewrite stmts_without_E_clip_eq. unfold TrainAsync.batch_stmts.
    cbn [foldl].
    set (S4 := TrainAsync.exec cfg lX lE _ TrainAsync.Clip_X).
    assert (TrainAsync.optimizer_X S4 = TrainAsync.optimizer_X st) as HX4 by done.
    set (SA := TrainAsync.exec cfg lX lE S4 TrainAsync.Clip_E).
    assert (TrainAsync.optimizer_X SA = TrainAsync.optimizer_X S4) as HXA by done.
    assert (∀ n, n ∈ TrainAsync.pred_X_parameters →
                 TrainAsync.params SA !! n = TrainAsync.params S4 !! n) as Hclip.
    { intros n Hn. unfold SA.
      cbn [TrainAsync.exec TrainAsync.set_params TrainAsync.params].
      apply clip_grad_norm_frame. by apply Hdisj. }
    destruct (step_agree (TrainAsync.optimizer_X S4) (TrainAsync.params SA)
                (TrainAsync.params S4)) as [Hopt Hpar].
    { intros n Hn. apply Hclip. by rewrite HX4, HoX in Hn. }
    rewrite !(proj2 (exec_WandbLog cfg lX lE _)).
    destruct (exec_Step_X cfg lX lE SA) as (_ & HoA & _).
    destruct (exec_Step_X cfg lX lE S4) as (_ & HoB & _).
    destruct (exec_Step_E cfg lX lE
                (TrainAsync.exec cfg lX lE SA TrainAsync.Step_X))
      as (_ & HxA2 & _).
    destruct (exec_Step_E cfg lX lE
                (TrainAsync.exec cfg lX lE S4 TrainAsync.Step_X))
      as (_ & HxB2 & _).
    rewrite HxA2, HxB2, HoA, HoB, HXA. exact Hopt.
Qed.

(** ** The loop over the epochs *)

Section loader_checks.
Import TrainAsync.

Lemma DataLoader_returns (dataset : list (nat * nat)) (bs : nat) (shuffle : bool) :
  (shuffle = true → dataset ≠ []) → 0 < bs → DataLoader dataset bs shuffle = Py.Ok ().
Proof.
  intros Hne Hbs. unfold DataLoader.
  rewrite decide_False by (intros [Hs Hd]; by apply Hne).
  by rewrite decide_False by lia.
Qed.

Lemma DataLoader_refuses (dataset : list (nat * nat)) (bs : nat) :
  dataset = [] ∨ bs = 0 →
  ∃ msg, DataLoader dataset bs true = Py.Raise (Py.ValueError msg).
Proof.
  intros Hbad. unfold DataLoader.
  destruct (decide (true = true ∧ dataset = [])) as [_|Hne]; [by eexists|].
  rewrite decide_True; [by eexists|].
  destruct Hbad as [Hd|Hb]; [|done]. by destruct Hne.
Qed.

End loader_checks.

Section loop_facts.
Import Float Torch TrainAsync.
Context `{Generator G} `{Externals}.

Lemma length_chunks_ext {A} (fuel n : nat) (l1 l2 : list A) :
  length l1 = length l2 → length (chunks fuel n l1) = length (chunks fuel n l2).
Proof.
  revert l1 l2. induction fuel as [|fuel IH]; intros l1 l2 Hlen; [done|].
  destruct l1 as [|a l1], l2 as [|b l2]; try discriminate; [done|].
  cbn [chunks length]. f_equal. apply IH. rewrite !length_drop. by rewrite Hlen.
Qed.

Lemma loader_batches_returns (edge_index : list (nat * nat)) (bs : nat) (gen : G) :
  ∃ batches gen',
    loader_batches edge_index bs gen = (Py.Ok batches, gen')
    ∧ length batches = length (chunks (length edge_index) bs edge_index).
Proof.
  unfold loader_batches.
  rewrite (M_bind_eval _ _ _ _ _ (torch_randperm_eval _ _)).
  unfold lift at 1.
  rewrite (index_select_total edge_index _ (randperm_bound _ gen)).
  eexists _, _. split; [reflexivity|].
  apply length_chunks_ext. rewrite length_fmap.
  by rewrite (randperm_perm (length edge_index) gen), length_seq.
Qed.

Lemma train_epoch_returns (cfg : train_config) (edge_index : list (nat * nat))
    (st : train_state) (gen : G) :
  ∃ st' gen',
    train_epoch cfg edge_index st gen = (Py.Ok st', gen')
    ∧ same_records st st'
    ∧ length (wandb_log st')
      = length (wandb_log st) + batches_per_epoch cfg edge_index.
Proof.
  destruct (loader_batches_returns edge_index (batch_size cfg) gen)
    as (batches & gen' & Hload & Hlen).
  unfold train_epoch. rewrite (M_bind_eval _ _ _ _ _ Hload).
  eexists _, _. split; [reflexivity|]. split.
  - apply (batches_keep_records cfg (set_training st true) batches).
  - rewrite batches_wandb_log, Hlen. reflexivity.
Qed.

Lemma loop_steps_running (cfg : train_config) (edge_index : list (nat * nat))
    (k e : nat) (st : train_state) (gen : G) :
  e + k ≤ num_epochs cfg →
  ∃ st' gen',
    loop_steps k cfg edge_index (Epoch e) st gen = (Py.Ok (Epoch (e + k), st'), gen')
    ∧ same_records st st'
    ∧ length (wandb_log st')
      = length (wandb_log st) + k * batches_per_epoch cfg edge_index.
Proof.
  revert e st gen. induction k as [|k IH]; intros e st gen Hk.
  - exists st, gen. rewrite Nat.add_0_r. split; [reflexivity|].
    split; [done|]. simpl. lia.
  - destruct (train_epoch_returns cfg edge_index st gen)
      as (st1 & gen1 & Hepoch & (Hp1 & Hx1 & He1) & Hlog1).
    destruct (IH (S e) st1 gen1) as (st' & gen' & Hrun & (Hp & Hx & He) & Hlog);
      [lia|].
    exists st', gen'. split_and!.
    + cbn [loop_steps]. unfold loop_step. rewrite decide_True by lia.
      cbv beta iota delta [mbind M_bind mret M_ret] in *.
      rewrite Hepoch. cbn [fst snd].
      replace (e + S k) with (S e + k) by lia. exact Hrun.
    + unfold same_records. by rewrite Hp, Hx, He.
    + rewrite Hlog, Hlog1. simpl. lia.
Qed.

Lemma loop_steps_done (cfg : train_config) (edge_index : list (nat * nat))
    (n : nat) (st : train_state) (gen : G) :
  loop_steps n cfg edge_index Done st gen = (Py.Ok (Done, st), gen).
Proof. induction n as [|n IH]; [done|]. cbn [loop_steps]. exact IH. Qed.

Lemma loop_steps_add (cfg : train_config) (edge_index : list (nat * nat))
    (a b : nat) (ph ph' : phase) (st st' : train_state) (gen gen' : G) :
  loop_steps a cfg edge_index ph st gen = (Py.Ok (ph', st'), gen') →
  loop_steps (a + b) cfg edge_index ph st gen
  = loop_steps b cfg edge_index ph' st' gen'.
Proof.
  revert ph st gen. induction a as [|a IH]; intros ph st gen Hrun.
  - by injection Hrun as -> -> ->.
  - cbn [loop_steps plus] in *.
    apply M_bind_Ok in Hrun as ([ph1 st1] & gen1 & Hstep & Hrest).
    rewrite (M_bind_eval _ _ _ _ _ Hstep). by apply IH.
Qed.

Lemma loop_steps_exhausted (cfg : train_config) (edge_index : list (nat * nat))
    (n : nat) (st : train_state) (gen : G) :
  num_epochs cfg < n →
  ∃ st' gen',
    loop_steps n cfg edge_index (Epoch 0) st gen = (Py.Ok (Done, st'), gen')
    ∧ same_records st st'
    ∧ length (wandb_log st')
      = length (wandb_log st) + num_epochs cfg * batches_per_epoch cfg edge_index.
Proof.
  intros Hn.
  destruct (loop_steps_running cfg edge_index (num_epochs cfg) 0 st gen)
    as (st' & gen' & Hrun & Hrec & Hlog); [lia|].
  exists st', gen'. split_and!; [|done..].
  replace n with (num_epochs cfg + S (n - S (num_epochs cfg))) by lia.
  rewrite (loop_steps_add _ _ _ _ _ _ _ _ _ _ Hrun).
  cbn [loop_steps plus]. unfold loop_step at 1. rewrite decide_False by lia.
  cbv beta iota delta [mbind M_bind mret M_ret]. cbn [fst snd].
  apply loop_steps_done.
Qed.

End loop_facts.

(** C2, as stated, fails: with a budget of three epochs and a patience of
    zero, two validation cycles without improvement of either stream make
    the specification's stopping rule hold after the second epoch, yet the
    loop runs the third epoch. *)
Lemma loop_ignores_patience :
  TrainAsync.spec_done 3 0 [Float.one; Float.one] [Float.one; Float.one]
  ∧ length [Float.one; Float.one] < TrainAsync.num_epochs ToyModel.config
  ∧ (∃ st' gen',
       TrainAsync.loop_steps (H := ToyModel.externals) 3 ToyModel.config
         ToyModel.edge_index (TrainAsync.Epoch 0) ToyModel.state0 (0 : nat)
       = (Py.Ok (TrainAsync.Epoch 3, st'), gen')
       ∧ length (TrainAsync.wandb_log st')
         = 3 * TrainAsync.batches_per_epoch ToyModel.config ToyModel.edge_index).
Proof.
  split_and!.
  - right. split; vm_compute; lia.
  - simpl. lia.
  - destruct (loop_steps_running (H0 := ToyModel.externals) ToyModel.config
                ToyModel.edge_index 3 0 ToyModel.state0 (0 : nat))
      as (st' & gen' & Hrun & _ & Hlog); [simpl; lia|].
    exists st', gen'. split; [exact Hrun|exact Hlog].
Qed.

(** C2, amended.  Built on a non-empty edge index with positive batch
    sizes, the loaders are accepted and the training loop reaches its
    terminal state exactly when the epoch budget [train.num_epochs] is
    exhausted: after [k <= num_epochs] turns it is about to run epoch [k],
    and with any more turns it is done.  It has no validation pass and no
    early exit: [num_patient_epochs] and the best-validation records of both
    streams are never written, and every epoch of the budget logs all its
    mini-batches. *)
Theorem main_loop_done_at_epoch_budget `{Torch.Generator G} `{TrainAsync.Externals}
    (cfg : TrainAsync.train_config) (edge_index : list (nat * nat))
    (st : TrainAsync.train_state) (gen : G) :
  edge_index ≠ [] →
  0 < TrainAsync.batch_size cfg → 0 < TrainAsync.val_batch_size cfg →
  TrainAsync.build_loaders cfg edge_index = Py.Ok ()
  ∧ (∀ k, k ≤ TrainAsync.num_epochs cfg →
       ∃ st' gen',
         TrainAsync.loop_steps k cfg edge_index (TrainAsync.Epoch 0) st gen
         = (Py.Ok (TrainAsync.Epoch k, st'), gen')
         ∧ TrainAsync.same_records st st')
  ∧ (∀ n, TrainAsync.num_epochs cfg < n →
       ∃ st' gen',
         TrainAsync.loop_steps n cfg edge_index (TrainAsync.Epoch 0) st gen
         = (Py.Ok (TrainAsync.Done, st'), gen')
         ∧ TrainAsync.same_records st st'
         ∧ length (TrainAsync.wandb_log st')
           = length (TrainAsync.wandb_log st)
             + TrainAsync.num_epochs cfg * TrainAsync.batches_per_epoch cfg edge_index)
  ∧ (∃ st' gen',
       TrainAsync.main_loop cfg edge_index st gen = (Py.Ok (TrainAsync.Done, st'), gen')
       ∧ TrainAsync.same_records st st'
       ∧ length (TrainAsync.wandb_log st')
         = length (TrainAsync.wandb_log st)
           + TrainAsync.num_epochs cfg * TrainAsync.batches_per_epoch cfg edge_index).
Proof.
  intros Hne Hbs Hvbs.
  assert (TrainAsync.build_loaders cfg edge_index = Py.Ok ()) as Hbuild.
  { unfold TrainAsync.build_loaders.
    rewrite (DataLoader_returns edge_index _ true) by done.
    cbn [mbind Py.result_bind]. by apply DataLoader_returns. }
  split_and!.
  - exact Hbuild.
  - intros k Hk.
    destruct (loop_steps_running cfg edge_index k 0 st gen)
      as (st' & gen' & Hrun & Hrec & _); [lia|].
    by exists st', gen'.
  - intros n Hn. by apply loop_steps_exhausted.
  - unfold TrainAsync.main_loop. rewrite Hbuild.
    apply (loop_steps_exhausted cfg edge_index (S (TrainAsync.num_epochs cfg)) st gen).
    lia.
Qed.

Section logging_facts.
Import Float TrainAsync.

Lemma spec_loss_key_not_logged (stream_name : string) :
  spec_loss_key stream_name ≠ "train/loss_X"
  ∧ spec_loss_key stream_name ≠ "train/loss_E".
Proof.
  unfold spec_loss_key. split; intros Heq;
    repeat (destruct stream_name as [|? stream_name]; cbn in Heq;
            [discriminate Heq|]; injection Heq as _ Heq);
    destruct stream_name; discriminate Heq.
Qed.

Lemma loss_record_keys (loss_X loss_E : loss) :
  dom (loss_record loss_X loss_E) = ({["train/loss_X"; "train/loss_E"]} : gset string)
  ∧ loss_record loss_X loss_E !! "train/loss_X" = Some (item loss_X)
  ∧ loss_record loss_X loss_E !! "train/loss_E" = Some (item loss_E).
Proof.
  unfold loss_record. split_and!.
  - rewrite !dom_insert_L, dom_empty_L. set_solver.
  - rewrite lookup_insert_ne by done. by rewrite lookup_insert_eq.
  - by rewrite lookup_insert_eq.
Qed.

Lemma loss_record_no_spec_key (loss_X loss_E : loss) (stream_name : string) :
  loss_record loss_X loss_E !! spec_loss_key stream_name = None.
Proof.
  destruct (spec_loss_key_not_logged stream_name) as [HX HE].
  unfold loss_record. by rewrite !lookup_insert_ne, lookup_empty.
Qed.

End logging_facts.

(** C8, as stated, fails: the record a mini-batch emits has the keys
    [train/loss_X] and [train/loss_E]; no key of it has the form
    [{stream_name}/loss]. *)
Lemma wandb_keys_not_stream_slash_loss :
  ∃ record,
    TrainAsync.wandb_log
      (TrainAsync.train_batch (H := ToyModel.externals) ToyModel.config
         ToyModel.state0 [(0, 1); (0, 2)]) = [record]
    ∧ dom record = ({["train/loss_X"; "train/loss_E"]} : gset string)
    ∧ (∀ stream_name, record !! TrainAsync.spec_loss_key stream_name = None).
Proof.
  eexists. split_and!.
  - rewrite train_batch_wandb_log. reflexivity.
  - apply loss_record_keys.
  - intros stream_name. apply loss_record_no_spec_key.
Qed.

(** C8, amended.  Every mini-batch appends one record to the metrics sink:
    the two per-stream loss values the model returned for that mini-batch,
    under the keys [train/loss_X] and [train/loss_E], one key per stream,
    and no other key. *)
Theorem train_batch_logs_both_losses `{TrainAsync.Externals}
    (cfg : TrainAsync.train_config) (st : TrainAsync.train_state)
    (batch : list (nat * nat)) :
  TrainAsync.wandb_log (TrainAsync.train_batch cfg st batch)
  = TrainAsync.wandb_log st
    ++ [TrainAsync.loss_record (TrainAsync.batch_losses st batch).1
          (TrainAsync.batch_losses st batch).2]
  ∧ (∀ loss_X loss_E,
       dom (TrainAsync.loss_record loss_X loss_E)
       = ({["train/loss_X"; "train/loss_E"]} : gset string)
       ∧ TrainAsync.loss_record loss_X loss_E !! "train/loss_X"
         = Some (TrainAsync.item loss_X)
       ∧ TrainAsync.loss_record loss_X loss_E !! "train/loss_E"
         = Some (TrainAsync.item loss_E))
  ∧ (∀ batches,
       length (TrainAsync.wandb_log (foldl (TrainAsync.train_batch cfg) st batches))
       = length (TrainAsync.wandb_log st) + length batches).
Proof.
  split_and!.
  - apply train_batch_wandb_log.
  - apply loss_record_keys.
  - apply batches_wandb_log.
Qed.

Section toy_witnesses.
#[local] Existing Instance ToyModel.externals.

Lemma main_loop_done_at_epoch_budget_witness :
  TrainAsync.build_loaders ToyModel.config ToyModel.edge_index = Py.Ok ()
  ∧ (∀ k, k ≤ TrainAsync.num_epochs ToyModel.config →
       ∃ st' gen',
         TrainAsync.loop_steps k ToyModel.config ToyModel.edge_index
           (TrainAsync.Epoch 0) ToyModel.state0 (0 : nat)
         = (Py.Ok (TrainAsync.Epoch k, st'), gen')
         ∧ TrainAsync.same_records ToyModel.state0 st')
  ∧ (∀ n, TrainAsync.num_epochs ToyModel.config < n →
       ∃ st' gen',
         TrainAsync.loop_steps n ToyModel.config ToyModel.edge_index
           (TrainAsync.Epoch 0) ToyModel.state0 (0 : nat)
         = (Py.Ok (TrainAsync.Done, st'), gen')
         ∧ TrainAsync.same_records ToyModel.state0 st'
         ∧ length (TrainAsync.wandb_log st')
           = length (TrainAsync.wandb_log ToyModel.state0)
             + TrainAsync.num_epochs ToyModel.config
               * TrainAsync.batches_per_epoch ToyModel.config ToyModel.edge_index)
  ∧ (∃ st' gen',
       TrainAsync.main_loop ToyModel.config ToyModel.edge_index ToyModel.state0
         (0 : nat) = (Py.Ok (TrainAsync.Done, st'), gen')
       ∧ TrainAsync.same_records ToyModel.state0 st'
       ∧ length (TrainAsync.wandb_log st')
         = length (TrainAsync.wandb_log ToyModel.state0)
           + TrainAsync.num_epochs ToyModel.config
             * TrainAsync.batches_per_epoch ToyModel.config ToyModel.edge_index).
Proof.
  apply (main_loop_done_at_epoch_budget ToyModel.config ToyModel.edge_index
           ToyModel.state0 (0 : nat)).
  - discriminate.
  - simpl. lia.
  - simpl. lia.
Defined.

Lemma clip_E_leaves_stream_X_witness :
  let cfg := ToyModel.config in
  let st := ToyModel.state0 in
  let batch := [(0, 1); (0, 2)] in
  let loss_X := (TrainAsync.batch_losses st batch).1 in
  let loss_E := (TrainAsync.batch_losses st batch).2 in
  let fresh :=
    TrainAsync.params
      (foldl (TrainAsync.exec cfg loss_X loss_E) st (take 3 TrainAsync.batch_stmts)) in
  let coef (names : list string) :=
    TrainAsync.clip_coef names (TrainAsync.max_grad_norm cfg) fresh in
  let updated (o : TrainAsync.optimizer) (names : list string) (name : string)
      (p : TrainAsync.param) :=
    match TrainAsync.add_grad (TrainAsync.grad_fn loss_X name)
            (TrainAsync.grad_fn loss_E name) with
    | Some g =>
        TrainAsync.Param
          (TrainAsync.adamw (TrainAsync.opt_hyper o) (TrainAsync.opt_state o !! name)
             (TrainAsync.data p) (Float.fmul (coef names) <$> g)).2
          (Some (Float.fmul (coef names) <$> g))
    | None => TrainAsync.Param (TrainAsync.data p) None
    end in
  TrainAsync.batch_stmts
  = take 3 TrainAsync.batch_stmts
    ++ [TrainAsync.Clip_X; TrainAsync.Clip_E; TrainAsync.Step_X; TrainAsync.Step_E;
        TrainAsync.WandbLog]
  ∧ (∀ name p,
       name ∈ TrainAsync.pred_X_parameters ++ TrainAsync.pred_E_parameters →
       TrainAsync.params st !! name = Some p →
       fresh !! name
       = Some (TrainAsync.Param (TrainAsync.data p)
                 (TrainAsync.add_grad (TrainAsync.grad_fn loss_X name)
                    (TrainAsync.grad_fn loss_E name))))
  ∧ (∀ names,
       coef names
       = Float.clamp_max
           (Float.fdiv (TrainAsync.max_grad_norm cfg)
              (Float.fadd
                 (TrainAsync.vector_norm
                    (TrainAsync.vector_norm
                       <$> omap (λ name, fresh !! name ≫= TrainAsync.grad) names))
                 (Float.Fin (1 / Qc_of_Z 1000000)%Qc)))
           Float.one)
  ∧ (∀ names s,
       (∀ name, name ∈ names → s !! name = fresh !! name) →
       TrainAsync.clip_coef names (TrainAsync.max_grad_norm cfg) s = coef names)
  ∧ (∀ name p,
       name ∈ TrainAsync.pred_X_parameters →
       TrainAsync.params st !! name = Some p →
       TrainAsync.params (TrainAsync.train_batch cfg st batch) !! name
       = Some (updated (TrainAsync.optimizer_X st) TrainAsync.pred_X_parameters name p))
  ∧ (∀ name p,
       name ∈ TrainAsync.pred_E_parameters →
       TrainAsync.params st !! name = Some p →
       TrainAsync.params (TrainAsync.train_batch cfg st batch) !! name
       = Some (updated (TrainAsync.optimizer_E st) TrainAsync.pred_E_parameters name p))
  ∧ (∀ name,
       name ∈ TrainAsync.pred_X_parameters →
       TrainAsync.params (TrainAsync.train_batch cfg st batch) !! name
       = TrainAsync.params
           (TrainAsync.run_batch TrainAsync.stmts_without_E_clip cfg st batch) !! name)
  ∧ TrainAsync.optimizer_X (TrainAsync.train_batch cfg st batch)
    = TrainAsync.optimizer_X
        (TrainAsync.run_batch TrainAsync.stmts_without_E_clip cfg st batch).
Proof.
  apply (clip_E_leaves_stream_X ToyModel.config ToyModel.state0 [(0, 1); (0, 2)]).
  - intros name Hname Hin.
    apply list_elem_of_singleton in Hname as ->.
    apply list_elem_of_singleton in Hin. discriminate Hin.
  - apply NoDup_singleton.
  - apply NoDup_singleton.
  - reflexivity.
  - reflexivity.
Defined.

(** In the small model the gradient of stream E (norm 3) exceeds the cap 2
    and is scaled, that of stream X (norm 1) is not: the weight of X moves
    by its whole gradient, from 0 to -1. *)
Example toy_stream_X_update :
  TrainAsync.params
    (TrainAsync.train_batch ToyModel.config ToyModel.state0 [(0, 1); (0, 2)])
    !! "pred_X.weight"
  = Some (TrainAsync.Param [Float.of_Z (-1)] (Some [Float.one])).
Proof. apply (bool_decide_unpack _). vm_compute. exact I. Qed.

(** There the clipping of stream E does scale its gradient: without it
    the gradient stored for the weight of E is 3, with it it is not. *)
Example toy_stream_E_clipped :
  TrainAsync.grad
    <$> TrainAsync.params
          (TrainAsync.run_batch TrainAsync.stmts_without_E_clip ToyModel.config
             ToyModel.state0 [(0, 1); (0, 2)]) !! "pred_E.weight"
  = Some (Some [Float.of_nat 3])
  ∧ TrainAsync.grad
      <$> TrainAsync.params
            (TrainAsync.train_batch ToyModel.config ToyModel.state0 [(0, 1); (0, 2)])
            !! "pred_E.weight"
    ≠ Some (Some [Float.of_nat 3]).
Proof. split; apply (bool_decide_unpack _); vm_compute; exact I. Qed.

End toy_witnesses.


(** Four nodes in two classes of two, every edge inside a class: both
    classes have [r_k = 1] and [s_k = 1/2], and the value is
    [(1/2 + 1/2) / (2 - 1) = 1]. *)
Example linkx_homophily_two_pairs :
  EvalUtils.linkx_homophily two_pairs_graph two_pairs_classes = Py.Ok Float.one.
Proof. apply (bool_decide_unpack _). vm_compute. exact I. Qed.

(** Rounding shows: with classes of 2 and 1 of 3 nodes, every edge inside
    a class, the two terms are [1 - 2/3] and [1 - 1/3] in single precision
    and add up to [1 - 2^-24], where the formula in exact arithmetic
    gives 1. *)
Example linkx_homophily_rounds :
  EvalUtils.linkx_homophily loop_graph loop_labels
  = Py.Ok (Float.Fin (Q2Qc (16777215 # 16777216)))
  ∧ LinkxSpec.homophily loop_graph loop_labels 2 = 1%Qc.
Proof. split; apply (bool_decide_unpack _); vm_compute; exact I. Qed.

(** * Further properties of the two files *)

(** ** The parts of preprocess_g *)

Section preprocess_parts.
Import Float Py Torch EvalUtils.
Context `{Generator G}.

Lemma preprocess_g_parts (self : Evaluator) (g : Dgl.DGLGraph)
    (X : tensor3) (Y : tensor2) (flag : bool) (gen gen' : G) (pp : preprocessed) :
  preprocess_g self g X Y flag gen = (Ok pp, gen') →
  ∃ gen1,
    (if flag then add_mask self g Y else mret g) gen = (Ok (pp_dgl_g pp), gen1)
    ∧ choose_subg self (pp_dgl_g pp) gen1 = (Ok (pp_dgl_subg pp), gen')
    ∧ collapse_X X = Ok (pp_X pp)
    ∧ argmax_rows (t2_rows Y) = Ok (pp_Y pp)
    ∧ linkx_homophily (pp_dgl_g pp) (pp_Y pp) = Ok (pp_linkx_A pp)
    ∧ pp_triangle_count pp = get_triangle_count (Nx.of_dgl (pp_dgl_subg pp)).
Proof.
  unfold preprocess_g. intros Hpp.
  apply M_bind_Ok in Hpp as (g' & gen1 & Hmask & Hrest).
  apply M_bind_Ok in Hrest as (Xc & gen2 & HX & Hrest).
  apply lift_Ok in HX as [HX ->].
  apply M_bind_Ok in Hrest as (sub & gen3 & Hsub & Hrest).
  apply M_bind_Ok in Hrest as (y & gen4 & HY & Hrest).
  apply lift_Ok in HY as [HY ->].
  apply M_bind_Ok in Hrest as (v & gen5 & Hv & Hret).
  apply lift_Ok in Hv as [Hv ->].
  injection Hret as <- <-. cbn [pp_dgl_g pp_dgl_subg pp_X pp_Y pp_linkx_A pp_triangle_count].
  exists gen1. by split_and!.
Qed.

End preprocess_parts.

(** ** get_triangle_count *)

Section triangle_facts.
Import Float Torch GraphSpec.

Lemma adjacent_sym (g : Nx.DiGraph) (u v : nat) : Nx.adjacent g u v = Nx.adjacent g v u.
Proof.
  unfold Nx.adjacent. apply bool_decide_ext.
  split; intros [Hne Hin]; (split; [done|tauto]).
Qed.

Lemma adjacent_irrefl (g : Nx.DiGraph) (u v : nat) : Nx.adjacent g u v = true → u ≠ v.
Proof. unfold Nx.adjacent. rewrite bool_decide_eq_true. tauto. Qed.

Lemma adjacent_of_dgl (g : Dgl.DGLGraph) (u v : nat) :
  Nx.adjacent (Nx.of_dgl g) u v = true
  ↔ u ≠ v ∧ ((u, v) ∈ Dgl.edge_list g ∨ (v, u) ∈ Dgl.edge_list g).
Proof.
  unfold Nx.adjacent, Nx.of_dgl. cbn [Nx.nx_edges].
  by rewrite bool_decide_eq_true, !elem_of_remove_dups.
Qed.

Lemma triangles_ext (g1 g2 : Nx.DiGraph) :
  Nx.nx_nodes g1 = Nx.nx_nodes g2 →
  (∀ u v, Nx.adjacent g1 u v = Nx.adjacent g2 u v) →
  Nx.triangles g1 = Nx.triangles g2.
Proof.
  intros Hn Hadj. unfold Nx.triangles. rewrite Hn.
  apply list_fmap_ext. intros _ v _. f_equal.
  apply filter_ext_elem. intros p _. by rewrite !Hadj.
Qed.

Lemma adjacent_bidirected (g : Dgl.DGLGraph) (u v : nat) :
  Nx.adjacent (Nx.of_dgl (Dgl.to_bidirected g)) u v = Nx.adjacent (Nx.of_dgl g) u v.
Proof.
  apply eq_true_iff_eq. rewrite !adjacent_of_dgl.
  rewrite !bidirected_edges. cbn [Dgl.edge_list].
  rewrite !elem_of_remove_dups, !elem_of_app, !list_elem_of_fmap.
  split; intros [Hne Hin]; (split; [done|]).
  - destruct Hin as [[Hin|([a b] & [= -> ->] & Hin)]|[Hin|([a b] & [= -> ->] & Hin)]];
      tauto.
  - destruct Hin as [Hin|Hin]; [by left; left|by right; left].
Qed.

(** The node triples, and the triangles among them. *)
Lemma elem_of_triples (n a b c : nat) :
  (a, (b, c)) ∈ triples n ↔ a < b ∧ b < c ∧ c < n.
Proof.
  unfold triples. rewrite list_elem_of_bind. split.
  - intros (a' & Hin & Ha'). apply elem_of_seq in Ha'.
    apply list_elem_of_fmap in Hin as ([b' c'] & [= <- <- <-] & Hp).
    apply list_elem_of_filter in Hp as [Hab Hp]. simpl in Hab.
    apply elem_of_upper_pairs in Hp. lia.
  - intros (Hab & Hbc & Hcn). exists a. split.
    + apply list_elem_of_fmap. exists (b, c). split; [done|].
      apply list_elem_of_filter. split; [done|]. by apply elem_of_upper_pairs.
    + apply elem_of_seq. lia.
Qed.

Lemma NoDup_upper_pairs (n : nat) : NoDup (TrainAsync.upper_pairs n).
Proof.
  apply row_major_sorted_NoDup. apply (upper_rows_sorted (seq 0 n) n), seq_sorted.
Qed.

Lemma NoDup_triples (n : nat) : NoDup (triples n).
Proof.
  unfold triples. apply NoDup_bind.
  - intros a a' [b c] _ _ Hin Hin'.
    apply list_elem_of_fmap in Hin as (p & [= -> _] & _).
    by apply list_elem_of_fmap in Hin' as (p' & [= -> _] & _).
  - intros a _. apply NoDup_fmap_2; [by intros p q [= ->]|].
    apply NoDup_filter, NoDup_upper_pairs.
  - apply NoDup_seq.
Qed.

Lemma length_bind_corners (l : list (nat * (nat * nat))) :
  length (l ≫= corners) = 3 * length l.
Proof.
  induction l as [|t l IH]; [reflexivity|].
  rewrite bind_cons, length_app, IH. simpl. lia.
Qed.

Lemma sum_list_triangles (g : Nx.DiGraph) :
  sum_list (Nx.triangles g)
  = length (v ← seq 0 (Nx.nx_nodes g);
            (λ p, (v, p))
              <$> filter (λ p : nat * nat,
                            Nx.adjacent g v p.1 && Nx.adjacent g v p.2
                            && Nx.adjacent g p.1 p.2 = true)
                         (TrainAsync.upper_pairs (Nx.nx_nodes g))).
Proof.
  unfold Nx.triangles. rewrite triu_coords_upper.
  generalize (TrainAsync.upper_pairs (Nx.nx_nodes g)). intros ps.
  induction (seq 0 (Nx.nx_nodes g)) as [|v vs IH]; [reflexivity|].
  rewrite fmap_cons, bind_cons, length_app, length_fmap.
  cbn [sum_list_with]. by rewrite IH.
Qed.

Lemma corner_visits (g : Nx.DiGraph) :
  (v ← seq 0 (Nx.nx_nodes g);
   (λ p, (v, p))
     <$> filter (λ p : nat * nat,
                   Nx.adjacent g v p.1 && Nx.adjacent g v p.2
                   && Nx.adjacent g p.1 p.2 = true)
                (TrainAsync.upper_pairs (Nx.nx_nodes g)))
  ≡ₚ triangle_list g ≫= corners.
Proof.
  set (n := Nx.nx_nodes g).
  assert (∀ t, t ∈ triangle_list g ↔
               t.1 < t.2.1 ∧ t.2.1 < t.2.2 ∧ t.2.2 < n
               ∧ Nx.adjacent g t.1 t.2.1 = true
               ∧ Nx.adjacent g t.1 t.2.2 = true
               ∧ Nx.adjacent g t.2.1 t.2.2 = true) as Htri.
  { intros [a [b c]]. unfold triangle_list. fold n.
    rewrite list_elem_of_filter, elem_of_triples. cbn [fst snd]. tauto. }
  apply NoDup_Permutation.
  - apply NoDup_bind.
    + intros v v' [w p] _ _ Hin Hin'.
      apply list_elem_of_fmap in Hin as (q & [= -> _] & _).
      by apply list_elem_of_fmap in Hin' as (q' & [= -> _] & _).
    + intros v _. apply NoDup_fmap_2; [by intros p q [= ->]|].
      apply NoDup_filter, NoDup_upper_pairs.
    + apply NoDup_seq.
  - apply NoDup_bind.
    + intros [a [b c]] [a' [b' c']] [v [p1 p2]] Ht Ht' Hin Hin'.
      apply Htri in Ht as (Hab & Hbc & _). apply Htri in Ht' as (Hab' & Hbc' & _).
      cbn [fst snd] in *. unfold corners in Hin, Hin'. cbn [fst snd] in Hin, Hin'.
      repeat (apply elem_of_cons in Hin as [Hin|Hin]);
        try (by apply elem_of_nil in Hin);
        repeat (apply elem_of_cons in Hin' as [Hin'|Hin']);
        try (by apply elem_of_nil in Hin');
        simplify_eq; (reflexivity || lia).
    + intros [a [b c]] Ht. apply Htri in Ht as (Hab & Hbc & _).
      cbn [fst snd] in *. unfold corners. cbn [fst snd].
      repeat constructor; rewrite ?elem_of_cons, ?elem_of_nil;
        intros Hin; destruct_or?; simplify_eq; lia.
    + unfold triangle_list. apply NoDup_filter, NoDup_triples.
  - intros [v [p1 p2]]. rewrite !list_elem_of_bind. split.
    + intros (v' & Hin & Hv). apply elem_of_seq in Hv.
      apply list_elem_of_fmap in Hin as ([q1 q2] & [= <- <- <-] & Hq).
      apply list_elem_of_filter in Hq as [Hadj Hq]. cbn [fst snd] in Hadj.
      apply elem_of_upper_pairs in Hq as [H12 H2n]. fold n in H2n.
      apply andb_true_iff in Hadj as [Hadj H3].
      apply andb_true_iff in Hadj as [H1 H2].
      pose proof (adjacent_irrefl g _ _ H1) as Hne1.
      pose proof (adjacent_irrefl g _ _ H2) as Hne2.
      destruct (decide (v < p1)) as [Hlt|Hge].
      * exists (v, (p1, p2)). split; [left|]. apply Htri. cbn [fst snd].
        split_and!; done || lia.
      * destruct (decide (v < p2)) as [Hlt2|Hge2].
        -- exists (p1, (v, p2)). split; [right; left|]. apply Htri. cbn [fst snd].
           rewrite (adjacent_sym g p1 v). split_and!; done || lia.
        -- exists (p1, (p2, v)). split; [right; right; left|]. apply Htri.
           cbn [fst snd].
           rewrite (adjacent_sym g p1 v), (adjacent_sym g p2 v).
           split_and!; done || lia.
    + intros ([a [b c]] & Hin & Ht).
      apply Htri in Ht as (Hab & Hbc & Hcn & H1 & H2 & H3). cbn [fst snd] in *.
      unfold corners in Hin. cbn [fst snd] in Hin.
      apply elem_of_cons in Hin as [Hin|Hin];
        [|apply elem_of_cons in Hin as [Hin|Hin];
          [|apply elem_of_cons in Hin as [Hin|Hin]; [|by apply elem_of_nil in Hin]]];
        injection Hin as -> -> ->;
        (eexists; split;
         [apply list_elem_of_fmap; eexists (_, _); split; [reflexivity|];
          apply list_elem_of_filter; cbn [fst snd];
          split; [|apply elem_of_upper_pairs; fold n; lia];
          rewrite ?(adjacent_sym g b a), ?(adjacent_sym g c a), ?(adjacent_sym g c b);
          by rewrite H1, H2, H3
         |apply elem_of_seq; fold n; lia]).
Qed.

Lemma sum_list_triangles_count (g : Nx.DiGraph) :
  sum_list (Nx.triangles g) = 3 * length (triangle_list g).
Proof.
  by rewrite sum_list_triangles, corner_visits, length_bind_corners.
Qed.

End triangle_facts.

(** X1. [get_triangle_count] returns the number of triangles of the
    undirected simple graph under its argument: every set of three pairwise
    adjacent nodes counts once, although each is met at its three corners. *)
Theorem get_triangle_count_counts_triangles (nx_g : Nx.DiGraph) :
  EvalUtils.get_triangle_count nx_g
  = Float.of_nat (length (GraphSpec.triangle_list nx_g)).
Proof.
  unfold EvalUtils.get_triangle_count.
  rewrite sum_list_triangles_count, fdiv_of_nat_pos by done.
  rewrite of_nat_Qc. f_equal.
  rewrite Nat.mul_comm.
  unfold LinkxSpec.Qc_of_nat. rewrite Nat2Z.inj_mul, Z2Qc_inj_mul.
  field. rewrite <- Z2Qc_inj_0. intros Heq. apply Z2Qc_inj in Heq. lia.
Qed.

(** X2. The triangle count ignores the direction and the multiplicity of
    the edges: symmetrizing a graph, as sampling does, leaves it unchanged,
    and so does any change of the edge list that keeps, for every two
    distinct nodes, whether an edge joins them. *)
Theorem get_triangle_count_undirected (g : Dgl.DGLGraph) :
  EvalUtils.get_triangle_count (Nx.of_dgl (Dgl.to_bidirected g))
  = EvalUtils.get_triangle_count (Nx.of_dgl g)
  ∧ ∀ g' : Dgl.DGLGraph,
      Dgl.num_nodes g' = Dgl.num_nodes g →
      (∀ u v, u ≠ v →
         ((u, v) ∈ Dgl.edge_list g' ∨ (v, u) ∈ Dgl.edge_list g')
         ↔ ((u, v) ∈ Dgl.edge_list g ∨ (v, u) ∈ Dgl.edge_list g)) →
      EvalUtils.get_triangle_count (Nx.of_dgl g')
      = EvalUtils.get_triangle_count (Nx.of_dgl g).
Proof.
  split.
  - unfold EvalUtils.get_triangle_count. do 3 f_equal.
    apply triangles_ext; [reflexivity|]. intros u v. apply adjacent_bidirected.
  - intros g' Hn Hadj. unfold EvalUtils.get_triangle_count. do 3 f_equal.
    apply triangles_ext; [exact Hn|]. intros u v.
    apply eq_true_iff_eq. rewrite !adjacent_of_dgl.
    split; intros [Hne Hin]; (split; [done|]); by apply Hadj.
Qed.

(** ** linkx_homophily: what it raises, and the range of its value *)

Section linkx_edges.
Import Float Torch EvalUtils LinkxSpec.

Lemma index_select_outcome {A} (t : list A) (idx : list nat) :
  (∃ r, index_select t idx = Py.Ok r) ∨ index_select t idx = Py.Raise Py.IndexError.
Proof. unfold index_select. destruct (mapM _ idx); eauto. Qed.

Lemma length_update_all (g : Dgl.DGLGraph) (edata : list tfloat) :
  length (Dgl.update_all_copy_e_sum g edata) = Dgl.num_nodes g.
Proof. unfold Dgl.update_all_copy_e_sum. by rewrite length_fmap, length_seq. Qed.

Lemma linkx_class_term_mismatch (same_class_deg deg : list tfloat) (n : nat)
    (y : list nat) (value : tfloat) (k : nat) :
  length same_class_deg ≠ length y →
  linkx_class_term same_class_deg deg n y value k = Py.Raise Py.IndexError.
Proof.
  intros Hlen. unfold linkx_class_term, masked_select.
  destruct (decide (length same_class_deg = _)) as [Hd|Hd]; [|reflexivity].
  by rewrite length_fmap in Hd.
Qed.

(** X3. A label tensor that does not have one label per node makes
    [linkx_homophily] raise [IndexError]: at the latest when the first class
    mask indexes the per-node degrees. *)
Theorem linkx_homophily_label_count_mismatch (g : Dgl.DGLGraph) (y : list nat) :
  length y ≠ Dgl.num_nodes g →
  linkx_homophily g y = Py.Raise Py.IndexError.
Proof.
  intros Hlen. unfold linkx_homophily, Dgl.edges.
  destruct (index_select_outcome y (Dgl.edge_list g).*1) as [[ysrc ->]| ->];
    [|reflexivity].
  cbn [mbind Py.result_bind].
  destruct (index_select_outcome y (Dgl.edge_list g).*2) as [[ydst ->]| ->];
    [|reflexivity].
  cbn [mbind Py.result_bind].
  destruct y as [|l y]; [reflexivity|].
  cbn [max_item mbind Py.result_bind].
  rewrite Nat.add_1_r. cbn [seq Py.for_].
  rewrite linkx_class_term_mismatch; [reflexivity|].
  rewrite length_update_all. congruence.
Qed.

Lemma max_item_zero (y : list nat) :
  y ≠ [] → Forall (λ l, l = 0) y → max_item y = Py.Ok 0.
Proof.
  destruct y as [|x y]; [done|]. intros _ Hall.
  apply Forall_cons in Hall as [-> Hall]. cbn [max_item]. f_equal.
  induction Hall as [|a y -> _ IH]; [reflexivity|]. exact IH.
Qed.

(** X4. When every node has label 0 the number of classes is one and the
    final division by [num_classes - 1] raises [ZeroDivisionError]: the
    measure is defined for at least two classes only. *)
Theorem linkx_homophily_single_class_zero_division (g : Dgl.DGLGraph) (y : list nat) :
  Dgl.graph_wf g → length y = Dgl.num_nodes g →
  y ≠ [] → Forall (λ l, l = 0) y →
  linkx_homophily g y = Py.Raise Py.ZeroDivisionError.
Proof.
  intros Hwf Hlen Hne Hall.
  unfold linkx_homophily, Dgl.edges.
  destruct (labels_of_endpoints g y Hwf Hlen) as [-> ->].
  cbn [mbind Py.result_bind].
  rewrite (max_item_zero y Hne Hall). cbn [mbind Py.result_bind].
  cbn [Nat.add seq Py.for_]. unfold linkx_class_term, masked_select.
  rewrite !decide_True
    by first [by rewrite length_update_all, length_fmap
             |unfold Dgl.in_degrees; by rewrite !length_fmap, length_seq].
  reflexivity.
Qed.

End linkx_edges.

Section linkx_range.
Import Float Torch EvalUtils LinkxSpec.

Lemma fdiv32_zero_of_nat (d : nat) :
  d ≠ 0 → fdiv32 (of_nat 0) (of_nat d) = Fin 0%Qc.
Proof.
  intros Hd. rewrite fdiv32_of_nat_pos by done.
  replace (Qc_of_nat 0 / Qc_of_nat d)%Qc with 0%Qc; [reflexivity|].
  unfold Qcdiv, Qc_of_nat. change (Z.of_nat 0) with 0%Z.
  by rewrite Z2Qc_inj_0, Qcmult_0_l.
Qed.

Lemma foldl_fadd32_zeros (l : list tfloat) :
  Forall (λ x, x = zero) l → foldl fadd32 zero l = zero.
Proof.
  induction 1 as [|x l -> _ IH]; [done|]. cbn [foldl].
  replace (fadd32 zero zero) with zero; [exact IH|].
  apply (bool_decide_unpack _). vm_compute. exact I.
Qed.

(** A class none of whose in-edges comes from its own class adds zero. *)
Lemma class_term32_no_same_class (g : Dgl.DGLGraph) (y : list nat) (k : nat) :
  Dgl.num_nodes g ≠ 0 → class_same_degree g y k = 0 → class_term32 g y k = zero.
Proof.
  intros HN Hsame. unfold class_term32. rewrite Hsame.
  destruct (fdiv32_unit (length (class_nodes g y k)) (Dgl.num_nodes g))
    as (s & -> & Hs0 & Hs1); [apply class_nodes_le|done|].
  destruct (decide (class_degree g y k = 0)) as [->|Hnz]; [reflexivity|].
  rewrite fdiv32_zero_of_nat by done.
  unfold fsub32, fsub. cbn [fopp fadd rnd]. rewrite Qcplus_0_l.
  destruct (round_ge binary32 (- s) 1 binary32_wf) as (x & -> & Hx & _); [done| |
    |by apply max0_nonpos].
  - apply Qcopp_le_compat in Hs0. exact Hs0.
  - rewrite Z2Qc_inj_opp, Z2Qc_inj_1. by apply Qcopp_le_compat.
Qed.

Lemma class_same_degree_zero (g : Dgl.DGLGraph) (y : list nat) (k : nat) :
  (∀ e, e ∈ Dgl.edge_list g → y !! e.1 ≠ y !! e.2) → class_same_degree g y k = 0.
Proof.
  intros Hdiff. unfold class_same_degree.
  induction (class_nodes g y k) as [|v l IH]; [done|].
  cbn [sum_list_with]. rewrite IH. unfold same_class_in_degree.
  replace (filter _ (Dgl.edge_list g)) with ([] : list (nat * nat)); [done|].
  symmetry. induction (Dgl.edge_list g) as [|e E IHE]; [done|].
  rewrite filter_cons_False.
  - apply IHE. intros e' He'. apply Hdiff. by right.
  - intros [_ Heq]. apply (Hdiff e); [left|done].
Qed.

End linkx_range.

(** X5. With one label per node and at least two classes,
    [linkx_homophily] returns a number that is neither NaN nor infinite nor
    negative, whatever the graph: classes without members or without
    in-edges included.  When no edge joins two nodes of the same class the
    value is exactly 0.  (The counts are taken to be at most [2^24], which
    [float32] holds exactly.) *)
Theorem linkx_homophily_finite_nonneg (g : Dgl.DGLGraph) (y : list nat) (ymax : nat) :
  Dgl.graph_wf g → length y = Dgl.num_nodes g →
  (Z.of_nat (Dgl.num_edges g) ≤ 2 ^ 24)%Z →
  (Z.of_nat (Dgl.num_nodes g) ≤ 2 ^ 24)%Z →
  Torch.max_item y = Py.Ok ymax → 1 ≤ ymax →
  (∃ h : Qc, EvalUtils.linkx_homophily g y = Py.Ok (Float.Fin h) ∧ (0 ≤ h)%Qc)
  ∧ ((∀ e, e ∈ Dgl.edge_list g → y !! e.1 ≠ y !! e.2) →
     EvalUtils.linkx_homophily g y = Py.Ok Float.zero).
Proof.
  intros Hwf Hlen HE HV Hmax Hge.
  assert (Dgl.num_nodes g ≠ 0) as HN.
  { rewrite <- Hlen. destruct y; [discriminate|simpl; lia]. }
  split; [by apply (linkx_homophily_nonneg g y Hwf Hlen HE HV ymax)|].
  intros Hdiff. rewrite (linkx_homophily_eval g y Hwf Hlen HE HV ymax Hmax).
  unfold Float.fsum32. rewrite foldl_fadd32_zeros.
  - unfold Py.truediv. rewrite decide_False by lia. f_equal.
    unfold Float.fdiv64, Float.float64.
    destruct (round_ge_1 Float.binary64 (Qc_of_Z (Z.of_nat ymax)) binary64_wf)
      as [->|(d & -> & Hd)].
    { rewrite <- Z2Qc_inj_1. apply (proj1 (Z2Qc_inj_le _ _)). lia. }
    + apply (bool_decide_unpack _). vm_compute. exact I.
    + assert (0 < d)%Qc as Hdpos by (by eapply Qclt_le_trans; [|exact Hd]).
      unfold Float.zero, Float.of_Z, Float.fdiv. rewrite Z2Qc_inj_0.
      rewrite decide_False by (intros ->; by apply Qclt_not_eq in Hdpos).
      cbn [Float.rnd]. unfold Qcdiv. rewrite Qcmult_0_l. reflexivity.
  - apply Forall_fmap, Forall_forall. intros k _. simpl.
    apply class_term32_no_same_class; [done|]. by apply class_same_degree_zero.
Qed.

Lemma linkx_homophily_label_count_mismatch_witness :
  length one_edge_labels ≠ Dgl.num_nodes two_pairs_graph
  ∧ EvalUtils.linkx_homophily two_pairs_graph one_edge_labels = Py.Raise Py.IndexError.
Proof.
  assert (length one_edge_labels ≠ Dgl.num_nodes two_pairs_graph) as Hne
    by (simpl; lia).
  split; [exact Hne|].
  exact (linkx_homophily_label_count_mismatch two_pairs_graph one_edge_labels Hne).
Defined.

Lemma linkx_homophily_single_class_zero_division_witness :
  EvalUtils.linkx_homophily two_pairs_graph (replicate 4 0)
  = Py.Raise Py.ZeroDivisionError.
Proof.
  apply (linkx_homophily_single_class_zero_division two_pairs_graph (replicate 4 0)).
  - unfold Dgl.graph_wf, two_pairs_graph. simpl. repeat constructor.
  - reflexivity.
  - discriminate.
  - repeat constructor.
Defined.

Lemma linkx_homophily_finite_nonneg_witness :
  (∃ h : Qc,
     EvalUtils.linkx_homophily four_class_graph four_class_labels = Py.Ok (Float.Fin h)
     ∧ (0 ≤ h)%Qc)
  ∧ ((∀ e, e ∈ Dgl.edge_list four_class_graph →
           four_class_labels !! e.1 ≠ four_class_labels !! e.2) →
     EvalUtils.linkx_homophily four_class_graph four_class_labels = Py.Ok Float.zero).
Proof.
  apply (linkx_homophily_finite_nonneg four_class_graph four_class_labels 3).
  - unfold Dgl.graph_wf, four_class_graph. simpl. repeat constructor; lia.
  - reflexivity.
  - change (Z.of_nat 4 ≤ 2 ^ 24)%Z. lia.
  - change (Z.of_nat 13 ≤ 2 ^ 24)%Z. lia.
  - reflexivity.
  - lia.
Defined.

(** The value can exceed 1, which bounds the measure in exact arithmetic:
    with classes of 3, 4, 3 and 3 of 13 nodes and every edge inside a class
    the single-precision sum of the four terms is [3 + 2^-22], and the value
    returned is the double nearest to a third of it. *)
Example linkx_homophily_above_one :
  EvalUtils.linkx_homophily four_class_graph four_class_labels
  = Py.Ok (Float.Fin (Q2Qc (4503599985284437 # 4503599627370496)))
  ∧ LinkxSpec.homophily four_class_graph four_class_labels 4 = 1%Qc.
Proof. split; apply (bool_decide_unpack _); vm_compute; exact I. Qed.

(** ** Decoding one-hot tensors *)

Section argmax_facts.
Import Float Torch EvalUtils.

(** Whether a scan for the maximum moves on to entry [a] from [vbest]. *)
Lemma argmax_moves_zero_one : negb (is_nan zero) && (is_nan one || fgt one zero) = true.
Proof. by vm_compute. Qed.
Lemma argmax_stays_zero_zero :
  negb (is_nan zero) && (is_nan zero || fgt zero zero) = false.
Proof. by vm_compute. Qed.
Lemma argmax_stays_one (a : tfloat) :
  a = one ∨ a = zero → negb (is_nan one) && (is_nan a || fgt a one) = false.
Proof. by intros [-> | ->]; vm_compute. Qed.

(** Scanning the rest of a one-hot row. *)
Lemma argmax_scan_one_hot (l n i best : nat) (vbest : tfloat) :
  vbest = zero ∨ vbest = one →
  (foldl (λ (acc : nat * tfloat * nat) a,
            let '(best, vbest, i) := acc in
            if negb (is_nan vbest) && (is_nan a || fgt a vbest)
            then (i, a, S i) else (best, vbest, S i))
         (best, vbest, i)
         ((λ k, if bool_decide (k = l) then one else zero) <$> seq i n)).1.1
  = if decide (vbest = zero ∧ i ≤ l < i + n) then l else best.
Proof.
  revert i best vbest. induction n as [|n IH]; intros i best vbest Hv.
  - cbn. rewrite decide_False by lia. reflexivity.
  - cbn [seq fmap list_fmap foldl].
    destruct Hv as [-> | ->].
    + destruct (decide (i = l)) as [->|Hne].
      * rewrite bool_decide_true by done.
        rewrite argmax_moves_zero_one. cbv beta iota. rewrite IH by (by right).
        rewrite decide_False by (intros [[=] _]).
        rewrite decide_True by (split; [done|lia]). reflexivity.
      * rewrite bool_decide_false by done.
        rewrite argmax_stays_zero_zero. cbv beta iota. rewrite IH by (by left).
        destruct (decide (zero = zero ∧ S i ≤ l < S i + n)) as [[_ Hr]|Hr].
        -- rewrite decide_True by (split; [done|lia]). reflexivity.
        -- rewrite decide_False; [reflexivity|]. intros [_ Hr']. apply Hr.
           split; [done|lia].
    + rewrite argmax_stays_one by (case_bool_decide; [by left|by right]).
      cbv beta iota. rewrite IH by (by right).
      rewrite !decide_False; [reflexivity|intros [[=] _]..].
Qed.

Lemma argmax_row_one_hot (C l : nat) :
  l < C → argmax_row (one_hot_row C l) = Py.Ok l.
Proof.
  intros Hl. destruct C as [|C]; [lia|].
  unfold one_hot_row. cbn [seq fmap list_fmap argmax_row]. f_equal.
  rewrite argmax_scan_one_hot by (case_bool_decide; [by right|by left]).
  destruct (decide (0 = l)) as [<-|Hne].
  - rewrite bool_decide_true by done.
    rewrite decide_False; [reflexivity|intros [[=] _]].
  - rewrite bool_decide_false by done.
    rewrite decide_True; [reflexivity|]. split; [done|lia].
Qed.

Lemma argmax_rows_one_hot_from (C : nat) (labels acc : list nat) :
  Forall (λ l, l < C) labels →
  Py.for_ (one_hot_row C <$> labels)
    (λ acc row, i ← argmax_row row; Py.Ok (acc ++ [i])) acc
  = Py.Ok (acc ++ labels).
Proof.
  intros Hl. revert acc. induction Hl as [|l labels Hlt _ IH]; intros acc.
  - cbn. by rewrite app_nil_r.
  - rewrite fmap_cons. cbn [Py.for_]. rewrite argmax_row_one_hot by done.
    cbn [mbind Py.result_bind]. rewrite IH. by rewrite <- app_assoc.
Qed.

Lemma argmax_rows_one_hot (C : nat) (labels : list nat) :
  Forall (λ l, l < C) labels →
  argmax_rows (one_hot_row C <$> labels) = Py.Ok labels.
Proof. intros Hl. unfold argmax_rows. by rewrite argmax_rows_one_hot_from. Qed.

Lemma set_column_decoded (V : nat) (pre : list (list nat)) (m : nat) (col : list nat) :
  length col = V →
  set_column (decoded V pre (S m)) (length pre) (of_nat <$> col)
  = Py.Ok (decoded V (pre ++ [col]) m).
Proof.
  intros Hcol. unfold set_column, decoded.
  rewrite decide_True by (by rewrite !length_fmap, length_seq).
  f_equal. apply list_eq. intros v.
  rewrite lookup_zip_with, !list_lookup_fmap.
  destruct (decide (v < V)) as [Hv|Hv].
  - rewrite lookup_seq_lt by done. cbn [fmap option_fmap option_map mbind option_bind].
    rewrite (list_lookup_lookup_total_lt col v) by lia.
    cbn [fmap option_fmap option_map mbind option_bind]. f_equal.
    rewrite insert_app_r_alt by (by rewrite length_fmap).
    rewrite length_fmap, Nat.sub_diag. cbn [replicate].
    rewrite fmap_app, <- app_assoc. reflexivity.
  - rewrite lookup_seq_ge by lia. reflexivity.
Qed.

Lemma collapse_loop_decodes (C V : nat) (rest pre : list (list nat)) :
  Forall (λ col, length col = V ∧ Forall (λ a, a < C) col) rest →
  Py.for_ (zip (seq (length pre) (length rest))
               ((λ col : list nat, one_hot_row C <$> col) <$> rest))
    (λ X fm, col ← argmax_rows fm.2; set_column X fm.1 (of_nat <$> col))
    (decoded V pre (length rest))
  = Py.Ok (decoded V (pre ++ rest) 0).
Proof.
  intros Hrest. revert pre. induction Hrest as [|col rest [Hlen Hlt] _ IH]; intros pre.
  - cbn. by rewrite app_nil_r.
  - cbn [length seq fmap list_fmap zip zip_with Py.for_ fst snd].
    rewrite argmax_rows_one_hot by done. cbn [mbind Py.result_bind].
    rewrite set_column_decoded by done. cbn [mbind Py.result_bind].
    specialize (IH (pre ++ [col])).
    rewrite length_app, Nat.add_1_r, <- app_assoc in IH. exact IH.
Qed.

Lemma fmap_const_seq {A} (x : A) (a n : nat) :
  (λ _ : nat, x) <$> seq a n = replicate n x.
Proof.
  revert a. induction n as [|n IH]; intros a; [reflexivity|].
  cbn [replicate seq fmap list_fmap]. by rewrite IH.
Qed.

Lemma collapse_X_one_hot (C V : nat) (cols : list (list nat)) :
  Forall (λ col, length col = V ∧ Forall (λ a, a < C) col) cols →
  collapse_X (one_hot_attributes C V cols) = Py.Ok (attribute_rows V cols).
Proof.
  intros Hcols. unfold collapse_X, one_hot_attributes. cbn [t3_data t3_size1].
  rewrite length_fmap.
  pose proof (collapse_loop_decodes C V cols [] Hcols) as Hloop.
  cbn [length app] in Hloop.
  replace (zeros2 V (length cols)) with (decoded V [] (length cols)).
  - rewrite Hloop. f_equal. unfold decoded, attribute_rows.
    apply list_fmap_ext. intros _ v _. by rewrite app_nil_r.
  - unfold decoded, zeros2, zeros. cbn [fmap list_fmap app].
    apply fmap_const_seq.
Qed.

(** For one-hot labels, the classes of the split are the labels. *)
Lemma class_members_one_hot_labels (C : nat) (labels : list nat) (y v : nat) :
  y < C → Forall (λ l, l < C) labels →
  v ∈ MaskSpec.class_members (one_hot_labels C labels) y ↔ labels !! v = Some y.
Proof.
  intros Hy Hl. rewrite elem_of_class_members.
  unfold one_hot_labels. cbn [t2_rows]. rewrite list_lookup_fmap. split.
  - intros (row & Hrow & Hone).
    destruct (labels !! v) as [l|] eqn:Hv; [|discriminate].
    injection Hrow as <-. apply one_hot_row_lookup in Hone; [by subst|done].
  - intros ->. eexists. split; [reflexivity|]. by apply one_hot_row_lookup.
Qed.

End argmax_facts.

(** X6. [preprocess_g] decodes one-hot attributes: for [F] attribute
    columns over [V] nodes with values below [C], one-hot encoded as a tensor
    of shape [(F, V, C)], the matrix [X] it builds has one row per node and
    one column per attribute, and [X[v, f]] is the value of attribute [f] at
    node [v]. *)
Theorem collapse_X_decodes_one_hot `{Torch.Generator G}
    (C V : nat) (cols : list (list nat)) :
  Forall (λ col, length col = V ∧ Forall (λ a, a < C) col) cols →
  EvalUtils.collapse_X (one_hot_attributes C V cols) = Py.Ok (attribute_rows V cols)
  ∧ ∀ self g Y flag (gen gen' : G) pp,
      EvalUtils.preprocess_g self g (one_hot_attributes C V cols) Y flag gen
      = (Py.Ok pp, gen') →
      EvalUtils.pp_X pp = attribute_rows V cols.
Proof.
  intros Hcols. pose proof (collapse_X_one_hot C V cols Hcols) as HX.
  split; [exact HX|].
  intros self g Y flag gen gen' pp Hpp.
  apply preprocess_g_parts in Hpp as (gen1 & _ & _ & HX' & _).
  rewrite HX in HX'. by injection HX' as <-.
Qed.

Lemma collapse_X_decodes_one_hot_witness :
  EvalUtils.collapse_X (one_hot_attributes 2 4 [[0; 1; 1; 0]])
  = Py.Ok (attribute_rows 4 [[0; 1; 1; 0]])
  ∧ ∀ self g Y flag (gen gen' : nat) pp,
      EvalUtils.preprocess_g self g (one_hot_attributes 2 4 [[0; 1; 1; 0]]) Y flag gen
      = (Py.Ok pp, gen') →
      EvalUtils.pp_X pp = attribute_rows 4 [[0; 1; 1; 0]].
Proof.
  apply (collapse_X_decodes_one_hot 2 4 [[0; 1; 1; 0]]).
  repeat constructor.
Defined.

(** X7. For one-hot labels the two notions of class in the file agree:
    the label [preprocess_g] hands to the homophily measure (the arg-max of a
    node's row) is the node's label, and the nodes the split loops gather
    for class [y] (the rows whose entry [y] equals 1) are the nodes of label
    [y]. *)
Theorem one_hot_labels_classes_agree `{Torch.Generator G}
    (C : nat) (labels : list nat) :
  Forall (λ l, l < C) labels →
  Torch.argmax_rows (Torch.t2_rows (one_hot_labels C labels)) = Py.Ok labels
  ∧ (∀ y v, y < C →
       v ∈ MaskSpec.class_members (one_hot_labels C labels) y ↔ labels !! v = Some y)
  ∧ ∀ self g X flag (gen gen' : G) pp,
      EvalUtils.preprocess_g self g X (one_hot_labels C labels) flag gen
      = (Py.Ok pp, gen') →
      EvalUtils.pp_Y pp = labels.
Proof.
  intros Hl.
  assert (Torch.argmax_rows (Torch.t2_rows (one_hot_labels C labels)) = Py.Ok labels)
    as HY by (by apply argmax_rows_one_hot).
  split_and!.
  - exact HY.
  - intros y v Hy. by apply class_members_one_hot_labels.
  - intros self g X flag gen gen' pp Hpp.
    apply preprocess_g_parts in Hpp as (gen1 & _ & _ & _ & HY' & _).
    rewrite HY in HY'. by injection HY' as <-.
Qed.

Lemma one_hot_labels_classes_agree_witness :
  Torch.argmax_rows (Torch.t2_rows (one_hot_labels 2 two_pairs_classes))
  = Py.Ok two_pairs_classes
  ∧ (∀ y v, y < 2 →
       v ∈ MaskSpec.class_members (one_hot_labels 2 two_pairs_classes) y
       ↔ two_pairs_classes !! v = Some y)
  ∧ ∀ self g X flag (gen gen' : nat) pp,
      EvalUtils.preprocess_g self g X (one_hot_labels 2 two_pairs_classes) flag gen
      = (Py.Ok pp, gen') →
      EvalUtils.pp_Y pp = two_pairs_classes.
Proof.
  apply (one_hot_labels_classes_agree 2 two_pairs_classes).
  repeat constructor.
Defined.

(** ** The masks of classes of any size *)

Section add_mask_marks.
Import Float Torch EvalUtils MaskSpec.
Context `{Generator G}.

Lemma masks_len_zeros (N : nat) : masks_len N (zeros N, zeros N, zeros N).
Proof. unfold masks_len, zeros. cbn [fst snd]. by rewrite length_replicate. Qed.

Lemma masks_len_foldl_fill3 (N : nat) (m : masks)
    (l : list (list nat * list nat * list nat)) :
  masks_len N m → masks_len N (foldl fill3 m l).
Proof.
  revert m. induction l as [|s l IH]; intros m Hm; [done|].
  cbn [foldl]. by apply IH, masks_len_fill3.
Qed.

(** The masks a loop over the classes attaches are the marks of the
    shuffles it drew. *)
Lemma attach_marks (g : Dgl.DGLGraph) (C : nat)
    (split : nat → list nat → list nat * list nat * list nat)
    (ps : list (list nat)) :
  has_masks
    (attach_masks g
       (foldl fill3 (zeros (Dgl.num_nodes g), zeros (Dgl.num_nodes g),
                     zeros (Dgl.num_nodes g))
              (zip_with split (seq 0 C) ps)))
    (marks (Dgl.num_nodes g) C split ps (λ s, s.1.1))
    (marks (Dgl.num_nodes g) C split ps (λ s, s.1.2))
    (marks (Dgl.num_nodes g) C split ps (λ s, s.2)).
Proof.
  pose proof (masks_len_foldl_fill3 (Dgl.num_nodes g) _
                (zip_with split (seq 0 C) ps) (masks_len_zeros _)) as Hm.
  rewrite foldl_fill3 in Hm |- *. cbn [fst snd] in Hm |- *.
  by apply attach_masks_has_masks.
Qed.

Lemma add_mask_quota_marks (num_val_nodes num_test_nodes : gmap nat nat)
    (g : Dgl.DGLGraph) (Y : tensor2) (gen : G) :
  length (t2_rows Y) = Dgl.num_nodes g →
  (∀ y, y < t2_cols Y → is_Some (num_val_nodes !! y) ∧ is_Some (num_test_nodes !! y)) →
  ∃ g' gen' ps,
    add_mask_quota num_val_nodes num_test_nodes g Y gen = (Py.Ok g', gen')
    ∧ Forall2 (λ y p, p ≡ₚ class_members Y y) (seq 0 (t2_cols Y)) ps
    ∧ has_masks g'
        (marks (Dgl.num_nodes g) (t2_cols Y)
           (λ y p, split_quota (num_val_nodes !!! y) (num_test_nodes !!! y) p)
           ps (λ s, s.1.1))
        (marks (Dgl.num_nodes g) (t2_cols Y)
           (λ y p, split_quota (num_val_nodes !!! y) (num_test_nodes !!! y) p)
           ps (λ s, s.1.2))
        (marks (Dgl.num_nodes g) (t2_cols Y)
           (λ y p, split_quota (num_val_nodes !!! y) (num_test_nodes !!! y) p)
           ps (λ s, s.2)).
Proof.
  intros Hrows Htbl.
  set (N := Dgl.num_nodes g) in *.
  set (split := λ y p, split_quota (num_val_nodes !!! y) (num_test_nodes !!! y) p).
  destruct (mask_loop_returns Y N
              (quota_body num_val_nodes num_test_nodes Y) split (seq 0 (t2_cols Y)))
    with (m := (zeros N, zeros N, zeros N)) (gen := gen)
    as (ps & gen' & Hloop & Hps); [|apply masks_len_zeros|].
  { intros y m gen0 Hy Hm. apply elem_of_seq in Hy.
    destruct (Htbl y) as [[nv Hv] [nt Ht]]; [lia|].
    destruct (quota_body_returns Y N Hrows _ _ m y nv nt gen0 Hv Ht Hm)
      as (p & Hrun & Hp).
    exists p, (randperm (length (class_members Y y)) gen0).2. split; [|done].
    unfold split. by rewrite (lookup_total_correct _ _ _ Hv),
                             (lookup_total_correct _ _ _ Ht). }
  eexists _, gen', ps. split_and!.
  - unfold add_mask_quota. fold N. rewrite (M_bind_eval _ _ _ _ _ Hloop).
    reflexivity.
  - exact Hps.
  - apply attach_marks.
Qed.

Lemma add_mask_benchmark_marks (self : Evaluator)
    (g : Dgl.DGLGraph) (Y : tensor2) (gen : G) :
  length (t2_rows Y) = Dgl.num_nodes g →
  ∃ g' gen' ps,
    add_mask_benchmark self g Y gen = (Py.Ok g', gen')
    ∧ Forall2 (λ y p, p ≡ₚ class_members Y y) (seq 0 (t2_cols Y)) ps
    ∧ has_masks g'
        (marks (Dgl.num_nodes g) (t2_cols Y) (λ _ p, split_benchmark p) ps (λ s, s.1.1))
        (marks (Dgl.num_nodes g) (t2_cols Y) (λ _ p, split_benchmark p) ps (λ s, s.1.2))
        (marks (Dgl.num_nodes g) (t2_cols Y) (λ _ p, split_benchmark p) ps (λ s, s.2)).
Proof.
  intros Hrows.
  set (N := Dgl.num_nodes g) in *.
  destruct (mask_loop_returns Y N (benchmark_body Y) (λ _ p, split_benchmark p)
              (seq 0 (t2_cols Y)))
    with (m := (zeros N, zeros N, zeros N)) (gen := gen)
    as (ps & gen' & Hloop & Hps); [|apply masks_len_zeros|].
  { intros y m gen0 Hy Hm.
    destruct (benchmark_body_returns Y N Hrows m y gen0 Hm) as (p & Hrun & Hp).
    by exists p, (randperm (length (class_members Y y)) gen0).2. }
  eexists _, gen', ps. split_and!.
  - unfold add_mask_benchmark. fold N. rewrite (M_bind_eval _ _ _ _ _ Hloop).
    reflexivity.
  - exact Hps.
  - apply attach_marks.
Qed.

Lemma length_slice_clamped {A} (p : list A) (a b : nat) :
  length (Py.slice p a b) = Nat.min b (length p) - a.
Proof. unfold Py.slice. rewrite length_take, length_drop. lia. Qed.

Lemma NoDup_drop_list {A} (p : list A) (a : nat) : NoDup p → NoDup (drop a p).
Proof. intros Hp. eapply sublist_NoDup; [exact Hp|apply sublist_drop]. Qed.

Lemma add_mask_dispatch_benchmark (self : Evaluator) :
  data_name self ∈ ["amazon_photo"; "amazon_computer"] →
  data_name self ≠ "cora" ∧ data_name self ≠ "citeseer"
  ∧ ∀ g Y, add_mask self g Y = add_mask_benchmark (G := G) self g Y.
Proof.
  intros Hname.
  assert (data_name self ≠ "cora" ∧ data_name self ≠ "citeseer") as [Hn1 Hn2].
  { split; intros Heq; rewrite Heq in Hname;
      repeat (apply elem_of_cons in Hname as [Hname|Hname]; [discriminate|]);
      by apply elem_of_nil in Hname. }
  split_and!; [done..|]. intros g Y. unfold add_mask.
  rewrite (decide_False (P := data_name self = "cora")) by done.
  rewrite (decide_False (P := data_name self = "citeseer")) by done.
  by rewrite decide_True.
Qed.

(** The counts of the quota strategy for a class of any size. *)
Lemma add_mask_quota_counts (num_val_nodes num_test_nodes : gmap nat nat)
    (g : Dgl.DGLGraph) (Y : tensor2) (gen : G) :
  one_hot Y → length (t2_rows Y) = Dgl.num_nodes g →
  (∀ y, y < t2_cols Y → is_Some (num_val_nodes !! y) ∧ is_Some (num_test_nodes !! y)) →
  ∃ g' gen' train val test,
    add_mask_quota num_val_nodes num_test_nodes g Y gen = (Py.Ok g', gen')
    ∧ has_masks g' train val test
    ∧ ∀ y nv nt,
        y < t2_cols Y →
        num_val_nodes !! y = Some nv → num_test_nodes !! y = Some nt →
        class_count Y train y = Nat.min 20 (length (class_members Y y))
        ∧ class_count Y val y = Nat.min nv (length (class_members Y y) - 20)
        ∧ class_count Y test y = Nat.min nt (length (class_members Y y) - 20 - nv).
Proof.
  intros Hoh Hrows Htbl.
  destruct (add_mask_quota_marks num_val_nodes num_test_nodes g Y gen Hrows Htbl)
    as (g' & gen' & ps & Hrun & Hps & Hm).
  eexists g', gen', _, _, _. split_and!; [exact Hrun|exact Hm|].
  intros y nv nt Hy Hv Ht.
  destruct (class_has_shuffle Y ps Hps y Hy) as (p & Hp & Hperm & Hnd).
  assert (length p = length (class_members Y y)) as Hlenp by (by rewrite Hperm).
  pose proof (marks_class_count Y (Dgl.num_nodes g) Hoh Hrows
                (λ y p, split_quota (num_val_nodes !!! y) (num_test_nodes !!! y) p)
                ps Hps) as Hcount.
  rewrite !(Hcount _ y p)
    by first [done | intros; apply slice_subseteq | intros; by apply NoDup_slice].
  unfold split_quota. cbn [fst snd].
  rewrite (lookup_total_correct _ _ _ Hv), (lookup_total_correct _ _ _ Ht).
  rewrite !length_slice_clamped. lia.
Qed.

Lemma add_mask_benchmark_counts_clamped (self : Evaluator)
    (g : Dgl.DGLGraph) (Y : tensor2) (gen : G) :
  one_hot Y → length (t2_rows Y) = Dgl.num_nodes g →
  ∃ g' gen' train val test,
    add_mask_benchmark self g Y gen = (Py.Ok g', gen')
    ∧ has_masks g' train val test
    ∧ ∀ y,
        y < t2_cols Y →
        class_count Y train y = Nat.min 20 (length (class_members Y y))
        ∧ class_count Y val y = Nat.min 30 (length (class_members Y y) - 20)
        ∧ class_count Y test y = length (class_members Y y) - 50.
Proof.
  intros Hoh Hrows.
  destruct (add_mask_benchmark_marks self g Y gen Hrows)
    as (g' & gen' & ps & Hrun & Hps & Hm).
  eexists g', gen', _, _, _. split_and!; [exact Hrun|exact Hm|].
  intros y Hy.
  destruct (class_has_shuffle Y ps Hps y Hy) as (p & Hp & Hperm & Hnd).
  assert (length p = length (class_members Y y)) as Hlenp by (by rewrite Hperm).
  pose proof (marks_class_count Y (Dgl.num_nodes g) Hoh Hrows
                (λ _ p, split_benchmark p) ps Hps) as Hcount.
  rewrite !(Hcount _ y p)
    by first [done | intros; apply slice_subseteq | intros; apply subseteq_drop
             | intros; by apply NoDup_slice | intros; by apply NoDup_drop_list].
  unfold split_benchmark. cbn [fst snd].
  rewrite !length_slice_clamped, length_drop. lia.
Qed.

(** X8. The benchmark split of amazon_photo and amazon_computer is a
    partition: for a one-hot label tensor with one row per node, every
    node of the graph is marked by exactly one of the three masks; the test
    mask takes every node the other two leave. *)
Theorem add_mask_benchmark_partitions_nodes (self : Evaluator)
    (g : Dgl.DGLGraph) (Y : tensor2) (gen : G) :
  data_name self ∈ ["amazon_photo"; "amazon_computer"] →
  one_hot Y → length (t2_rows Y) = Dgl.num_nodes g →
  ∃ g' gen' train val test,
    add_mask self g Y gen = (Py.Ok g', gen')
    ∧ has_masks g' train val test
    ∧ disjoint_masks train val test
    ∧ ∀ v, v < Dgl.num_nodes g →
        train !! v = Some true ∨ val !! v = Some true ∨ test !! v = Some true.
Proof.
  intros Hname.
  destruct (add_mask_dispatch_benchmark self Hname) as (_ & _ & ->).
  intros Hoh Hrows.
  destruct (add_mask_benchmark_marks self g Y gen Hrows)
    as (g' & gen' & ps & Hrun & Hps & Hm).
  set (split := λ (_ : nat) (p : list nat), split_benchmark p) in *.
  assert (∀ (y : nat) (p : list nat), drop 50 p ⊆ p) as Hdrop
    by (intros; apply subseteq_drop).
  eexists g', gen', _, _, _. split_and!; [exact Hrun|exact Hm| |].
  - intros v. split_and!.
    + apply (marks_disjoint Y _ Hoh Hrows split ps Hps (λ s, s.1.1) (λ s, s.1.2));
        [intros; apply slice_subseteq..|].
      intros y p x Hnd. unfold split, split_benchmark. cbn [fst snd].
      apply slices_disjoint; [done|lia].
    + apply (marks_disjoint Y _ Hoh Hrows split ps Hps (λ s, s.1.1) (λ s, s.2));
        [intros; apply slice_subseteq|exact Hdrop|].
      intros y p x Hnd. unfold split, split_benchmark. cbn [fst snd].
      apply slice_drop_disjoint; [done|lia].
    + apply (marks_disjoint Y _ Hoh Hrows split ps Hps (λ s, s.1.2) (λ s, s.2));
        [intros; apply slice_subseteq|exact Hdrop|].
      intros y p x Hnd. unfold split, split_benchmark. cbn [fst snd].
      apply slice_drop_disjoint; [done|lia].
  - intros v Hv. rewrite <- Hrows in Hv.
    destruct (lookup_lt_is_Some_2 _ _ Hv) as [row Hrow].
    pose proof Hoh as Hall. unfold one_hot in Hall. rewrite Forall_forall in Hall.
    destruct (Hall row) as (_ & y & Hy & Hone); [by eapply list_elem_of_lookup_2|].
    assert (v ∈ class_members Y y) as Hmem.
    { apply elem_of_class_members. exists row. split; [done|]. by apply Hone. }
    destruct (class_has_shuffle Y ps Hps y Hy) as (p & Hp & Hperm & Hnd).
    rewrite <- Hperm in Hmem. apply list_elem_of_lookup in Hmem as [i Hi].
    rewrite !(marks_true_iff Y _ Hrows split ps Hps)
      by first [intros; apply slice_subseteq | exact Hdrop].
    unfold split, split_benchmark. cbn [fst snd].
    destruct (decide (i < 20)) as [H20|H20].
    { left. exists y, p. split; [done|]. apply elem_of_slice. exists i.
      split_and!; [lia|done|done]. }
    destruct (decide (i < 50)) as [H50|H50].
    { right; left. exists y, p. split; [done|]. apply elem_of_slice.
      exists i. split_and!; [lia|done|done]. }
    right; right. exists y, p. split; [done|]. apply elem_of_drop.
    exists i. split; [lia|done].
Qed.

End add_mask_marks.

Lemma add_mask_benchmark_partitions_nodes_witness :
  ∃ g' gen' train val test,
    EvalUtils.add_mask
      {| EvalUtils.data_name := "amazon_photo"; EvalUtils.edge_limit := 4 |}
      two_pairs_graph two_pairs_labels (0 : nat) = (Py.Ok g', gen')
    ∧ MaskSpec.has_masks g' train val test
    ∧ MaskSpec.disjoint_masks train val test
    ∧ ∀ v, v < Dgl.num_nodes two_pairs_graph →
        train !! v = Some true ∨ val !! v = Some true ∨ test !! v = Some true.
Proof.
  apply (add_mask_benchmark_partitions_nodes
           {| EvalUtils.data_name := "amazon_photo"; EvalUtils.edge_limit := 4 |}
           two_pairs_graph two_pairs_labels (0 : nat)).
  - left.
  - apply one_hot_labels_one_hot. repeat constructor.
  - reflexivity.
Defined.

(** X9. A class with fewer members than its quota raises nothing: the
    slices of its shuffled nodes are cut at the end of the class.  With [n]
    members and the quota [(a, b, c)] of the strategy, [min(a, n)] of them
    are marked train, [min(b, n - a)] val and [min(c, n - a - b)] test
    (differences cut at zero); what is left of a cora or citeseer class
    beyond its quota is in no mask. *)
Theorem add_mask_counts_of_short_classes `{Torch.Generator G}
    (self : EvalUtils.Evaluator) (g : Dgl.DGLGraph) (Y : Torch.tensor2) (gen : G) :
  MaskSpec.one_hot Y →
  length (Torch.t2_rows Y) = Dgl.num_nodes g →
  (EvalUtils.data_name self = "cora" ∧ Torch.t2_cols Y ≤ 7)
  ∨ (EvalUtils.data_name self = "citeseer" ∧ Torch.t2_cols Y ≤ 6)
  ∨ EvalUtils.data_name self ∈ ["amazon_photo"; "amazon_computer"] →
  ∃ g' gen' train val test,
    EvalUtils.add_mask self g Y gen = (Py.Ok g', gen')
    ∧ MaskSpec.has_masks g' train val test
    ∧ ∀ y a b c,
        y < Torch.t2_cols Y →
        MaskSpec.quota (EvalUtils.data_name self) y
          (length (MaskSpec.class_members Y y)) = Some (a, b, c) →
        MaskSpec.class_count Y train y
        = Nat.min a (length (MaskSpec.class_members Y y))
        ∧ MaskSpec.class_count Y val y
          = Nat.min b (length (MaskSpec.class_members Y y) - a)
        ∧ MaskSpec.class_count Y test y
          = Nat.min c (length (MaskSpec.class_members Y y) - a - b).
Proof.
  intros Hoh Hrows Hname. unfold MaskSpec.quota.
  destruct Hname as [[Hname HC]|[[Hname HC]|Hname]].
  - unfold EvalUtils.add_mask. rewrite !decide_True by done.
    destruct (add_mask_quota_counts EvalUtils.cora_num_val_nodes
                EvalUtils.cora_num_test_nodes g Y gen Hoh Hrows)
      as (g' & gen' & train & val & test & Hrun & Hm & Hq).
    { intros y Hy. apply quota_tables_cora. lia. }
    exists g', gen', train, val, test. split_and!; [done..|].
    intros y a b c Hy Hquota. rewrite decide_True in Hquota by done.
    destruct (EvalUtils.cora_num_val_nodes !! y) as [nv|] eqn:Hv;
      [|cbn in Hquota; discriminate].
    destruct (EvalUtils.cora_num_test_nodes !! y) as [nt|] eqn:Ht;
      [|cbn in Hquota; discriminate].
    cbn in Hquota. injection Hquota as <- <- <-. by apply Hq.
  - unfold EvalUtils.add_mask.
    rewrite !(decide_False (P := EvalUtils.data_name self = "cora"))
      by (rewrite Hname; discriminate).
    rewrite !decide_True by done.
    destruct (add_mask_quota_counts EvalUtils.citeseer_num_val_nodes
                EvalUtils.citeseer_num_test_nodes g Y gen Hoh Hrows)
      as (g' & gen' & train & val & test & Hrun & Hm & Hq).
    { intros y Hy. apply quota_tables_citeseer. lia. }
    exists g', gen', train, val, test. split_and!; [done..|].
    intros y a b c Hy Hquota.
    rewrite (decide_False (P := EvalUtils.data_name self = "cora")) in Hquota
      by (rewrite Hname; discriminate).
    rewrite decide_True in Hquota by done.
    destruct (EvalUtils.citeseer_num_val_nodes !! y) as [nv|] eqn:Hv;
      [|cbn in Hquota; discriminate].
    destruct (EvalUtils.citeseer_num_test_nodes !! y) as [nt|] eqn:Ht;
      [|cbn in Hquota; discriminate].
    cbn in Hquota. injection Hquota as <- <- <-. by apply Hq.
  - destruct (add_mask_dispatch_benchmark (G := G) self Hname) as (Hn1 & Hn2 & ->).
    destruct (add_mask_benchmark_counts_clamped self g Y gen Hoh Hrows)
      as (g' & gen' & train & val & test & Hrun & Hm & Hq).
    exists g', gen', train, val, test. split_and!; [done..|].
    intros y a b c Hy Hquota.
    rewrite (decide_False (P := EvalUtils.data_name self = "cora")) in Hquota by done.
    rewrite (decide_False (P := EvalUtils.data_name self = "citeseer")) in Hquota by done.
    injection Hquota as <- <- <-.
    destruct (Hq y Hy) as (-> & -> & ->). lia.
Qed.

Lemma add_mask_counts_of_short_classes_witness :
  ∃ g' gen' train val test,
    EvalUtils.add_mask {| EvalUtils.data_name := "cora"; EvalUtils.edge_limit := 4 |}
      two_pairs_graph two_pairs_labels (0 : nat) = (Py.Ok g', gen')
    ∧ MaskSpec.has_masks g' train val test
    ∧ ∀ y a b c,
        y < Torch.t2_cols two_pairs_labels →
        MaskSpec.quota "cora" y (length (MaskSpec.class_members two_pairs_labels y))
        = Some (a, b, c) →
        MaskSpec.class_count two_pairs_labels train y
        = Nat.min a (length (MaskSpec.class_members two_pairs_labels y))
        ∧ MaskSpec.class_count two_pairs_labels val y
          = Nat.min b (length (MaskSpec.class_members two_pairs_labels y) - a)
        ∧ MaskSpec.class_count two_pairs_labels test y
          = Nat.min c (length (MaskSpec.class_members two_pairs_labels y) - a - b).
Proof.
  apply (add_mask_counts_of_short_classes
           {| EvalUtils.data_name := "cora"; EvalUtils.edge_limit := 4 |}
           two_pairs_graph two_pairs_labels (0 : nat)).
  - apply one_hot_labels_one_hot. repeat constructor.
  - reflexivity.
  - left. split; [reflexivity|]. simpl. lia.
Defined.

(** ** The sizes of the three masks *)

Section mask_sizes.
Import Float Torch EvalUtils MaskSpec.

Lemma count_true_positions (mask : list bool) :
  count_true mask
  = length (filter (λ v, mask !! v = Some true) (seq 0 (length mask))).
Proof.
  unfold count_true.
  induction mask as [|b mask IH] using rev_ind; [reflexivity|].
  rewrite length_app, Nat.add_1_r, seq_S, !filter_app, !length_app, IH.
  cbn [plus]. f_equal.
  - f_equal. apply filter_ext_elem. intros v Hv. apply elem_of_seq in Hv.
    by rewrite lookup_app_l by lia.
  - pose proof (list_lookup_middle mask [] b (length mask) eq_refl) as Hlast.
    destruct b.
    + rewrite !filter_cons_True by done. reflexivity.
    + rewrite !filter_cons_False by congruence. reflexivity.
Qed.

(** Counting over classes that partition the positions. *)
Lemma sum_filter_partition (P : nat → Prop) (Q : nat → nat → Prop)
    (HP : ∀ v, Decision (P v)) (HQ : ∀ y v, Decision (Q y v)) (C : nat) (l : list nat) :
  (∀ v, v ∈ l → ∃ y0, y0 < C ∧ ∀ y, y < C → Q y v ↔ y = y0) →
  sum_list_with (λ y, length (filter P (filter (Q y) l))) (seq 0 C)
  = length (filter P l).
Proof.
  induction l as [|v l IH]; intros Hone.
  - induction (seq 0 C) as [|k ks IHk]; [reflexivity|].
    cbn [sum_list_with]. by rewrite IHk.
  - destruct (Hone v) as (y0 & Hy0 & Hq); [left|].
    assert (∀ a n, a + n ≤ C →
              sum_list_with (λ y, length (filter P (filter (Q y) (v :: l)))) (seq a n)
              = (if decide (P v ∧ a ≤ y0 < a + n) then 1 else 0)
                + sum_list_with (λ y, length (filter P (filter (Q y) l))) (seq a n))
      as Hrow.
    { intros a n. revert a. induction n as [|n IHn]; intros a Han.
      - cbn. rewrite decide_False by lia. reflexivity.
      - cbn [seq sum_list_with]. rewrite IHn by lia.
        destruct (decide (a = y0)) as [->|Hne].
        + rewrite (filter_cons_True (Q y0)) by (by apply Hq).
          rewrite (decide_False (P := P v ∧ S y0 ≤ y0 < S y0 + n)) by lia.
          destruct (decide (P v)) as [Hv|Hv].
          * rewrite filter_cons_True by done.
            rewrite decide_True by (split; [done|lia]). cbn [length]. lia.
          * rewrite filter_cons_False by done.
            rewrite decide_False by tauto. lia.
        + rewrite (filter_cons_False (Q a)) by (rewrite Hq by lia; done).
          destruct (decide (P v ∧ S a ≤ y0 < S a + n)) as [Hd|Hd].
          * rewrite decide_True by (split; [tauto|lia]). lia.
          * rewrite decide_False; [lia|]. intros [Hv Hr]. apply Hd. split; [done|lia]. }
    rewrite Hrow by lia. rewrite IH by (intros u Hu; apply Hone; by right).
    destruct (decide (P v)) as [Hv|Hv].
    + rewrite filter_cons_True by done. rewrite decide_True by (split; [done|lia]).
      reflexivity.
    + rewrite filter_cons_False by done. rewrite decide_False by tauto. reflexivity.
Qed.

Lemma count_true_by_class (Y : tensor2) (mask : list bool) :
  one_hot Y → length (t2_rows Y) = length mask →
  count_true mask = sum_list_with (class_count Y mask) (seq 0 (t2_cols Y)).
Proof.
  intros Hoh Hrows. rewrite count_true_positions, <- Hrows. symmetry.
  etransitivity;
    [|apply (sum_filter_partition (λ v, mask !! v = Some true)
               (λ y v, eq_scalar (column Y y) one !! v = Some true)
               (λ v, decide (mask !! v = Some true))
               (λ y v, decide (eq_scalar (column Y y) one !! v = Some true))
               (t2_cols Y) (seq 0 (length (t2_rows Y))))].
  - induction (seq 0 (t2_cols Y)) as [|y ys IH]; [reflexivity|].
    cbn [sum_list_with]. rewrite IH. f_equal.
    unfold class_count, class_members, nonzero, eq_scalar, column.
    by rewrite !length_fmap.
  - intros v Hv. apply elem_of_seq in Hv.
    destruct (lookup_lt_is_Some_2 (t2_rows Y) v) as [row Hrow]; [lia|].
    unfold one_hot in Hoh. rewrite Forall_forall in Hoh.
    destruct (Hoh row) as (_ & y0 & Hy0 & Hone); [by eapply list_elem_of_lookup_2|].
    exists y0. split; [done|]. intros y Hy.
    unfold eq_scalar, column. rewrite !list_lookup_fmap, Hrow. simpl.
    rewrite <- (Hone y Hy). split; [by intros [= ->]|by intros ->].
Qed.

End mask_sizes.

(** X10. On a graph whose classes are all at least as large as their
    quota, the split of cora marks 140 nodes for training (20 for each of
    its 7 classes), 500 for validation and 1000 for testing, and the split
    of citeseer 120, 500 and 1000: the tables of the two methods add up to
    the sizes of the Planetoid splits. *)
Theorem add_mask_planetoid_split_sizes `{Torch.Generator G}
    (self : EvalUtils.Evaluator) (g : Dgl.DGLGraph) (Y : Torch.tensor2) (gen : G) :
  MaskSpec.one_hot Y →
  length (Torch.t2_rows Y) = Dgl.num_nodes g →
  (EvalUtils.data_name self = "cora" ∧ Torch.t2_cols Y = 7)
  ∨ (EvalUtils.data_name self = "citeseer" ∧ Torch.t2_cols Y = 6) →
  (∀ y a b c,
     y < Torch.t2_cols Y →
     MaskSpec.quota (EvalUtils.data_name self) y
       (length (MaskSpec.class_members Y y)) = Some (a, b, c) →
     a + b + c ≤ length (MaskSpec.class_members Y y)) →
  ∃ g' gen' train val test,
    EvalUtils.add_mask self g Y gen = (Py.Ok g', gen')
    ∧ MaskSpec.has_masks g' train val test
    ∧ Torch.count_true train = 20 * Torch.t2_cols Y
    ∧ Torch.count_true val = 500
    ∧ Torch.count_true test = 1000.
Proof.
  intros Hoh Hrows Hname Hsize. unfold MaskSpec.quota in Hsize.
  destruct Hname as [[Hname HC]|[Hname HC]].
  - unfold EvalUtils.add_mask. rewrite !decide_True by done.
    destruct (add_mask_quota_counts EvalUtils.cora_num_val_nodes
                EvalUtils.cora_num_test_nodes g Y gen Hoh Hrows)
      as (g' & gen' & train & val & test & Hrun & Hm & Hq).
    { intros y Hy. apply quota_tables_cora. lia. }
    assert (∀ y nv nt, y < 7 →
              EvalUtils.cora_num_val_nodes !! y = Some nv →
              EvalUtils.cora_num_test_nodes !! y = Some nt →
              MaskSpec.class_count Y train y = 20
              ∧ MaskSpec.class_count Y val y = nv
              ∧ MaskSpec.class_count Y test y = nt) as Hexact.
    { intros y nv nt Hy Hv Ht. rewrite <- HC in Hy.
      assert (20 + nv + nt ≤ length (MaskSpec.class_members Y y)) as Hle.
      { apply (Hsize y 20 nv nt Hy). rewrite decide_True by done.
        rewrite Hv. cbn [mbind option_bind]. rewrite Ht. reflexivity. }
      destruct (Hq y nv nt Hy Hv Ht) as (-> & -> & ->). lia. }
    destruct (add_mask_quota_same_edges _ _ _ _ _ _ _ Hrun) as [HN _].
    pose proof Hm as (_ & _ & _ & Hl1 & Hl2 & Hl3).
    exists g', gen', train, val, test.
    split_and!; [exact Hrun|exact Hm|..];
      (rewrite (count_true_by_class Y) by first [exact Hoh|congruence]);
      rewrite HC; cbn [seq sum_list_with];
      pose proof (Hexact 0 61 130 ltac:(lia) eq_refl eq_refl) as (Ha & Hb & Hc);
      rewrite ?Ha, ?Hb, ?Hc; clear Ha Hb Hc;
      pose proof (Hexact 1 36 91 ltac:(lia) eq_refl eq_refl) as (Ha & Hb & Hc);
      rewrite ?Ha, ?Hb, ?Hc; clear Ha Hb Hc;
      pose proof (Hexact 2 78 144 ltac:(lia) eq_refl eq_refl) as (Ha & Hb & Hc);
      rewrite ?Ha, ?Hb, ?Hc; clear Ha Hb Hc;
      pose proof (Hexact 3 158 319 ltac:(lia) eq_refl eq_refl) as (Ha & Hb & Hc);
      rewrite ?Ha, ?Hb, ?Hc; clear Ha Hb Hc;
      pose proof (Hexact 4 81 149 ltac:(lia) eq_refl eq_refl) as (Ha & Hb & Hc);
      rewrite ?Ha, ?Hb, ?Hc; clear Ha Hb Hc;
      pose proof (Hexact 5 57 103 ltac:(lia) eq_refl eq_refl) as (Ha & Hb & Hc);
      rewrite ?Ha, ?Hb, ?Hc; clear Ha Hb Hc;
      pose proof (Hexact 6 29 64 ltac:(lia) eq_refl eq_refl) as (Ha & Hb & Hc);
      rewrite ?Ha, ?Hb, ?Hc; clear Ha Hb Hc;
      reflexivity.
  - assert (EvalUtils.data_name self ≠ "cora") as Hn
      by (rewrite Hname; discriminate).
    unfold EvalUtils.add_mask.
    rewrite (decide_False (P := EvalUtils.data_name self = "cora")) by done.
    rewrite !decide_True by done.
    destruct (add_mask_quota_counts EvalUtils.citeseer_num_val_nodes
                EvalUtils.citeseer_num_test_nodes g Y gen Hoh Hrows)
      as (g' & gen' & train & val & test & Hrun & Hm & Hq).
    { intros y Hy. apply quota_tables_citeseer. lia. }
    assert (∀ y nv nt, y < 6 →
              EvalUtils.citeseer_num_val_nodes !! y = Some nv →
              EvalUtils.citeseer_num_test_nodes !! y = Some nt →
              MaskSpec.class_count Y train y = 20
              ∧ MaskSpec.class_count Y val y = nv
              ∧ MaskSpec.class_count Y test y = nt) as Hexact.
    { intros y nv nt Hy Hv Ht. rewrite <- HC in Hy.
      assert (20 + nv + nt ≤ length (MaskSpec.class_members Y y)) as Hle.
      { apply (Hsize y 20 nv nt Hy).
        rewrite (decide_False (P := EvalUtils.data_name self = "cora")) by done.
        rewrite decide_True by done.
        rewrite Hv. cbn [mbind option_bind]. rewrite Ht. reflexivity. }
      destruct (Hq y nv nt Hy Hv Ht) as (-> & -> & ->). lia. }
    destruct (add_mask_quota_same_edges _ _ _ _ _ _ _ Hrun) as [HN _].
    pose proof Hm as (_ & _ & _ & Hl1 & Hl2 & Hl3).
    exists g', gen', train, val, test.
    split_and!; [exact Hrun|exact Hm|..];
      (rewrite (count_true_by_class Y) by first [exact Hoh|congruence]);
      rewrite HC; cbn [seq sum_list_with];
      pose proof (Hexact 0 29 77 ltac:(lia) eq_refl eq_refl) as (Ha & Hb & Hc);
      rewrite ?Ha, ?Hb, ?Hc; clear Ha Hb Hc;
      pose proof (Hexact 1 86 182 ltac:(lia) eq_refl eq_refl) as (Ha & Hb & Hc);
      rewrite ?Ha, ?Hb, ?Hc; clear Ha Hb Hc;
      pose proof (Hexact 2 116 181 ltac:(lia) eq_refl eq_refl) as (Ha & Hb & Hc);
      rewrite ?Ha, ?Hb, ?Hc; clear Ha Hb Hc;
      pose proof (Hexact 3 106 231 ltac:(lia) eq_refl eq_refl) as (Ha & Hb & Hc);
      rewrite ?Ha, ?Hb, ?Hc; clear Ha Hb Hc;
      pose proof (Hexact 4 94 169 ltac:(lia) eq_refl eq_refl) as (Ha & Hb & Hc);
      rewrite ?Ha, ?Hb, ?Hc; clear Ha Hb Hc;
      pose proof (Hexact 5 69 160 ltac:(lia) eq_refl eq_refl) as (Ha & Hb & Hc);
      rewrite ?Ha, ?Hb, ?Hc; clear Ha Hb Hc;
      reflexivity.
Qed.

Lemma add_mask_planetoid_split_sizes_witness :
  ∃ g' gen' train val test,
    EvalUtils.add_mask {| EvalUtils.data_name := "cora"; EvalUtils.edge_limit := 0 |}
      cora_sized_graph cora_sized_labels (0 : nat) = (Py.Ok g', gen')
    ∧ MaskSpec.has_masks g' train val test
    ∧ Torch.count_true train = 20 * Torch.t2_cols cora_sized_labels
    ∧ Torch.count_true val = 500
    ∧ Torch.count_true test = 1000.
Proof.
  apply (add_mask_planetoid_split_sizes
           {| EvalUtils.data_name := "cora"; EvalUtils.edge_limit := 0 |}
           cora_sized_graph cora_sized_labels (0 : nat)).
  - apply one_hot_labels_one_hot. unfold cora_sized_classes.
    repeat (apply Forall_app; split); apply Forall_replicate; lia.
  - vm_compute. reflexivity.
  - left. split; reflexivity.
  - intros y a b c Hy Hquota.
    do 7 (destruct y as [|y];
          [vm_compute in Hquota |- *; injection Hquota as <- <- <-;
           vm_compute; repeat constructor|]).
    simpl in Hy. lia.
Defined.

(** ** The size of a sample, and when the constructor samples *)

Section sample_size.
Import Float Torch EvalUtils GraphSpec.
Context `{Generator G}.

Lemma NoDup_nonzero2_from (A : list (list tfloat)) (k : nat) :
  NoDup (mjoin (imap (λ i row, (λ j, (k + i, j)) <$> nonzero (to_bool row)) A)).
Proof.
  revert k. induction A as [|row A IH]; intros k; [constructor|].
  rewrite imap_cons. cbn [mjoin list_join]. apply NoDup_app. split_and!.
  - apply NoDup_fmap_2; [by intros a b [= ->]|apply NoDup_nonzero].
  - intros [i j] Hin Hin'.
    apply list_elem_of_fmap in Hin as (j' & [= -> ->] & _).
    apply list_elem_of_join in Hin' as (l & Hin' & Hl).
    apply elem_of_lookup_imap in Hl as (i' & row' & -> & _).
    apply list_elem_of_fmap in Hin' as (j'' & [= Hk _] & _). simpl in Hk. lia.
  - specialize (IH (S k)).
    erewrite imap_ext; [exact IH|]. intros i row' _. simpl.
    apply list_fmap_ext. intros _ j _. f_equal. lia.
Qed.

Lemma NoDup_nonzero2 (A : list (list tfloat)) : NoDup (nonzero2 A).
Proof. apply (NoDup_nonzero2_from A 0). Qed.

Lemma remove_dups_of_NoDup {A} `{EqDecision A} (l : list A) :
  NoDup l → remove_dups l = l.
Proof.
  induction 1 as [|a l Hnot _ IH]; [reflexivity|]. cbn [remove_dups].
  destruct (decide_rel elem_of a l); [done|by rewrite IH].
Qed.

(** The candidates of a sample are the graph's upper edges. *)
Lemma upper_candidates (g : Dgl.DGLGraph) :
  Dgl.graph_wf g →
  nonzero2 (triu (Dgl.adj_dense g) 1) ≡ₚ upper_edges g.
Proof.
  intros Hwf. apply NoDup_Permutation.
  - apply NoDup_nonzero2.
  - apply NoDup_remove_dups.
  - intros [i j]. rewrite elem_of_upper_edges. unfold upper_edges.
    rewrite elem_of_remove_dups, list_elem_of_filter. cbn [fst snd].
    split; [tauto|]. intros [Hij Hin]. split_and!; [done| |done].
    unfold Dgl.graph_wf in Hwf. rewrite Forall_forall in Hwf.
    by destruct (Hwf _ Hin) as [_ Hj].
Qed.

Lemma sample_subg_selection (self : Evaluator) (g : Dgl.DGLGraph) (gen : G) :
  let cand := nonzero2 (triu (Dgl.adj_dense g) 1) in
  let sel := (λ i, cand !!! i)
               <$> Py.slice (randperm (length cand) gen).1 0 (edge_limit self / 2) in
  sample_subg self g gen
  = (Py.Ok (Dgl.to_bidirected (Dgl.Graph (Dgl.num_nodes g) sel ∅)),
     (randperm (length cand) gen).2)
  ∧ NoDup sel
  ∧ length sel = Nat.min (edge_limit self / 2) (length cand)
  ∧ Forall (λ e : nat * nat,
              e.1 < e.2 ∧ e.2 < Dgl.num_nodes g ∧ e ∈ Dgl.edge_list g) sel.
Proof.
  intros cand sel.
  set (indices := Py.slice (randperm (length cand) gen).1 0 (edge_limit self / 2)).
  assert (Forall (λ i, i < length cand) indices) as Hidx.
  { apply Forall_forall. intros i Hi. unfold indices, Py.slice in Hi.
    apply subseteq_take in Hi. rewrite drop_0 in Hi.
    pose proof (randperm_bound (length cand) gen) as Hb.
    rewrite Forall_forall in Hb. by apply Hb. }
  assert (Forall (λ e : nat * nat,
                    e.1 < e.2 ∧ e.2 < Dgl.num_nodes g ∧ e ∈ Dgl.edge_list g) sel)
    as Hsel.
  { apply Forall_fmap, Forall_forall. intros i Hi. simpl.
    rewrite Forall_forall in Hidx. specialize (Hidx i Hi).
    apply list_lookup_lookup_total_lt in Hidx.
    apply list_elem_of_lookup_2 in Hidx.
    destruct (cand !!! i) as [u v]. by apply elem_of_upper_edges in Hidx. }
  split_and!.
  - unfold sample_subg. fold cand.
    rewrite (M_bind_eval _ _ _ _ _ (torch_randperm_eval _ _)).
    fold indices. rewrite (index_select_total cand indices Hidx).
    cbv beta iota delta [lift mbind M_bind mret M_ret].
    rewrite graph_returns; [reflexivity|].
    eapply Forall_impl; [exact Hsel|]. simpl. intros e He. lia.
  - apply NoDup_fmap_2_strong.
    + intros i j Hi Hj Heq. rewrite Forall_forall in Hidx.
      pose proof (list_lookup_lookup_total_lt cand i (Hidx i Hi)) as Hli.
      pose proof (list_lookup_lookup_total_lt cand j (Hidx j Hj)) as Hlj.
      rewrite Heq in Hli.
      exact (NoDup_lookup cand i j _ (NoDup_nonzero2 _) Hli Hlj).
    + unfold indices. apply NoDup_slice.
      rewrite (randperm_perm (length cand) gen). apply NoDup_seq.
  - unfold sel. rewrite length_fmap. unfold Py.slice.
    rewrite length_take, drop_0.
    rewrite (randperm_perm (length cand) gen), length_seq. lia.
  - exact Hsel.
Qed.

Lemma bidirected_upper_size (n : nat) (sel : list (nat * nat)) :
  NoDup sel → Forall (λ e : nat * nat, e.1 < e.2) sel →
  Dgl.num_edges (Dgl.to_bidirected (Dgl.Graph n sel ∅)) = 2 * length sel.
Proof.
  intros Hnd Hup. unfold Dgl.num_edges. rewrite bidirected_edges. cbn [Dgl.edge_list].
  rewrite remove_dups_of_NoDup; [rewrite length_app, length_fmap; lia|].
  apply NoDup_app. split_and!.
  - done.
  - intros [u v] Hin Hin'. rewrite Forall_forall in Hup.
    apply list_elem_of_fmap in Hin' as ([a b] & [= -> ->] & Hin').
    apply Hup in Hin, Hin'. simpl in *. lia.
  - apply NoDup_fmap_2; [|done]. by intros [a b] [c d] [= -> ->].
Qed.

Lemma elem_of_bidirected (n : nat) (sel : list (nat * nat)) (nd : gmap string (list bool))
    (u v : nat) :
  (u, v) ∈ Dgl.edge_list (Dgl.to_bidirected (Dgl.Graph n sel nd))
  ↔ (u, v) ∈ sel ∨ (v, u) ∈ sel.
Proof.
  rewrite bidirected_edges. cbn [Dgl.edge_list].
  rewrite elem_of_remove_dups, elem_of_app, list_elem_of_fmap.
  split; (intros [Hin|Hin]; [by left|right]).
  - by destruct Hin as ([a b] & [= -> ->] & Hin).
  - by exists (v, u).
Qed.

End sample_size.

(** X11. Sampling never fails on a graph of dgl.  The sample has exactly
    twice as many directed edges as pairs were drawn -
    [min(edge_limit // 2, number of distinct edges (i, j) with i < j)] -
    so edges stored only from the higher to the lower node id are never
    candidates.  Every edge of the sample joins two distinct nodes that
    the graph joins in one direction or the other; the sample keeps the
    node set and carries no node data, so none of the split masks. *)
Theorem sample_subg_size_and_edges `{Torch.Generator G}
    (self : EvalUtils.Evaluator) (g : Dgl.DGLGraph) (gen : G) :
  Dgl.graph_wf g →
  ∃ sub gen',
    EvalUtils.sample_subg self g gen = (Py.Ok sub, gen')
    ∧ Dgl.num_edges sub
      = 2 * Nat.min (EvalUtils.edge_limit self / 2) (length (GraphSpec.upper_edges g))
    ∧ (∀ u v, (u, v) ∈ Dgl.edge_list sub →
         u ≠ v ∧ ((u, v) ∈ Dgl.edge_list g ∨ (v, u) ∈ Dgl.edge_list g))
    ∧ Dgl.num_nodes sub = Dgl.num_nodes g
    ∧ Dgl.ndata sub = ∅
    ∧ Dgl.graph_wf sub.
Proof.
  intros Hwf.
  destruct (sample_subg_selection self g gen) as (Hrun & Hnd & Hlen & Hsel).
  eexists _, _. split; [exact Hrun|].
  assert (∀ u v, (u, v) ∈ Dgl.edge_list (Dgl.to_bidirected
                     (Dgl.Graph (Dgl.num_nodes g)
                        ((λ i, Torch.nonzero2 (Torch.triu (Dgl.adj_dense g) 1) !!! i)
                           <$> Py.slice
                                 (Torch.randperm
                                    (length (Torch.nonzero2
                                               (Torch.triu (Dgl.adj_dense g) 1))) gen).1
                                 0 (EvalUtils.edge_limit self / 2)) ∅)) →
            u ≠ v ∧ u < Dgl.num_nodes g ∧ v < Dgl.num_nodes g
            ∧ ((u, v) ∈ Dgl.edge_list g ∨ (v, u) ∈ Dgl.edge_list g)) as Hedges.
  { intros u v Hin. apply elem_of_bidirected in Hin.
    rewrite Forall_forall in Hsel.
    destruct Hin as [Hin|Hin]; apply Hsel in Hin; simpl in Hin;
      (split_and!; [lia|lia|lia|tauto]). }
  split_and!.
  - rewrite bidirected_upper_size; [|done|].
    + by rewrite Hlen, (upper_candidates g Hwf).
    + eapply Forall_impl; [exact Hsel|]. simpl. tauto.
  - intros u v Hin. apply Hedges in Hin. tauto.
  - reflexivity.
  - reflexivity.
  - apply Forall_forall. intros [u v] Hin. apply Hedges in Hin. simpl. tauto.
Qed.

Lemma sample_subg_size_and_edges_witness :
  Dgl.graph_wf two_pairs_graph
  ∧ ∃ sub gen',
      EvalUtils.sample_subg
        {| EvalUtils.data_name := "cora"; EvalUtils.edge_limit := 2 |}
        two_pairs_graph (0 : nat) = (Py.Ok sub, gen')
      ∧ Dgl.num_edges sub
        = 2 * Nat.min (2 / 2) (length (GraphSpec.upper_edges two_pairs_graph))
      ∧ (∀ u v, (u, v) ∈ Dgl.edge_list sub →
           u ≠ v ∧ ((u, v) ∈ Dgl.edge_list two_pairs_graph
                    ∨ (v, u) ∈ Dgl.edge_list two_pairs_graph))
      ∧ Dgl.num_nodes sub = Dgl.num_nodes two_pairs_graph
      ∧ Dgl.ndata sub = ∅
      ∧ Dgl.graph_wf sub.
Proof.
  assert (Dgl.graph_wf two_pairs_graph) as Hwf
    by (unfold Dgl.graph_wf, two_pairs_graph; simpl; repeat constructor).
  split; [exact Hwf|].
  exact (sample_subg_size_and_edges
           {| EvalUtils.data_name := "cora"; EvalUtils.edge_limit := 2 |}
           two_pairs_graph (0 : nat) Hwf).
Defined.

(** X12. The constructor samples exactly when the real graph has more
    than 20000 edges: with at most 20000 the statistics graph is the graph
    itself (with its masks, for the benchmarks); with more it is a sample
    of at most 20000 directed edges without node data.  For every name
    other than the two benchmarks - cora and citeseer included - the graph
    is left as it was given, no mask is attached, and with at most 20000
    edges no random number is drawn.  The triangle count kept is that of
    the statistics graph, so of the sample when there is one. *)
Theorem init_samples_above_20000_edges `{Torch.Generator G}
    (name : string) (g : Dgl.DGLGraph) (X : Torch.tensor3) (Y : Torch.tensor2)
    (gen gen' : G) (self : EvalUtils.Evaluator) (pp : EvalUtils.preprocessed) :
  EvalUtils.init name g X Y gen = (Py.Ok (self, pp), gen') →
  (Dgl.num_edges g ≤ 20000 → EvalUtils.pp_dgl_subg pp = EvalUtils.pp_dgl_g pp)
  ∧ (20000 < Dgl.num_edges g →
     Dgl.num_edges (EvalUtils.pp_dgl_subg pp) ≤ 20000
     ∧ Dgl.ndata (EvalUtils.pp_dgl_subg pp) = ∅
     ∧ ∃ gen1, EvalUtils.sample_subg self (EvalUtils.pp_dgl_g pp) gen1
               = (Py.Ok (EvalUtils.pp_dgl_subg pp), gen'))
  ∧ (name ∉ ["amazon_photo"; "amazon_computer"] →
     EvalUtils.pp_dgl_g pp = g
     ∧ (Dgl.num_edges g ≤ 20000 → gen' = gen))
  ∧ EvalUtils.pp_triangle_count pp
    = EvalUtils.get_triangle_count (Nx.of_dgl (EvalUtils.pp_dgl_subg pp)).
Proof.
  intros Hinit. unfold EvalUtils.init in Hinit.
  apply M_bind_Ok in Hinit as (flag & gen0 & Hflag & Hinit).
  apply M_bind_Ok in Hinit as (pp' & gen2 & Hpp & Hret).
  injection Hret as <- <- <-.
  apply preprocess_g_parts in Hpp as (gen1 & Hmask & Hsub & _ & _ & _ & Htri).
  assert (Dgl.num_edges (EvalUtils.pp_dgl_g pp') = Dgl.num_edges g) as HE.
  { destruct flag.
    - apply add_mask_same_edges in Hmask as [_ HE]. unfold Dgl.num_edges. by rewrite HE.
    - by injection Hmask as <- _. }
  unfold EvalUtils.choose_subg in Hsub. cbn [EvalUtils.edge_limit] in Hsub.
  rewrite HE in Hsub.
  split_and!.
  - intros Hsmall. rewrite decide_False in Hsub by lia. by injection Hsub as <- _.
  - intros Hbig. rewrite decide_True in Hsub by lia.
    destruct (sample_subg_returns
                {| EvalUtils.data_name := name;
                   EvalUtils.edge_limit := Nat.min (Dgl.num_edges g) 20000 |}
                (EvalUtils.pp_dgl_g pp') gen1) as (sel & Hrun & Hlen & _).
    cbn [EvalUtils.edge_limit] in Hlen.
    pose proof Hsub as Hsub'. rewrite Hrun in Hsub'. injection Hsub' as Heq _.
    split_and!.
    + rewrite <- Heq. unfold Dgl.num_edges. rewrite bidirected_edges. cbn [Dgl.edge_list].
      etransitivity; [apply length_remove_dups_le|].
      rewrite length_app, length_fmap.
      pose proof (Nat.div_mod_eq (Nat.min (Dgl.num_edges g) 20000) 2). lia.
    + by rewrite <- Heq.
    + by exists gen1.
  - intros Hname. rewrite decide_False in Hflag by done.
    injection Hflag as <- <-. injection Hmask as Hg <-. split; [done|].
    intros Hsmall. rewrite decide_False in Hsub by lia. by injection Hsub as _ <-.
  - exact Htri.
Qed.

Lemma init_samples_above_20000_edges_witness :
  ∃ self pp gen',
    EvalUtils.init "cora" two_pairs_graph two_pairs_attributes two_pairs_labels (5 : nat)
    = (Py.Ok (self, pp), gen')
    ∧ (Dgl.num_edges two_pairs_graph ≤ 20000 →
       EvalUtils.pp_dgl_subg pp = EvalUtils.pp_dgl_g pp)
    ∧ (20000 < Dgl.num_edges two_pairs_graph →
       Dgl.num_edges (EvalUtils.pp_dgl_subg pp) ≤ 20000
       ∧ Dgl.ndata (EvalUtils.pp_dgl_subg pp) = ∅
       ∧ ∃ gen1, EvalUtils.sample_subg self (EvalUtils.pp_dgl_g pp) gen1
                 = (Py.Ok (EvalUtils.pp_dgl_subg pp), gen'))
    ∧ ("cora" ∉ ["amazon_photo"; "amazon_computer"] →
       EvalUtils.pp_dgl_g pp = two_pairs_graph
       ∧ (Dgl.num_edges two_pairs_graph ≤ 20000 → gen' = 5))
    ∧ EvalUtils.pp_triangle_count pp
      = EvalUtils.get_triangle_count (Nx.of_dgl (EvalUtils.pp_dgl_subg pp)).
Proof.
  destruct (EvalUtils.init "cora" two_pairs_graph two_pairs_attributes
              two_pairs_labels (5 : nat)) as [[[self pp]|e] gen'] eqn:Hinit.
  - exists self, pp, gen'. split; [reflexivity|].
    exact (init_samples_above_20000_edges "cora" two_pairs_graph two_pairs_attributes
             two_pairs_labels 5 gen' self pp Hinit).
  - exfalso. vm_compute in Hinit. discriminate Hinit.
Defined.

(** ** The batches of one epoch *)

Section chunks_facts.
Import TrainAsync.

Lemma chunks_nil {A} (fuel n : nat) : chunks fuel n ([] : list A) = [].
Proof. by destruct fuel. Qed.

Lemma join_chunks {A} (fuel n : nat) (l : list A) :
  0 < n → length l ≤ fuel → mjoin (chunks fuel n l) = l.
Proof.
  intros Hn. revert l. induction fuel as [|fuel IH]; intros l Hl.
  - destruct l; [reflexivity|simpl in Hl; lia].
  - destruct l as [|a l]; [reflexivity|].
    cbn [chunks mjoin list_join]. rewrite IH; [apply take_drop|].
    rewrite length_drop. simpl in *. lia.
Qed.

Lemma chunks_sizes {A} (fuel n : nat) (l : list A) :
  0 < n → length l ≤ fuel →
  Forall (λ b, 0 < length b ≤ n) (chunks fuel n l)
  ∧ ∀ i b, chunks fuel n l !! i = Some b →
           S i < length (chunks fuel n l) → length b = n.
Proof.
  intros Hn. revert l. induction fuel as [|fuel IH]; intros l Hl.
  - destruct l; [|simpl in Hl; lia]. split; [constructor|]. intros i b Hi. done.
  - destruct l as [|a l]; [split; [constructor|]; intros i b Hi; done|].
    destruct (IH (drop n (a :: l))) as [Hall Hfull].
    { rewrite length_drop. simpl in *. lia. }
    cbn [chunks]. split.
    + constructor; [|exact Hall]. rewrite length_take. simpl. lia.
    + intros [|i] b Hi Hlast.
      * injection Hi as <-. rewrite length_take.
        cbn [length] in Hlast.
        destruct (drop n (a :: l)) as [|c rest] eqn:Hdrop.
        { rewrite chunks_nil in Hlast. simpl in Hlast. lia. }
        assert (length (drop n (a :: l)) ≠ 0) as Hne by (by rewrite Hdrop).
        rewrite length_drop in Hne. lia.
      * cbn [lookup list_lookup] in Hi. apply (Hfull i b Hi).
        cbn [length] in Hlast. lia.
Qed.

Lemma length_chunks {A} (fuel n : nat) (l : list A) :
  0 < n → length l ≤ fuel →
  length (chunks fuel n l) = (length l + n - 1) / n.
Proof.
  intros Hn. revert l. induction fuel as [|fuel IH]; intros l Hl.
  - destruct l; [|simpl in Hl; lia]. simpl.
    symmetry. apply Nat.div_small. lia.
  - destruct l as [|a l].
    { simpl. symmetry. apply Nat.div_small. lia. }
    cbn [chunks length]. rewrite IH by (rewrite length_drop; simpl in *; lia).
    rewrite length_drop.
    set (m := length (a :: l)). assert (0 < m) as Hm by (unfold m; simpl; lia).
    change (S (length l)) with m.
    destruct (decide (m ≤ n)) as [Hle|Hgt].
    + replace (m - n) with 0 by lia.
      rewrite (Nat.div_small (0 + n - 1)) by lia.
      apply (Nat.div_unique _ _ 1 (m - 1)); lia.
    + replace (m + n - 1) with ((m - n + n - 1) + 1 * n) by lia.
      rewrite Nat.div_add by lia. lia.
Qed.

End chunks_facts.

Section loader_facts.
Import Float Torch TrainAsync.
Context `{Generator G}.

Lemma loader_batches_shuffles (edge_index : list (nat * nat)) (bs : nat) (gen : G) :
  ∃ shuffled gen',
    loader_batches edge_index bs gen
    = (Py.Ok (chunks (length edge_index) bs shuffled), gen')
    ∧ shuffled ≡ₚ edge_index.
Proof.
  unfold loader_batches.
  rewrite (M_bind_eval _ _ _ _ _ (torch_randperm_eval _ _)).
  unfold lift at 1.
  rewrite (index_select_total edge_index _ (randperm_bound _ gen)).
  cbv beta iota delta [mbind M_bind mret M_ret].
  eexists _, _. split; [reflexivity|].
  apply gather_permutation, randperm_perm.
Qed.

Lemma data_loader_shuffles (edge_index : list (nat * nat)) (bs : nat) (gen : G) :
  edge_index ≠ [] → 0 < bs →
  ∃ shuffled gen',
    data_loader edge_index bs gen
    = (Py.Ok (chunks (length edge_index) bs shuffled), gen')
    ∧ shuffled ≡ₚ edge_index.
Proof.
  intros Hne Hbs. unfold data_loader.
  rewrite (DataLoader_returns edge_index bs true) by done.
  apply loader_batches_shuffles.
Qed.

Lemma upper_pairs_nonempty (N : nat) : 2 ≤ N → upper_pairs N ≠ [].
Proof.
  intros HN Hnil.
  assert ((0, 1) ∈ upper_pairs N) as Hin by (apply elem_of_upper_pairs; lia).
  rewrite Hnil in Hin. by apply elem_of_nil in Hin.
Qed.

End loader_facts.

(** X13. On a graph of [N >= 2] nodes and for a positive batch size, one
    pass over the training loader of [main] yields mini-batches that are
    never empty and never longer than [batch_size]; all but the last hold
    exactly [batch_size] pairs (no batch is dropped), so an epoch has
    [ceil((N(N-1)/2) / batch_size)] mini-batches. *)
Theorem data_loader_partitions_edge_index `{Torch.Generator G}
    (N batch_size : nat) (gen : G) :
  2 ≤ N → 0 < batch_size →
  ∃ edge_index batches gen',
    TrainAsync.edge_index N = Py.Ok edge_index
    ∧ length edge_index = N * (N - 1) / 2
    ∧ TrainAsync.data_loader edge_index batch_size gen = (Py.Ok batches, gen')
    ∧ mjoin batches ≡ₚ edge_index
    ∧ Forall (λ b, 0 < length b ≤ batch_size) batches
    ∧ (∀ i b, batches !! i = Some b → S i < length batches → length b = batch_size)
    ∧ length batches = (N * (N - 1) / 2 + batch_size - 1) / batch_size.
Proof.
  intros HN Hbs.
  pose proof (upper_pairs_nonempty N HN) as Hne.
  destruct (data_loader_shuffles (TrainAsync.upper_pairs N) batch_size gen Hne Hbs)
    as (shuffled & gen' & Hrun & Hperm).
  assert (length shuffled = length (TrainAsync.upper_pairs N)) as Hlen
    by (by rewrite Hperm).
  destruct (chunks_sizes (length (TrainAsync.upper_pairs N)) batch_size shuffled Hbs)
    as [Hall Hfull]; [lia|].
  exists (TrainAsync.upper_pairs N). eexists _, gen'. split_and!.
  - apply edge_index_upper.
  - apply length_upper_pairs.
  - exact Hrun.
  - rewrite join_chunks by lia. exact Hperm.
  - exact Hall.
  - exact Hfull.
  - rewrite length_chunks by lia. by rewrite Hlen, length_upper_pairs.
Qed.

Lemma data_loader_partitions_edge_index_witness :
  ∃ edge_index batches gen',
    TrainAsync.edge_index 3 = Py.Ok edge_index
    ∧ length edge_index = 3 * (3 - 1) / 2
    ∧ TrainAsync.data_loader edge_index 2 (0 : nat) = (Py.Ok batches, gen')
    ∧ mjoin batches ≡ₚ edge_index
    ∧ Forall (λ b, 0 < length b ≤ 2) batches
    ∧ (∀ i b, batches !! i = Some b → S i < length batches → length b = 2)
    ∧ length batches = (3 * (3 - 1) / 2 + 2 - 1) / 2.
Proof. apply (data_loader_partitions_edge_index 3 2 (0 : nat)); lia. Defined.

(** X14. Over one epoch of [main] on a graph of [N >= 2] nodes the model is
    shown every unordered pair of distinct nodes exactly once: the
    mini-batches together are a rearrangement of the pairs [(i, j)],
    [i < j < N]; in every mini-batch the first column, which [main] names
    [batch_dst], holds the lower node id and the second, [batch_src], the
    higher one. *)
Theorem epoch_presents_each_pair_once `{Torch.Generator G}
    (N batch_size : nat) (gen : G) :
  2 ≤ N → 0 < batch_size →
  ∃ edge_index batches gen',
    TrainAsync.edge_index N = Py.Ok edge_index
    ∧ TrainAsync.data_loader edge_index batch_size gen = (Py.Ok batches, gen')
    ∧ mjoin batches ≡ₚ TrainAsync.upper_pairs N
    ∧ NoDup (mjoin batches)
    ∧ (∀ i j, i < j → j < N → ∃ b, b ∈ batches ∧ (i, j) ∈ b)
    ∧ Forall (λ b : list (nat * nat),
                Forall2 (λ batch_dst batch_src, batch_dst < batch_src ∧ batch_src < N)
                        b.*1 b.*2) batches.
Proof.
  intros HN Hbs.
  destruct (data_loader_shuffles (TrainAsync.upper_pairs N) batch_size gen
              (upper_pairs_nonempty N HN) Hbs)
    as (shuffled & gen' & Hrun & Hshuffled).
  assert (mjoin (TrainAsync.chunks (length (TrainAsync.upper_pairs N)) batch_size
                   shuffled) ≡ₚ TrainAsync.upper_pairs N) as Hperm.
  { rewrite join_chunks; [done..|]. by rewrite Hshuffled. }
  set (batches := TrainAsync.chunks _ batch_size shuffled) in *.
  exists (TrainAsync.upper_pairs N), batches, gen'. split_and!.
  - apply edge_index_upper.
  - exact Hrun.
  - exact Hperm.
  - rewrite Hperm. apply row_major_sorted_NoDup.
    apply (upper_rows_sorted (seq 0 N) N), seq_sorted.
  - intros i j Hij HjN.
    assert ((i, j) ∈ mjoin batches) as Hin
      by (rewrite Hperm; by apply elem_of_upper_pairs).
    apply list_elem_of_join in Hin as (b & Hin & Hb). eauto.
  - apply Forall_forall. intros b Hb.
    apply Forall2_fmap, Forall2_same_length_lookup. split; [done|].
    intros k p q Hp Hq. rewrite Hp in Hq. injection Hq as <-.
    assert (p ∈ mjoin batches) as Hin.
    { apply list_elem_of_join. exists b. split; [|done]. by eapply list_elem_of_lookup_2. }
    rewrite Hperm in Hin. destruct p as [i j].
    by apply elem_of_upper_pairs in Hin.
Qed.

Lemma epoch_presents_each_pair_once_witness :
  2 ≤ 3 ∧ 0 < 2
  ∧ ∃ edge_index batches gen',
      TrainAsync.edge_index 3 = Py.Ok edge_index
      ∧ TrainAsync.data_loader edge_index 2 (0 : nat) = (Py.Ok batches, gen')
      ∧ mjoin batches ≡ₚ TrainAsync.upper_pairs 3
      ∧ NoDup (mjoin batches)
      ∧ (∀ i j, i < j → j < 3 → ∃ b, b ∈ batches ∧ (i, j) ∈ b)
      ∧ Forall (λ b : list (nat * nat),
                  Forall2 (λ batch_dst batch_src, batch_dst < batch_src ∧ batch_src < 3)
                          b.*1 b.*2) batches.
Proof.
  split; [lia|]. split; [lia|].
  apply (epoch_presents_each_pair_once 3 2 (0 : nat)); lia.
Defined.

(** X20. [main] builds its two loaders before the loop.  On a graph with
    less than two nodes the edge index is empty and the shuffling training
    loader refuses it; a batch size of zero, of either loader, is refused
    too.  In each case [main] ends with a [ValueError]: no epoch runs and
    nothing is drawn from the generator. *)
Theorem main_loop_refuses_bad_loader `{TrainAsync.Externals} `{Torch.Generator G}
    (cfg : TrainAsync.train_config) (N : nat) (st : TrainAsync.train_state)
    (gen : G) :
  N < 2 ∨ TrainAsync.batch_size cfg = 0 ∨ TrainAsync.val_batch_size cfg = 0 →
  ∃ edge_index msg,
    TrainAsync.edge_index N = Py.Ok edge_index
    ∧ (N < 2 → edge_index = [])
    ∧ TrainAsync.build_loaders cfg edge_index = Py.Raise (Py.ValueError msg)
    ∧ TrainAsync.main_loop cfg edge_index st gen = (Py.Raise (Py.ValueError msg), gen).
Proof.
  intros Hbad.
  assert (N < 2 → TrainAsync.upper_pairs N = []) as Hnil.
  { intros HN. apply nil_length_inv. rewrite length_upper_pairs.
    destruct N as [|[|N]]; [reflexivity|reflexivity|lia]. }
  assert (∃ msg, TrainAsync.build_loaders cfg (TrainAsync.upper_pairs N)
                 = Py.Raise (Py.ValueError msg)) as [msg Hbuild].
  { unfold TrainAsync.build_loaders, TrainAsync.DataLoader.
    destruct (decide (true = true ∧ TrainAsync.upper_pairs N = [])) as [_|Hne];
      [by eexists|].
    destruct (decide (TrainAsync.batch_size cfg = 0)) as [_|Hbs]; [by eexists|].
    cbn. rewrite decide_False by (by intros [? _]).
    rewrite decide_True; [by eexists|].
    destruct Hbad as [HN|[Hb|Hv]]; [|done|done].
    destruct Hne. split; [done|by apply Hnil]. }
  exists (TrainAsync.upper_pairs N), msg. split_and!.
  - apply edge_index_upper.
  - exact Hnil.
  - exact Hbuild.
  - unfold TrainAsync.main_loop.
    apply M_bind_raise. unfold Torch.lift. by rewrite Hbuild.
Qed.

(** X15. The gradients a mini-batch clips and steps with are those of this
    mini-batch alone: after the two [zero_grad] calls and the backward pass,
    every parameter of either predictor holds the gradient of
    [loss_X + loss_E] with respect to it and nothing left over from earlier
    mini-batches, and its value is unchanged.  A parameter of neither
    optimizer is not reset: its gradient keeps accumulating. *)
Theorem backward_after_zero_grad_is_fresh `{TrainAsync.Externals}
    (cfg : TrainAsync.train_config) (loss_X loss_E : TrainAsync.loss)
    (st : TrainAsync.train_state) :
  TrainAsync.opt_params (TrainAsync.optimizer_X st) = TrainAsync.pred_X_parameters →
  TrainAsync.opt_params (TrainAsync.optimizer_E st) = TrainAsync.pred_E_parameters →
  take 3 TrainAsync.batch_stmts
  = [TrainAsync.ZeroGrad_X; TrainAsync.ZeroGrad_E; TrainAsync.Backward]
  ∧ (∀ name p,
       name ∈ TrainAsync.pred_X_parameters ++ TrainAsync.pred_E_parameters →
       TrainAsync.params st !! name = Some p →
       TrainAsync.params
         (foldl (TrainAsync.exec cfg loss_X loss_E) st (take 3 TrainAsync.batch_stmts))
         !! name
       = Some (TrainAsync.Param (TrainAsync.data p)
                 (TrainAsync.add_grad (TrainAsync.grad_fn loss_X name)
                    (TrainAsync.grad_fn loss_E name))))
  ∧ (∀ name p,
       name ∉ TrainAsync.pred_X_parameters ++ TrainAsync.pred_E_parameters →
       TrainAsync.params st !! name = Some p →
       TrainAsync.params
         (foldl (TrainAsync.exec cfg loss_X loss_E) st (take 3 TrainAsync.batch_stmts))
         !! name
       = Some (TrainAsync.Param (TrainAsync.data p)
                 (TrainAsync.add_grad (TrainAsync.grad p)
                    (TrainAsync.add_grad (TrainAsync.grad_fn loss_X name)
                       (TrainAsync.grad_fn loss_E name))))).
Proof.
  intros HoX HoE. split; [reflexivity|].
  cbn [take TrainAsync.batch_stmts foldl TrainAsync.exec TrainAsync.set_params
       TrainAsync.params TrainAsync.optimizer_X TrainAsync.optimizer_E].
  rewrite HoX, HoE. split.
  - intros name p Hin Hp. rewrite backward_lookup.
    rewrite (zero_grads_lookup _ _ _ name p Hin Hp). reflexivity.
  - intros name p Hnot Hp. apply not_elem_of_app in Hnot as [HX HE].
    rewrite backward_lookup, !zero_grad_frame by done. by rewrite Hp.
Qed.

(** X16. The two streams are updated independently: the predictors sharing
    no parameter, clipping stream E before stream X, or stepping optimizer E
    before optimizer X, leaves the training state exactly as the order of
    [main] does. *)
Theorem stream_updates_commute `{TrainAsync.Externals}
    (cfg : TrainAsync.train_config) (loss_X loss_E : TrainAsync.loss)
    (st : TrainAsync.train_state) :
  (∀ name, name ∈ TrainAsync.pred_X_parameters → name ∉ TrainAsync.pred_E_parameters) →
  TrainAsync.opt_params (TrainAsync.optimizer_X st) = TrainAsync.pred_X_parameters →
  TrainAsync.opt_params (TrainAsync.optimizer_E st) = TrainAsync.pred_E_parameters →
  foldl (TrainAsync.exec cfg loss_X loss_E) st [TrainAsync.Clip_E; TrainAsync.Clip_X]
  = foldl (TrainAsync.exec cfg loss_X loss_E) st [TrainAsync.Clip_X; TrainAsync.Clip_E]
  ∧ foldl (TrainAsync.exec cfg loss_X loss_E) st [TrainAsync.Step_E; TrainAsync.Step_X]
    = foldl (TrainAsync.exec cfg loss_X loss_E) st [TrainAsync.Step_X; TrainAsync.Step_E].
Proof.
  intros Hdisj HoX HoE. split.
  - cbn [foldl TrainAsync.exec TrainAsync.set_params TrainAsync.params
         TrainAsync.training TrainAsync.optimizer_X TrainAsync.optimizer_E
         TrainAsync.best_X TrainAsync.best_E TrainAsync.num_patient_epochs
         TrainAsync.wandb_log].
    f_equal. symmetry. by apply clips_commute.
  - cbn [foldl]. rewrite !exec_Step_X_eq, !exec_Step_E_eq.
    cbn [TrainAsync.params TrainAsync.training TrainAsync.optimizer_X
         TrainAsync.optimizer_E TrainAsync.best_X TrainAsync.best_E
         TrainAsync.num_patient_epochs TrainAsync.wandb_log].
    destruct (steps_commute (TrainAsync.optimizer_X st) (TrainAsync.optimizer_E st)
                (TrainAsync.params st)) as (Hp & HX & HE).
    { rewrite HoX, HoE. exact Hdisj. }
    by rewrite Hp, HX, HE.
Qed.


(** X18. What a mini-batch does to a parameter of stream X, the two
    predictors sharing no parameter and each parameter named once: its
    gradient is that of [loss_X + loss_E] for this mini-batch, scaled by the
    clipping factor of stream X (computed from the fresh gradients of stream
    X alone); its value is what AdamW makes of the old value, that gradient
    and the optimizer's state for it.  A parameter the losses do not depend
    on is left without gradient and unchanged. *)
Theorem train_batch_updates_stream_X `{TrainAsync.Externals}
    (cfg : TrainAsync.train_config) (st : TrainAsync.train_state)
    (batch : list (nat * nat)) (name : string) (p : TrainAsync.param) :
  (∀ name, name ∈ TrainAsync.pred_X_parameters → name ∉ TrainAsync.pred_E_parameters) →
  NoDup TrainAsync.pred_X_parameters →
  TrainAsync.opt_params (TrainAsync.optimizer_X st) = TrainAsync.pred_X_parameters →
  TrainAsync.opt_params (TrainAsync.optimizer_E st) = TrainAsync.pred_E_parameters →
  name ∈ TrainAsync.pred_X_parameters →
  TrainAsync.params st !! name = Some p →
  ∃ coef : Float.tfloat,
    coef
    = TrainAsync.clip_coef TrainAsync.pred_X_parameters (TrainAsync.max_grad_norm cfg)
        (TrainAsync.params
           (foldl (TrainAsync.exec cfg (TrainAsync.batch_losses st batch).1
                     (TrainAsync.batch_losses st batch).2)
                  st (take 3 TrainAsync.batch_stmts)))
    ∧ TrainAsync.params (TrainAsync.train_batch cfg st batch) !! name
      = match TrainAsync.add_grad
                (TrainAsync.grad_fn (TrainAsync.batch_losses st batch).1 name)
                (TrainAsync.grad_fn (TrainAsync.batch_losses st batch).2 name) with
        | Some g =>
            Some (TrainAsync.Param
                    (TrainAsync.adamw
                       (TrainAsync.opt_hyper (TrainAsync.optimizer_X st))
                       (TrainAsync.opt_state (TrainAsync.optimizer_X st) !! name)
                       (TrainAsync.data p) (Float.fmul coef <$> g)).2
                    (Some (Float.fmul coef <$> g)))
        | None => Some (TrainAsync.Param (TrainAsync.data p) None)
        end.
Proof.
  intros Hdisj Hnd HoX HoE Hname Hp. eexists. split; [reflexivity|].
  rewrite train_batch_params. cbv zeta.
  cbn [take TrainAsync.batch_stmts foldl TrainAsync.exec TrainAsync.set_params
       TrainAsync.params TrainAsync.optimizer_X TrainAsync.optimizer_E].
  set (loss_X := (TrainAsync.batch_losses st batch).1).
  set (loss_E := (TrainAsync.batch_losses st batch).2).
  set (s3 := TrainAsync.backward _ _).
  assert (s3 !! name
          = Some (TrainAsync.Param (TrainAsync.data p)
                    (TrainAsync.add_grad (TrainAsync.grad_fn loss_X name)
                       (TrainAsync.grad_fn loss_E name)))) as H3.
  { unfold s3. rewrite backward_lookup, HoX, HoE.
    rewrite (zero_grads_lookup _ _ _ name p); [reflexivity| |done].
    apply elem_of_app. by left. }
  rewrite step_frame by (rewrite HoE; by apply Hdisj).
  rewrite step_lookup by (by rewrite HoX).
  rewrite clip_grad_norm_frame by (by apply Hdisj).
  rewrite clip_grad_norm_lookup by done. rewrite H3.
  cbn [fmap option_fmap option_map TrainAsync.data TrainAsync.grad].
  by destruct (TrainAsync.add_grad _ _).
Qed.

Section toy_extras.
#[local] Existing Instance ToyModel.externals.

Lemma backward_after_zero_grad_is_fresh_witness :
  take 3 TrainAsync.batch_stmts
  = [TrainAsync.ZeroGrad_X; TrainAsync.ZeroGrad_E; TrainAsync.Backward]
  ∧ (∀ name p,
       name ∈ TrainAsync.pred_X_parameters ++ TrainAsync.pred_E_parameters →
       TrainAsync.params ToyModel.state0 !! name = Some p →
       TrainAsync.params
         (foldl (TrainAsync.exec ToyModel.config
                   (TrainAsync.batch_losses ToyModel.state0 [(0, 1)]).1
                   (TrainAsync.batch_losses ToyModel.state0 [(0, 1)]).2)
                ToyModel.state0 (take 3 TrainAsync.batch_stmts))
         !! name
       = Some (TrainAsync.Param (TrainAsync.data p)
                 (TrainAsync.add_grad
                    (TrainAsync.grad_fn
                       (TrainAsync.batch_losses ToyModel.state0 [(0, 1)]).1 name)
                    (TrainAsync.grad_fn
                       (TrainAsync.batch_losses ToyModel.state0 [(0, 1)]).2 name))))
  ∧ (∀ name p,
       name ∉ TrainAsync.pred_X_parameters ++ TrainAsync.pred_E_parameters →
       TrainAsync.params ToyModel.state0 !! name = Some p →
       TrainAsync.params
         (foldl (TrainAsync.exec ToyModel.config
                   (TrainAsync.batch_losses ToyModel.state0 [(0, 1)]).1
                   (TrainAsync.batch_losses ToyModel.state0 [(0, 1)]).2)
                ToyModel.state0 (take 3 TrainAsync.batch_stmts))
         !! name
       = Some (TrainAsync.Param (TrainAsync.data p)
                 (TrainAsync.add_grad (TrainAsync.grad p)
                    (TrainAsync.add_grad
                       (TrainAsync.grad_fn
                          (TrainAsync.batch_losses ToyModel.state0 [(0, 1)]).1 name)
                       (TrainAsync.grad_fn
                          (TrainAsync.batch_losses ToyModel.state0 [(0, 1)]).2 name))))).
Proof.
  apply (backward_after_zero_grad_is_fresh ToyModel.config
           (TrainAsync.batch_losses ToyModel.state0 [(0, 1)]).1
           (TrainAsync.batch_losses ToyModel.state0 [(0, 1)]).2 ToyModel.state0);
    reflexivity.
Defined.

Lemma stream_updates_commute_witness :
  foldl (TrainAsync.exec ToyModel.config ToyModel.loss_X ToyModel.loss_E)
        ToyModel.after_backward [TrainAsync.Clip_E; TrainAsync.Clip_X]
  = foldl (TrainAsync.exec ToyModel.config ToyModel.loss_X ToyModel.loss_E)
          ToyModel.after_backward [TrainAsync.Clip_X; TrainAsync.Clip_E]
  ∧ foldl (TrainAsync.exec ToyModel.config ToyModel.loss_X ToyModel.loss_E)
          ToyModel.after_backward [TrainAsync.Step_E; TrainAsync.Step_X]
    = foldl (TrainAsync.exec ToyModel.config ToyModel.loss_X ToyModel.loss_E)
            ToyModel.after_backward [TrainAsync.Step_X; TrainAsync.Step_E].
Proof.
  apply (stream_updates_commute ToyModel.config ToyModel.loss_X ToyModel.loss_E
           ToyModel.after_backward).
  - intros name Hname Hin.
    apply list_elem_of_singleton in Hname as ->.
    apply list_elem_of_singleton in Hin. discriminate Hin.
  - reflexivity.
  - reflexivity.
Defined.

(** In that state both streams hold a gradient, [1] and [3]; the clipping of
    stream E scales its gradient down and leaves that of stream X, and each
    step moves the value of its own stream only. *)
Example toy_after_backward_updates :
  TrainAsync.params ToyModel.after_backward !! "pred_X.weight"
  = Some (TrainAsync.Param [Float.zero] (Some [Float.one]))
  ∧ TrainAsync.params ToyModel.after_backward !! "pred_E.weight"
    = Some (TrainAsync.Param [Float.zero] (Some [Float.of_nat 3]))
  ∧ TrainAsync.params
      (TrainAsync.exec ToyModel.config ToyModel.loss_X ToyModel.loss_E
         ToyModel.after_backward TrainAsync.Clip_E) !! "pred_E.weight"
    = Some (TrainAsync.Param [Float.zero]
              (Some [Float.Fin (Q2Qc (6000000 # 3000001))]))
  ∧ TrainAsync.params
      (TrainAsync.exec ToyModel.config ToyModel.loss_X ToyModel.loss_E
         ToyModel.after_backward TrainAsync.Clip_E) !! "pred_X.weight"
    = TrainAsync.params ToyModel.after_backward !! "pred_X.weight"
  ∧ TrainAsync.params
      (TrainAsync.exec ToyModel.config ToyModel.loss_X ToyModel.loss_E
         ToyModel.after_backward TrainAsync.Step_X) !! "pred_X.weight"
    = Some (TrainAsync.Param [Float.Fin (-1)%Qc] (Some [Float.one]))
  ∧ TrainAsync.params
      (TrainAsync.exec ToyModel.config ToyModel.loss_X ToyModel.loss_E
         ToyModel.after_backward TrainAsync.Step_X) !! "pred_E.weight"
    = TrainAsync.params ToyModel.after_backward !! "pred_E.weight".
Proof. split_and!; apply (bool_decide_unpack _); vm_compute; exact I. Qed.


(** The factor of stream E in that state: the cap 2 over the norm 3 (plus
    [1e-6]). *)
Example toy_clip_coef_E :
  TrainAsync.clip_coef TrainAsync.pred_E_parameters
    (TrainAsync.max_grad_norm ToyModel.config)
    (TrainAsync.params ToyModel.after_backward)
  = Float.Fin (Q2Qc (2000000 # 3000001)).
Proof. apply (bool_decide_unpack _). vm_compute. exact I. Qed.

Lemma main_loop_refuses_bad_loader_witness :
  ∃ edge_index msg,
    TrainAsync.edge_index 1 = Py.Ok edge_index
    ∧ (1 < 2 → edge_index = [])
    ∧ TrainAsync.build_loaders ToyModel.config edge_index
      = Py.Raise (Py.ValueError msg)
    ∧ TrainAsync.main_loop ToyModel.config edge_index
        ToyModel.state0 (0 : nat)
      = (Py.Raise (Py.ValueError msg), 0).
Proof.
  apply (main_loop_refuses_bad_loader ToyModel.config 1
           ToyModel.state0 (0 : nat)).
  left. lia.
Defined.

Lemma train_batch_updates_stream_X_witness :
  ∃ coef : Float.tfloat,
    coef
    = TrainAsync.clip_coef TrainAsync.pred_X_parameters
        (TrainAsync.max_grad_norm ToyModel.config)
        (TrainAsync.params
           (foldl (TrainAsync.exec ToyModel.config
                     (TrainAsync.batch_losses ToyModel.state0 [(0, 1); (0, 2)]).1
                     (TrainAsync.batch_losses ToyModel.state0 [(0, 1); (0, 2)]).2)
                  ToyModel.state0 (take 3 TrainAsync.batch_stmts)))
    ∧ TrainAsync.params
        (TrainAsync.train_batch ToyModel.config ToyModel.state0 [(0, 1); (0, 2)])
        !! "pred_X.weight"
      = match TrainAsync.add_grad
                (TrainAsync.grad_fn
                   (TrainAsync.batch_losses ToyModel.state0 [(0, 1); (0, 2)]).1
                   "pred_X.weight")
                (TrainAsync.grad_fn
                   (TrainAsync.batch_losses ToyModel.state0 [(0, 1); (0, 2)]).2
                   "pred_X.weight") with
        | Some g =>
            Some (TrainAsync.Param
                    (TrainAsync.adamw
                       (TrainAsync.opt_hyper (TrainAsync.optimizer_X ToyModel.state0))
                       (TrainAsync.opt_state (TrainAsync.optimizer_X ToyModel.state0)
                          !! "pred_X.weight")
                       (TrainAsync.data (TrainAsync.Param [Float.zero] None))
                       (Float.fmul coef <$> g)).2
                    (Some (Float.fmul coef <$> g)))
        | None =>
            Some (TrainAsync.Param
                    (TrainAsync.data (TrainAsync.Param [Float.zero] None)) None)
        end.
Proof.
  apply (train_batch_updates_stream_X ToyModel.config ToyModel.state0
           [(0, 1); (0, 2)] "pred_X.weight" (TrainAsync.Param [Float.zero] None)).
  - intros name Hname Hin.
    apply list_elem_of_singleton in Hname as ->.
    apply list_elem_of_singleton in Hin. discriminate Hin.
  - apply NoDup_singleton.
  - reflexivity.
  - reflexivity.
  - apply list_elem_of_singleton. reflexivity.
  - reflexivity.
Defined.

End toy_extras.

(** ** The attributes with one row per node *)

Section x2d_facts.
Import Float Torch TrainAsync.

Lemma length_join_same {A} (n : nat) (ls : list (list A)) :
  Forall (λ l, length l = n) ls → length (mjoin ls) = length ls * n.
Proof.
  induction 1 as [|l ls Hl _ IH]; [reflexivity|].
  change (mjoin (l :: ls)) with (l ++ mjoin ls).
  rewrite length_app, IH, Hl. cbn [length]. lia.
Qed.

Lemma transpose01_slice (t : tensor3) (v : nat) :
  tensor3_wf t → v < t3_size1 t →
  transpose01 t !! v = Some ((λ m : list (list tfloat), m !!! v) <$> t3_data t)
  ∧ Forall (λ row, length row = t3_size2 t)
           ((λ m : list (list tfloat), m !!! v) <$> t3_data t).
Proof.
  intros Hwf Hv. split.
  - unfold transpose01. by rewrite list_lookup_fmap, lookup_seq_lt.
  - apply Forall_fmap. eapply Forall_impl; [exact Hwf|].
    intros m [Hm Hrows]. simpl.
    rewrite Forall_forall in Hrows. apply Hrows.
    apply list_elem_of_lookup. exists v.
    apply list_lookup_lookup_total_lt. lia.
Qed.

End x2d_facts.

(** X19. [X_one_hot_2d] has one row per node, of length [F * C] for [F]
    attributes one-hot encoded over [C] values ([C] is 2 in [main]), and
    column [f * C + c] of the row of node [v] holds [X_one_hot_3d[f, v, c]]:
    the encodings of a node's attributes lie side by side.  For a graph
    without nodes the reshape fails. *)
Theorem X_one_hot_2d_layout (X_one_hot_3d : Torch.tensor3) :
  Torch.tensor3_wf X_one_hot_3d →
  (Torch.t3_size1 X_one_hot_3d = 0 →
   TrainAsync.X_one_hot_2d X_one_hot_3d = Py.Raise Py.RuntimeError)
  ∧ (0 < Torch.t3_size1 X_one_hot_3d →
     ∃ X2 : list (list Float.tfloat),
       TrainAsync.X_one_hot_2d X_one_hot_3d = Py.Ok X2
       ∧ length X2 = Torch.t3_size1 X_one_hot_3d
       ∧ Forall (λ row, length row
                        = length (Torch.t3_data X_one_hot_3d)
                          * Torch.t3_size2 X_one_hot_3d) X2
       ∧ ∀ f v c m row x,
           Torch.t3_data X_one_hot_3d !! f = Some m →
           m !! v = Some row → row !! c = Some x →
           ∃ row2, X2 !! v = Some row2
                   ∧ row2 !! (f * Torch.t3_size2 X_one_hot_3d + c) = Some x).
Proof.
  intros Hwf. unfold TrainAsync.X_one_hot_2d, Torch.reshape_rows. split.
  - intros HV. unfold Torch.transpose01. rewrite HV. reflexivity.
  - intros HV.
    rewrite decide_False.
    2:{ intros Hnil. apply (f_equal length) in Hnil.
        unfold Torch.transpose01 in Hnil.
        rewrite length_fmap, length_seq in Hnil. simpl in Hnil. lia. }
    eexists. split; [reflexivity|]. split_and!.
    + unfold Torch.transpose01. by rewrite !length_fmap, length_seq.
    + apply Forall_fmap, Forall_forall. intros sl Hsl. simpl.
      apply list_elem_of_lookup in Hsl as [v Hsl].
      assert (v < Torch.t3_size1 X_one_hot_3d) as Hv.
      { apply lookup_lt_Some in Hsl. unfold Torch.transpose01 in Hsl.
        by rewrite length_fmap, length_seq in Hsl. }
      destruct (transpose01_slice X_one_hot_3d v Hwf Hv) as [Hslice Hlen].
      rewrite Hslice in Hsl. injection Hsl as <-.
      rewrite (length_join_same _ _ Hlen). by rewrite length_fmap.
    + intros f v c m row x Hm Hrow Hx.
      pose proof Hwf as Hwf'. unfold Torch.tensor3_wf in Hwf'.
      rewrite Forall_forall in Hwf'.
      destruct (Hwf' m) as [Hlenm Hrows]; [by eapply list_elem_of_lookup_2|].
      assert (v < Torch.t3_size1 X_one_hot_3d) as Hv.
      { rewrite <- Hlenm. by eapply lookup_lt_Some. }
      assert (length row = Torch.t3_size2 X_one_hot_3d) as Hlenrow.
      { rewrite Forall_forall in Hrows. apply Hrows.
        by eapply list_elem_of_lookup_2. }
      destruct (transpose01_slice X_one_hot_3d v Hwf Hv) as [Hslice Hlen].
      eexists. split.
      * rewrite list_lookup_fmap, Hslice. reflexivity.
      * simpl. apply (join_lookup_Some_same_length' _ _ _ _ _ Hlen).
        { rewrite <- Hlenrow. by eapply lookup_lt_Some. }
        exists row. split; [|done].
        rewrite list_lookup_fmap, Hm. simpl.
        by rewrite (list_lookup_total_correct _ _ _ Hrow).
Qed.

Lemma X_one_hot_2d_layout_witness :
  (Torch.t3_size1 two_pairs_attributes = 0 →
   TrainAsync.X_one_hot_2d two_pairs_attributes = Py.Raise Py.RuntimeError)
  ∧ (0 < Torch.t3_size1 two_pairs_attributes →
     ∃ X2 : list (list Float.tfloat),
       TrainAsync.X_one_hot_2d two_pairs_attributes = Py.Ok X2
       ∧ length X2 = Torch.t3_size1 two_pairs_attributes
       ∧ Forall (λ row, length row
                        = length (Torch.t3_data two_pairs_attributes)
                          * Torch.t3_size2 two_pairs_attributes) X2
       ∧ ∀ f v c m row x,
           Torch.t3_data two_pairs_attributes !! f = Some m →
           m !! v = Some row → row !! c = Some x →
           ∃ row2, X2 !! v = Some row2
                   ∧ row2 !! (f * Torch.t3_size2 two_pairs_attributes + c) = Some x).
Proof.
  apply (X_one_hot_2d_layout two_pairs_attributes).
  unfold Torch.tensor3_wf, two_pairs_attributes. cbn [Torch.t3_data Torch.t3_size1 Torch.t3_size2].
  repeat constructor.
Defined.
